(** * GB_AxB_saxpy3: a shallow embedding of Source/GB_AxB_saxpy3.c

    The development follows the C file top-down: the control parameters,
    [GB_hash_table_size], [GB_create_coarse_task], and then the phases of
    [GB_AxB_saxpy3] (mask decision, task partitioning, workspace
    allocation, kernel dispatch).  It ends with the semiring macros of a
    generated worker, Source/Generated/GB_AxB__times_rdiv_fp32.c.

    Conventions.  [int64_t] values are integers of [Z]; where the C code
    shifts, the 64-bit wrap-around is written out with [int64_wrap].
    [double] values ([chunk], [target_task_size], [jflops], the control
    parameters [GB_COSTLY], [GB_MWORK_ALPHA], ...) are exact rationals of
    [Q]: rounding of binary64 arithmetic is not modelled.  C arrays that
    are only read are functions [Z -> Z]; arrays that are written by index
    ([TaskList]) are lists updated through stdpp's insert. *)

From Stdlib Require Import ZArith QArith Qround Lia.
From stdpp Require Import base list functions gmap sorting.

Local Open Scope Z_scope.

(** ** Enumerations of GraphBLAS.h used by this file *)

Inductive GrB_Info : Set :=
  | GrB_SUCCESS
  | GrB_NO_VALUE
  | GrB_UNINITIALIZED_OBJECT
  | GrB_INVALID_OBJECT
  | GrB_NULL_POINTER
  | GrB_INVALID_VALUE
  | GrB_INVALID_INDEX
  | GrB_DOMAIN_MISMATCH
  | GrB_DIMENSION_MISMATCH
  | GrB_OUTPUT_NOT_EMPTY
  | GrB_OUT_OF_MEMORY
  | GrB_INSUFFICIENT_SPACE
  | GrB_INDEX_OUT_OF_BOUNDS
  | GrB_PANIC.

#[global] Instance GrB_Info_eq_dec : EqDecision GrB_Info.
Proof. solve_decision. Defined.

(** The values of [GrB_Desc_Value] that can reach [AxB_method]. *)
Inductive GrB_Desc_Value : Set :=
  | GxB_DEFAULT
  | GxB_AxB_GUSTAVSON
  | GxB_AxB_DOT
  | GxB_AxB_HASH
  | GxB_AxB_SAXPY.

#[global] Instance GrB_Desc_Value_eq_dec : EqDecision GrB_Desc_Value.
Proof. solve_decision. Defined.

(** ** Machine integers *)

(** The value an [int64_t] holds after an operation whose mathematical
    result is [z] (two's complement wrap-around). *)
Definition int64_wrap (z : Z) : Z := (z + 2 ^ 63) mod 2 ^ 64 - 2 ^ 63.

Lemma int64_wrap_small z : - 2 ^ 63 <= z < 2 ^ 63 -> int64_wrap z = z.
Proof.
  intros Hz. unfold int64_wrap. rewrite Z.mod_small; lia.
Qed.

(** [GB_IMAX] of GB_imin.h. *)
Definition GB_IMAX (x y : Z) : Z := if y <? x then x else y.

Lemma GB_IMAX_max x y : GB_IMAX x y = Z.max x y.
Proof. unfold GB_IMAX. destruct (Z.ltb_spec y x); lia. Qed.

(** ** Control parameters for generating parallel tasks *)

Definition GB_NTASKS_PER_THREAD : Z := 2.
Definition GB_COSTLY : Q := 12 # 10.
Definition GB_FINE_WORK : Q := 2 # 1.
Definition GB_MWORK_ALPHA : Q := 1 # 100.
Definition GB_MWORK_BETA : Q := 10 # 100.

(** ** GB_hash_table_size *)

Module HashSize.

(** [floor (log2 ((double) flmax))], cast to [int64_t].  [log2] of zero is
    minus infinity and of a negative number is NaN; the cast of either to
    an integer is undefined, which is [None] here. *)
Definition floor_log2 (flmax : Z) : option Z :=
  if 0 <? flmax then Some (Z.log2 flmax) else None.

Definition use_Gustavson (hash_size cvlen : Z) (AxB_method : GrB_Desc_Value)
  : bool :=
  match AxB_method with
  | GxB_AxB_GUSTAVSON => true
  | GxB_AxB_HASH => bool_decide (cvlen <= hash_size)
  | _ => bool_decide (cvlen ÷ 16 <= hash_size)
  end.

(** The computed size, before the choice of the method:
    [((int64_t) 2) << ((int64_t) floor (hlog) + 1)]. *)
Definition computed_hash_size (flmax : Z) : option Z :=
  hlog ← floor_log2 flmax;
  Some (int64_wrap (Z.shiftl 2 (hlog + 1))).

Definition GB_hash_table_size (flmax cvlen : Z) (AxB_method : GrB_Desc_Value)
  : option Z :=
  hash_size ← computed_hash_size flmax;
  Some (if use_Gustavson hash_size cvlen AxB_method then cvlen else hash_size).

(** The size returned when [log2] is defined. *)
Definition hash_size_of (flmax cvlen : Z) (AxB_method : GrB_Desc_Value) : Z :=
  let hash_size := int64_wrap (Z.shiftl 2 (Z.log2 flmax + 1)) in
  if use_Gustavson hash_size cvlen AxB_method then cvlen else hash_size.

(** The two readings of "power of two next to [n]". *)

(** Smallest power of two that is at least [n] (the wording of the
    interface description). *)
Definition next_power_of_two (n : Z) : Z := 2 ^ Z.log2_up n.

(** Smallest power of two strictly larger than [n] (what the shift
    computes). *)
Definition power_of_two_above (n : Z) : Z := 2 ^ (Z.log2 n + 1).

Definition is_power_of_two (n : Z) : Prop := exists k, 0 <= k /\ n = 2 ^ k.

(** *** Facts about the sizes *)

Lemma GB_hash_table_size_defined flmax cvlen AxB_method :
  1 <= flmax ->
  GB_hash_table_size flmax cvlen AxB_method =
    Some (hash_size_of flmax cvlen AxB_method).
Proof.
  intros Hfl. unfold GB_hash_table_size, computed_hash_size, floor_log2.
  destruct (Z.ltb_spec 0 flmax); [reflexivity|lia].
Qed.

Lemma GB_hash_table_size_undefined flmax cvlen AxB_method :
  flmax <= 0 -> GB_hash_table_size flmax cvlen AxB_method = None.
Proof.
  intros Hfl. unfold GB_hash_table_size, computed_hash_size, floor_log2.
  destruct (Z.ltb_spec 0 flmax); [lia|reflexivity].
Qed.

Lemma power_of_two_above_gt n : 1 <= n -> n < power_of_two_above n.
Proof.
  intros Hn. unfold power_of_two_above.
  replace (Z.log2 n + 1) with (Z.succ (Z.log2 n)) by lia.
  apply Z.log2_spec. lia.
Qed.

Lemma power_of_two_above_least n k :
  1 <= n -> 0 <= k -> n < 2 ^ k -> power_of_two_above n <= 2 ^ k.
Proof.
  intros Hn Hk Hlt. unfold power_of_two_above.
  apply Z.pow_le_mono_r; [lia|].
  assert (Z.log2 n < k); [|lia].
  apply Z.log2_lt_pow2; lia.
Qed.

Lemma power_of_two_above_le_double n :
  1 <= n -> power_of_two_above n <= 2 * n.
Proof.
  intros Hn. unfold power_of_two_above.
  rewrite Z.pow_add_r by (try apply Z.log2_nonneg; lia).
  pose proof (Z.log2_spec n ltac:(lia)) as [Hlo _].
  change (2 ^ 1) with 2. lia.
Qed.

Lemma next_power_of_two_ge n : 1 <= n -> n <= next_power_of_two n.
Proof.
  intros Hn. unfold next_power_of_two.
  destruct (Z.eq_dec n 1) as [->|Hne]; [reflexivity|].
  apply Z.log2_up_spec. lia.
Qed.

Lemma next_power_of_two_le_above n :
  1 <= n -> next_power_of_two n <= power_of_two_above n.
Proof.
  intros Hn. unfold next_power_of_two, power_of_two_above.
  apply Z.pow_le_mono_r; [lia|].
  pose proof (Z.le_log2_up_succ_log2 n). lia.
Qed.

Lemma log2_bound n b : 1 <= n < 2 ^ b -> 0 <= b -> 0 <= Z.log2 n < b.
Proof.
  intros [Hlo Hhi] Hb. split; [apply Z.log2_nonneg|].
  apply Z.log2_lt_pow2; lia.
Qed.

Lemma computed_hash_size_eq flmax :
  1 <= flmax < 2 ^ 61 ->
  computed_hash_size flmax = Some (2 * power_of_two_above flmax).
Proof.
  intros Hfl. unfold computed_hash_size, floor_log2.
  destruct (Z.ltb_spec 0 flmax) as [_|]; [simpl|lia].
  f_equal.
  pose proof (log2_bound flmax 61 Hfl ltac:(lia)) as Hlog.
  rewrite Z.shiftl_mul_pow2 by lia.
  unfold power_of_two_above.
  apply int64_wrap_small.
  assert (2 ^ (Z.log2 flmax + 1) <= 2 ^ 61) by (apply Z.pow_le_mono_r; lia).
  assert (0 < 2 ^ (Z.log2 flmax + 1)) by (apply Z.pow_pos_nonneg; lia).
  lia.
Qed.

Lemma computed_hash_size_ge_4 flmax hs :
  1 <= flmax < 2 ^ 61 -> computed_hash_size flmax = Some hs -> 4 <= hs.
Proof.
  intros Hfl. rewrite computed_hash_size_eq by done. intros [= <-].
  pose proof (power_of_two_above_gt flmax ltac:(lia)). lia.
Qed.

Lemma use_Gustavson_true hs cvlen AxB_method :
  use_Gustavson hs cvlen AxB_method = true <->
  AxB_method = GxB_AxB_GUSTAVSON \/
  (AxB_method = GxB_AxB_HASH /\ cvlen <= hs) \/
  (AxB_method <> GxB_AxB_GUSTAVSON /\ AxB_method <> GxB_AxB_HASH /\
   cvlen ÷ 16 <= hs).
Proof.
  destruct AxB_method; simpl; rewrite ?bool_decide_eq_true;
    intuition (discriminate || congruence).
Qed.

Lemma quot_16_le cvlen : cvlen ÷ 16 <= Z.max cvlen 0.
Proof.
  destruct (Z.le_gt_cases 0 cvlen) as [Hpos|Hneg].
  - rewrite Z.quot_div_nonneg by lia.
    assert (cvlen / 16 <= cvlen) by (apply Z.div_le_upper_bound; lia). lia.
  - replace cvlen with (- - cvlen) at 1 by lia.
    rewrite Z.quot_opp_l by lia.
    rewrite Z.quot_div_nonneg by lia.
    assert (0 <= - cvlen / 16) by (apply Z.div_pos; lia). lia.
Qed.

Lemma use_Gustavson_false_lt hs cvlen AxB_method :
  0 <= hs -> use_Gustavson hs cvlen AxB_method = false -> hs < cvlen.
Proof.
  intros Hhs. pose proof (quot_16_le cvlen).
  destruct AxB_method; simpl; try discriminate;
    rewrite bool_decide_eq_false; lia.
Qed.

Lemma is_power_of_two_above n : 1 <= n -> is_power_of_two (2 * power_of_two_above n).
Proof.
  intros Hn. exists (Z.log2 n + 2). pose proof (Z.log2_nonneg n).
  split; [lia|]. unfold power_of_two_above.
  replace (Z.log2 n + 2) with (1 + (Z.log2 n + 1)) by lia.
  rewrite (Z.pow_add_r 2 1) by lia. reflexivity.
Qed.

(** A size kept for the Hash method is a power of two below [cvlen], at
    least twice the power of two next to [flmax], and more than twice
    [flmax]. *)
Lemma hash_size_of_hash flmax cvlen AxB_method :
  1 <= flmax < 2 ^ 61 ->
  let hs := hash_size_of flmax cvlen AxB_method in
  hs = cvlen \/
  (is_power_of_two hs /\ hs < cvlen
   /\ 2 * next_power_of_two flmax <= hs /\ 2 * flmax < hs).
Proof.
  intros Hfl hs.
  pose proof (computed_hash_size_eq flmax Hfl) as Hc.
  unfold computed_hash_size, floor_log2 in Hc.
  destruct (Z.ltb_spec 0 flmax); [|lia]. simpl in Hc. injection Hc as Hc.
  unfold hs, hash_size_of. rewrite Hc.
  destruct (use_Gustavson _ cvlen AxB_method) eqn:Hg; [by left|right].
  pose proof (power_of_two_above_gt flmax ltac:(lia)).
  pose proof (next_power_of_two_le_above flmax ltac:(lia)).
  apply use_Gustavson_false_lt in Hg; [|lia].
  split; [apply is_power_of_two_above; lia|]. lia.
Qed.




Lemma power_of_two_above_mono n1 n2 :
  1 <= n1 <= n2 -> power_of_two_above n1 <= power_of_two_above n2.
Proof.
  intros Hn. unfold power_of_two_above.
  apply Z.pow_le_mono_r; [lia|].
  pose proof (Z.log2_le_mono n1 n2 ltac:(lia)). lia.
Qed.

Lemma use_Gustavson_mono hs1 hs2 cvlen AxB_method :
  hs1 <= hs2 ->
  use_Gustavson hs1 cvlen AxB_method = true ->
  use_Gustavson hs2 cvlen AxB_method = true.
Proof.
  intros Hhs. destruct AxB_method; simpl; try done;
    rewrite !bool_decide_eq_true; lia.
Qed.



End HashSize.

(** ** Rational comparisons used for the [double] tests *)

Definition Qltb (x y : Q) : bool := negb (Qle_bool y x).

Lemma Qltb_lt x y : Qltb x y = true <-> (x < y)%Q.
Proof.
  unfold Qltb. rewrite negb_true_iff, <- not_true_iff_false, Qle_bool_iff.
  split; [apply Qnot_le_lt|apply Qlt_not_le].
Qed.

(** [GB_IMAX] applied to two doubles. *)
Definition GB_IMAX_Q (x y : Q) : Q := if Qltb y x then x else y.

Lemma GB_IMAX_Q_ge_r x y : (y <= GB_IMAX_Q x y)%Q.
Proof.
  unfold GB_IMAX_Q. destruct (Qltb y x) eqn:H.
  - apply Qlt_le_weak, Qltb_lt, H.
  - apply Qle_refl.
Qed.

Lemma GB_IMAX_Q_ge_l x y : (x <= GB_IMAX_Q x y)%Q.
Proof.
  unfold GB_IMAX_Q. destruct (Qltb y x) eqn:H.
  - apply Qle_refl.
  - apply Qnot_lt_le. intros Hlt. apply Qltb_lt in Hlt. congruence.
Qed.

(** ** The task list: GB_create_coarse_task and phase 0 of GB_AxB_saxpy3 *)

Module Partition.

Import HashSize.

(** [GB_saxpy3task_struct].  The workspace pointers are offsets into the
    shared allocations [Hi_all], [Hf_all], [Hx_all]; [None] is [NULL]. *)
Record GB_saxpy3task_struct : Set := {
  start : Z;
  end_ : Z;
  vector : Z;
  hsize : Z;
  Hi : option Z;
  Hf : option Z;
  Hx : option Z;
  my_cjnz : Z;
  flops : Z;
  leader : Z;
  team_size : Z
}.

(** An entry of [TaskList] as [GB_CALLOC] leaves it. *)
Definition zero_task : GB_saxpy3task_struct :=
  {| start := 0; end_ := 0; vector := 0; hsize := 0;
     Hi := None; Hf := None; Hx := None;
     my_cjnz := 0; flops := 0; leader := 0; team_size := 0 |}.

(** State of the loops that fill [TaskList]: the list itself, the next
    fine task id [nf], the next coarse task id [nc], and the workspace
    [Bflops2]. *)
Record create_state : Type := {
  TaskList : list GB_saxpy3task_struct;
  nf : Z;
  nc : Z;
  Bflops2 : Z -> Z
}.

(** Counters of the first pass. *)
Record task_counts : Set := {
  ncoarse : Z;
  nfine : Z;
  max_bjnz : Z
}.

Section Phase0.

(** *** Inputs *)

(** Cumulative flop counts of the vectors of B (aliasing [Cp]), the
    pointers of B ([NULL] when B is bitmap or full), and the sizes. *)
Variable Bflops : Z -> Z.
Variable Bp : option (Z -> Z).
Variables bvlen bnvec cvlen : Z.
Variable AxB_method : GrB_Desc_Value.
Variable chunk : Q.
Variable nthreads_max : Z.
(** [nthreads = GB_nthreads (total_flops, chunk, nthreads_max)]. *)
Variable nthreads : Z.

(** *** Functions and macros defined outside this file *)

(** [GB_nthreads (work, chunk, nthreads_max)]. *)
Variable GB_nthreads : Z -> Q -> Z -> Z.
(** [GB_PARTITION (istart, iend, n, tid, nth)]. *)
Variable GB_PARTITION : Z -> Z -> Z -> Z * Z.
(** [GB_pslice (&Slice, Work, n, ntasks)]: the slice it writes. *)
Variable GB_pslice : (Z -> Z) -> Z -> Z -> Z -> Z.
(** [GB_cumsum (count, n, NULL, nth)]: the array it leaves. *)
Variable GB_cumsum : (Z -> Z) -> Z -> Z -> Z.
(** [GBP (Bp, k, bvlen)], [GBI (Bi, p, bvlen)] and [GBB (Bb, p)] on B. *)
Variable GBP_B : Z -> Z.
Variable GBI_B : Z -> Z.
Variable GBB_B : Z -> bool.
(** [GB_lookup] on A: the bounds [(pA, pA_end)] of A(:,k). *)
Variable GB_lookup_A : Z -> Z * Z.

(** *** Sizes of the tasks *)

Definition total_flops : Z := Bflops bnvec.

Definition ntasks_initial : Z :=
  if nthreads =? 1 then 1 else GB_NTASKS_PER_THREAD * nthreads.

Definition target_task_size : Q :=
  GB_IMAX_Q (inject_Z total_flops / inject_Z ntasks_initial) chunk.

Definition target_fine_size : Q :=
  GB_IMAX_Q (target_task_size / GB_FINE_WORK) chunk.

(** *** GB_create_coarse_task *)

(** Flop count of one vector. *)
Definition vector_flops (kk : Z) : Z := Bflops (kk + 1) - Bflops kk.

(** The body of the parallel loop: the max flop count thread [tid]
    finds in its share of the [nk] vectors starting at [kfirst]. *)
Definition my_flmax (kfirst nk nth tid : Z) : Z :=
  let '(istart, iend) := GB_PARTITION nk tid nth in
  foldl (fun m i => GB_IMAX m (vector_flops (kfirst + i)))
        1 (seqZ istart (iend - istart)).

(** [Coarse_Work [0..nth-1]] after the parallel loop. *)
Definition Coarse_Work (kfirst nk nth : Z) : list Z :=
  my_flmax kfirst nk nth <$> seqZ 0 nth.

Definition coarse_flmax (kfirst klast : Z) (chunk' : Q) (nthreads_max' : Z)
  : Z :=
  let nk := klast - kfirst + 1 in
  let nth := GB_nthreads nk chunk' nthreads_max' in
  foldl GB_IMAX 1 (Coarse_Work kfirst nk nth).

(** The descriptor written to [TaskList [taskid]]. *)
Definition coarse_task (kfirst klast taskid : Z) (chunk' : Q)
    (nthreads_max' : Z) : option GB_saxpy3task_struct :=
  hs ← GB_hash_table_size (coarse_flmax kfirst klast chunk' nthreads_max')
         cvlen AxB_method;
  Some {| start := kfirst; end_ := klast; vector := -1; hsize := hs;
          Hi := None; Hf := None; Hx := None; my_cjnz := 0;
          flops := Bflops (klast + 1) - Bflops kfirst;
          leader := taskid; team_size := 1 |}.

Definition GB_create_coarse_task (kfirst klast : Z)
    (TL : list GB_saxpy3task_struct) (taskid : Z) (chunk' : Q)
    (nthreads_max' : Z) : option (list GB_saxpy3task_struct) :=
  t ← coarse_task kfirst klast taskid chunk' nthreads_max';
  Some (<[Z.to_nat taskid := t]> TL).

(** *** Tests on the initial coarse tasks and on their vectors *)

Definition Coarse_initial : Z -> Z := GB_pslice Bflops bnvec ntasks_initial.

(** [task_flops > 2 * GB_COSTLY * target_task_size]. *)
Definition too_costly (kfirst klast : Z) : bool :=
  Qltb (2 * GB_COSTLY * target_task_size)
       (inject_Z (Bflops klast - Bflops kfirst)).

(** [bjnz = nnz (B (:,j))]. *)
Definition bjnz_of (kk : Z) : Z :=
  match Bp with
  | None => bvlen
  | Some p => p (kk + 1) - p kk
  end.

(** [jflops > GB_COSTLY * target_task_size && bjnz > 1]. *)
Definition costly_vector (kk : Z) : bool :=
  Qltb (GB_COSTLY * target_task_size) (inject_Z (vector_flops kk))
  && (1 <? bjnz_of kk).

(** [ceil (jflops / target_fine_size)], stored in an [int]. *)
Definition team_size_of (kk : Z) : Z :=
  Qceiling (inject_Z (vector_flops kk) / target_fine_size).

(** *** First pass: the number of tasks *)

Definition incr_ncoarse (c : task_counts) : task_counts :=
  {| ncoarse := ncoarse c + 1; nfine := nfine c; max_bjnz := max_bjnz c |}.

(** One iteration of the loop over the vectors [kk] of a costly initial
    task; the state is [kcoarse_start] and the counters. *)
Definition count_vector (st : Z * task_counts) (kk : Z) : Z * task_counts :=
  let '(kcoarse_start, c) := st in
  if costly_vector kk then
    let c1 := if kcoarse_start <? kk then incr_ncoarse c else c in
    (kk + 1,
     {| ncoarse := ncoarse c1;
        nfine := nfine c1 + team_size_of kk;
        max_bjnz := GB_IMAX (max_bjnz c1) (bjnz_of kk) |})
  else st.

(** One iteration of the loop over the initial coarse tasks. *)
Definition count_initial (c : task_counts) (taskid : Z) : task_counts :=
  let kfirst := Coarse_initial taskid in
  let klast := Coarse_initial (taskid + 1) in
  let task_ncols := klast - kfirst in
  if task_ncols =? 0 then c
  else if too_costly kfirst klast then
    let '(kcoarse_start, c') :=
      foldl count_vector (kfirst, c) (seqZ kfirst (klast - kfirst)) in
    if kcoarse_start <? klast then incr_ncoarse c' else c'
  else incr_ncoarse c.

Definition count_tasks : task_counts :=
  let c0 := {| ncoarse := 0; nfine := 0; max_bjnz := 0 |} in
  if 1 <? ntasks_initial then
    foldl count_initial c0 (seqZ 0 ntasks_initial)
  else if bnvec =? 1 then
    {| ncoarse := 0; nfine := 1; max_bjnz := 0 |}
  else
    {| ncoarse := 1; nfine := 0; max_bjnz := 0 |}.

Definition ntasks : Z := ncoarse count_tasks + nfine count_tasks.

(** *** Second pass: the tasks *)

(** The loop over the entries of B(:,j) that stores in [Bflops2 [s]] the
    flop count of A(:,k)*B(k,j); entries absent from a bitmap are
    skipped and leave [Bflops2 [s]] as it was. *)
Definition entry_flops (pB_start : Z) (w : Z -> Z) (s : Z) : Z -> Z :=
  let pB := pB_start + s in
  let k := GBI_B pB in
  if negb (GBB_B pB) then w
  else
    let '(pA, pA_end) := GB_lookup_A k in
    <[s := pA_end - pA]> w.

(** The descriptor of fine task [fid] of the team of vector [kk]. *)
Definition fine_task (kk pB_start : Z) (Fine_slice w : Z -> Z)
    (hs leader' team : Z) (fid : Z) : GB_saxpy3task_struct :=
  let pstart := Fine_slice fid in
  let pend := Fine_slice (fid + 1) in
  {| start := pB_start + pstart; end_ := pB_start + pend - 1;
     vector := kk; hsize := hs;
     Hi := None; Hf := None; Hx := None; my_cjnz := 0;
     flops := w pend - w pstart;
     leader := leader'; team_size := team |}.

(** [TaskList [nf] = ... ; nf++]. *)
Definition put_fine (t : GB_saxpy3task_struct) (st : create_state)
  : create_state :=
  {| TaskList := <[Z.to_nat (nf st) := t]> (TaskList st);
     nf := nf st + 1; nc := nc st; Bflops2 := Bflops2 st |}.

(** [GB_create_coarse_task (kfirst, klast, TaskList, nc++, ...)]. *)
Definition put_coarse (kfirst klast : Z) (st : create_state)
  : option create_state :=
  TL ← GB_create_coarse_task kfirst klast (TaskList st) (nc st)
         chunk nthreads_max;
  Some {| TaskList := TL; nf := nf st; nc := nc st + 1;
          Bflops2 := Bflops2 st |}.

(** The team of fine tasks of a costly vector [kk]. *)
Definition create_fine_team (kk : Z) (st : create_state)
  : option create_state :=
  let bjnz := bjnz_of kk in
  let pB_start := GBP_B kk in
  let w := foldl (entry_flops pB_start) (Bflops2 st) (seqZ 0 bjnz) in
  let w := GB_cumsum w bjnz in
  let team := team_size_of kk in
  let Fine_slice := GB_pslice w bjnz team in
  hs ← GB_hash_table_size (vector_flops kk) cvlen AxB_method;
  let leader' := nf st in
  let st1 := {| TaskList := TaskList st; nf := nf st; nc := nc st;
                Bflops2 := w |} in
  Some (foldl (fun st' fid =>
                 put_fine (fine_task kk pB_start Fine_slice w hs leader'
                             team fid) st')
              st1 (seqZ 0 team)).

(** One iteration of the loop over the vectors of a costly initial
    task; the state is [kcoarse_start] and the task list. *)
Definition create_vector (ost : option (Z * create_state)) (kk : Z)
  : option (Z * create_state) :=
  '(kcoarse_start, st) ← ost;
  if costly_vector kk then
    st1 ← (if kcoarse_start <? kk
           then put_coarse kcoarse_start (kk - 1) st else Some st);
    st2 ← create_fine_team kk st1;
    Some (kk + 1, st2)
  else Some (kcoarse_start, st).

(** One iteration of the loop over the initial coarse tasks. *)
Definition create_initial (ost : option create_state) (taskid : Z)
  : option create_state :=
  st ← ost;
  let kfirst := Coarse_initial taskid in
  let klast := Coarse_initial (taskid + 1) in
  let task_ncols := klast - kfirst in
  if task_ncols =? 0 then Some st
  else if too_costly kfirst klast then
    '(kcoarse_start, st') ←
      foldl create_vector (Some (kfirst, st)) (seqZ kfirst (klast - kfirst));
    if kcoarse_start <? klast
    then put_coarse kcoarse_start (klast - 1) st' else Some st'
  else put_coarse kfirst (klast - 1) st.

(** The single task of a computation that is not split. *)
Definition create_single (TL : list GB_saxpy3task_struct)
  : option (list GB_saxpy3task_struct) :=
  TL1 ← GB_create_coarse_task 0 (bnvec - 1) TL 0 1 1;
  if bnvec =? 1 then
    Some (alter (fun t =>
            {| start := 0; end_ := GBP_B 1 - 1; vector := 0;
               hsize := hsize t; Hi := Hi t; Hf := Hf t; Hx := Hx t;
               my_cjnz := my_cjnz t; flops := flops t;
               leader := leader t; team_size := team_size t |}) 0%nat TL1)
  else Some TL1.

(** [TaskList] after "create the tasks", from the zeroed allocation of
    [ntasks] entries and the uninitialised workspace [Bflops2_0]. *)
Definition create_tasks (Bflops2_0 : Z -> Z)
  : option (list GB_saxpy3task_struct) :=
  let TL0 := replicate (Z.to_nat ntasks) zero_task in
  if 1 <? ntasks_initial then
    st ← foldl create_initial
           (Some {| TaskList := TL0; nf := 0; nc := nfine count_tasks;
                    Bflops2 := Bflops2_0 |})
           (seqZ 0 ntasks_initial);
    Some (TaskList st)
  else create_single TL0.

(** *** The partition, as the design describes it *)

(** Maximal runs of consecutive vectors that are not split; [cur] is the
    run being extended, as (first, last). *)
Fixpoint coarse_runs (split : Z -> bool) (cols : list Z)
    (cur : option (Z * Z)) : list (Z * Z) :=
  match cols with
  | [] => option_list cur
  | kk :: cols' =>
      if split kk
      then option_list cur ++ coarse_runs split cols' None
      else coarse_runs split cols' (Some (from_option fst kk cur, kk))
  end.

Definition initial_vectors (taskid : Z) : list Z :=
  let kfirst := Coarse_initial taskid in
  let klast := Coarse_initial (taskid + 1) in
  seqZ kfirst (klast - kfirst).

(** An initial coarse task is decomposed when it has vectors and its
    flop count exceeds [2 * GB_COSTLY * target_task_size]. *)
Definition decomposed (taskid : Z) : bool :=
  let kfirst := Coarse_initial taskid in
  let klast := Coarse_initial (taskid + 1) in
  negb (klast - kfirst =? 0) && too_costly kfirst klast.

(** The vectors of an initial coarse task that are split into fine
    tasks. *)
Definition split_vectors (taskid : Z) : list Z :=
  if decomposed taskid
  then filter (fun kk => costly_vector kk = true) (initial_vectors taskid)
  else [].

(** The ranges of vectors of an initial coarse task that become coarse
    tasks. *)
Definition coarse_ranges (taskid : Z) : list (Z * Z) :=
  let kfirst := Coarse_initial taskid in
  let klast := Coarse_initial (taskid + 1) in
  if klast - kfirst =? 0 then []
  else if decomposed taskid
  then coarse_runs costly_vector (initial_vectors taskid) None
  else [(kfirst, klast - 1)].

Definition all_split_vectors : list Z :=
  seqZ 0 ntasks_initial ≫= split_vectors.

Definition all_coarse_ranges : list (Z * Z) :=
  seqZ 0 ntasks_initial ≫= coarse_ranges.

(** The workspace [Bflops2] once the per-entry flop counts of vector
    [kk] are summed. *)
Definition team_workspace (kk : Z) (w : Z -> Z) : Z -> Z :=
  GB_cumsum (foldl (entry_flops (GBP_B kk)) w (seqZ 0 (bjnz_of kk)))
            (bjnz_of kk).

(** The team of a split vector: [team_size_of kk] fine tasks over the
    slices of its entries, led by the first. *)
Definition fine_team (kk : Z) (w : Z -> Z) (leader' : Z)
  : list GB_saxpy3task_struct :=
  let w' := team_workspace kk w in
  let team := team_size_of kk in
  fine_task kk (GBP_B kk) (GB_pslice w' (bjnz_of kk) team) w'
    (hash_size_of (vector_flops kk) cvlen AxB_method) leader' team
  <$> seqZ 0 team.

Fixpoint fine_tasks (vs : list Z) (w : Z -> Z) (leader' : Z)
  : list GB_saxpy3task_struct :=
  match vs with
  | [] => []
  | kk :: vs' =>
      fine_team kk w leader'
      ++ fine_tasks vs' (team_workspace kk w) (leader' + team_size_of kk)
  end.

Definition coarse_of_range (taskid : Z) (r : Z * Z)
  : GB_saxpy3task_struct :=
  {| start := r.1; end_ := r.2; vector := -1;
     hsize := hash_size_of (coarse_flmax r.1 r.2 chunk nthreads_max)
                cvlen AxB_method;
     Hi := None; Hf := None; Hx := None; my_cjnz := 0;
     flops := Bflops (r.2 + 1) - Bflops r.1;
     leader := taskid; team_size := 1 |}.

Fixpoint coarse_tasks (rs : list (Z * Z)) (taskid : Z)
  : list GB_saxpy3task_struct :=
  match rs with
  | [] => []
  | r :: rs' => coarse_of_range taskid r :: coarse_tasks rs' (taskid + 1)
  end.

(** Fine tasks first, then coarse tasks. *)
Definition partition_tasks (Bflops2_0 : Z -> Z)
  : list GB_saxpy3task_struct :=
  let fine := fine_tasks all_split_vectors Bflops2_0 0 in
  fine ++ coarse_tasks all_coarse_ranges (Z.of_nat (length fine)).

(** *** Facts about the sizes *)

Definition team_total (vs : list Z) : Z :=
  foldr (fun kk acc => team_size_of kk + acc) 0 vs.

Definition workspace_after (vs : list Z) (w : Z -> Z) : Z -> Z :=
  foldl (fun w' kk => team_workspace kk w') w vs.

Lemma foldl_GB_IMAX_ge (l : list Z) m : m <= foldl GB_IMAX m l.
Proof.
  revert m. induction l as [|x l IH]; intros m; simpl; [lia|].
  etrans; [|apply IH]. rewrite GB_IMAX_max. lia.
Qed.

Lemma foldl_GB_IMAX_elem (l : list Z) m x :
  x ∈ l -> x <= foldl GB_IMAX m l.
Proof.
  revert m. induction l as [|y l IH]; intros m Hx; [by inversion Hx|].
  simpl. apply elem_of_cons in Hx as [->|Hx]; [|by apply IH].
  etrans; [|apply foldl_GB_IMAX_ge]. rewrite GB_IMAX_max. lia.
Qed.

Lemma foldl_GB_IMAX_le (l : list Z) m b :
  m <= b -> Forall (fun x => x <= b) l -> foldl GB_IMAX m l <= b.
Proof.
  revert m. induction l as [|y l IH]; intros m Hm Hl; simpl; [done|].
  inversion Hl; subst. apply IH; [|done]. rewrite GB_IMAX_max. lia.
Qed.

Lemma foldl_GB_IMAX_le_gen {A} (f : A -> Z) (l : list A) m b :
  m <= b -> (forall x, x ∈ l -> f x <= b) ->
  foldl (fun m' x => GB_IMAX m' (f x)) m l <= b.
Proof.
  revert m. induction l as [|y l IH]; intros m Hm Hl; simpl; [done|].
  apply IH.
  - rewrite GB_IMAX_max. pose proof (Hl y ltac:(left)). lia.
  - intros x Hx. apply Hl. by right.
Qed.

Lemma foldl_GB_IMAX_ge_gen {A} (f : A -> Z) (l : list A) m :
  m <= foldl (fun m' x => GB_IMAX m' (f x)) m l.
Proof.
  revert m. induction l as [|y l IH]; intros m; simpl; [lia|].
  etrans; [|apply IH]. rewrite GB_IMAX_max. lia.
Qed.

Lemma foldl_GB_IMAX_elem_gen {A} (f : A -> Z) (l : list A) m x :
  x ∈ l -> f x <= foldl (fun m' x => GB_IMAX m' (f x)) m l.
Proof.
  revert m. induction l as [|y l IH]; intros m Hx; [by inversion Hx|].
  simpl. apply elem_of_cons in Hx as [->|Hx]; [|by apply IH].
  etrans; [|apply foldl_GB_IMAX_ge_gen]. rewrite GB_IMAX_max. lia.
Qed.

(** The flop bound of a coarse task starts at 1. *)
Lemma coarse_flmax_ge_1 kfirst klast chunk' nthreads_max' :
  1 <= coarse_flmax kfirst klast chunk' nthreads_max'.
Proof. unfold coarse_flmax. apply foldl_GB_IMAX_ge. Qed.

Lemma coarse_task_defined kfirst klast taskid chunk' nthreads_max' :
  coarse_task kfirst klast taskid chunk' nthreads_max' =
  Some {| start := kfirst; end_ := klast; vector := -1;
          hsize := hash_size_of
                     (coarse_flmax kfirst klast chunk' nthreads_max')
                     cvlen AxB_method;
          Hi := None; Hf := None; Hx := None; my_cjnz := 0;
          flops := Bflops (klast + 1) - Bflops kfirst;
          leader := taskid; team_size := 1 |}.
Proof.
  unfold coarse_task.
  rewrite GB_hash_table_size_defined by apply coarse_flmax_ge_1.
  reflexivity.
Qed.

(** A costly vector has at least one flop: the argument of the hash
    sizer at the fine tasks is positive. *)
Lemma costly_vector_flops_target kk :
  (0 <= target_task_size)%Q ->
  costly_vector kk = true -> 1 <= vector_flops kk.
Proof.
  intros Htarget. unfold costly_vector. rewrite andb_true_iff, Qltb_lt.
  intros [Hlt _].
  assert (H0 : (0 < inject_Z (vector_flops kk))%Q).
  { eapply Qle_lt_trans; [|exact Hlt].
    apply Qmult_le_0_compat; done. }
  change 0%Q with (inject_Z 0) in H0. rewrite <- Zlt_Qlt in H0. lia.
Qed.

(** *** Runs of vectors that are not split *)

Definition range_vectors (r : Z * Z) : list Z := seqZ r.1 (r.2 - r.1 + 1).

Definition current_run (ks kk : Z) : option (Z * Z) :=
  if ks <? kk then Some (ks, kk - 1) else None.

Lemma current_run_next ks kk :
  ks <= kk ->
  Some (from_option fst kk (current_run ks kk), kk)
  = current_run ks (kk + 1).
Proof.
  intros Hle. unfold current_run.
  destruct (Z.ltb_spec ks kk), (Z.ltb_spec ks (kk + 1)); simpl;
    try lia; repeat f_equal; lia.
Qed.

Lemma current_run_fresh kk : current_run (kk + 1) (kk + 1) = None.
Proof. unfold current_run. by rewrite Z.ltb_irrefl. Qed.

(** The runs, flattened, are the vectors that are not split, in order. *)
Lemma coarse_runs_flatten (split : Z -> bool) (n : nat) kk ks :
  ks <= kk ->
  concat (range_vectors <$>
            coarse_runs split (seqZ kk (Z.of_nat n)) (current_run ks kk))
  = seqZ ks (kk - ks)
    ++ filter (fun k => split k = false) (seqZ kk (Z.of_nat n)).
Proof.
  revert kk ks. induction n as [|n IH]; intros kk ks Hle.
  - simpl. unfold current_run.
    destruct (Z.ltb_spec ks kk); simpl.
    + unfold range_vectors. simpl. rewrite !app_nil_r. f_equal. lia.
    + by rewrite seqZ_nil by lia.
  - rewrite seqZ_cons by lia.
    replace (Z.pred (Z.of_nat (S n))) with (Z.of_nat n) by lia.
    rewrite filter_cons. cbn [coarse_runs].
    destruct (split kk) eqn:Hs.
    + rewrite decide_False by congruence.
      rewrite fmap_app, concat_app.
      replace (Z.succ kk) with (kk + 1) by lia.
      rewrite <- (current_run_fresh kk), IH by lia.
      replace (kk + 1 - (kk + 1)) with 0 by lia. rewrite seqZ_nil by lia.
      simpl. f_equal. unfold current_run.
      destruct (Z.ltb_spec ks kk); simpl.
      * unfold range_vectors. simpl. rewrite app_nil_r. f_equal. lia.
      * by rewrite seqZ_nil by lia.
    + rewrite decide_True by done.
      rewrite current_run_next by done.
      replace (Z.succ kk) with (kk + 1) by lia.
      rewrite IH by lia.
      replace (kk + 1 - ks) with ((kk - ks) + 1) by lia.
      rewrite seqZ_app by lia. rewrite <- app_assoc. do 2 f_equal.
      replace (ks + (kk - ks)) with kk by lia. done.
Qed.

(** Each run is not empty, starts at the first vector or after a split
    vector, and stops at the last vector or before a split vector. *)
Definition maximal_run (split : Z -> bool) (kfirst klast : Z)
    (r : Z * Z) : Prop :=
  r.1 <= r.2
  /\ (r.1 = kfirst \/ split (r.1 - 1) = true)
  /\ (r.2 + 1 = klast \/ split (r.2 + 1) = true).

Lemma coarse_runs_maximal (split : Z -> bool) kfirst (n : nat) kk ks :
  ks <= kk ->
  ks = kfirst \/ split (ks - 1) = true ->
  Forall (maximal_run split kfirst (kk + Z.of_nat n))
    (coarse_runs split (seqZ kk (Z.of_nat n)) (current_run ks kk)).
Proof.
  revert kk ks. induction n as [|n IH]; intros kk ks Hle Hks.
  - simpl. unfold current_run.
    destruct (Z.ltb_spec ks kk); simpl; [|constructor].
    apply Forall_singleton. unfold maximal_run. simpl.
    split; [lia|]. split; [done|]. left. lia.
  - rewrite seqZ_cons by lia.
    replace (Z.pred (Z.of_nat (S n))) with (Z.of_nat n) by lia.
    replace (kk + Z.of_nat (S n)) with (kk + 1 + Z.of_nat n) by lia.
    replace (Z.succ kk) with (kk + 1) by lia.
    cbn [coarse_runs].
    destruct (split kk) eqn:Hs.
    + apply Forall_app. split.
      * unfold current_run.
        destruct (Z.ltb_spec ks kk); simpl; [|constructor].
        apply Forall_singleton. unfold maximal_run. simpl.
        split; [lia|]. split; [done|].
        right. by replace (kk - 1 + 1) with kk by lia.
      * rewrite <- (current_run_fresh kk). apply IH; [lia|].
        right. by replace (kk + 1 - 1) with kk by lia.
    + rewrite current_run_next by done. apply IH; [lia|done].
Qed.

Section Chunk_positive.

Hypothesis chunk_pos : (0 < chunk)%Q.

Lemma target_task_size_pos : (0 < target_task_size)%Q.
Proof.
  eapply Qlt_le_trans; [exact chunk_pos|apply GB_IMAX_Q_ge_r].
Qed.

Lemma target_fine_size_pos : (0 < target_fine_size)%Q.
Proof.
  eapply Qlt_le_trans; [exact chunk_pos|apply GB_IMAX_Q_ge_r].
Qed.

Lemma costly_vector_flops kk :
  costly_vector kk = true -> 1 <= vector_flops kk.
Proof.
  apply costly_vector_flops_target, Qlt_le_weak, target_task_size_pos.
Qed.

Lemma costly_vector_team kk :
  costly_vector kk = true -> 1 <= team_size_of kk.
Proof.
  intros Hc. apply costly_vector_flops in Hc.
  unfold team_size_of.
  set (x := (inject_Z (vector_flops kk) / target_fine_size)%Q).
  assert (Hx : (0 < x)%Q).
  { unfold x. apply Qlt_shift_div_l; [apply target_fine_size_pos|].
    rewrite Qmult_0_l. change 0%Q with (inject_Z 0).
    rewrite <- Zlt_Qlt. lia. }
  pose proof (Qle_ceiling x) as Hle.
  assert (H0 : (inject_Z 0 < inject_Z (Qceiling x))%Q)
    by (eapply Qlt_le_trans; [exact Hx|exact Hle]).
  rewrite <- Zlt_Qlt in H0. lia.
Qed.

(** "Split it into 2 or more fine tasks": the team of a costly vector has
    at least two tasks. *)
Lemma target_fine_size_le : (target_fine_size <= target_task_size)%Q.
Proof.
  pose proof target_task_size_pos as Hpos.
  unfold target_fine_size, GB_IMAX_Q.
  destruct (Qltb chunk (target_task_size / GB_FINE_WORK)).
  - apply Qle_shift_div_r; [reflexivity|].
    revert Hpos. generalize target_task_size. intros [n d].
    unfold Qlt, Qle, Qmult, GB_FINE_WORK. simpl. lia.
  - apply GB_IMAX_Q_ge_r.
Qed.

Lemma costly_vector_team_two kk :
  costly_vector kk = true -> 2 <= team_size_of kk.
Proof.
  intros Hc. unfold costly_vector in Hc.
  apply andb_true_iff in Hc as [Hc _]. apply Qltb_lt in Hc.
  pose proof target_task_size_pos as Hpos.
  pose proof target_fine_size_pos as Hfpos.
  pose proof target_fine_size_le as Hle.
  assert (Hlt : (target_task_size < inject_Z (vector_flops kk))%Q).
  { eapply Qle_lt_trans; [|exact Hc].
    revert Hpos. generalize target_task_size. intros [n d].
    unfold Qlt, Qle, Qmult, GB_COSTLY. simpl. lia. }
  unfold team_size_of.
  set (x := (inject_Z (vector_flops kk) / target_fine_size)%Q).
  assert (Hx : (1 < x)%Q).
  { unfold x. apply Qlt_shift_div_l; [done|]. rewrite Qmult_1_l.
    eapply Qle_lt_trans; [exact Hle|exact Hlt]. }
  pose proof (Qle_ceiling x) as Hceil.
  assert (H1 : (inject_Z 1 < inject_Z (Qceiling x))%Q)
    by (eapply Qlt_le_trans; [exact Hx|exact Hceil]).
  rewrite <- Zlt_Qlt in H1. lia.
Qed.

(** The team is not larger than the work allows: all tasks but one would
    have [chunk] flops when the work is shared out evenly. *)
Lemma costly_vector_team_chunk kk :
  costly_vector kk = true ->
  (inject_Z (team_size_of kk - 1) * chunk < inject_Z (vector_flops kk))%Q.
Proof.
  intros Hc. pose proof (costly_vector_team_two kk Hc) as Htwo.
  pose proof target_fine_size_pos as Hfpos.
  unfold team_size_of in *.
  set (x := (inject_Z (vector_flops kk) / target_fine_size)%Q) in *.
  pose proof (Qceiling_lt x) as Hlt.
  assert (Hpos : (0 < inject_Z (Qceiling x - 1))%Q).
  { change 0%Q with (inject_Z 0). rewrite <- Zlt_Qlt. lia. }
  eapply Qle_lt_trans.
  - apply Qmult_le_l; [exact Hpos|].
    apply (GB_IMAX_Q_ge_r (target_task_size / GB_FINE_WORK) chunk).
  - fold target_fine_size.
    apply (Qmult_lt_r _ _ target_fine_size Hfpos) in Hlt.
    eapply Qlt_le_trans; [exact Hlt|].
    unfold x. rewrite Qmult_comm, Qmult_div_r; [apply Qle_refl|].
    intros H0. rewrite H0 in Hfpos. by apply Qlt_irrefl in Hfpos.
Qed.

(** *** The first pass counts the tasks of the partition *)

Lemma team_total_app vs1 vs2 :
  team_total (vs1 ++ vs2) = team_total vs1 + team_total vs2.
Proof. induction vs1 as [|v vs1 IH]; simpl; lia. Qed.

Definition flush_count (klast : Z) (st : Z * task_counts) : task_counts :=
  if st.1 <? klast then incr_ncoarse st.2 else st.2.

Lemma count_vector_loop (n : nat) kk ks c :
  ks <= kk ->
  let cols := seqZ kk (Z.of_nat n) in
  let c' := flush_count (kk + Z.of_nat n)
              (foldl count_vector (ks, c) cols) in
  ncoarse c' = ncoarse c
    + Z.of_nat (length (coarse_runs costly_vector cols
                          (current_run ks kk)))
  /\ nfine c' = nfine c
    + team_total (filter (fun k => costly_vector k = true) cols).
Proof.
  revert kk ks c. induction n as [|n IH]; intros kk ks c Hle.
  - simpl. unfold flush_count, current_run; simpl.
    replace (kk + Z.of_nat 0) with kk by lia.
    destruct (Z.ltb_spec ks kk); simpl; lia.
  - cbv zeta. rewrite seqZ_cons by lia.
    replace (Z.pred (Z.of_nat (S n))) with (Z.of_nat n) by lia.
    replace (kk + Z.of_nat (S n)) with (Z.succ kk + Z.of_nat n) by lia.
    rewrite filter_cons. cbn [foldl coarse_runs].
    destruct (count_vector (ks, c) kk) as [ks1 c1] eqn:Hstep.
    unfold count_vector in Hstep.
    specialize (IH (Z.succ kk) ks1 c1). cbv zeta in IH.
    destruct (costly_vector kk) eqn:Hc.
    + rewrite decide_True by done.
      injection Hstep as <- <-.
      destruct IH as [IH1 IH2]; [lia|].
      rewrite IH1, IH2. replace (Z.succ kk) with (kk + 1) by lia.
      rewrite current_run_fresh, length_app. simpl.
      unfold current_run.
      destruct (Z.ltb_spec ks kk); simpl; lia.
    + rewrite decide_False by congruence.
      injection Hstep as <- <-.
      destruct IH as [IH1 IH2]; [lia|].
      rewrite IH1, IH2. rewrite current_run_next by done.
      replace (Z.succ kk) with (kk + 1) by lia. done.
Qed.

Lemma ncoarse_incr c : ncoarse (incr_ncoarse c) = ncoarse c + 1.
Proof. reflexivity. Qed.

Lemma nfine_incr c : nfine (incr_ncoarse c) = nfine c.
Proof. reflexivity. Qed.

Lemma count_initial_spec c taskid :
  let c' := count_initial c taskid in
  ncoarse c' = ncoarse c + Z.of_nat (length (coarse_ranges taskid))
  /\ nfine c' = nfine c + team_total (split_vectors taskid).
Proof.
  unfold count_initial, coarse_ranges, split_vectors, decomposed,
    initial_vectors.
  generalize (Coarse_initial taskid) (Coarse_initial (taskid + 1)).
  intros kfirst klast.
  destruct (Z.eqb_spec (klast - kfirst) 0) as [H0|H0]; simpl; [lia|].
  destruct (too_costly kfirst klast) eqn:Hcost; simpl; [|lia].
  destruct (Z.le_gt_cases 0 (klast - kfirst)) as [Hpos|Hneg].
  - pose proof (count_vector_loop (Z.to_nat (klast - kfirst))
                  kfirst kfirst c ltac:(lia)) as Hloop.
    cbv zeta in Hloop. rewrite Z2Nat.id in Hloop by lia.
    replace (kfirst + (klast - kfirst)) with klast in Hloop by lia.
    unfold flush_count in Hloop.
    destruct (foldl count_vector (kfirst, c) _) as [ks' c'].
    simpl in Hloop. unfold current_run in Hloop.
    rewrite Z.ltb_irrefl in Hloop. exact Hloop.
  - rewrite seqZ_nil by lia. simpl.
    destruct (Z.ltb_spec kfirst klast); simpl; lia.
Qed.

Lemma count_initial_loop (ts : list Z) c :
  let c' := foldl count_initial c ts in
  ncoarse c' = ncoarse c + Z.of_nat (length (ts ≫= coarse_ranges))
  /\ nfine c' = nfine c + team_total (ts ≫= split_vectors).
Proof.
  revert c. induction ts as [|t ts IH]; intros c; [simpl; lia|].
  rewrite !bind_cons. cbn [foldl].
  specialize (IH (count_initial c t)). cbv zeta in IH.
  destruct IH as [IH1 IH2].
  pose proof (count_initial_spec c t) as [H1 H2]. cbv zeta in H1, H2.
  rewrite IH1, IH2, H1, H2, length_app, team_total_app. lia.
Qed.

Lemma count_tasks_spec :
  1 < ntasks_initial ->
  ncoarse count_tasks = Z.of_nat (length all_coarse_ranges)
  /\ nfine count_tasks = team_total all_split_vectors.
Proof.
  intros Hn. unfold count_tasks.
  destruct (Z.ltb_spec 1 ntasks_initial); [|lia].
  pose proof (count_initial_loop (seqZ 0 ntasks_initial)
    {| ncoarse := 0; nfine := 0; max_bjnz := 0 |}) as [H1 H2].
  cbv zeta in H1, H2. simpl in H1, H2.
  by rewrite H1, H2.
Qed.

(** *** The second pass writes the tasks of the partition *)

(** [TaskList] while it is filled: [F] are the fine tasks and [Cs] the
    coarse tasks written so far, [NF] is the number of fine tasks and
    [N] the length of the list. *)
Record filled (NF N : nat) (st : create_state)
    (F Cs : list GB_saxpy3task_struct) : Prop := {
  filled_nf : nf st = Z.of_nat (length F);
  filled_nc : nc st = Z.of_nat (NF + length Cs);
  filled_len : length (TaskList st) = N;
  filled_fine : forall i t, F !! i = Some t -> TaskList st !! i = Some t;
  filled_coarse : forall i t,
    Cs !! i = Some t -> TaskList st !! (NF + i)%nat = Some t
}.

Lemma filled_put_fine NF N st F Cs t :
  filled NF N st F Cs ->
  (length F < NF)%nat -> (NF <= N)%nat ->
  filled NF N (put_fine t st) (F ++ [t]) Cs.
Proof.
  intros [Hnf Hnc Hlen Hfine Hcoarse] HF HN.
  unfold put_fine. rewrite Hnf, Nat2Z.id.
  split; simpl.
  - rewrite length_app. simpl. lia.
  - done.
  - by rewrite length_insert.
  - intros i t' Hi.
    destruct (decide (i = length F)) as [->|Hne].
    + rewrite list_lookup_middle in Hi by done. injection Hi as <-.
      apply list_lookup_insert_eq. lia.
    + rewrite list_lookup_insert_ne by done. apply Hfine.
      apply lookup_lt_Some in Hi as Hlt.
      rewrite length_app in Hlt. simpl in Hlt.
      rewrite lookup_app_l in Hi by lia. done.
  - intros i t' Hi. rewrite list_lookup_insert_ne by lia.
    by apply Hcoarse.
Qed.

Lemma filled_put_coarse NF N st F Cs kfirst klast :
  filled NF N st F Cs ->
  (length F <= NF)%nat -> (NF + length Cs < N)%nat ->
  exists st',
    put_coarse kfirst klast st = Some st'
    /\ filled NF N st' F
         (Cs ++ [coarse_of_range (Z.of_nat (NF + length Cs))
                   (kfirst, klast)])
    /\ Bflops2 st' = Bflops2 st.
Proof.
  intros [Hnf Hnc Hlen Hfine Hcoarse] HF HN.
  unfold put_coarse, GB_create_coarse_task.
  rewrite coarse_task_defined. simpl.
  eexists. split; [reflexivity|]. split; [|reflexivity].
  rewrite Hnc, Nat2Z.id. split; simpl.
  - done.
  - rewrite length_app. simpl. lia.
  - by rewrite length_insert.
  - intros i t' Hi. apply lookup_lt_Some in Hi as Hlt.
    rewrite list_lookup_insert_ne by lia. by apply Hfine.
  - intros i t' Hi.
    destruct (decide (i = length Cs)) as [->|Hne].
    + rewrite list_lookup_middle in Hi by done. injection Hi as <-.
      apply list_lookup_insert_eq. lia.
    + rewrite list_lookup_insert_ne by lia. apply Hcoarse.
      apply lookup_lt_Some in Hi as Hlt.
      rewrite length_app in Hlt. simpl in Hlt.
      rewrite lookup_app_l in Hi by lia. done.
Qed.

Lemma filled_put_fine_loop {A} NF N (g : A -> GB_saxpy3task_struct)
    (fids : list A) st F Cs :
  filled NF N st F Cs ->
  (length F + length fids <= NF)%nat -> (NF <= N)%nat ->
  let st' := foldl (fun st0 fid => put_fine (g fid) st0) st fids in
  filled NF N st' (F ++ (g <$> fids)) Cs
  /\ Bflops2 st' = Bflops2 st.
Proof.
  revert st F. induction fids as [|fid fids IH]; intros st F Hst HF HN.
  - simpl. by rewrite app_nil_r.
  - simpl in HF. cbn [foldl fmap list_fmap].
    specialize (IH (put_fine (g fid) st) (F ++ [g fid])).
    cbv zeta in IH. destruct IH as [IH1 IH2].
    + apply filled_put_fine; [done|lia|done].
    + rewrite length_app. simpl. lia.
    + done.
    + rewrite <- app_assoc in IH1. simpl in IH1. done.
Qed.

Lemma length_fine_team kk w leader' :
  length (fine_team kk w leader') = Z.to_nat (team_size_of kk).
Proof. unfold fine_team. by rewrite length_fmap, length_seqZ. Qed.

Lemma filled_create_fine_team NF N st F Cs kk :
  filled NF N st F Cs ->
  costly_vector kk = true ->
  Z.of_nat (length F) + team_size_of kk <= Z.of_nat NF ->
  (NF <= N)%nat ->
  exists st',
    create_fine_team kk st = Some st'
    /\ filled NF N st'
         (F ++ fine_team kk (Bflops2 st) (Z.of_nat (length F))) Cs
    /\ Bflops2 st' = team_workspace kk (Bflops2 st).
Proof.
  intros Hst Hc HF HN.
  pose proof (costly_vector_flops kk Hc) as Hfl.
  pose proof (costly_vector_team kk Hc) as Hteam.
  unfold create_fine_team.
  rewrite GB_hash_table_size_defined by done. simpl.
  eexists. split; [reflexivity|].
  match goal with |- context [foldl ?f ?s ?l] =>
    set (st1 := s); set (body := f) end.
  assert (Hst1 : filled NF N st1 F Cs).
  { destruct Hst. by split. }
  pose proof (filled_put_fine_loop NF N
    (fine_task kk (GBP_B kk)
       (GB_pslice (team_workspace kk (Bflops2 st)) (bjnz_of kk)
          (team_size_of kk))
       (team_workspace kk (Bflops2 st))
       (hash_size_of (vector_flops kk) cvlen AxB_method)
       (nf st) (team_size_of kk))
    (seqZ 0 (team_size_of kk)) st1 F Cs Hst1) as Hloop.
  rewrite length_seqZ in Hloop. cbv zeta in Hloop.
  destruct Hloop as [H1 H2]; [lia|done|].
  destruct Hst as [Hnf _ _ _ _].
  unfold fine_team. rewrite <- Hnf. split; [exact H1|exact H2].
Qed.

Lemma length_coarse_tasks rs taskid :
  length (coarse_tasks rs taskid) = length rs.
Proof.
  revert taskid. induction rs as [|r rs IH]; intros taskid; simpl;
    [done|by rewrite IH].
Qed.

Lemma coarse_tasks_app rs1 rs2 taskid :
  coarse_tasks (rs1 ++ rs2) taskid =
  coarse_tasks rs1 taskid
  ++ coarse_tasks rs2 (taskid + Z.of_nat (length rs1)).
Proof.
  revert taskid. induction rs1 as [|r rs1 IH]; intros taskid; simpl.
  - by rewrite Z.add_0_r.
  - rewrite IH. do 3 f_equal. lia.
Qed.

Lemma workspace_after_app vs1 vs2 w :
  workspace_after (vs1 ++ vs2) w =
  workspace_after vs2 (workspace_after vs1 w).
Proof. unfold workspace_after. by rewrite foldl_app. Qed.

Lemma fine_tasks_app vs1 vs2 w leader' :
  fine_tasks (vs1 ++ vs2) w leader' =
  fine_tasks vs1 w leader'
  ++ fine_tasks vs2 (workspace_after vs1 w) (leader' + team_total vs1).
Proof.
  revert w leader'. induction vs1 as [|v vs1 IH]; intros w leader'; simpl.
  - by rewrite Z.add_0_r.
  - rewrite IH, <- app_assoc. do 3 f_equal. lia.
Qed.

Lemma team_total_cons kk vs :
  team_total (kk :: vs) = team_size_of kk + team_total vs.
Proof. reflexivity. Qed.

Lemma team_total_costly vs :
  Forall (fun kk => costly_vector kk = true) vs -> 0 <= team_total vs.
Proof.
  induction 1 as [|v vs Hv _ IH]; simpl; [lia|].
  pose proof (costly_vector_team v Hv). lia.
Qed.

Lemma length_fine_tasks vs w leader' :
  Forall (fun kk => costly_vector kk = true) vs ->
  Z.of_nat (length (fine_tasks vs w leader')) = team_total vs.
Proof.
  intros Hvs. revert w leader'.
  induction Hvs as [|v vs Hv _ IH]; intros w leader'; simpl; [done|].
  rewrite length_app, length_fine_team, Nat2Z.inj_add, IH.
  pose proof (costly_vector_team v Hv). lia.
Qed.

Lemma Forall_filter_costly cols :
  Forall (fun kk => costly_vector kk = true)
         (filter (fun kk => costly_vector kk = true) cols).
Proof. apply Forall_forall. intros x Hx. by apply list_elem_of_filter in Hx as [? _]. Qed.

(** Arithmetic goals about the lengths of the lists of the partition:
    the lists are abstracted before [lia] runs. *)
Ltac abstract_lists :=
  repeat match goal with
  | |- context [filter ?P ?l] =>
      let x := fresh "vs" in set (x := filter P l) in *; clearbody x
  | H : context [filter ?P ?l] |- _ =>
      let x := fresh "vs" in set (x := filter P l) in *; clearbody x
  | |- context [coarse_runs ?f ?l ?c] =>
      let x := fresh "rs" in set (x := coarse_runs f l c) in *; clearbody x
  | H : context [coarse_runs ?f ?l ?c] |- _ =>
      let x := fresh "rs" in set (x := coarse_runs f l c) in *; clearbody x
  end.
Ltac list_lia := abstract_lists; lia.

(** The flush after the loop over the vectors. *)
Definition flush_create (klast : Z) (st : Z * create_state)
  : option create_state :=
  if st.1 <? klast then put_coarse st.1 (klast - 1) st.2 else Some st.2.

Lemma create_vector_loop NF N (n : nat) kk ks st F Cs :
  ks <= kk ->
  filled NF N st F Cs ->
  let cols := seqZ kk (Z.of_nat n) in
  let vs := filter (fun k => costly_vector k = true) cols in
  let rs := coarse_runs costly_vector cols (current_run ks kk) in
  Z.of_nat (length F) + team_total vs <= Z.of_nat NF ->
  (NF + length Cs + length rs <= N)%nat ->
  exists kst st',
    foldl create_vector (Some (ks, st)) cols = Some kst
    /\ flush_create (kk + Z.of_nat n) kst = Some st'
    /\ filled NF N st'
         (F ++ fine_tasks vs (Bflops2 st) (Z.of_nat (length F)))
         (Cs ++ coarse_tasks rs (Z.of_nat (NF + length Cs)))
    /\ Bflops2 st' = workspace_after vs (Bflops2 st).
Proof.
  revert kk ks st F Cs.
  induction n as [|n IH]; intros kk ks st F Cs Hle Hst; cbv zeta.
  - simpl. intros HF HC. unfold flush_create, current_run in *. simpl.
    replace (kk + Z.of_nat 0) with kk by lia.
    destruct (Z.ltb_spec ks kk) as [Hlt|Hge]; simpl in *.
    + destruct (filled_put_coarse NF N st F Cs ks (kk - 1) Hst)
        as (st' & Hput & Hst' & Hw); [lia|lia|].
      exists (ks, st), st'. rewrite app_nil_r.
      split; [done|]. split; [|done]. cbn [fst snd].
      by rewrite (proj2 (Z.ltb_lt ks kk) Hlt).
    + exists (ks, st), st. rewrite !app_nil_r.
      split; [done|]. split; [|done]. cbn [fst snd].
      by rewrite (proj2 (Z.ltb_ge ks kk) Hge).
  - rewrite seqZ_cons by lia.
    replace (Z.pred (Z.of_nat (S n))) with (Z.of_nat n) by lia.
    replace (kk + Z.of_nat (S n)) with (Z.succ kk + Z.of_nat n) by lia.
    rewrite filter_cons. cbn [foldl coarse_runs].
    unfold create_vector at 2. cbn [mbind option_bind].
    destruct (costly_vector kk) eqn:Hc.
    + rewrite decide_True by done. cbn [fine_tasks].
      rewrite team_total_cons, length_app. intros HF HC.
      pose proof (team_total_costly _
        (Forall_filter_costly (seqZ (Z.succ kk) (Z.of_nat n)))) as Hrest.
      pose proof (costly_vector_team kk Hc) as Hteam.
      (* flush of the prior coarse task *)
      assert (exists st1,
        (if ks <? kk then put_coarse ks (kk - 1) st else Some st)
          = Some st1
        /\ filled NF N st1 F
             (Cs ++ coarse_tasks (option_list (current_run ks kk))
                      (Z.of_nat (NF + length Cs)))
        /\ Bflops2 st1 = Bflops2 st) as (st1 & Hput & Hst1 & Hw1).
      { revert HC. unfold current_run.
        destruct (Z.ltb_spec ks kk) as [Hlt|Hge];
          simpl; intros HC.
        - apply filled_put_coarse; [done|list_lia|list_lia].
        - exists st. rewrite app_nil_r. done. }
      rewrite Hput. cbn [mbind option_bind].
      destruct (filled_create_fine_team NF N st1 F _ kk Hst1 Hc)
        as (st2 & Hteam2 & Hst2 & Hw2); [list_lia|list_lia|].
      rewrite Hteam2. cbn [mbind option_bind].
      specialize (IH (Z.succ kk) (kk + 1) st2 _ _ ltac:(lia) Hst2).
      cbv zeta in IH.
      replace (current_run (kk + 1) (Z.succ kk)) with (@None (Z * Z))
        in IH by (replace (Z.succ kk) with (kk + 1) by lia;
                  by rewrite current_run_fresh).
      rewrite !length_app, length_fine_team, length_coarse_tasks in IH.
      destruct IH as (kst & st' & Hfold & Hflush & Hst' & Hw').
      { list_lia. }
      { list_lia. }
      exists kst, st'. split; [done|]. split; [done|].
      rewrite Hw2, Hw1 in Hst', Hw'.
      rewrite <- !app_assoc in Hst'.
      rewrite coarse_tasks_app.
      split.
      * replace (Z.of_nat (length F) + team_size_of kk)
          with (Z.of_nat (length F + Z.to_nat (team_size_of kk))) by lia.
        replace (Z.of_nat (NF + length Cs)
                 + Z.of_nat (length (option_list (current_run ks kk))))
          with (Z.of_nat (NF + (length Cs
                  + length (option_list (current_run ks kk))))) by lia.
        exact Hst'.
      * unfold workspace_after in *. simpl. exact Hw'.
    + rewrite decide_False by congruence.
      rewrite current_run_next by done. intros HF HC.
      specialize (IH (Z.succ kk) ks st F Cs ltac:(lia) Hst).
      cbv zeta in IH.
      replace (Z.succ kk) with (kk + 1) in * by lia.
      apply IH; done.
Qed.

Lemma split_vectors_costly taskid :
  Forall (fun kk => costly_vector kk = true) (split_vectors taskid).
Proof.
  unfold split_vectors. destruct (decomposed taskid); [|constructor].
  apply Forall_filter_costly.
Qed.

Lemma bind_split_vectors_costly (ts : list Z) :
  Forall (fun kk => costly_vector kk = true) (ts ≫= split_vectors).
Proof.
  induction ts as [|t ts IH]; [constructor|].
  rewrite bind_cons. apply Forall_app. split; [|done].
  apply split_vectors_costly.
Qed.

Lemma create_initial_spec NF N st F Cs taskid :
  filled NF N st F Cs ->
  Z.of_nat (length F) + team_total (split_vectors taskid)
    <= Z.of_nat NF ->
  (NF + length Cs + length (coarse_ranges taskid) <= N)%nat ->
  exists st',
    create_initial (Some st) taskid = Some st'
    /\ filled NF N st'
         (F ++ fine_tasks (split_vectors taskid) (Bflops2 st)
                 (Z.of_nat (length F)))
         (Cs ++ coarse_tasks (coarse_ranges taskid)
                  (Z.of_nat (NF + length Cs)))
    /\ Bflops2 st' = workspace_after (split_vectors taskid) (Bflops2 st).
Proof.
  intros Hst.
  pose proof (team_total_costly _ (split_vectors_costly taskid)) as Hpos.
  revert Hpos.
  unfold create_initial, split_vectors, coarse_ranges, decomposed,
    initial_vectors. cbn [mbind option_bind].
  generalize (Coarse_initial taskid) (Coarse_initial (taskid + 1)).
  intros kfirst klast.
  destruct (Z.eqb_spec (klast - kfirst) 0) as [H0|H0]; cbn [negb andb].
  { intros _ _ _. exists st. rewrite !app_nil_r. done. }
  destruct (too_costly kfirst klast) eqn:Hcost.
  - destruct (Z.le_gt_cases 0 (klast - kfirst)) as [Hlen|Hlen].
    + intros Hpos HF HC.
      pose proof (create_vector_loop NF N (Z.to_nat (klast - kfirst))
                    kfirst kfirst st F Cs ltac:(lia) Hst) as Hloop.
      cbv zeta in Hloop. rewrite Z2Nat.id in Hloop by lia.
      unfold current_run in Hloop. rewrite Z.ltb_irrefl in Hloop.
      replace (kfirst + (klast - kfirst)) with klast in Hloop by lia.
      destruct (Hloop HF HC) as ([ks' st1] & st' & Hfold & Hflush & Hres).
      rewrite Hfold. cbn [mbind option_bind].
      unfold flush_create in Hflush. cbn [fst snd] in Hflush.
      exists st'. done.
    + rewrite seqZ_nil by lia. intros _ _ _. simpl.
      rewrite (proj2 (Z.ltb_ge kfirst klast)) by lia.
      exists st. rewrite !app_nil_r. done.
  - simpl. intros _ HF HC.
    destruct (filled_put_coarse NF N st F Cs kfirst (klast - 1) Hst)
      as (st' & Hput & Hst' & Hw); [lia|lia|].
    exists st'. rewrite app_nil_r. done.
Qed.

Lemma create_initial_loop NF N (ts : list Z) st F Cs :
  filled NF N st F Cs ->
  Z.of_nat (length F) + team_total (ts ≫= split_vectors)
    <= Z.of_nat NF ->
  (NF + length Cs + length (ts ≫= coarse_ranges) <= N)%nat ->
  exists st',
    foldl create_initial (Some st) ts = Some st'
    /\ filled NF N st'
         (F ++ fine_tasks (ts ≫= split_vectors) (Bflops2 st)
                 (Z.of_nat (length F)))
         (Cs ++ coarse_tasks (ts ≫= coarse_ranges)
                  (Z.of_nat (NF + length Cs))).
Proof.
  revert st F Cs. induction ts as [|t ts IH]; intros st F Cs Hst.
  - intros _ _. exists st. simpl. rewrite !app_nil_r. done.
  - rewrite !bind_cons, team_total_app, length_app. cbn [foldl].
    intros HF HC.
    pose proof (team_total_costly _ (split_vectors_costly t)) as Ht.
    pose proof (team_total_costly _ (bind_split_vectors_costly ts))
      as Hts.
    destruct (create_initial_spec NF N st F Cs t Hst)
      as (st1 & Hstep & Hst1 & Hw1); [lia|lia|].
    rewrite Hstep.
    destruct (IH st1 _ _ Hst1) as (st' & Hfold & Hst').
    { rewrite length_app, Nat2Z.inj_add,
        (length_fine_tasks _ _ _ (split_vectors_costly t)). lia. }
    { rewrite length_app, length_coarse_tasks. lia. }
    exists st'. split; [done|].
    rewrite fine_tasks_app, coarse_tasks_app, !app_assoc.
    rewrite Hw1 in Hst'.
    rewrite !length_app, length_coarse_tasks, Nat2Z.inj_add,
      (length_fine_tasks _ _ _ (split_vectors_costly t)) in Hst'.
    replace (Z.of_nat (NF + length Cs)
             + Z.of_nat (length (coarse_ranges t)))
      with (Z.of_nat (NF + (length Cs + length (coarse_ranges t))))
      by lia.
    exact Hst'.
Qed.

(** The two passes over the initial coarse tasks build exactly the
    partition. *)
Lemma create_tasks_refines Bflops2_0 :
  1 < ntasks_initial ->
  create_tasks Bflops2_0 = Some (partition_tasks Bflops2_0)
  /\ Z.of_nat (length (partition_tasks Bflops2_0)) = ntasks.
Proof.
  intros Hn.
  pose proof (count_tasks_spec Hn) as [Hnc Hnfine].
  pose proof (bind_split_vectors_costly (seqZ 0 ntasks_initial)) as Hall.
  fold all_split_vectors in Hall.
  pose proof (team_total_costly _ Hall) as Hpos.
  pose proof (length_fine_tasks _ Bflops2_0 0 Hall) as Hlen.
  unfold create_tasks, partition_tasks, ntasks.
  rewrite (proj2 (Z.ltb_lt 1 ntasks_initial)) by done.
  set (fine := fine_tasks all_split_vectors Bflops2_0 0) in *.
  set (NF := length fine).
  set (N := Z.to_nat (ncoarse count_tasks + nfine count_tasks)).
  match goal with |- context [foldl create_initial (Some ?s) _] =>
    set (st0 := s) end.
  assert (Hst0 : filled NF N st0 [] []).
  { split; simpl; try done.
    - unfold NF. lia.
    - by rewrite length_replicate. }
  destruct (create_initial_loop NF N (seqZ 0 ntasks_initial) st0 [] []
              Hst0) as (st' & Hfold & Hst').
  { fold all_split_vectors. simpl. unfold NF. lia. }
  { fold all_coarse_ranges. simpl. unfold N, NF. lia. }
  rewrite Hfold. cbn [mbind option_bind].
  fold all_split_vectors all_coarse_ranges in Hst'. simpl in Hst'.
  fold fine in Hst'. rewrite Nat.add_0_r in Hst'. fold NF.
  split.
  - f_equal. destruct Hst' as [_ _ Hlen' Hfine Hcoarse].
    apply list_eq. intros i.
    destruct (decide (i < NF)%nat) as [Hi|Hi].
    + rewrite lookup_app_l by done.
      destruct (lookup_lt_is_Some_2 fine i Hi) as [t Ht].
      rewrite Ht. by apply Hfine.
    + rewrite lookup_app_r by (fold NF; lia). fold NF.
      destruct (coarse_tasks all_coarse_ranges (Z.of_nat NF)
                  !! (i - NF)%nat) as [t|] eqn:Ht.
      * apply Hcoarse in Ht.
        replace (NF + (i - NF))%nat with i in Ht by lia. done.
      * apply lookup_ge_None. apply lookup_ge_None in Ht.
        rewrite length_coarse_tasks in Ht. unfold N in Hlen'. lia.
  - rewrite length_app, length_coarse_tasks. fold NF. unfold NF. lia.
Qed.

(** *** What the partition contains *)

Lemma decomposed_iff taskid :
  decomposed taskid = true <->
  (2 * GB_COSTLY * target_task_size
   < inject_Z (Bflops (Coarse_initial (taskid + 1))
               - Bflops (Coarse_initial taskid)))%Q.
Proof.
  unfold decomposed, too_costly.
  rewrite andb_true_iff, negb_true_iff, Qltb_lt, Z.eqb_neq.
  split; [by intros [_ ?]|]. intros Hlt. split; [|done].
  intros Heq.
  replace (Coarse_initial (taskid + 1)) with (Coarse_initial taskid)
    in Hlt by lia.
  rewrite Z.sub_diag in Hlt.
  apply (Qlt_irrefl 0). eapply Qlt_trans; [|exact Hlt].
  apply Qmult_lt_0_compat; [done|apply target_task_size_pos].
Qed.

Lemma split_vectors_iff taskid kk :
  kk ∈ split_vectors taskid <->
  decomposed taskid = true
  /\ Coarse_initial taskid <= kk < Coarse_initial (taskid + 1)
  /\ (GB_COSTLY * target_task_size < inject_Z (vector_flops kk))%Q
  /\ 1 < bjnz_of kk.
Proof.
  unfold split_vectors, initial_vectors.
  destruct (decomposed taskid).
  - rewrite list_elem_of_filter, elem_of_seqZ.
    unfold costly_vector.
    rewrite andb_true_iff, Qltb_lt, Z.ltb_lt. intuition lia.
  - rewrite elem_of_nil. intuition discriminate.
Qed.

Lemma fine_team_lookup kk w leader' fid :
  0 <= fid < team_size_of kk ->
  fine_team kk w leader' !! Z.to_nat fid =
  Some (fine_task kk (GBP_B kk)
          (GB_pslice (team_workspace kk w) (bjnz_of kk)
             (team_size_of kk))
          (team_workspace kk w)
          (hash_size_of (vector_flops kk) cvlen AxB_method)
          leader' (team_size_of kk) fid).
Proof.
  intros Hfid. unfold fine_team.
  rewrite list_lookup_fmap, lookup_seqZ_lt by lia.
  simpl. do 2 f_equal. lia.
Qed.

Lemma coarse_ranges_decomposed taskid :
  decomposed taskid = true ->
  concat (range_vectors <$> coarse_ranges taskid)
    = filter (fun kk => costly_vector kk = false) (initial_vectors taskid)
  /\ Forall (maximal_run costly_vector (Coarse_initial taskid)
               (Coarse_initial (taskid + 1)))
            (coarse_ranges taskid).
Proof.
  intros Hd. unfold coarse_ranges. rewrite Hd.
  unfold decomposed in Hd. apply andb_true_iff in Hd as [Hne _].
  apply negb_true_iff in Hne. rewrite Hne.
  unfold initial_vectors.
  generalize (Coarse_initial taskid) (Coarse_initial (taskid + 1)).
  intros kfirst klast.
  destruct (Z.le_gt_cases 0 (klast - kfirst)) as [Hlen|Hlen].
  - pose proof (coarse_runs_flatten costly_vector
                  (Z.to_nat (klast - kfirst)) kfirst kfirst ltac:(lia))
      as Hflat.
    pose proof (coarse_runs_maximal costly_vector kfirst
                  (Z.to_nat (klast - kfirst)) kfirst kfirst ltac:(lia)
                  ltac:(by left)) as Hmax.
    rewrite Z2Nat.id in Hflat, Hmax by lia.
    unfold current_run in Hflat, Hmax.
    rewrite Z.ltb_irrefl in Hflat, Hmax.
    rewrite Z.sub_diag, (seqZ_nil kfirst 0) in Hflat by lia.
    replace (kfirst + (klast - kfirst)) with klast in Hmax by lia.
    done.
  - rewrite seqZ_nil by lia. simpl. split; [done|constructor].
Qed.


End Chunk_positive.

(** *** The hash sizer always gets a positive flop count *)

Lemma put_coarse_is_Some kfirst klast st :
  is_Some (put_coarse kfirst klast st).
Proof.
  unfold put_coarse, GB_create_coarse_task.
  rewrite coarse_task_defined. simpl. eauto.
Qed.

Lemma create_fine_team_is_Some kk st :
  1 <= vector_flops kk -> is_Some (create_fine_team kk st).
Proof.
  intros Hfl. unfold create_fine_team.
  rewrite GB_hash_table_size_defined by done. simpl. eauto.
Qed.

Section Argument_positive.

Hypothesis costly_flops :
  forall kk, costly_vector kk = true -> 1 <= vector_flops kk.

Lemma create_vector_is_Some cols x :
  is_Some (foldl create_vector (Some x) cols).
Proof.
  revert x. induction cols as [|kk cols IH]; intros [ks st]; [by eauto|].
  cbn [foldl]. unfold create_vector at 2. cbn [mbind option_bind].
  destruct (costly_vector kk) eqn:Hc; [|apply IH].
  assert (is_Some (if ks <? kk then put_coarse ks (kk - 1) st
                   else Some st)) as [st1 ->].
  { destruct (ks <? kk); [apply put_coarse_is_Some|eauto]. }
  cbn [mbind option_bind].
  destruct (create_fine_team_is_Some kk st1 (costly_flops kk Hc))
    as [st2 ->].
  apply IH.
Qed.

Lemma create_initial_is_Some ts st :
  is_Some (foldl create_initial (Some st) ts).
Proof.
  revert st. induction ts as [|t ts IH]; intros st; [by eauto|].
  cbn [foldl].
  assert (is_Some (create_initial (Some st) t)) as [st1 ->];
    [|apply IH].
  unfold create_initial. cbn [mbind option_bind].
  destruct (_ =? 0); [by eauto|].
  destruct (too_costly _ _); [|apply put_coarse_is_Some].
  destruct (create_vector_is_Some
              (seqZ (Coarse_initial t)
                 (Coarse_initial (t + 1) - Coarse_initial t))
              (Coarse_initial t, st)) as [[ks' st'] ->].
  cbn [mbind option_bind].
  destruct (ks' <? _); [apply put_coarse_is_Some|eauto].
Qed.

End Argument_positive.

Lemma create_single_is_Some TL : is_Some (create_single TL).
Proof.
  unfold create_single, GB_create_coarse_task.
  rewrite coarse_task_defined. simpl. destruct (bnvec =? 1); eauto.
Qed.

Lemma target_task_size_nonneg :
  (0 <= chunk)%Q \/ 0 <= total_flops ->
  0 < ntasks_initial ->
  (0 <= target_task_size)%Q.
Proof.
  intros [Hchunk|Htotal] Hn.
  - eapply Qle_trans; [exact Hchunk|apply GB_IMAX_Q_ge_r].
  - eapply Qle_trans; [|apply GB_IMAX_Q_ge_l].
    apply Qle_shift_div_l.
    + change 0%Q with (inject_Z 0). rewrite <- Zlt_Qlt. done.
    + rewrite Qmult_0_l. change 0%Q with (inject_Z 0).
      rewrite <- Zle_Qle. done.
Qed.

Lemma create_tasks_is_Some Bflops2_0 :
  (0 <= chunk)%Q \/ 0 <= total_flops ->
  is_Some (create_tasks Bflops2_0).
Proof.
  intros Hpos. unfold create_tasks.
  destruct (Z.ltb_spec 1 ntasks_initial) as [Hn|Hn].
  - assert (Hcostly :
      forall kk, costly_vector kk = true -> 1 <= vector_flops kk).
    { intros kk. apply costly_vector_flops_target.
      apply target_task_size_nonneg; [done|lia]. }
    destruct (create_initial_is_Some Hcostly
                (seqZ 0 ntasks_initial)
                {| TaskList := replicate (Z.to_nat ntasks) zero_task;
                   nf := 0; nc := nfine count_tasks;
                   Bflops2 := Bflops2_0 |}) as [st ->].
    simpl. eauto.
  - apply create_single_is_Some.
Qed.

(** C9.  Whenever the hash sizer is called, its flop count is at least
    1: a coarse task folds its maximum from 1, and a vector is split
    into fine tasks only when its flop count exceeds
    [GB_COSTLY * target_task_size], which is not negative.  So [log2] is
    taken of a positive number at every call, and the task list is
    always produced. *)
Theorem hash_sizer_argument_positive :
  (0 <= chunk)%Q \/ 0 <= total_flops ->
  (forall kfirst klast chunk' nthreads_max',
      1 <= coarse_flmax kfirst klast chunk' nthreads_max')
  /\ (1 < ntasks_initial ->
      forall kk, costly_vector kk = true -> 1 <= vector_flops kk)
  /\ (forall flmax,
        GB_hash_table_size flmax cvlen AxB_method = None <-> flmax <= 0)
  /\ (forall Bflops2_0, is_Some (create_tasks Bflops2_0)).
Proof.
  intros Hpos.
  assert (Hcostly : 1 < ntasks_initial ->
    forall kk, costly_vector kk = true -> 1 <= vector_flops kk).
  { intros Hn kk. apply costly_vector_flops_target.
    apply target_task_size_nonneg; [done|lia]. }
  split; [apply coarse_flmax_ge_1|]. split; [done|]. split.
  - intros flmax. split.
    + intros Hnone. destruct (Z.le_gt_cases flmax 0) as [|Hgt]; [done|].
      rewrite GB_hash_table_size_defined in Hnone by lia. discriminate.
    + apply GB_hash_table_size_undefined.
  - intros w0. by apply create_tasks_is_Some.
Qed.

(** *** The hash table sizes of the tasks *)

(** The flop bound of a task over the vectors [vs]: the maximum flop
    count of one of its vectors, at least 1 (the sequential loop of the
    debug check in [GB_create_coarse_task]). *)
Definition flop_bound (vs : list Z) : Z :=
  foldl GB_IMAX 1 (vector_flops <$> vs).

(** The vectors a fine task and a coarse task compute. *)
Definition fine_vectors (t : GB_saxpy3task_struct) : list Z := [vector t].
Definition coarse_vectors (t : GB_saxpy3task_struct) : list Z :=
  seqZ (start t) (end_ t - start t + 1).

(** [hs] is [cvlen] (Gustavson), or a power of two below [cvlen], at
    least twice the power of two next to the flop bound, in which every
    vector of the task fills less than half. *)
Definition hash_size_ok (vs : list Z) (hs : Z) : Prop :=
  hs = cvlen \/
  (is_power_of_two hs /\ hs < cvlen
   /\ 2 * next_power_of_two (flop_bound vs) <= hs
   /\ Forall (fun kk => 2 * vector_flops kk < hs) vs).

Lemma flop_bound_ge_1 vs : 1 <= flop_bound vs.
Proof. apply foldl_GB_IMAX_ge. Qed.

Lemma flop_bound_elem vs kk : kk ∈ vs -> vector_flops kk <= flop_bound vs.
Proof.
  intros Hkk. apply foldl_GB_IMAX_elem, list_elem_of_fmap. eauto.
Qed.

Lemma flop_bound_le vs b :
  1 <= b -> (forall kk, kk ∈ vs -> vector_flops kk <= b) ->
  flop_bound vs <= b.
Proof.
  intros Hb Hvs. apply foldl_GB_IMAX_le; [done|].
  apply Forall_fmap, Forall_forall. intros kk Hkk. by apply Hvs.
Qed.

Lemma hash_size_ok_flop_bound vs :
  flop_bound vs < 2 ^ 61 ->
  hash_size_ok vs (hash_size_of (flop_bound vs) cvlen AxB_method).
Proof.
  intros Hb. pose proof (flop_bound_ge_1 vs) as H1.
  destruct (hash_size_of_hash (flop_bound vs) cvlen AxB_method
              ltac:(lia)) as [Hg|(Hp & Hlt & Hnext & Hhalf)];
    [by left|right].
  repeat split; try done.
  apply Forall_forall. intros kk Hkk.
  pose proof (flop_bound_elem vs kk Hkk). lia.
Qed.

Section Hash_sizes.

Hypothesis chunk_pos : (0 < chunk)%Q.
Hypothesis flops_bounded : forall kk, vector_flops kk < 2 ^ 61.
Hypothesis nthreads_pos :
  forall work chunk' nthreads_max',
    1 <= GB_nthreads work chunk' nthreads_max'.
Hypothesis partition_covers :
  forall n nth i, 1 <= nth ->
    (0 <= i < n <->
     exists tid, 0 <= tid < nth
       /\ (GB_PARTITION n tid nth).1 <= i < (GB_PARTITION n tid nth).2).

Lemma flop_bound_bounded vs : flop_bound vs < 2 ^ 61.
Proof.
  assert (flop_bound vs <= 2 ^ 61 - 1); [|lia].
  apply flop_bound_le; [lia|]. intros kk _.
  pose proof (flops_bounded kk). lia.
Qed.

(** The parallel reduction finds the flop bound (the assertion
    [flmax == flmax2]). *)
Lemma coarse_flmax_flop_bound kfirst klast chunk' nthreads_max' :
  coarse_flmax kfirst klast chunk' nthreads_max'
  = flop_bound (seqZ kfirst (klast - kfirst + 1)).
Proof.
  unfold coarse_flmax.
  set (nk := klast - kfirst + 1).
  set (nth := GB_nthreads nk chunk' nthreads_max').
  pose proof (nthreads_pos nk chunk' nthreads_max') as Hnth.
  fold nth in Hnth.
  apply Z.le_antisymm.
  - apply foldl_GB_IMAX_le; [apply flop_bound_ge_1|].
    apply Forall_forall. intros m Hm.
    apply list_elem_of_fmap in Hm as (tid & -> & Htid).
    apply elem_of_seqZ in Htid. unfold my_flmax.
    destruct (GB_PARTITION nk tid nth) as [istart iend] eqn:Hp.
    apply foldl_GB_IMAX_le_gen; [apply flop_bound_ge_1|].
    intros i Hi. apply elem_of_seqZ in Hi.
    apply flop_bound_elem, elem_of_seqZ.
    assert (0 <= i < nk); [|lia].
    apply (partition_covers nk nth i Hnth).
    exists tid. rewrite Hp. simpl. lia.
  - apply flop_bound_le; [apply foldl_GB_IMAX_ge|].
    intros kk Hkk. apply elem_of_seqZ in Hkk.
    destruct (proj1 (partition_covers nk nth (kk - kfirst) Hnth))
      as (tid & Htid & Hin); [lia|].
    etrans; [|apply (foldl_GB_IMAX_elem _ _ (my_flmax kfirst nk nth tid))].
    + unfold my_flmax.
      destruct (GB_PARTITION nk tid nth) as [istart iend] eqn:Hp.
      simpl in Hin.
      replace (vector_flops kk)
        with (vector_flops (kfirst + (kk - kfirst))) by (f_equal; lia).
      apply (foldl_GB_IMAX_elem_gen
               (fun i => vector_flops (kfirst + i))).
      apply elem_of_seqZ. lia.
    + unfold Coarse_Work. apply list_elem_of_fmap.
      exists tid. split; [done|]. apply elem_of_seqZ. lia.
Qed.

Lemma fine_tasks_hash_size vs w leader' :
  Forall (fun kk => costly_vector kk = true) vs ->
  Forall (fun t => hash_size_ok (fine_vectors t) (hsize t))
         (fine_tasks vs w leader').
Proof.
  intros Hvs. revert w leader'.
  induction Hvs as [|kk vs Hkk _ IH]; intros w leader'; simpl;
    [constructor|].
  apply Forall_app. split; [|apply IH].
  unfold fine_team. apply Forall_fmap, Forall_forall. intros fid _.
  unfold fine_vectors. simpl.
  pose proof (costly_vector_flops chunk_pos kk Hkk) as Hfl.
  replace (vector_flops kk) with (flop_bound [kk]) at 1.
  - apply hash_size_ok_flop_bound, flop_bound_bounded.
  - unfold flop_bound. simpl. rewrite GB_IMAX_max. lia.
Qed.

Lemma coarse_tasks_hash_size rs taskid :
  Forall (fun t => hash_size_ok (coarse_vectors t) (hsize t))
         (coarse_tasks rs taskid).
Proof.
  revert taskid. induction rs as [|r rs IH]; intros taskid; simpl;
    constructor; [|apply IH].
  unfold coarse_vectors. simpl.
  rewrite coarse_flmax_flop_bound.
  apply hash_size_ok_flop_bound, flop_bound_bounded.
Qed.


End Hash_sizes.

(** *** The tasks cover the work *)

(** What the workers read of a task. *)
Definition work (t : GB_saxpy3task_struct) : Z * Z * Z * Z * Z * Z :=
  (start t, end_ t, vector t, hsize t, leader t, team_size t).

(** The entries of [B(:,j)] a fine task works on: [start] to [end]. *)
Definition fine_entries (t : GB_saxpy3task_struct) : list Z :=
  seqZ (start t) (end_ t - start t + 1).

(** The team of a leader: the [team_size] tasks from it on. *)
Definition team_of (TL : list GB_saxpy3task_struct) (taskid : nat)
    (t : GB_saxpy3task_struct) : list GB_saxpy3task_struct :=
  take (Z.to_nat (team_size t)) (drop taskid TL).

(** The tasks cover the vectors of [B]: every coarse task has vectors of
    [B] and a table for them, the teams of fine tasks split the entries
    of their vector and have a table for it, and every vector is in a
    coarse task or has a team. *)
Record covering (TL : list GB_saxpy3task_struct) : Prop := {
  covering_coarse : forall taskid t,
    TL !! taskid = Some t -> vector t < 0 ->
    Forall (fun j => 0 <= j < bnvec) (coarse_vectors t)
    /\ hash_size_ok (coarse_vectors t) (hsize t);
  covering_team : forall taskid t,
    TL !! taskid = Some t -> 0 <= vector t ->
    leader t = Z.of_nat taskid ->
    vector t < bnvec
    /\ hash_size_ok (fine_vectors t) (hsize t)
    /\ team_of TL taskid t ≫= fine_entries
       = seqZ (GBP_B (vector t)) (bjnz_of (vector t));
  covering_vectors : forall j,
    0 <= j < bnvec ->
    exists taskid t,
      TL !! taskid = Some t
      /\ ((vector t < 0 /\ j ∈ coarse_vectors t)
          \/ (vector t = j /\ leader t = Z.of_nat taskid))
}.

Section Covering.

Hypothesis chunk_pos : (0 < chunk)%Q.
Hypothesis flops_in_range :
  forall kk, 0 <= kk < bnvec -> vector_flops kk < 2 ^ 61.
Hypothesis nthreads_pos :
  forall work chunk' nthreads_max',
    1 <= GB_nthreads work chunk' nthreads_max'.
Hypothesis partition_covers :
  forall n nth i, 1 <= nth ->
    (0 <= i < n <->
     exists tid, 0 <= tid < nth
       /\ (GB_PARTITION n tid nth).1 <= i < (GB_PARTITION n tid nth).2).
Hypothesis bnvec_nonneg : 0 <= bnvec.
Hypothesis slices_ok :
  forall Work n nt, 0 <= n -> 1 <= nt ->
    GB_pslice Work n nt 0 = 0 /\ GB_pslice Work n nt nt = n
    /\ forall t, 0 <= t < nt ->
         GB_pslice Work n nt t <= GB_pslice Work n nt (t + 1).
Hypothesis entries_of : forall kk, bjnz_of kk = GBP_B (kk + 1) - GBP_B kk.
Hypothesis first_entry : GBP_B 0 = 0.

(** The table of a task is made for its vectors. *)
Lemma hash_size_in_range vs :
  Forall (fun kk => 0 <= kk < bnvec) vs ->
  hash_size_ok vs (hash_size_of (flop_bound vs) cvlen AxB_method).
Proof.
  intros Hvs. apply hash_size_ok_flop_bound.
  assert (flop_bound vs <= 2 ^ 61 - 1); [|lia].
  apply flop_bound_le; [lia|]. intros kk Hkk.
  rewrite Forall_forall in Hvs.
  pose proof (flops_in_range kk (Hvs kk Hkk)). lia.
Qed.

(** Slices that do not decrease tile the range they span. *)
Lemma slices_tile (Slice : Z -> Z) (a : Z) (n : nat) :
  (forall t, 0 <= t < Z.of_nat n -> Slice t <= Slice (t + 1)) ->
  Slice 0 <= Slice (Z.of_nat n)
  /\ seqZ 0 (Z.of_nat n)
       ≫= (fun t => seqZ (a + Slice t)
                      (a + Slice (t + 1) - 1 - (a + Slice t) + 1))
     = seqZ (a + Slice 0) (Slice (Z.of_nat n) - Slice 0).
Proof.
  induction n as [|n IH]; intros Hmono.
  - change (Z.of_nat 0) with 0. split; [lia|]. by rewrite Z.sub_diag.
  - destruct IH as [Hle IH]; [intros t Ht; apply Hmono; lia|].
    pose proof (Hmono (Z.of_nat n) ltac:(lia)) as Hn.
    replace (Z.of_nat (S n)) with (Z.of_nat n + 1) by lia.
    split; [lia|].
    rewrite seqZ_app by lia. rewrite bind_app, IH.
    change (seqZ (0 + Z.of_nat n) 1) with [0 + Z.of_nat n].
    rewrite bind_cons. cbn [mbind list_bind]. rewrite app_nil_r, Z.add_0_l.
    replace (Slice (Z.of_nat n + 1) - Slice 0)
      with ((Slice (Z.of_nat n) - Slice 0)
            + (Slice (Z.of_nat n + 1) - Slice (Z.of_nat n))) by lia.
    rewrite (seqZ_app (a + Slice 0)) by lia.
    do 2 f_equal; lia.
Qed.

Lemma slices_bounds (Slice : Z -> Z) (n : nat) :
  (forall t, 0 <= t < Z.of_nat n -> Slice t <= Slice (t + 1)) ->
  forall t, 0 <= t <= Z.of_nat n ->
    Slice 0 <= Slice t <= Slice (Z.of_nat n).
Proof.
  induction n as [|n IH]; intros Hmono t Ht.
  - replace t with 0 by lia. change (Z.of_nat 0) with 0. lia.
  - pose proof (Hmono (Z.of_nat n) ltac:(lia)) as Hn.
    replace (Z.of_nat (S n)) with (Z.of_nat n + 1) in * by lia.
    destruct (decide (t = Z.of_nat n + 1)) as [->|Hne].
    + specialize (IH ltac:(intros; apply Hmono; lia) (Z.of_nat n)
                    ltac:(lia)). lia.
    + specialize (IH ltac:(intros; apply Hmono; lia) t ltac:(lia)). lia.
Qed.

(** A position below the last slice is in one of the slices. *)
Lemma slices_cover (Slice : Z -> Z) (n : nat) j :
  Slice 0 <= j < Slice (Z.of_nat n) ->
  exists t, 0 <= t < Z.of_nat n /\ Slice t <= j < Slice (t + 1).
Proof.
  induction n as [|n IH]; intros Hj; [change (Z.of_nat 0) with 0 in Hj; lia|].
  replace (Z.of_nat (S n)) with (Z.of_nat n + 1) in * by lia.
  destruct (Z.lt_ge_cases j (Slice (Z.of_nat n))) as [Hlt|Hge].
  - destruct IH as (t & Ht & Hjt); [lia|]. exists t. split; [lia|done].
  - exists (Z.of_nat n). split; lia.
Qed.

(** The team of a split vector has the entries of the vector. *)
Lemma fine_team_entries kk w leader' :
  costly_vector kk = true ->
  fine_team kk w leader' ≫= fine_entries = seqZ (GBP_B kk) (bjnz_of kk).
Proof.
  intros Hc. pose proof (costly_vector_team chunk_pos kk Hc) as Hteam.
  assert (Hbj : 1 < bjnz_of kk).
  { unfold costly_vector in Hc. apply andb_true_iff in Hc as [_ Hc].
    by apply Z.ltb_lt in Hc. }
  unfold fine_team.
  set (Slice := GB_pslice (team_workspace kk w) (bjnz_of kk)
                  (team_size_of kk)).
  destruct (slices_ok (team_workspace kk w) (bjnz_of kk) (team_size_of kk))
    as (H0 & Hn & Hmono); [lia|lia|]. fold Slice in H0, Hn, Hmono.
  destruct (slices_tile Slice (GBP_B kk) (Z.to_nat (team_size_of kk)))
    as [_ Htile].
  { intros t Ht. apply Hmono. lia. }
  rewrite Z2Nat.id in Htile by lia.
  rewrite H0, Hn, Z.add_0_r, Z.sub_0_r in Htile.
  rewrite <- Htile. clear Htile.
  induction (seqZ 0 (team_size_of kk)) as [|t ts IH]; [done|].
  rewrite fmap_cons, !bind_cons, IH. done.
Qed.

(** The initial coarse tasks slice the vectors of [B]. *)
Lemma initial_slices :
  1 < ntasks_initial ->
  forall t, 0 <= t < ntasks_initial ->
    0 <= Coarse_initial t <= Coarse_initial (t + 1)
    /\ Coarse_initial (t + 1) <= bnvec.
Proof.
  intros Hn t Ht.
  destruct (slices_ok Bflops bnvec ntasks_initial) as (H0 & Hlast & Hmono);
    [done|lia|]. fold Coarse_initial in H0, Hlast, Hmono.
  assert (Hmono' : forall t, 0 <= t < Z.of_nat (Z.to_nat ntasks_initial) ->
            Coarse_initial t <= Coarse_initial (t + 1)).
  { intros t' Ht'. apply Hmono. lia. }
  pose proof (slices_bounds Coarse_initial _ Hmono' t ltac:(lia)) as Hb1.
  pose proof (slices_bounds Coarse_initial _ Hmono' (t + 1) ltac:(lia))
    as Hb2.
  rewrite Z2Nat.id in Hb1, Hb2 by lia.
  specialize (Hmono t Ht). lia.
Qed.

Lemma initial_vectors_range taskid kk :
  1 < ntasks_initial -> 0 <= taskid < ntasks_initial ->
  kk ∈ initial_vectors taskid -> 0 <= kk < bnvec.
Proof.
  intros Hn Ht Hkk. unfold initial_vectors in Hkk.
  apply elem_of_seqZ in Hkk.
  pose proof (initial_slices Hn taskid Ht). lia.
Qed.

Lemma initial_vectors_cover j :
  1 < ntasks_initial -> 0 <= j < bnvec ->
  exists taskid, 0 <= taskid < ntasks_initial /\ j ∈ initial_vectors taskid.
Proof.
  intros Hn Hj.
  destruct (slices_ok Bflops bnvec ntasks_initial) as (H0 & Hlast & _);
    [done|lia|]. fold Coarse_initial in H0, Hlast.
  destruct (slices_cover Coarse_initial (Z.to_nat ntasks_initial) j)
    as (t & Ht & Hjt).
  { rewrite Z2Nat.id by lia. lia. }
  exists t. split; [lia|]. unfold initial_vectors.
  apply elem_of_seqZ. lia.
Qed.

Lemma elem_of_concat {T} (x : T) (ls : list (list T)) :
  x ∈ concat ls <-> exists l, l ∈ ls /\ x ∈ l.
Proof.
  induction ls as [|l ls IH]; simpl.
  - rewrite elem_of_nil. split; [done|]. intros (l & Hl & _).
    by apply elem_of_nil in Hl.
  - rewrite elem_of_app, IH. split.
    + intros [Hx|(l' & Hl' & Hx)].
      * exists l. split; [apply elem_of_cons; by left|done].
      * exists l'. split; [apply elem_of_cons; by right|done].
    + intros (l' & Hl' & Hx). apply elem_of_cons in Hl' as [->|Hl'].
      * by left.
      * right. eauto.
Qed.

(** The vectors of the coarse ranges of an initial task are vectors of
    the task, and every vector of the task that is not split is in one
    of the ranges. *)
Lemma coarse_ranges_vectors taskid r j :
  r ∈ coarse_ranges taskid -> j ∈ range_vectors r ->
  j ∈ initial_vectors taskid.
Proof.
  intros Hr Hj. destruct (decomposed taskid) eqn:Hd.
  - destruct (coarse_ranges_decomposed taskid Hd) as [Hflat _].
    assert (Hin : j ∈ concat (range_vectors <$> coarse_ranges taskid)).
    { apply elem_of_concat. exists (range_vectors r).
      split; [|done]. apply list_elem_of_fmap. eauto. }
    rewrite Hflat in Hin. by apply list_elem_of_filter in Hin as [_ ?].
  - unfold coarse_ranges in Hr. rewrite Hd in Hr.
    destruct (_ =? 0); [by apply elem_of_nil in Hr|].
    apply list_elem_of_singleton in Hr. subst r.
    unfold range_vectors in Hj. simpl in Hj.
    unfold initial_vectors. apply elem_of_seqZ in Hj.
    apply elem_of_seqZ. lia.
Qed.

Lemma coarse_ranges_cover taskid j :
  j ∈ initial_vectors taskid -> j ∉ split_vectors taskid ->
  exists r, r ∈ coarse_ranges taskid /\ j ∈ range_vectors r.
Proof.
  intros Hj Hsplit. destruct (decomposed taskid) eqn:Hd.
  - destruct (coarse_ranges_decomposed taskid Hd) as [Hflat _].
    assert (Hin : j ∈ concat (range_vectors <$> coarse_ranges taskid)).
    { rewrite Hflat. apply list_elem_of_filter. split; [|done].
      destruct (costly_vector j) eqn:Hc; [|done].
      exfalso. apply Hsplit. unfold split_vectors. rewrite Hd.
      apply list_elem_of_filter. done. }
    apply elem_of_concat in Hin as (l & Hl & Hjl).
    apply list_elem_of_fmap in Hl as (r & -> & Hr). eauto.
  - unfold coarse_ranges. rewrite Hd.
    unfold initial_vectors in Hj. apply elem_of_seqZ in Hj.
    destruct (Z.eqb_spec (Coarse_initial (taskid + 1)
                          - Coarse_initial taskid) 0); [lia|].
    eexists. split; [apply list_elem_of_singleton; reflexivity|].
    unfold range_vectors. simpl. apply elem_of_seqZ. lia.
Qed.

(** The coarse task of a range is at the place of the range. *)
Lemma coarse_tasks_lookup rs taskid (i : nat) :
  coarse_tasks rs taskid !! i
  = coarse_of_range (taskid + Z.of_nat i) <$> rs !! i.
Proof.
  revert taskid i. induction rs as [|r rs IH]; intros taskid i; [done|].
  destruct i as [|i]; simpl.
  - by rewrite Z.add_0_r.
  - rewrite IH. do 2 f_equal. lia.
Qed.

(** A fine task of the list belongs to the team of a split vector; the
    team starts [n] tasks into the list, where its leader is. *)
Lemma fine_tasks_member vs w leader' (i : nat) t :
  Forall (fun kk => costly_vector kk = true) vs ->
  fine_tasks vs w leader' !! i = Some t ->
  exists kk w' (n : nat),
    kk ∈ vs /\ (n <= i < n + Z.to_nat (team_size_of kk))%nat
    /\ vector t = kk /\ team_size t = team_size_of kk
    /\ hsize t = hash_size_of (vector_flops kk) cvlen AxB_method
    /\ leader t = leader' + Z.of_nat n
    /\ (leader t = leader' + Z.of_nat i -> n = i)
    /\ take (Z.to_nat (team_size_of kk)) (drop n (fine_tasks vs w leader'))
       = fine_team kk w' (leader' + Z.of_nat n).
Proof.
  intros Hvs. revert w leader' i.
  induction Hvs as [|kk vs Hkk _ IH]; intros w leader' i Ht; [done|].
  cbn [fine_tasks] in *.
  pose proof (costly_vector_team chunk_pos kk Hkk) as Hteam.
  pose proof (length_fine_team kk w leader') as Hlen.
  destruct (decide (i < length (fine_team kk w leader'))%nat) as [Hi|Hi].
  - rewrite lookup_app_l in Ht by done.
    rewrite <- (Nat2Z.id i) in Ht.
    rewrite fine_team_lookup in Ht by lia.
    injection Ht as <-.
    exists kk, w, 0%nat. cbn [vector team_size leader hsize fine_task].
    split; [apply elem_of_cons; by left|].
    split; [lia|]. split; [done|]. split; [done|]. split; [done|].
    split; [lia|]. split; [lia|].
    rewrite drop_0, Z.add_0_r, <- Hlen. apply take_app_length.
  - rewrite lookup_app_r in Ht by lia.
    destruct (IH _ _ _ Ht)
      as (kk' & w' & n & Hin & Hn & Hv & Hs & Hh & Hl & Hi' & Htk).
    exists kk', w', (length (fine_team kk w leader') + n)%nat.
    split; [apply elem_of_cons; by right|].
    split; [lia|]. split; [done|]. split; [done|]. split; [done|].
    split; [lia|]. split; [lia|].
    rewrite drop_app_add'  by done. rewrite Htk. f_equal. lia.
Qed.

(** The leader of the team of a split vector is in the list. *)
Lemma fine_tasks_leader vs w leader' kk :
  Forall (fun kk => costly_vector kk = true) vs ->
  kk ∈ vs ->
  exists (n : nat) t,
    fine_tasks vs w leader' !! n = Some t
    /\ vector t = kk /\ leader t = leader' + Z.of_nat n.
Proof.
  intros Hvs. revert w leader'.
  induction Hvs as [|v vs Hv _ IH]; intros w leader' Hkk;
    [by apply elem_of_nil in Hkk|].
  cbn [fine_tasks].
  pose proof (costly_vector_team chunk_pos v Hv) as Hteam.
  pose proof (length_fine_team v w leader') as Hlen.
  apply elem_of_cons in Hkk as [->|Hkk].
  - exists 0%nat. eexists. split.
    + rewrite lookup_app_l by lia.
      change 0%nat with (Z.to_nat 0). apply fine_team_lookup. lia.
    + cbn [vector leader fine_task]. split; [done|lia].
  - destruct (IH (team_workspace v w) (leader' + team_size_of v) Hkk)
      as (n & t & Ht & Hvec & Hl).
    exists (length (fine_team v w leader') + n)%nat, t.
    split; [|split; [done|lia]].
    rewrite lookup_app_r by lia. rewrite <- Ht. f_equal. lia.
Qed.

(** A split vector is a vector of its initial task. *)
Lemma all_split_vectors_range kk :
  1 < ntasks_initial -> kk ∈ all_split_vectors -> 0 <= kk < bnvec.
Proof.
  intros Hn Hkk. unfold all_split_vectors in Hkk.
  apply list_elem_of_bind in Hkk as (taskid & Hkk & Ht).
  apply elem_of_seqZ in Ht.
  apply split_vectors_iff in Hkk as (_ & Hr & _).
  pose proof (initial_slices Hn taskid ltac:(lia)). lia.
Qed.

(** The partition covers the vectors of [B]. *)
Lemma partition_tasks_covering Bflops2_0 :
  1 < ntasks_initial -> covering (partition_tasks Bflops2_0).
Proof.
  intros Hn. unfold partition_tasks.
  set (F := fine_tasks all_split_vectors Bflops2_0 0).
  set (Cs := coarse_tasks all_coarse_ranges (Z.of_nat (length F))).
  pose proof (bind_split_vectors_costly (seqZ 0 ntasks_initial)) as Hall.
  fold all_split_vectors in Hall.
  assert (Hfine : forall (i : nat) t, F !! i = Some t ->
            0 <= vector t < bnvec).
  { intros i t Ht.
    destruct (fine_tasks_member _ _ _ _ _ Hall Ht)
      as (kk & _ & _ & Hkk & _ & <- & _).
    by apply all_split_vectors_range. }
  assert (Hrange : forall taskid r,
            0 <= taskid < ntasks_initial -> r ∈ coarse_ranges taskid ->
            Forall (fun j => 0 <= j < bnvec) (range_vectors r)).
  { intros taskid r Ht Hr. apply Forall_forall. intros j Hj.
    apply (initial_vectors_range taskid); [done|done|].
    by apply (coarse_ranges_vectors taskid r). }
  assert (Hcoarse : forall (i : nat) t, Cs !! i = Some t ->
            vector t = -1
            /\ exists taskid r,
                 0 <= taskid < ntasks_initial /\ r ∈ coarse_ranges taskid
                 /\ coarse_vectors t = range_vectors r
                 /\ hsize t = hash_size_of (flop_bound (range_vectors r))
                                 cvlen AxB_method).
  { intros i t Ht. unfold Cs in Ht. rewrite coarse_tasks_lookup in Ht.
    destruct (all_coarse_ranges !! i) as [r|] eqn:Hr; [|done].
    injection Ht as <-. split; [done|].
    apply list_elem_of_lookup_2 in Hr. unfold all_coarse_ranges in Hr.
    apply list_elem_of_bind in Hr as (taskid & Hr & Ht).
    apply elem_of_seqZ in Ht. exists taskid, r.
    split; [lia|]. split; [done|]. split; [done|].
    cbn [hsize coarse_of_range].
    by rewrite (coarse_flmax_flop_bound nthreads_pos partition_covers). }
  split.
  - (* coarse tasks *)
    intros taskid t Ht Hvec.
    apply lookup_app_Some in Ht as [Ht|[Hlen Ht]].
    { apply Hfine in Ht. lia. }
    destruct (Hcoarse _ _ Ht) as (_ & taskid0 & r & Ht0 & Hr & -> & ->).
    split; [by apply (Hrange taskid0)|].
    apply hash_size_in_range. by apply (Hrange taskid0).
  - (* teams of fine tasks *)
    intros taskid t Ht Hvec Hlead.
    apply lookup_app_Some in Ht as [Ht|[Hlen Ht]].
    2:{ apply Hcoarse in Ht as [Hv _]. lia. }
    pose proof (Hfine _ _ Ht) as Hr.
    split; [lia|].
    destruct (fine_tasks_member _ _ _ _ _ Hall Ht)
      as (kk & w' & n & Hin & Hle & Hv & Hs & Hh & _ & Hn' & Htk).
    rewrite Forall_forall in Hall. specialize (Hall kk Hin).
    split.
    + unfold fine_vectors. rewrite Hh, Hv.
      pose proof (costly_vector_flops chunk_pos kk Hall) as Hfl.
      replace (vector_flops kk) with (flop_bound [kk]) at 1.
      * apply hash_size_in_range, Forall_singleton. lia.
      * unfold flop_bound. simpl. rewrite GB_IMAX_max. lia.
    + fold F in Htk. rewrite Z.add_0_l in Hn'.
      specialize (Hn' Hlead). subst n.
      unfold team_of. rewrite Hs, Hv, drop_app.
      rewrite take_app_le.
      * rewrite Htk. by apply fine_team_entries.
      * apply (f_equal length) in Htk.
        rewrite length_take, length_fine_team in Htk. lia.
  - (* every vector *)
    intros j Hj.
    destruct (initial_vectors_cover j Hn Hj) as (taskid0 & Ht0 & Hj0).
    destruct (decide (j ∈ split_vectors taskid0)) as [Hs|Hs].
    + assert (Hjall : j ∈ all_split_vectors).
      { unfold all_split_vectors. apply list_elem_of_bind.
        exists taskid0. split; [done|]. apply elem_of_seqZ. lia. }
      destruct (fine_tasks_leader _ Bflops2_0 0 j Hall Hjall)
        as (n & t & Ht & Hv & Hl).
      fold F in Ht. exists n, t. split.
      * by apply lookup_app_l_Some.
      * right. split; [done|lia].
    + destruct (coarse_ranges_cover taskid0 j Hj0 Hs) as (r & Hr & Hjr).
      assert (Hrall : r ∈ all_coarse_ranges).
      { unfold all_coarse_ranges. apply list_elem_of_bind.
        exists taskid0. split; [done|]. apply elem_of_seqZ. lia. }
      apply list_elem_of_lookup_1 in Hrall as [i Hi].
      exists (length F + i)%nat. eexists. split.
      * rewrite lookup_app_r by lia.
        replace (length F + i - length F)%nat with i by lia.
        unfold Cs. rewrite coarse_tasks_lookup, Hi. reflexivity.
      * left. split; [done|]. exact Hjr.
Qed.

(** The single task covers the vectors of [B]. *)
Lemma create_single_covering TL :
  ntasks_initial <= 1 ->
  create_single (replicate (Z.to_nat ntasks) zero_task) = Some TL ->
  covering TL.
Proof.
  intros Hn. unfold ntasks, count_tasks, create_single,
    GB_create_coarse_task.
  rewrite (proj2 (Z.ltb_ge 1 ntasks_initial)) by lia.
  rewrite coarse_task_defined. cbn [mbind option_bind].
  rewrite (coarse_flmax_flop_bound nthreads_pos partition_covers).
  assert (Hok : hash_size_ok (seqZ 0 (bnvec - 1 - 0 + 1))
            (hash_size_of (flop_bound (seqZ 0 (bnvec - 1 - 0 + 1)))
               cvlen AxB_method)).
  { apply hash_size_in_range, Forall_forall. intros j Hj.
    apply elem_of_seqZ in Hj. lia. }
  destruct (Z.eqb_spec bnvec 1) as [Hb|Hb]; simpl; intros [= <-].
  - (* a single fine task *)
    split.
    + intros [|taskid] t Ht; [|done]. injection Ht as <-. simpl. lia.
    + intros [|taskid] t Ht _ _; [|done]. injection Ht as <-.
      cbn [vector hsize]. split; [lia|]. split.
      * unfold fine_vectors. cbn [vector]. rewrite Hb in Hok |- *.
        exact Hok.
      * unfold team_of. simpl. unfold fine_entries. simpl.
        rewrite app_nil_r, entries_of, first_entry.
        change (0 + 1) with 1. f_equal; lia.
    + intros j Hj. exists 0%nat. eexists. split; [reflexivity|].
      right. simpl. lia.
  - (* a single coarse task *)
    split.
    + intros [|taskid] t Ht _; [|done]. injection Ht as <-.
      split; [|exact Hok].
      apply Forall_forall. intros j Hj. unfold coarse_vectors in Hj.
      simpl in Hj. apply elem_of_seqZ in Hj. lia.
    + intros [|taskid] t Ht Hv; [|done]. injection Ht as <-.
      simpl in Hv. lia.
    + intros j Hj. exists 0%nat. eexists. split; [reflexivity|].
      left. split; [simpl; lia|]. unfold coarse_vectors. simpl.
      apply elem_of_seqZ. lia.
Qed.

(** The tasks that are created cover the vectors of [B]. *)
Lemma create_tasks_covering Bflops2_0 TL :
  create_tasks Bflops2_0 = Some TL -> covering TL.
Proof.
  intros Hc. destruct (Z.lt_ge_cases 1 ntasks_initial) as [Hn|Hn].
  - destruct (create_tasks_refines chunk_pos Bflops2_0 Hn) as [Hc' _].
    rewrite Hc' in Hc. injection Hc as <-.
    by apply partition_tasks_covering.
  - unfold create_tasks in Hc.
    rewrite (proj2 (Z.ltb_ge 1 ntasks_initial)) in Hc by lia.
    by apply create_single_covering.
Qed.

(** Tasks with the same work cover the same. *)
Lemma covering_work TL TL' :
  work <$> TL = work <$> TL' -> covering TL -> covering TL'.
Proof.
  intros Hw [Hcoarse Hteam Hvec].
  assert (Hlook : forall (i : nat) t', TL' !! i = Some t' ->
            exists t, TL !! i = Some t /\ work t = work t').
  { intros i t' Ht'.
    assert (H : (work <$> TL) !! i = Some (work t'))
      by (by rewrite Hw, list_lookup_fmap, Ht').
    rewrite list_lookup_fmap in H.
    destruct (TL !! i) as [t|]; [|done].
    exists t. split; [done|]. by apply (inj Some). }
  assert (Hlook' : forall (i : nat) t, TL !! i = Some t ->
            exists t', TL' !! i = Some t' /\ work t = work t').
  { intros i t Ht.
    assert (H : (work <$> TL') !! i = Some (work t))
      by (by rewrite <- Hw, list_lookup_fmap, Ht).
    rewrite list_lookup_fmap in H.
    destruct (TL' !! i) as [t'|]; [|done].
    exists t'. split; [done|]. symmetry. by apply (inj Some). }
  assert (Hentries : forall l l' : list GB_saxpy3task_struct,
            work <$> l = work <$> l' ->
            l ≫= fine_entries = l' ≫= fine_entries).
  { induction l as [|t l IH]; intros [|t' l'] Hl; try done.
    rewrite !fmap_cons in Hl. injection Hl as Hs He _ _ _ _ Hl.
    rewrite !bind_cons, (IH l' Hl). f_equal.
    unfold fine_entries. by rewrite Hs, He. }
  split.
  - intros taskid t' Ht' Hv.
    destruct (Hlook _ _ Ht') as (t & Ht & Hwt).
    unfold work in Hwt. injection Hwt as Hs He Hvt Hh _ _.
    unfold coarse_vectors. rewrite <- Hs, <- He, <- Hh.
    apply (Hcoarse taskid t Ht). lia.
  - intros taskid t' Ht' Hv Hl.
    destruct (Hlook _ _ Ht') as (t & Ht & Hwt).
    unfold work in Hwt. injection Hwt as Hs He Hvt Hh Hlt Hts.
    destruct (Hteam taskid t Ht ltac:(lia) ltac:(lia)) as (H1 & H2 & H3).
    unfold fine_vectors in *. rewrite <- Hvt, <- Hh.
    split; [done|]. split; [done|].
    rewrite <- H3. symmetry. apply Hentries.
    unfold team_of. rewrite !fmap_take, !fmap_drop, Hw, Hts. done.
  - intros j Hj. destruct (Hvec j Hj) as (taskid & t & Ht & Hcase).
    destruct (Hlook' _ _ Ht) as (t' & Ht' & Hwt).
    unfold work in Hwt. injection Hwt as Hs He Hvt Hh Hlt Hts.
    exists taskid, t'. split; [done|].
    unfold coarse_vectors in *. rewrite <- Hs, <- He, <- Hvt, <- Hlt.
    exact Hcase.
Qed.

(** *** Every vector is computed once *)

(** The vectors of [C] a task computes: a coarse task computes the
    vectors [start..end], "a unique set of vectors"; a team of fine tasks
    computes its [vector], listed here at the leader of the team. *)
Definition computed_by (taskid : nat) (t : GB_saxpy3task_struct) : list Z :=
  if vector t <? 0 then coarse_vectors t
  else if leader t =? Z.of_nat taskid then [vector t] else [].

Definition computed_vectors (TL : list GB_saxpy3task_struct) : list Z :=
  mjoin (imap computed_by TL).

Lemma bind_ext_list {T U} (f g : T -> list U) (l : list T) :
  (forall x, f x = g x) -> l ≫= f = l ≫= g.
Proof.
  intros Hfg. induction l as [|x l IH]; [done|].
  by rewrite !bind_cons, IH, Hfg.
Qed.

Lemma join_all_nil {T U} (f : nat -> T -> list U) (l : list T) :
  (forall i x, l !! i = Some x -> f i x = []) -> mjoin (imap f l) = [].
Proof.
  revert f. induction l as [|x l IH]; intros f Hf; [done|].
  rewrite imap_cons. cbn [mjoin list_join].
  rewrite (Hf 0%nat x eq_refl), IH; [done|].
  intros i y Hy. apply (Hf (S i)). exact Hy.
Qed.

(** The initial coarse tasks tile the vectors of [B]. *)
Lemma initial_vectors_tile :
  1 < ntasks_initial ->
  seqZ 0 ntasks_initial ≫= initial_vectors = seqZ 0 bnvec.
Proof.
  intros Hn.
  destruct (slices_ok Bflops bnvec ntasks_initial) as (H0 & Hlast & Hmono);
    [done|lia|]. fold Coarse_initial in H0, Hlast, Hmono.
  destruct (slices_tile Coarse_initial 0 (Z.to_nat ntasks_initial))
    as [_ Htile].
  { intros t Ht. apply Hmono. lia. }
  rewrite Z2Nat.id in Htile by lia.
  rewrite H0, Hlast, Z.sub_0_r in Htile.
  change (0 + 0) with 0 in Htile. rewrite <- Htile.
  apply bind_ext_list. intros t. unfold initial_vectors. f_equal; lia.
Qed.

(** The split vectors and the coarse ranges of an initial task share out
    its vectors. *)
Lemma initial_vectors_shared taskid :
  split_vectors taskid ++ concat (range_vectors <$> coarse_ranges taskid)
  ≡ₚ initial_vectors taskid.
Proof.
  destruct (decomposed taskid) eqn:Hd.
  - destruct (coarse_ranges_decomposed taskid Hd) as [-> _].
    unfold split_vectors. rewrite Hd.
    rewrite <- (filter_app_complement (fun kk => costly_vector kk = true)
                  (initial_vectors taskid)) at 3.
    f_equiv. apply reflexive_eq, list_filter_iff. intros kk.
    destruct (costly_vector kk); split; congruence.
  - unfold split_vectors, coarse_ranges, initial_vectors. rewrite Hd.
    destruct (Z.eqb_spec (Coarse_initial (taskid + 1)
                          - Coarse_initial taskid) 0) as [H0|H0]; simpl.
    + by rewrite H0.
    + unfold range_vectors. simpl. rewrite app_nil_r.
      apply reflexive_eq. f_equal. lia.
Qed.

Lemma initial_vectors_shared_all (ts : list Z) :
  (ts ≫= split_vectors)
  ++ concat (range_vectors <$> (ts ≫= coarse_ranges))
  ≡ₚ ts ≫= initial_vectors.
Proof.
  induction ts as [|t ts IH]; [done|].
  rewrite !bind_cons, fmap_app, concat_app.
  rewrite <- IH, <- (initial_vectors_shared t).
  rewrite <- !(assoc_L (++)). f_equiv.
  rewrite !(assoc_L (++)). f_equiv. apply Permutation_app_comm.
Qed.

(** What the coarse tasks of a list of ranges compute. *)
Lemma computed_by_coarse_tasks rs taskid (g : nat -> nat) :
  mjoin (imap (fun i => computed_by (g i)) (coarse_tasks rs taskid))
  = concat (range_vectors <$> rs).
Proof.
  revert taskid g. induction rs as [|r rs IH]; intros taskid g; [done|].
  cbn [coarse_tasks]. rewrite imap_cons, fmap_cons.
  cbn [mjoin list_join concat].
  rewrite <- (IH (taskid + 1) (g ∘ S)). reflexivity.
Qed.

(** What a team of fine tasks computes: its vector, once. *)
Lemma computed_by_fine_team kk w (off : nat) :
  costly_vector kk = true -> 0 <= kk ->
  mjoin (imap (fun i => computed_by (off + i))
           (fine_team kk w (Z.of_nat off)))
  = [kk].
Proof.
  intros Hc Hkk. pose proof (costly_vector_team chunk_pos kk Hc) as Hteam.
  unfold fine_team. rewrite seqZ_cons by lia.
  rewrite fmap_cons, imap_cons. cbn [mjoin list_join].
  rewrite join_all_nil.
  - unfold computed_by. cbn [vector leader fine_task].
    rewrite (proj2 (Z.ltb_ge kk 0)) by lia.
    rewrite Nat.add_0_r, Z.eqb_refl. done.
  - intros i t Ht. rewrite list_lookup_fmap in Ht.
    destruct (seqZ _ _ !! i); [|done]. injection Ht as <-.
    unfold computed_by. simpl.
    rewrite (proj2 (Z.ltb_ge kk 0)) by lia.
    destruct (Z.eqb_spec (Z.of_nat off) (Z.of_nat (off + S i))); [lia|done].
Qed.

Lemma computed_by_fine_tasks vs w (off : nat) :
  Forall (fun kk => costly_vector kk = true) vs ->
  Forall (fun kk => 0 <= kk) vs ->
  mjoin (imap (fun i => computed_by (off + i))
           (fine_tasks vs w (Z.of_nat off)))
  = vs.
Proof.
  intros Hvs. revert w off.
  induction Hvs as [|kk vs Hkk _ IH]; intros w off Hpos; [done|].
  apply Forall_cons in Hpos as [Hk Hpos].
  pose proof (costly_vector_team chunk_pos kk Hkk) as Hteam.
  cbn [fine_tasks]. rewrite imap_app, join_app.
  rewrite computed_by_fine_team by done.
  rewrite length_fine_team. cbn [app]. f_equal.
  replace (Z.of_nat off + team_size_of kk)
    with (Z.of_nat (off + Z.to_nat (team_size_of kk))) by lia.
  etrans; [|exact (IH (team_workspace kk w)
                       (off + Z.to_nat (team_size_of kk))%nat Hpos)].
  f_equal. apply imap_ext. intros i t _. f_equal. lia.
Qed.

(** What the tasks of the partition compute. *)
Lemma partition_tasks_computed Bflops2_0 :
  1 < ntasks_initial ->
  computed_vectors (partition_tasks Bflops2_0) ≡ₚ seqZ 0 bnvec.
Proof.
  intros Hn. unfold computed_vectors, partition_tasks.
  rewrite imap_app, join_app.
  rewrite (computed_by_coarse_tasks _ _
             (fun n => (length (fine_tasks all_split_vectors Bflops2_0 0)
                        + n)%nat)).
  assert (HF : mjoin (imap computed_by
                        (fine_tasks all_split_vectors Bflops2_0 0))
               = all_split_vectors).
  { apply (computed_by_fine_tasks all_split_vectors Bflops2_0 0
             (bind_split_vectors_costly _)).
    apply Forall_forall. intros kk Hkk.
    pose proof (all_split_vectors_range kk Hn Hkk). lia. }
  rewrite HF. unfold all_split_vectors, all_coarse_ranges.
  rewrite initial_vectors_shared_all.
  by rewrite initial_vectors_tile.
Qed.

(** The single task, fine when [B] has one vector and coarse otherwise. *)
Lemma create_single_task TL :
  ntasks_initial <= 1 ->
  create_single (replicate (Z.to_nat ntasks) zero_task) = Some TL ->
  exists t,
    TL = [t] /\ leader t = 0 /\ team_size t = 1
    /\ flops t = Bflops (bnvec - 1 + 1) - Bflops 0
    /\ ((bnvec = 1 /\ vector t = 0)
        \/ (bnvec <> 1 /\ vector t = -1 /\ start t = 0
            /\ end_ t = bnvec - 1)).
Proof.
  intros Hn Hc.
  unfold create_single, GB_create_coarse_task in Hc.
  rewrite coarse_task_defined in Hc. cbn [mbind option_bind] in Hc.
  unfold ntasks, count_tasks in Hc.
  rewrite (proj2 (Z.ltb_ge 1 ntasks_initial)) in Hc by lia.
  destruct (Z.eqb_spec bnvec 1) as [Hb|Hb]; simpl in Hc;
    injection Hc as <-; eexists; (split; [reflexivity|]); simpl;
    repeat (split; [done|]); [by left|by right].
Qed.

(** X1.  The tasks that are created compute every vector of [C] once:
    the vectors of the coarse tasks and the vectors of the teams of fine
    tasks are, together, the vectors [0..bnvec-1], none missing and none
    twice ("a coarse task computes C(:,j1:j2) for a unique set of vectors
    j1:j2; those vectors are not shared with any other tasks"). *)
Theorem every_vector_is_computed_once Bflops2_0 TL :
  create_tasks Bflops2_0 = Some TL ->
  computed_vectors TL ≡ₚ seqZ 0 bnvec.
Proof.
  intros Hc. destruct (Z.lt_ge_cases 1 ntasks_initial) as [Hn|Hn].
  - destruct (create_tasks_refines chunk_pos Bflops2_0 Hn) as [Hc' _].
    rewrite Hc' in Hc. injection Hc as <-.
    by apply partition_tasks_computed.
  - unfold create_tasks in Hc.
    rewrite (proj2 (Z.ltb_ge 1 ntasks_initial)) in Hc by lia.
    destruct (create_single_task TL Hn Hc)
      as (t & -> & Hl & _ & _ & [[Hb Hv]|(Hb & Hv & Hs & He)]);
      unfold computed_vectors, computed_by; simpl; rewrite Hv; simpl.
    + by rewrite Hl, Hb.
    + rewrite app_nil_r. unfold coarse_vectors. rewrite Hs, He.
      apply reflexive_eq. f_equal. lia.
Qed.

(** *** The ids of the tasks and their teams *)

Lemma fine_team_fields kk w leader' :
  Forall (fun m => vector m = kk /\ leader m = leader'
                   /\ team_size m = team_size_of kk
                   /\ hsize m = hash_size_of (vector_flops kk) cvlen
                                  AxB_method)
         (fine_team kk w leader').
Proof.
  unfold fine_team. apply Forall_fmap, Forall_forall. by intros fid _.
Qed.

(** The team of a fine task of the partition: its leader is [n] tasks
    into the list, and the team is the tasks from there on. *)
Lemma partition_tasks_team Bflops2_0 (i : nat) t :
  1 < ntasks_initial ->
  fine_tasks all_split_vectors Bflops2_0 0 !! i = Some t ->
  exists kk w' (n : nat),
    kk ∈ all_split_vectors /\ costly_vector kk = true
    /\ vector t = kk /\ team_size t = team_size_of kk
    /\ leader t = Z.of_nat n
    /\ (n <= i < n + Z.to_nat (team_size_of kk))%nat
    /\ team_of (partition_tasks Bflops2_0) n t
       = fine_team kk w' (Z.of_nat n).
Proof.
  intros Hn Ht.
  pose proof (bind_split_vectors_costly (seqZ 0 ntasks_initial)) as Hall.
  fold all_split_vectors in Hall.
  destruct (fine_tasks_member _ _ _ _ _ Hall Ht)
    as (kk & w' & n & Hin & Hle & Hv & Hs & Hh & Hl & _ & Htk).
  rewrite Z.add_0_l in Hl, Htk.
  exists kk, w', n. rewrite Forall_forall in Hall.
  repeat (split; [by auto|]).
  unfold team_of, partition_tasks. rewrite Hs, drop_app, take_app_le.
  - exact Htk.
  - apply (f_equal length) in Htk.
    rewrite length_take, length_fine_team in Htk. lia.
Qed.

(** X2.  In the list of tasks that is created, the fine tasks have the
    ids [0..nfine-1] and the coarse tasks the ids after them, so that the
    two tests for a fine task, [taskid < nfine] and [vector >= 0], agree.
    A coarse task has [vector == -1], leads itself and has a team of one.
    A fine task is one of the [team_size] tasks from its leader on, and
    the whole team has the vector, the leader, the team size and the size
    of the hash table of the leader (the assertions of "assign shared
    hash tables to fine task teams"). *)
Theorem fine_tasks_come_first_in_teams Bflops2_0 TL (taskid : nat) t :
  create_tasks Bflops2_0 = Some TL ->
  TL !! taskid = Some t ->
  (Z.of_nat taskid < nfine count_tasks <-> 0 <= vector t)
  /\ (vector t < 0 ->
      vector t = -1 /\ leader t = Z.of_nat taskid /\ team_size t = 1)
  /\ (0 <= vector t ->
      exists l : nat,
        leader t = Z.of_nat l
        /\ (l <= taskid < l + Z.to_nat (team_size t))%nat
        /\ length (team_of TL l t) = Z.to_nat (team_size t)
        /\ Forall (fun m => vector m = vector t /\ leader m = leader t
                            /\ team_size m = team_size t
                            /\ hsize m = hsize t)
                  (team_of TL l t)).
Proof.
  intros Hc Ht. destruct (Z.lt_ge_cases 1 ntasks_initial) as [Hn|Hn].
  - destruct (create_tasks_refines chunk_pos Bflops2_0 Hn) as [Hc' _].
    rewrite Hc' in Hc. injection Hc as <-.
    pose proof (count_tasks_spec Hn) as [_ Hnfine].
    pose proof (bind_split_vectors_costly (seqZ 0 ntasks_initial)) as Hall.
    fold all_split_vectors in Hall.
    pose proof (length_fine_tasks chunk_pos all_split_vectors Bflops2_0 0 Hall)
      as Hlen.
    rewrite <- Hnfine in Hlen.
    pose proof Ht as Ht0. unfold partition_tasks in Ht.
    apply lookup_app_Some in Ht as [Ht|[Hge Ht]].
    + (* a fine task *)
      pose proof (lookup_lt_Some _ _ _ Ht) as Hlt.
      destruct (partition_tasks_team Bflops2_0 _ _ Hn Ht)
        as (kk & w' & n & Hin & Hcost & Hv & Hs & Hl & Hi & Hteam).
      pose proof (all_split_vectors_range kk Hn Hin) as Hr.
      pose proof (fine_team_lookup kk w' (Z.of_nat n)
                    (Z.of_nat (taskid - n))) as Hmember.
      split; [lia|]. split; [lia|]. intros _.
      exists n. split; [done|]. split; [lia|].
      assert (Hsame : team_of (partition_tasks Bflops2_0) n t
                      = fine_team kk w' (Z.of_nat n)) by exact Hteam.
      rewrite Hsame, length_fine_team, Hs. split; [done|].
      rewrite Hv, Hl.
      eapply Forall_impl; [apply fine_team_fields|].
      intros m (-> & -> & -> & Hh). split; [done|]. split; [done|].
      split; [done|].
      (* the size of the table of [t] *)
      pose proof (bind_split_vectors_costly (seqZ 0 ntasks_initial)) as Hc2.
      fold all_split_vectors in Hc2.
      destruct (fine_tasks_member _ _ _ _ _ Hc2 Ht)
        as (kk2 & _ & _ & _ & _ & Hv2 & _ & Hh2 & _).
      rewrite Hh, Hh2. congruence.
    + (* a coarse task *)
      rewrite coarse_tasks_lookup in Ht.
      destruct (all_coarse_ranges !! _) as [r|]; [|done].
      injection Ht as <-. cbn [vector leader team_size coarse_of_range].
      split; [lia|]. split; [|lia]. intros _.
      split; [done|]. split; [lia|done].
  - unfold create_tasks in Hc.
    rewrite (proj2 (Z.ltb_ge 1 ntasks_initial)) in Hc by lia.
    unfold create_single, GB_create_coarse_task in Hc.
    rewrite coarse_task_defined in Hc. cbn [mbind option_bind] in Hc.
    unfold ntasks, count_tasks in Hc |- *.
    rewrite (proj2 (Z.ltb_ge 1 ntasks_initial)) in Hc |- * by lia.
    destruct (Z.eqb_spec bnvec 1) as [Hb|Hb]; simpl in Hc;
      injection Hc as <-; destruct taskid as [|taskid]; try done;
      injection Ht as <-; simpl.
    + split; [lia|]. split; [lia|]. intros _. exists 0%nat.
      split; [done|]. split; [lia|]. split; [done|].
      unfold team_of. simpl. by apply Forall_singleton.
    + split; [lia|]. split; [done|]. lia.
Qed.

(** X3.  The fine tasks of a team share out the entries of their vector:
    the ranges [start..end] of the [team_size] tasks from the leader on,
    one after the other, are the positions of the entries of [B(:,kk)],
    each position once. *)
Theorem team_shares_out_the_entries Bflops2_0 TL (taskid : nat) t :
  create_tasks Bflops2_0 = Some TL ->
  TL !! taskid = Some t ->
  0 <= vector t -> leader t = Z.of_nat taskid ->
  team_of TL taskid t ≫= fine_entries
  = seqZ (GBP_B (vector t)) (bjnz_of (vector t)).
Proof.
  intros Hc Ht Hv Hl. destruct (Z.lt_ge_cases 1 ntasks_initial) as [Hn|Hn].
  - destruct (create_tasks_refines chunk_pos Bflops2_0 Hn) as [Hc' _].
    rewrite Hc' in Hc. injection Hc as <-.
    unfold partition_tasks in Ht.
    apply lookup_app_Some in Ht as [Ht|[Hge Ht]].
    + destruct (partition_tasks_team Bflops2_0 _ _ Hn Ht)
        as (kk & w' & n & Hin & Hcost & Hvec & Hs & Hl' & Hi & Hteam).
      assert (n = taskid) as -> by lia.
      rewrite Hteam, Hvec. by apply fine_team_entries.
    + rewrite coarse_tasks_lookup in Ht.
      destruct (all_coarse_ranges !! _) as [r|]; [|done].
      injection Ht as <-. simpl in Hv. lia.
  - unfold create_tasks in Hc.
    rewrite (proj2 (Z.ltb_ge 1 ntasks_initial)) in Hc by lia.
    unfold create_single, GB_create_coarse_task in Hc.
    rewrite coarse_task_defined in Hc. cbn [mbind option_bind] in Hc.
    unfold ntasks, count_tasks in Hc.
    rewrite (proj2 (Z.ltb_ge 1 ntasks_initial)) in Hc by lia.
    destruct (Z.eqb_spec bnvec 1) as [Hb|Hb]; simpl in Hc;
      injection Hc as <-; destruct taskid as [|taskid]; try done;
      injection Ht as <-; simpl in Hv; [|lia].
    unfold team_of, fine_entries. simpl.
    rewrite app_nil_r, entries_of, first_entry.
    change (0 + 1) with 1. f_equal; lia.
Qed.

(** *** The workspace of the fine tasks *)

Lemma count_vector_max_bjnz cols ks c :
  max_bjnz (foldl count_vector (ks, c) cols).2
  = foldl GB_IMAX (max_bjnz c)
      (bjnz_of <$> filter (fun kk => costly_vector kk = true) cols).
Proof.
  revert ks c. induction cols as [|kk cols IH]; intros ks c; [done|].
  cbn [foldl]. rewrite filter_cons. unfold count_vector at 2.
  destruct (costly_vector kk) eqn:Hc.
  - rewrite decide_True by done. rewrite IH, fmap_cons. cbn [foldl max_bjnz].
    by destruct (ks <? kk).
  - rewrite decide_False by congruence. apply IH.
Qed.

Lemma count_initial_max_bjnz c taskid :
  max_bjnz (count_initial c taskid)
  = foldl GB_IMAX (max_bjnz c) (bjnz_of <$> split_vectors taskid).
Proof.
  unfold count_initial, split_vectors, decomposed, initial_vectors.
  destruct (Z.eqb_spec (Coarse_initial (taskid + 1)
                        - Coarse_initial taskid) 0) as [H0|H0]; [done|].
  cbn [negb andb].
  destruct (too_costly _ _); [|done].
  pose proof (count_vector_max_bjnz
                (seqZ (Coarse_initial taskid)
                   (Coarse_initial (taskid + 1) - Coarse_initial taskid))
                (Coarse_initial taskid) c) as Hmax.
  destruct (foldl count_vector _ _) as [ks c'].
  cbn [snd] in Hmax. rewrite <- Hmax. by destruct (ks <? _).
Qed.

Lemma count_tasks_max_bjnz :
  1 < ntasks_initial ->
  max_bjnz count_tasks = foldl GB_IMAX 0 (bjnz_of <$> all_split_vectors).
Proof.
  intros Hn. unfold count_tasks, all_split_vectors.
  rewrite (proj2 (Z.ltb_lt 1 ntasks_initial)) by done.
  assert (Hloop : forall ts c,
            max_bjnz (foldl count_initial c ts)
            = foldl GB_IMAX (max_bjnz c)
                (bjnz_of <$> (ts ≫= split_vectors))).
  { induction ts as [|t ts IH]; intros c; [done|].
    cbn [foldl]. rewrite bind_cons, fmap_app, foldl_app, IH.
    by rewrite count_initial_max_bjnz. }
  by rewrite Hloop.
Qed.

Lemma team_total_elem vs kk :
  Forall (fun kk => costly_vector kk = true) vs ->
  kk ∈ vs -> team_size_of kk <= team_total vs.
Proof.
  induction 1 as [|v vs Hv Hvs IH]; intros Hkk;
    [by apply elem_of_nil in Hkk|].
  rewrite team_total_cons.
  pose proof (costly_vector_team chunk_pos v Hv).
  pose proof (team_total_costly chunk_pos vs Hvs).
  apply elem_of_cons in Hkk as [->|Hkk]; [lia|].
  specialize (IH Hkk). lia.
Qed.

(** X4.  The workspace to construct the fine tasks is large enough.
    With more than one initial coarse task, every fine task that is
    created belongs to a vector with more than one entry and at most
    [max_bjnz] entries, in a team of at least one and at most [nfine]
    tasks, with [nfine <= ntasks]: [Bflops2], of [max_bjnz+1] entries,
    holds the cumulative flop counts [0..bjnz] of the vector, and
    [Fine_slice], of [ntasks+1] entries, holds the [team_size+1] slices;
    and both are allocated ([max_bjnz > 0]) whenever there is a fine
    task. *)
Theorem fine_task_workspace_is_large_enough Bflops2_0 TL (taskid : nat) t :
  1 < ntasks_initial ->
  create_tasks Bflops2_0 = Some TL ->
  TL !! taskid = Some t -> 0 <= vector t ->
  1 < bjnz_of (vector t) <= max_bjnz count_tasks
  /\ 1 <= team_size t <= nfine count_tasks
  /\ nfine count_tasks <= ntasks.
Proof.
  intros Hn Hc Ht Hv.
  destruct (create_tasks_refines chunk_pos Bflops2_0 Hn) as [Hc' _].
  rewrite Hc' in Hc. injection Hc as <-.
  pose proof (count_tasks_spec Hn) as [Hncoarse Hnfine].
  pose proof (bind_split_vectors_costly (seqZ 0 ntasks_initial)) as Hall.
  fold all_split_vectors in Hall.
  unfold partition_tasks in Ht.
  apply lookup_app_Some in Ht as [Ht|[Hge Ht]].
  2:{ rewrite coarse_tasks_lookup in Ht.
      destruct (all_coarse_ranges !! _) as [r|]; [|done].
      injection Ht as <-. simpl in Hv. lia. }
  destruct (partition_tasks_team Bflops2_0 _ _ Hn Ht)
    as (kk & w' & n & Hin & Hcost & Hvec & Hs & _).
  rewrite Hvec, Hs. split; [split|split; [split|]].
  - unfold costly_vector in Hcost.
    apply andb_true_iff in Hcost as [_ Hb]. by apply Z.ltb_lt in Hb.
  - rewrite (count_tasks_max_bjnz Hn).
    apply foldl_GB_IMAX_elem, list_elem_of_fmap. eauto.
  - by apply (costly_vector_team chunk_pos).
  - rewrite Hnfine. by apply team_total_elem.
  - unfold ntasks. lia.
Qed.


(** *** The flops of the tasks *)

Definition Zsum (l : list Z) : Z := foldr Z.add 0 l.

(** The flops a task accounts for: a coarse task its [flops]; a team of
    fine tasks the flops of its vector, counted at the leader. *)
Definition accounted (taskid : nat) (t : GB_saxpy3task_struct) : Z :=
  if vector t <? 0 then flops t
  else if leader t =? Z.of_nat taskid then vector_flops (vector t) else 0.

Lemma Zsum_app l1 l2 : Zsum (l1 ++ l2) = Zsum l1 + Zsum l2.
Proof. induction l1 as [|x l1 IH]; simpl; lia. Qed.

Lemma Zsum_perm l1 l2 : l1 ≡ₚ l2 -> Zsum l1 = Zsum l2.
Proof.
  induction 1 as [|x l1 l2 _ IH|x y l|l1 l2 l3 _ IH1 _ IH2]; simpl; lia.
Qed.

(** The flop counts of consecutive vectors telescope. *)
Lemma Zsum_vector_flops a n :
  0 <= n -> Zsum (vector_flops <$> seqZ a n) = Bflops (a + n) - Bflops a.
Proof.
  intros Hn. rewrite <- (Z2Nat.id n) by done.
  generalize (Z.to_nat n). clear. intros n. revert a.
  induction n as [|n IH]; intros a.
  - simpl. rewrite Z.add_0_r. lia.
  - rewrite seqZ_cons by lia.
    replace (Z.pred (Z.of_nat (S n))) with (Z.of_nat n) by lia.
    rewrite fmap_cons. simpl. rewrite IH. unfold vector_flops.
    replace (Z.succ a + Z.of_nat n) with (a + Z.of_nat (S n)) by lia.
    replace (Z.succ a) with (a + 1) by lia. lia.
Qed.

Lemma Zsum_imap_join {T} (f : nat -> T -> Z) (g : nat -> T -> list Z)
    (h : Z -> Z) (l : list T) :
  (forall i x, l !! i = Some x -> f i x = Zsum (h <$> g i x)) ->
  Zsum (imap f l) = Zsum (h <$> mjoin (imap g l)).
Proof.
  revert f g. induction l as [|x l IH]; intros f g Hfg; [done|].
  rewrite !imap_cons. cbn [mjoin list_join]. rewrite fmap_app, Zsum_app.
  simpl. rewrite (Hfg 0%nat x eq_refl). f_equal.
  apply IH. intros i y Hy. apply (Hfg (S i) y Hy).
Qed.

(** A coarse range is not reversed. *)
Lemma all_coarse_ranges_ordered r :
  1 < ntasks_initial -> r ∈ all_coarse_ranges -> r.1 <= r.2 + 1.
Proof.
  intros Hn Hr. unfold all_coarse_ranges in Hr.
  apply list_elem_of_bind in Hr as (taskid & Hr & Ht).
  apply elem_of_seqZ in Ht.
  destruct (decomposed taskid) eqn:Hd.
  - destruct (coarse_ranges_decomposed taskid Hd) as [_ Hmax].
    rewrite Forall_forall in Hmax. destruct (Hmax r Hr) as [Hle _]. lia.
  - unfold coarse_ranges in Hr. rewrite Hd in Hr.
    destruct (_ =? 0); [by apply elem_of_nil in Hr|].
    apply list_elem_of_singleton in Hr. subst r. simpl.
    pose proof (initial_slices Hn taskid ltac:(lia)). lia.
Qed.

(** X19.  The tasks account for all the flops: the [flops] of the coarse
    tasks and the flop counts of the vectors that teams of fine tasks
    compute add up to the total [Bflops [bnvec] - Bflops [0]]. *)
Theorem tasks_account_for_all_flops Bflops2_0 TL :
  create_tasks Bflops2_0 = Some TL ->
  Zsum (imap accounted TL) = Bflops bnvec - Bflops 0.
Proof.
  intros Hc. destruct (Z.lt_ge_cases 1 ntasks_initial) as [Hn|Hn].
  - destruct (create_tasks_refines chunk_pos Bflops2_0 Hn) as [Hc' _].
    rewrite Hc' in Hc. injection Hc as <-.
    rewrite (Zsum_imap_join accounted computed_by vector_flops).
    + fold (computed_vectors (partition_tasks Bflops2_0)).
      rewrite (Zsum_perm _ (vector_flops <$> seqZ 0 bnvec)).
      * by rewrite Zsum_vector_flops, Z.add_0_l.
      * by rewrite (partition_tasks_computed Bflops2_0 Hn).
    + intros i t Ht. unfold accounted, computed_by.
      destruct (Z.ltb_spec (vector t) 0) as [Hv|Hv].
      2:{ destruct (_ =? _); simpl; lia. }
      unfold partition_tasks in Ht.
      apply lookup_app_Some in Ht as [Ht|[_ Ht]].
      { pose proof (bind_split_vectors_costly (seqZ 0 ntasks_initial))
          as Hall. fold all_split_vectors in Hall.
        destruct (fine_tasks_member _ _ _ _ _ Hall Ht)
          as (kk & _ & _ & Hin & _ & Hvec & _).
        pose proof (all_split_vectors_range kk Hn Hin). lia. }
      rewrite coarse_tasks_lookup in Ht.
      destruct (all_coarse_ranges !! _) as [r|] eqn:Hr; [|done].
      injection Ht as <-. apply list_elem_of_lookup_2 in Hr.
      pose proof (all_coarse_ranges_ordered r Hn Hr) as Hle.
      unfold coarse_vectors. cbn [flops start end_ coarse_of_range].
      rewrite Zsum_vector_flops by lia. f_equal. f_equal. lia.
  - unfold create_tasks in Hc.
    rewrite (proj2 (Z.ltb_ge 1 ntasks_initial)) in Hc by lia.
    destruct (create_single_task TL Hn Hc)
      as (t & -> & Hl & _ & Hf & [[Hb Hv]|(Hb & Hv & _)]);
      unfold accounted; simpl; rewrite Hv; simpl.
    + rewrite Hl. simpl. unfold vector_flops. rewrite Hb.
      change (0 + 1) with 1. lia.
    + rewrite Hf. replace (bnvec - 1 + 1) with bnvec by lia. lia.
Qed.

(** The flop count of entry [s] of [B(:,j)], whose first entry is at
    [pB_start]: the length of the vector of [A] that it meets. *)
Definition entry_fl (pB_start s : Z) : Z :=
  (GB_lookup_A (GBI_B (pB_start + s))).2
  - (GB_lookup_A (GBI_B (pB_start + s))).1.

(** The loop over the entries fills [Bflops2 [0..bjnz-1]]. *)
Lemma entry_flops_filled pB_start w (n : nat) s :
  (forall pB, GBB_B pB = true) ->
  foldl (entry_flops pB_start) w (seqZ 0 (Z.of_nat n)) s
  = if decide (0 <= s < Z.of_nat n) then entry_fl pB_start s else w s.
Proof.
  intros Hb. induction n as [|n IH].
  - simpl. rewrite decide_False by lia. done.
  - replace (Z.of_nat (S n)) with (Z.of_nat n + 1) by lia.
    rewrite seqZ_app, foldl_app by lia. cbn [seqZ foldl].
    change (seqZ (0 + Z.of_nat n) 1) with [0 + Z.of_nat n].
    cbn [foldl]. unfold entry_flops at 1. rewrite Hb. cbn [negb].
    destruct (GB_lookup_A _) as [pA pA_end] eqn:Hlook.
    destruct (decide (s = 0 + Z.of_nat n)) as [->|Hne].
    + rewrite fn_lookup_insert, decide_True by lia.
      unfold entry_fl. by rewrite Hlook.
    + rewrite fn_lookup_insert_ne, IH by done.
      destruct (decide (0 <= s < Z.of_nat n)),
        (decide (0 <= s < Z.of_nat n + 1)); try done; lia.
Qed.

(** The flops of a team telescope over its slices. *)
Lemma Zsum_team_flops kk pB_start (Slice w' : Z -> Z) hs leader' team a
    (n : nat) :
  Zsum (flops <$> (fine_task kk pB_start Slice w' hs leader' team
                   <$> seqZ a (Z.of_nat n)))
  = w' (Slice (a + Z.of_nat n)) - w' (Slice a).
Proof.
  revert a. induction n as [|n IH]; intros a.
  - simpl. rewrite Z.add_0_r. lia.
  - rewrite seqZ_cons by lia.
    replace (Z.pred (Z.of_nat (S n))) with (Z.of_nat n) by lia.
    rewrite !fmap_cons. cbn [Zsum foldr]. fold (Zsum).
    rewrite IH. cbn [flops fine_task].
    replace (Z.succ a + Z.of_nat n) with (a + Z.of_nat (S n)) by lia.
    replace (Z.succ a) with (a + 1) by lia. lia.
Qed.

(** X20.  The flops of the fine tasks of a team add up to the flops of
    the entries of their vector, [A(:,k)*B(k,j)] for each entry [B(k,j)],
    whatever [Bflops2] held before.  [B] has all its entries (it is not a
    bitmap), and [GB_cumsum] replaces [count [0..n]] by its cumulative
    sum. *)
Theorem team_flops_add_up Bflops2_0 TL (taskid : nat) t :
  (forall pB, GBB_B pB = true) ->
  (forall count n k,
     0 <= k <= n -> GB_cumsum count n k = Zsum (count <$> seqZ 0 k)) ->
  1 < ntasks_initial ->
  create_tasks Bflops2_0 = Some TL ->
  TL !! taskid = Some t -> 0 <= vector t ->
  leader t = Z.of_nat taskid ->
  Zsum (flops <$> team_of TL taskid t)
  = Zsum (entry_fl (GBP_B (vector t)) <$> seqZ 0 (bjnz_of (vector t))).
Proof.
  intros Hb Hcum Hn Hc Ht Hv Hl.
  destruct (create_tasks_refines chunk_pos Bflops2_0 Hn) as [Hc' _].
  rewrite Hc' in Hc. injection Hc as <-.
  assert (Hfine : fine_tasks all_split_vectors Bflops2_0 0 !! taskid
                  = Some t).
  { unfold partition_tasks in Ht.
    apply lookup_app_Some in Ht as [Ht|[_ Ht]]; [done|].
    rewrite coarse_tasks_lookup in Ht.
    destruct (all_coarse_ranges !! _) as [r|]; [|done].
    injection Ht as <-. simpl in Hv. lia. }
  destruct (partition_tasks_team Bflops2_0 _ _ Hn Hfine)
    as (kk & w & n & Hin & Hcost & Hvec & Hs & Hlead & Hrange & Hteam).
  assert (n = taskid) as -> by lia.
  rewrite Hteam, Hvec. unfold fine_team.
  pose proof (costly_vector_team chunk_pos kk Hcost) as Hsize.
  assert (Hbj : 1 < bjnz_of kk).
  { unfold costly_vector in Hcost.
    apply andb_true_iff in Hcost as [_ Hcost]. by apply Z.ltb_lt in Hcost. }
  rewrite <- (Z2Nat.id (team_size_of kk)) at 3 by lia.
  rewrite Zsum_team_flops, Z2Nat.id, Z.add_0_l by lia.
  destruct (slices_ok (team_workspace kk w) (bjnz_of kk) (team_size_of kk))
    as (-> & -> & _); [lia|lia|].
  unfold team_workspace. rewrite !Hcum by lia.
  rewrite (seqZ_nil 0 0) by lia. cbn [fmap list_fmap Zsum foldr].
  rewrite Z.sub_0_r. f_equal. apply list_fmap_ext. intros i s Hs'.
  apply lookup_seqZ in Hs' as [-> Hi].
  rewrite <- (Z2Nat.id (bjnz_of kk)) at 1 by lia.
  rewrite entry_flops_filled by done.
  rewrite Z2Nat.id by lia. by rewrite decide_True by lia.
Qed.

(** *** The flop bound of a coarse task *)

(** X5.  The debug check of [GB_create_coarse_task] holds: the maximum
    that the threads find over their shares of the vectors, combined, is
    the maximum [flmax2] that the sequential loop over
    [kfirst..klast] finds; it is at least 1, and no vector of the task
    has a larger flop count. *)
Theorem coarse_flmax_is_the_sequential_maximum kfirst klast chunk'
    nthreads_max' :
  coarse_flmax kfirst klast chunk' nthreads_max'
  = foldl GB_IMAX 1 (vector_flops <$> seqZ kfirst (klast - kfirst + 1))
  /\ 1 <= coarse_flmax kfirst klast chunk' nthreads_max'
  /\ forall kk, kfirst <= kk <= klast ->
       vector_flops kk <= coarse_flmax kfirst klast chunk' nthreads_max'.
Proof.
  rewrite (coarse_flmax_flop_bound nthreads_pos partition_covers).
  split; [done|]. split; [apply flop_bound_ge_1|].
  intros kk Hkk. apply flop_bound_elem, elem_of_seqZ. lia.
Qed.

(** *** The method hint *)

(** X6.  With the hint [GxB_AxB_GUSTAVSON], every task that is created is
    a Gustavson task: its [hsize] is [cvlen], whatever the flop counts
    are. *)
Theorem gustavson_hint_gives_gustavson_tasks Bflops2_0 TL :
  AxB_method = GxB_AxB_GUSTAVSON ->
  create_tasks Bflops2_0 = Some TL ->
  Forall (fun t => hsize t = cvlen) TL.
Proof.
  intros Hm Hc.
  assert (Hsize : forall flmax, hash_size_of flmax cvlen AxB_method = cvlen).
  { intros flmax. unfold hash_size_of. by rewrite Hm. }
  destruct (Z.lt_ge_cases 1 ntasks_initial) as [Hn|Hn].
  - destruct (create_tasks_refines chunk_pos Bflops2_0 Hn) as [Hc' _].
    rewrite Hc' in Hc. injection Hc as <-.
    pose proof (bind_split_vectors_costly (seqZ 0 ntasks_initial)) as Hall.
    fold all_split_vectors in Hall.
    apply Forall_lookup. intros i t Ht. unfold partition_tasks in Ht.
    apply lookup_app_Some in Ht as [Ht|[Hge Ht]].
    + destruct (fine_tasks_member _ _ _ _ _ Hall Ht)
        as (kk & _ & _ & _ & _ & _ & _ & Hh & _).
      by rewrite Hh.
    + rewrite coarse_tasks_lookup in Ht.
      destruct (all_coarse_ranges !! _) as [r|]; [|done].
      injection Ht as <-. apply Hsize.
  - unfold create_tasks in Hc.
    rewrite (proj2 (Z.ltb_ge 1 ntasks_initial)) in Hc by lia.
    unfold create_single, GB_create_coarse_task in Hc.
    rewrite coarse_task_defined in Hc. cbn [mbind option_bind] in Hc.
    unfold ntasks, count_tasks in Hc.
    rewrite (proj2 (Z.ltb_ge 1 ntasks_initial)) in Hc by lia.
    destruct (bnvec =? 1); simpl in Hc; injection Hc as <-;
      apply Forall_singleton; apply Hsize.
Qed.

End Covering.


End Phase0.

End Partition.

(** ** A worked partition *)

Module PartitionExample.

Import HashSize Partition.

(** A C array given by its contents. *)
Definition read (l : list Z) (k : Z) : Z :=
  if k <? 0 then 0 else nth (Z.to_nat k) l 0.

Lemma read_bounds l lo hi k :
  lo <= 0 <= hi -> Forall (fun x => lo <= x <= hi) l -> lo <= read l k <= hi.
Proof.
  intros H0 Hl. unfold read. destruct (k <? 0); [lia|].
  generalize (Z.to_nat k). intros n. revert n.
  induction Hl as [|x l Hx _ IH]; intros [|n]; simpl; auto.
Qed.

(** B has four vectors with 1, 4, 1 and 2 entries; every vector of A has
    25 entries, except that the flop counts below are given directly. *)
Definition Bflops : Z -> Z := read [0; 1; 101; 102; 104].
Definition Bp : Z -> Z := read [0; 1; 5; 6; 8].

(** Slices balanced on a cumulative work array. *)
Definition pslice (Work : Z -> Z) (n ntasks : Z) (t : Z) : Z :=
  if t <=? 0 then 0
  else if ntasks <=? t then n
  else Z.of_nat (length (filter (fun k => Work k < t * Work n / ntasks)
                                (seqZ 0 n))).

Definition cumsum (count : Z -> Z) (n : Z) (i : Z) : Z :=
  foldl Z.add 0 (count <$> seqZ 0 (Z.min i n)).

(** One thread takes the whole range. *)
Definition one_thread (work : Z) (chunk : Q) (nthreads_max : Z) : Z := 1.
Definition whole_range (n tid nth : Z) : Z * Z := (0, n).

Definition tasks : option (list GB_saxpy3task_struct) :=
  create_tasks Bflops (Some Bp) 8 4 100000 GxB_DEFAULT 1%Q 2 2
    one_thread whole_range pslice cumsum Bp (fun p => p) (fun _ => true)
    (fun k => (0, 25)) (fun _ => 0).

Definition expected : list GB_saxpy3task_struct :=
  partition_tasks Bflops (Some Bp) 8 4 100000 GxB_DEFAULT 1%Q 2 2
    one_thread whole_range pslice cumsum Bp (fun p => p) (fun _ => true)
    (fun k => (0, 25)) (fun _ => 0).

Example Coarse_initial_values :
  Coarse_initial Bflops 4 2 pslice <$> seqZ 0 5 = [0; 2; 2; 2; 4].
Proof. vm_compute. reflexivity. Qed.

Example ntasks_value : ntasks Bflops (Some Bp) 8 4 1%Q 2 pslice = 10.
Proof. vm_compute. reflexivity. Qed.

Example tasks_vectors :
  (fun t => (vector t, start t, end_ t, hsize t)) <$> default [] tasks =
  [(1, 1, 1, 256); (1, 2, 1, 256); (1, 2, 2, 256); (1, 3, 2, 256);
   (1, 3, 3, 256); (1, 4, 3, 256); (1, 4, 4, 256); (1, 5, 4, 256);
   (-1, 0, 0, 4); (-1, 2, 3, 8)].
Proof. vm_compute. reflexivity. Qed.


Lemma hash_sizer_argument_positive_witness : is_Some tasks.
Proof.
  refine (proj2 (proj2 (proj2 (hash_sizer_argument_positive Bflops (Some Bp)
    8 4 100000 GxB_DEFAULT 1%Q 2 2 one_thread whole_range pslice cumsum Bp
    (fun p => p) (fun _ => true) (fun k => (0, 25)) _))) (fun _ => 0)).
  left. vm_compute. discriminate.
Defined.

Lemma Bflops_bounded kk : vector_flops Bflops kk < 2 ^ 61.
Proof.
  unfold vector_flops, Bflops.
  assert (Hl : Forall (fun x => 0 <= x <= 104) [0; 1; 101; 102; 104])
    by (repeat constructor; lia).
  pose proof (read_bounds _ 0 104 (kk + 1) ltac:(lia) Hl).
  pose proof (read_bounds _ 0 104 kk ltac:(lia) Hl).
  lia.
Defined.

Lemma whole_range_covers n nth i :
  1 <= nth ->
  0 <= i < n <->
  exists tid, 0 <= tid < nth
    /\ (whole_range n tid nth).1 <= i < (whole_range n tid nth).2.
Proof.
  intros Hnth. simpl. split.
  - intros Hi. exists 0. lia.
  - intros (tid & _ & Hi). exact Hi.
Defined.


End PartitionExample.

(** ** GB_AxB_saxpy3: workspace, mask decision and kernel dispatch *)

Module Saxpy3.

Import HashSize.

(** *** Workspace and allocations *)

(** The workspace arrays of GB_AxB_saxpy3.  [GB_FREE (p)] frees [p] and
    sets it to [NULL], so a workspace pointer is not [NULL] exactly while
    its array is allocated: the state keeps the set of allocated arrays. *)
Inductive workspace : Set :=
  | Hi_all
  | Hf_all
  | Hx_all
  | Coarse_initial
  | Coarse_Work
  | TaskList
  | Fine_slice
  | Bflops2.

#[global] Instance workspace_eq_dec : EqDecision workspace.
Proof. solve_decision. Defined.

Definition workspace_code (w : workspace) : nat :=
  match w with
  | Hi_all => 0 | Hf_all => 1 | Hx_all => 2 | Coarse_initial => 3
  | Coarse_Work => 4 | TaskList => 5 | Fine_slice => 6 | Bflops2 => 7
  end%nat.

Definition workspace_decode (n : nat) : option workspace :=
  match n with
  | 0 => Some Hi_all | 1 => Some Hf_all | 2 => Some Hx_all
  | 3 => Some Coarse_initial | 4 => Some Coarse_Work | 5 => Some TaskList
  | 6 => Some Fine_slice | 7 => Some Bflops2 | _ => None
  end%nat.

#[global] Instance workspace_countable : Countable workspace.
Proof.
  apply (inj_countable workspace_code workspace_decode). by intros [].
Defined.

(** What the function allocates: the output matrix, through [GB_new], and
    the workspace arrays. *)
Inductive allocation : Set :=
  | alloc_C
  | alloc_workspace (w : workspace).

#[global] Instance allocation_eq_dec : EqDecision allocation.
Proof. solve_decision. Defined.

Section Saxpy3.

(** Matrices are opaque here: their contents are read and written by the
    functions of other files. *)
Variable Matrix : Type.
(** Contents of the hash tables. *)
Variable Tables : Type.

(** State of a call: the caller's [*Chandle] and [*mask_applied], the
    allocated workspace, and the allocations attempted so far with their
    results. *)
Record state : Type := {
  Chandle : option Matrix;
  mask_applied : bool;
  live : gset workspace;
  attempts : list (allocation * bool)
}.

(** A step either goes on with a value, or returns from the function with
    a status, or has no defined behaviour. *)
Inductive result (A : Type) : Type :=
  | Next (a : A) (s : state)
  | Return (info : GrB_Info) (s : state)
  | Undefined.
Arguments Next {A} a s.
Arguments Return {A} info s.
Arguments Undefined {A}.

Definition step (A : Type) : Type := state -> result A.

Definition ret {A} (a : A) : step A := fun s => Next a s.

Definition bind {A B} (m : step A) (f : A -> step B) : step B :=
  fun s =>
    match m s with
    | Next a s' => f a s'
    | Return info s' => Return info s'
    | Undefined => Undefined
    end.

#[local] Instance step_bind : MBind step := fun A B f m => bind m f.
#[local] Instance step_ret : MRet step := fun A a => ret a.

(** [return (info)]. *)
Definition return_ {A} (info : GrB_Info) : step A := fun s => Return info s.

Definition undefined {A} : step A := fun _ => Undefined.

Definition set_Chandle (C : option Matrix) : step unit :=
  fun s => Next tt {| Chandle := C; mask_applied := mask_applied s;
                      live := live s; attempts := attempts s |}.

Definition set_mask_applied (b : bool) : step unit :=
  fun s => Next tt {| Chandle := Chandle s; mask_applied := b;
                      live := live s; attempts := attempts s |}.

Definition is_allocated (w : workspace) : step bool :=
  fun s => Next (bool_decide (w ∈ live s)) s.

(** [GB_FREE (p)]. *)
Definition GB_FREE (w : workspace) : step unit :=
  fun s => Next tt {| Chandle := Chandle s; mask_applied := mask_applied s;
                      live := live s ∖ {[w]}; attempts := attempts s |}.

(** [GB_Matrix_free (Chandle)]. *)
Definition GB_Matrix_free : step unit := set_Chandle None.

Definition GB_FREE_INITIAL_WORK : step unit :=
  GB_FREE Bflops2;; GB_FREE Coarse_Work;;
  GB_FREE Coarse_initial;; GB_FREE Fine_slice.

Definition GB_FREE_WORK : step unit :=
  GB_FREE_INITIAL_WORK;; GB_FREE TaskList;;
  GB_FREE Hi_all;; GB_FREE Hf_all;; GB_FREE Hx_all.

Definition GB_FREE_ALL : step unit :=
  GB_FREE_WORK;; GB_Matrix_free.

(** [GB_OK (method)] of GB.h: free everything and return the status of
    [method] unless it is [GrB_SUCCESS]. *)
Definition GB_OK (info : GrB_Info) : step unit :=
  if decide (info = GrB_SUCCESS) then ret tt
  else GB_FREE_ALL;; return_ info.

(** Whether each allocation succeeds. *)
Variable malloc_ok : allocation -> bool.

Definition record_attempt (a : allocation) (ok : bool) : step unit :=
  fun s => Next tt {| Chandle := Chandle s; mask_applied := mask_applied s;
                      live := live s; attempts := attempts s ++ [(a, ok)] |}.

(** [p = GB_MALLOC (...)] or [p = GB_CALLOC (...)]. *)
Definition GB_MALLOC (w : workspace) : step unit :=
  fun s =>
    let ok := malloc_ok (alloc_workspace w) in
    Next tt {| Chandle := Chandle s; mask_applied := mask_applied s;
               live := if ok then {[w]} ∪ live s else live s;
               attempts := attempts s ++ [(alloc_workspace w, ok)] |}.

(** *** Inputs *)

Variable M_input : option Matrix.
Variable Mask_comp_input : bool.
Variable Mask_struct : bool.
Variable AxB_method_input : GrB_Desc_Value.
(** [A->vlen], [B->vdim], [B->nvec], [B->vlen], [B->p], and whether B is
    hypersparse. *)
Variables avlen bvdim bnvec bvlen : Z.
Variable Bp : option (Z -> Z).
Variable B_is_hyper : bool.
(** [ctype->size]. *)
Variable csize : Z.
(** The context: [nthreads_max], [chunk] and [use_mkl]. *)
Variable nthreads_max : Z.
Variable chunk : Q.
Variable use_mkl : bool.

(** *** Compile-time configuration *)

Variable GB_HAS_MKL_GRAPH : bool.
Variable GBCOMPACT : bool.

(** *** Functions and macros defined outside this file *)

(** [GB_AxB_saxpy3_mkl]: its status, and what it leaves in [*Chandle] and
    [*mask_applied]; with [GrB_NO_VALUE] it has left them alone. *)
Variable GB_AxB_saxpy3_mkl : GrB_Info * option Matrix * bool.
(** [GB_new]: its status and the matrix it builds. *)
Variable GB_new_info : GrB_Info.
Variable C_new : Matrix.
(** [GB_memcpy (Ch, Bh, ...)] on the new matrix. *)
Variable GB_memcpy_Ch : Matrix -> Matrix.
(** [GB_is_packed]. *)
Variable GB_is_packed : option Matrix -> bool.
(** [GB_AxB_saxpy3_flopcount (&Mwork, Bflops, M, Mask_comp, A, B, Context)]
    on the array [Bflops]: its status, [Mwork], and [Bflops] afterwards. *)
Variable GB_AxB_saxpy3_flopcount :
  (Z -> Z) -> option Matrix -> bool -> GrB_Info * Z * (Z -> Z).
Variable GB_nthreads : Z -> Q -> Z -> Z.
Variable GB_PARTITION : Z -> Z -> Z -> Z * Z.
Variable GB_pslice : (Z -> Z) -> Z -> Z -> Z -> Z.
Variable GB_cumsum : (Z -> Z) -> Z -> Z -> Z.
Variable GBP_B : Z -> Z.
Variable GBI_B : Z -> Z.
Variable GBB_B : Z -> bool.
Variable GB_lookup_A : Z -> Z * Z.
(** [GB_ICEIL (a, b)]. *)
Variable GB_ICEIL : Z -> Z -> Z.
(** What [GB_MALLOC] leaves in [Bflops2], and [GB_CALLOC] with
    [GB_MALLOC] in the hash tables of the given sizes. *)
Variable Bflops2_0 : Z -> Z.
Variable new_tables : Z -> Z -> Z -> Tables.
(** [GB_AxB_pattern] and [GB_AxB_semiring_builtin]; [any_pair] tells
    whether the opcodes are those of the ANY_PAIR semiring. *)
Variables A_is_pattern B_is_pattern : bool.
Variable builtin_semiring : bool.
Variable any_pair : bool.
(** Whether the switch factory GB_AxB_factory.c has a case for the
    semiring. *)
Variable factory_case : bool.
(** [GB_hypermatrix_prune (C, Context)]. *)
Variable GB_hypermatrix_prune : Matrix -> GrB_Info * Matrix.

(** *** Arguments and state of the workers *)

Record kernel_args : Type := {
  k_M : option Matrix;
  k_Mask_comp : bool;
  k_Mask_struct : bool;
  k_M_dense_in_place : bool;
  k_A_is_pattern : bool;
  k_B_is_pattern : bool;
  k_ntasks : Z;
  k_nfine : Z;
  k_nthreads : Z
}.

Record kernel_state : Type := {
  k_C : Matrix;
  k_TaskList : list Partition.GB_saxpy3task_struct;
  k_tables : Tables
}.

Variable GB_AxB_saxpy3_symbolic : kernel_args -> kernel_state -> kernel_state.
(** The body GB_AxB_saxpy_template.c of a worker, with the status it
    returns, and the generic worker. *)
Variable GB_AxB_saxpy_template :
  kernel_args -> kernel_state -> GrB_Info * kernel_state.
Variable GB_AxB_saxpy3_generic :
  kernel_args -> kernel_state -> GrB_Info * kernel_state.

(** A generated worker [GB_Asaxpy3B__add_mult_type]; [GB_DISABLE] is set
    in the generated file of the semiring. *)
Definition GB_Asaxpy3B (GB_DISABLE : bool) (args : kernel_args)
    (st : kernel_state) : GrB_Info * kernel_state :=
  if GB_DISABLE then (GrB_NO_VALUE, st)
  else GB_AxB_saxpy_template args st.

(** *** The mask decision *)

Record mask_choice : Type := {
  M : option Matrix;
  Mask_comp : bool;
  M_dense_in_place : bool;
  AxB_method : GrB_Desc_Value;
  Bflops : Z -> Z;
  Mwork : Z
}.

Definition cvlen : Z := avlen.
Definition cvdim : Z := bvdim.

(** [for (kk = 0 ; kk <= bnvec ; kk++) Bflops [kk] += cvlen * (kk+1)]. *)
Definition add_dense_mask_work (Bflops0 : Z -> Z) : Z -> Z :=
  fun kk =>
    if (0 <=? kk) && (kk <=? bnvec) then Bflops0 kk + cvlen * (kk + 1)
    else Bflops0 kk.

(** [for (kk = 0 ; kk <= bnvec ; kk++) Bflops [kk] = 0]. *)
Definition zero_Bflops (Bflops0 : Z -> Z) : Z -> Z :=
  fun kk => if (0 <=? kk) && (kk <=? bnvec) then 0 else Bflops0 kk.

(** [double axbflops = total_flops - Mwork]. *)
Definition axbflops (Bflops0 : Z -> Z) (Mwork0 : Z) : Q :=
  inject_Z (Bflops0 bnvec - Mwork0).

Definition default_or_saxpy (m : GrB_Desc_Value) : bool :=
  bool_decide (m = GxB_DEFAULT) || bool_decide (m = GxB_AxB_SAXPY).

Definition mask_decision (Mwork0 : Z) (Bflops0 : Z -> Z) : step mask_choice :=
  let M_is_dense := GB_is_packed M_input in
  if M_is_dense && default_or_saxpy AxB_method_input then
    let Mwork1 := cvlen * cvdim in
    if Qltb (axbflops Bflops0 Mwork0) (inject_Z Mwork1 * GB_MWORK_BETA) then
      mret {| M := M_input; Mask_comp := Mask_comp_input;
              M_dense_in_place := true; AxB_method := GxB_AxB_HASH;
              Bflops := Bflops0; Mwork := Mwork1 |}
    else
      mret {| M := M_input; Mask_comp := Mask_comp_input;
              M_dense_in_place := false; AxB_method := GxB_AxB_GUSTAVSON;
              Bflops := add_dense_mask_work Bflops0; Mwork := Mwork1 |}
  else if bool_decide (is_Some M_input)
          && Qltb (axbflops Bflops0 Mwork0)
                  (inject_Z Mwork0 * GB_MWORK_ALPHA) then
    let '(info, Mwork1, Bflops1) :=
      GB_AxB_saxpy3_flopcount (zero_Bflops Bflops0) None false in
    GB_OK info;;
    mret {| M := None; Mask_comp := false;
            M_dense_in_place := false; AxB_method := AxB_method_input;
            Bflops := Bflops1; Mwork := Mwork1 |}
  else
    mret {| M := M_input; Mask_comp := Mask_comp_input;
            M_dense_in_place := false; AxB_method := AxB_method_input;
            Bflops := Bflops0; Mwork := Mwork0 |}.

(** *** The hash tables *)

Definition hi_pad : Z := 64 / 8.
Definition hx_pad : Z := 64.

Definition is_any_pair_semiring : bool :=
  if GBCOMPACT then false else builtin_semiring && any_pair.

(** Sizes of [Hi], [Hf] and [Hx] a leader task adds to the totals. *)
Definition table_sizes (t : Partition.GB_saxpy3task_struct) : Z * Z * Z :=
  let hash_size := Partition.hsize t in
  let is_fine := 0 <=? Partition.vector t in
  let use_Gustavson := hash_size =? cvlen in
  (if negb is_fine && negb use_Gustavson then hash_size + hi_pad else 0,
   if is_fine && use_Gustavson then GB_ICEIL (hash_size + hi_pad) 8
   else hash_size + hi_pad,
   if negb is_any_pair_semiring then hash_size * csize + hx_pad else 0).

Definition is_leader (taskid : nat) (t : Partition.GB_saxpy3task_struct)
  : bool :=
  Z.of_nat taskid =? Partition.leader t.

(** One iteration of "determine the total size of all hash tables". *)
Definition add_table_sizes (tot : Z * Z * Z)
    (it : nat * Partition.GB_saxpy3task_struct) : Z * Z * Z :=
  let '(taskid, t) := it in
  if negb (is_leader taskid t) then tot
  else
    let '(Hi_size_total, Hf_size_total, Hx_size_total) := tot in
    let '(hi, hf, hx) := table_sizes t in
    (Hi_size_total + hi, Hf_size_total + hf, Hx_size_total + hx).

Definition table_totals (TL : list Partition.GB_saxpy3task_struct)
  : Z * Z * Z :=
  foldl add_table_sizes (0, 0, 0) (imap pair TL).

Definition with_tables (t : Partition.GB_saxpy3task_struct)
    (hi hf hx : option Z) : Partition.GB_saxpy3task_struct :=
  {| Partition.start := Partition.start t;
     Partition.end_ := Partition.end_ t;
     Partition.vector := Partition.vector t;
     Partition.hsize := Partition.hsize t;
     Partition.Hi := hi; Partition.Hf := hf; Partition.Hx := hx;
     Partition.my_cjnz := Partition.my_cjnz t;
     Partition.flops := Partition.flops t;
     Partition.leader := Partition.leader t;
     Partition.team_size := Partition.team_size t |}.

(** A pointer into an allocation: [NULL] if the allocation was not made. *)
Definition pointer (total offset : Z) : option Z :=
  if 0 <? total then Some offset else None.

(** One iteration of "split the space into separate hash tables"; the
    state is the list so far and [Hi_split], [Hf_split], [Hx_split]. *)
Definition split_tables (totals : Z * Z * Z)
    (acc : list Partition.GB_saxpy3task_struct * (Z * Z * Z))
    (it : nat * Partition.GB_saxpy3task_struct)
  : list Partition.GB_saxpy3task_struct * (Z * Z * Z) :=
  let '(taskid, t) := it in
  let '(TL, (Hi_split, Hf_split, Hx_split)) := acc in
  if negb (is_leader taskid t) then (TL ++ [t], (Hi_split, Hf_split, Hx_split))
  else
    let '(hi, hf, hx) := table_sizes t in
    (TL ++ [with_tables t (pointer totals.1.1 Hi_split)
                          (pointer totals.1.2 Hf_split)
                          (pointer totals.2 Hx_split)],
     (Hi_split + hi, Hf_split + hf, Hx_split + hx)).

(** One iteration of "assign shared hash tables to fine task teams". *)
Definition share_tables (nfine : Z)
    (TL : list Partition.GB_saxpy3task_struct)
    (it : nat * Partition.GB_saxpy3task_struct)
  : Partition.GB_saxpy3task_struct :=
  let '(taskid, t) := it in
  if (Z.of_nat taskid <? nfine) && negb (is_leader taskid t) then
    match TL !! Z.to_nat (Partition.leader t) with
    | Some l => with_tables t (Partition.Hi t) (Partition.Hf l)
                  (Partition.Hx l)
    | None => t
    end
  else t.

Definition assign_tables (nfine : Z)
    (TL : list Partition.GB_saxpy3task_struct)
  : list Partition.GB_saxpy3task_struct :=
  let TL1 := (foldl (split_tables (table_totals TL)) ([], (0, 0, 0))
                (imap pair TL)).1 in
  share_tables nfine TL1 <$> imap pair TL1.

(** *** GB_AxB_saxpy3 *)

(** "use MKL_graph if it available and has this semiring". *)
Definition try_mkl : step unit :=
  if GB_HAS_MKL_GRAPH && use_mkl then
    let '(info, C, applied) := GB_AxB_saxpy3_mkl in
    if decide (info <> GrB_NO_VALUE) then
      set_Chandle C;; set_mask_applied applied;; return_ info
    else mret tt
  else mret tt.

(** "allocate C": [GB_new] and the copy of [Bh]. *)
Definition allocate_C : step Matrix :=
  record_attempt alloc_C (bool_decide (GB_new_info = GrB_SUCCESS));;
  if decide (GB_new_info <> GrB_SUCCESS) then
    GB_FREE_ALL;; return_ GB_new_info
  else
    let C := if B_is_hyper then GB_memcpy_Ch C_new else C_new in
    set_Chandle (Some C);; mret C.

(** "compute flop counts" and "determine if the mask M should be
    applied"; [Cp] is calloc'ed and serves as [Bflops]. *)
Definition flop_counts : step mask_choice :=
  let '(info, Mwork0, Bflops0) :=
    GB_AxB_saxpy3_flopcount (fun _ => 0) M_input Mask_comp_input in
  GB_OK info;;
  mask_decision Mwork0 Bflops0.

Definition nthreads (d : mask_choice) : Z :=
  GB_nthreads (Bflops d bnvec) chunk nthreads_max.

Definition counts (d : mask_choice) : Partition.task_counts :=
  Partition.count_tasks (Bflops d) Bp bvlen bnvec chunk (nthreads d)
    GB_pslice.

(** "construct initial coarse tasks": [GB_pslice] allocates
    [Coarse_initial] and returns false when it cannot. *)
Definition allocate_initial (d : mask_choice) : step unit :=
  if 1 <? Partition.ntasks_initial (nthreads d) then
    GB_MALLOC Coarse_initial;;
    ok ← is_allocated Coarse_initial;
    if negb ok then GB_FREE_ALL;; return_ GrB_OUT_OF_MEMORY else mret tt
  else mret tt.

(** "allocate the tasks, and workspace to construct fine tasks". *)
Definition allocate_tasks (d : mask_choice) : step unit :=
  allocate_initial d;;
  let max_bjnz := Partition.max_bjnz (counts d) in
  GB_MALLOC TaskList;;
  GB_MALLOC Coarse_Work;;
  (if 0 <? max_bjnz then GB_MALLOC Fine_slice;; GB_MALLOC Bflops2
   else mret tt);;
  tl ← is_allocated TaskList;
  cw ← is_allocated Coarse_Work;
  fs ← is_allocated Fine_slice;
  b2 ← is_allocated Bflops2;
  if negb tl || negb cw || ((0 <? max_bjnz) && (negb fs || negb b2)) then
    GB_FREE_ALL;; return_ GrB_OUT_OF_MEMORY
  else mret tt.

(** "create the tasks" and "free workspace used to create the tasks". *)
Definition create_tasks (d : mask_choice)
  : step (list Partition.GB_saxpy3task_struct) :=
  match Partition.create_tasks (Bflops d) Bp bvlen bnvec cvlen
          (AxB_method d) chunk nthreads_max (nthreads d) GB_nthreads
          GB_PARTITION GB_pslice GB_cumsum GBP_B GBI_B GBB_B GB_lookup_A
          Bflops2_0 with
  | Some TL => GB_FREE_INITIAL_WORK;; mret TL
  | None => undefined
  end.

(** "allocate the hash tables". *)
Definition allocate_tables (d : mask_choice) (C : Matrix)
    (TL : list Partition.GB_saxpy3task_struct) : step kernel_state :=
  let '(Hi_size_total, Hf_size_total, Hx_size_total) := table_totals TL in
  (if 0 <? Hi_size_total then GB_MALLOC Hi_all else mret tt);;
  (if 0 <? Hf_size_total then GB_MALLOC Hf_all else mret tt);;
  (if 0 <? Hx_size_total then GB_MALLOC Hx_all else mret tt);;
  hi ← is_allocated Hi_all;
  hf ← is_allocated Hf_all;
  hx ← is_allocated Hx_all;
  if ((0 <? Hi_size_total) && negb hi)
     || ((0 <? Hf_size_total) && negb hf)
     || ((0 <? Hx_size_total) && negb hx) then
    GB_FREE_ALL;; return_ GrB_OUT_OF_MEMORY
  else
    mret {| k_C := C;
            k_TaskList :=
              assign_tables (Partition.nfine (counts d)) TL;
            k_tables :=
              new_tables Hi_size_total Hf_size_total Hx_size_total |}.

Definition args_of (d : mask_choice) : kernel_args :=
  {| k_M := M d; k_Mask_comp := Mask_comp d; k_Mask_struct := Mask_struct;
     k_M_dense_in_place := M_dense_in_place d;
     k_A_is_pattern := A_is_pattern; k_B_is_pattern := B_is_pattern;
     k_ntasks := Partition.ncoarse (counts d) + Partition.nfine (counts d);
     k_nfine := Partition.nfine (counts d);
     k_nthreads := nthreads d |}.

(** The start of the function, up to the return of MKL. *)
Definition start : step unit :=
  set_mask_applied false;; set_Chandle None;; try_mkl.

(** Phase 0 and the symbolic analysis: the mask choice and the state
    handed to the workers. *)
Definition analyse : step (mask_choice * kernel_state) :=
  C ← allocate_C;
  d ← flop_counts;
  allocate_tasks d;;
  TL ← create_tasks d;
  st ← allocate_tables d C TL;
  mret (d, GB_AxB_saxpy3_symbolic (args_of d) st).

(** Everything before the workers. *)
Definition prepare : step (mask_choice * kernel_state) :=
  start;; analyse.

(** "C = A*B, via saxpy3 method and built-in semiring" and "via the
    generic saxpy method": the status [info] and the state the workers
    leave.  No worker has run when the semiring is not built in or the
    switch factory has no case for it. *)
Definition dispatch (GB_DISABLE : bool) (args : kernel_args)
    (st : kernel_state) : GrB_Info * kernel_state :=
  let '(done, info, st1) :=
    if negb GBCOMPACT && builtin_semiring && factory_case then
      let '(info, st1) := GB_Asaxpy3B GB_DISABLE args st in
      (bool_decide (info <> GrB_NO_VALUE), info, st1)
    else (false, GrB_SUCCESS, st) in
  if negb done then GB_AxB_saxpy3_generic args st1
  else (info, st1).

(** The test of the status of the workers, and "prune empty vectors, free
    workspace, and return result". *)
Definition complete (d : mask_choice) (r : GrB_Info * kernel_state)
  : step GrB_Info :=
  let '(info, st) := r in
  set_Chandle (Some (k_C st));;
  if decide (info <> GrB_SUCCESS) then
    GB_FREE_ALL;; return_ GrB_OUT_OF_MEMORY
  else
    GB_FREE_WORK;;
    let '(pinfo, C') := GB_hypermatrix_prune (k_C st) in
    set_Chandle (Some C');;
    GB_OK pinfo;;
    set_mask_applied (bool_decide (is_Some (M d)));;
    return_ info.

Definition GB_AxB_saxpy3 (GB_DISABLE : bool) : step GrB_Info :=
  p ← prepare;
  complete p.1 (dispatch GB_DISABLE (args_of p.1) p.2).

(** A call starts with [*Chandle == NULL] and no workspace. *)
Definition initial_state (applied : bool) : state :=
  {| Chandle := None; mask_applied := applied; live := ∅; attempts := [] |}.

(** What the caller sees: the status returned and the final state. *)
Definition call (GB_DISABLE : bool) (applied : bool)
  : option (GrB_Info * state) :=
  match GB_AxB_saxpy3 GB_DISABLE (initial_state applied) with
  | Return info s => Some (info, s)
  | Next info s => Some (info, s)
  | Undefined => None
  end.

(** *** The steps, one by one *)

(** The state a failing path leaves: no workspace, no output matrix. *)
Definition released (atts : list (allocation * bool)) : state :=
  {| Chandle := None; mask_applied := false; live := ∅; attempts := atts |}.

Definition all_ok (atts : list (allocation * bool)) : Prop :=
  Forall (fun p => p.2 = true) atts.

Definition some_failed (atts : list (allocation * bool)) : Prop :=
  Exists (fun p => p.2 = false) atts.

Lemma not_all_ok_and_failed atts : all_ok atts -> some_failed atts -> False.
Proof.
  unfold all_ok, some_failed. rewrite Forall_forall, Exists_exists.
  intros Hall (p & Hp & Hf). specialize (Hall p Hp). congruence.
Qed.

Lemma bind_run {A B} (m : step A) (f : A -> step B) s :
  (m ≫= f) s =
  match m s with
  | Next a s' => f a s'
  | Return info s' => Return info s'
  | Undefined => Undefined
  end.
Proof. reflexivity. Qed.

Lemma no_workspace_left (X : gset workspace) :
  X ∖ {[Bflops2]} ∖ {[Coarse_Work]} ∖ {[Coarse_initial]} ∖ {[Fine_slice]}
    ∖ {[TaskList]} ∖ {[Hi_all]} ∖ {[Hf_all]} ∖ {[Hx_all]} = ∅.
Proof. apply leibniz_equiv. intros w. destruct w; set_solver. Qed.

Lemma GB_FREE_WORK_run s :
  GB_FREE_WORK s =
  Next tt {| Chandle := Chandle s; mask_applied := mask_applied s;
             live := ∅; attempts := attempts s |}.
Proof.
  cbv [GB_FREE_WORK GB_FREE_INITIAL_WORK mbind step_bind bind GB_FREE
       Chandle mask_applied live attempts].
  do 2 f_equal. apply no_workspace_left.
Qed.

Lemma GB_FREE_ALL_run s :
  GB_FREE_ALL s =
  Next tt {| Chandle := None; mask_applied := mask_applied s;
             live := ∅; attempts := attempts s |}.
Proof.
  unfold GB_FREE_ALL. rewrite bind_run, GB_FREE_WORK_run. reflexivity.
Qed.

(** [GB_FREE_ALL ; return (info)]. *)
Lemma free_all_return {A} info s :
  mask_applied s = false ->
  (GB_FREE_ALL;; @return_ A info) s = Return info (released (attempts s)).
Proof.
  intros Hm. rewrite bind_run, GB_FREE_ALL_run. unfold return_, released.
  by rewrite Hm.
Qed.

Lemma GB_OK_run info s :
  mask_applied s = false ->
  GB_OK info s =
  if decide (info = GrB_SUCCESS) then Next tt s
  else Return info (released (attempts s)).
Proof.
  intros Hm. unfold GB_OK. destruct (decide _); [done|].
  by apply free_all_return.
Qed.

Ltac run_steps :=
  cbv [mbind step_bind bind mret step_ret ret set_Chandle set_mask_applied
       is_allocated GB_MALLOC record_attempt return_ undefined
       Chandle mask_applied live attempts initial_state].

Lemma start_run applied :
  start (initial_state applied) =
  if GB_HAS_MKL_GRAPH && use_mkl then
    if decide (GB_AxB_saxpy3_mkl.1.1 <> GrB_NO_VALUE) then
      Return GB_AxB_saxpy3_mkl.1.1
        {| Chandle := GB_AxB_saxpy3_mkl.1.2;
           mask_applied := GB_AxB_saxpy3_mkl.2;
           live := ∅; attempts := [] |}
    else Next tt (initial_state false)
  else Next tt (initial_state false).
Proof.
  unfold start, try_mkl.
  destruct (GB_HAS_MKL_GRAPH && use_mkl); [|reflexivity].
  destruct GB_AxB_saxpy3_mkl as [[info C] applied']. simpl.
  run_steps. destruct (decide _); reflexivity.
Qed.

Definition allocated_C : Matrix :=
  if B_is_hyper then GB_memcpy_Ch C_new else C_new.

Lemma allocate_C_run :
  allocate_C (initial_state false) =
  if decide (GB_new_info <> GrB_SUCCESS) then
    Return GB_new_info (released [(alloc_C, false)])
  else
    Next allocated_C
      {| Chandle := Some allocated_C; mask_applied := false;
         live := ∅; attempts := [(alloc_C, true)] |}.
Proof.
  unfold allocate_C. rewrite bind_run. unfold record_attempt.
  destruct (decide _) as [Hne|Heq].
  - rewrite free_all_return by done. simpl.
    by rewrite bool_decide_eq_false_2.
  - apply dec_stable in Heq. run_steps. simpl.
    by rewrite bool_decide_eq_true_2.
Qed.

(** A status of [GB_AxB_saxpy3_flopcount]. *)
Definition flopcount_status (info : GrB_Info) : Prop :=
  exists Bflops0 M0 comp, (GB_AxB_saxpy3_flopcount Bflops0 M0 comp).1.1 = info.

Lemma mask_decision_run Mwork0 Bflops0 s :
  mask_applied s = false ->
  match mask_decision Mwork0 Bflops0 s with
  | Next d s' => s' = s
  | Return info s' =>
      s' = released (attempts s) /\ info <> GrB_SUCCESS
      /\ flopcount_status info
  | Undefined => False
  end.
Proof.
  intros Hm. unfold mask_decision.
  destruct (GB_is_packed M_input && default_or_saxpy AxB_method_input).
  { destruct (Qltb _ _); reflexivity. }
  destruct (bool_decide (is_Some M_input) && Qltb _ _); [|reflexivity].
  destruct (GB_AxB_saxpy3_flopcount _ None false)
    as [[info Mwork1] Bflops1] eqn:Hfl.
  rewrite bind_run, GB_OK_run by done.
  destruct (decide (info = GrB_SUCCESS)); [reflexivity|].
  split; [done|]. split; [done|].
  eexists _, _, _. by rewrite Hfl.
Qed.

Lemma flop_counts_run s :
  mask_applied s = false ->
  match flop_counts s with
  | Next d s' => s' = s
  | Return info s' =>
      s' = released (attempts s) /\ info <> GrB_SUCCESS
      /\ flopcount_status info
  | Undefined => False
  end.
Proof.
  intros Hm. unfold flop_counts.
  destruct (GB_AxB_saxpy3_flopcount _ M_input Mask_comp_input)
    as [[info Mwork0] Bflops0] eqn:Hfl.
  rewrite bind_run, GB_OK_run by done.
  destruct (decide (info = GrB_SUCCESS)).
  - by apply mask_decision_run.
  - split; [done|]. split; [done|]. eexists _, _, _. by rewrite Hfl.
Qed.

(** The state while the function goes on: the output matrix is
    allocated, no allocation has failed. *)
Record going (C : Matrix) (s : state) : Prop := {
  going_C : Chandle s = Some C;
  going_mask : mask_applied s = false;
  going_ok : all_ok (attempts s)
}.

(** The state a failed allocation leaves. *)
Definition out_of_memory (info : GrB_Info) (s : state) : Prop :=
  info = GrB_OUT_OF_MEMORY /\ s = released (attempts s)
  /\ some_failed (attempts s).

Lemma all_ok_snoc atts a : all_ok atts -> all_ok (atts ++ [(a, true)]).
Proof.
  intros H. apply Forall_app. split; [done|]. by apply Forall_singleton.
Qed.

Lemma some_failed_snoc atts a : some_failed (atts ++ [(a, false)]).
Proof. apply Exists_app. right. by apply Exists_cons_hd. Qed.

Lemma some_failed_app atts atts' :
  some_failed atts -> some_failed (atts ++ atts').
Proof. intros H. apply Exists_app. by left. Qed.

(** [GB_MALLOC] of an array that is not allocated yet. *)
Lemma GB_MALLOC_run w s :
  w ∉ live s ->
  exists s',
    GB_MALLOC w s = Next tt s'
    /\ Chandle s' = Chandle s /\ mask_applied s' = mask_applied s
    /\ attempts s' = attempts s ++ [(alloc_workspace w,
                                     malloc_ok (alloc_workspace w))]
    /\ (forall w', w' ∈ live s' <->
          (w' = w /\ malloc_ok (alloc_workspace w) = true) \/ w' ∈ live s).
Proof.
  intros Hw. eexists. split; [reflexivity|]. simpl.
  repeat split; try done.
  - destruct (malloc_ok _); set_solver.
  - destruct (malloc_ok _); set_solver.
Qed.

Lemma ret_run {A} (a : A) s : (mret a : step A) s = Next a s.
Proof. reflexivity. Qed.

Lemma is_allocated_run w s :
  is_allocated w s = Next (bool_decide (w ∈ live s)) s.
Proof. reflexivity. Qed.

Lemma out_of_memory_intro s C :
  going C s -> False -> out_of_memory GrB_OUT_OF_MEMORY s.
Proof. done. Qed.

Lemma allocate_initial_run d C s :
  going C s -> live s = ∅ ->
  match allocate_initial d s with
  | Next _ s' => going C s' /\ (forall w, w ∈ live s' -> w = Coarse_initial)
  | Return info s' => out_of_memory info s'
  | Undefined => False
  end.
Proof.
  intros [HC Hm Hok] Hlive. unfold allocate_initial.
  destruct (1 <? _).
  2:{ rewrite ret_run. split; [by split|]. rewrite Hlive. set_solver. }
  destruct (GB_MALLOC_run Coarse_initial s)
    as (s1 & Hrun & HC1 & Hm1 & Ha1 & Hl1); [set_solver|].
  rewrite bind_run, Hrun, bind_run, is_allocated_run.
  destruct (malloc_ok (alloc_workspace Coarse_initial)) eqn:Hmalloc.
  - rewrite bool_decide_eq_true_2 by (apply Hl1; by left).
    cbn [negb]. rewrite ret_run.
    split; [split; try congruence|].
    + rewrite Ha1. by apply all_ok_snoc.
    + intros w Hw. apply Hl1 in Hw as [[-> _]|Hw]; [done|set_solver].
  - rewrite bool_decide_eq_false_2.
    2:{ intros Hw. apply Hl1 in Hw as [[_ ?]|Hw]; [done|set_solver]. }
    cbn [negb]. rewrite free_all_return by congruence.
    split; [done|]. split; [done|]. simpl. rewrite Ha1.
    apply some_failed_snoc.
Qed.

(** Whether an array is allocated, from what is known of [live]. *)
Ltac allocated_is ok :=
  match goal with
  | |- bool_decide (?w ∈ live ?s) = _ =>
      destruct ok eqn:?;
      [apply bool_decide_eq_true_2|apply bool_decide_eq_false_2];
      repeat match goal with
             | H : forall w', w' ∈ live _ <-> _ |- _ =>
                 rewrite H; clear H
             end;
      [naive_solver|
       let Hw := fresh in
       intros Hw;
       repeat match type of Hw with
              | _ \/ _ => destruct Hw as [Hw|Hw]
              | _ /\ _ => destruct Hw as [? ?]
              end;
       try congruence;
       match goal with
       | H : forall w, w ∈ live _ -> _ |- _ => apply H in Hw
       end; congruence]
  end.

Lemma allocate_tasks_run d C s :
  going C s -> live s = ∅ ->
  match allocate_tasks d s with
  | Next _ s' =>
      going C s'
      /\ Hi_all ∉ live s' /\ Hf_all ∉ live s' /\ Hx_all ∉ live s'
  | Return info s' => out_of_memory info s'
  | Undefined => False
  end.
Proof.
  intros Hg Hlive. unfold allocate_tasks. rewrite bind_run.
  pose proof (allocate_initial_run d C s Hg Hlive) as H0.
  destruct (allocate_initial d s) as [[] s0| |]; [|done|done].
  destruct H0 as [[HC0 Hm0 Hok0] Hl0].
  destruct (GB_MALLOC_run TaskList s0)
    as (s1 & Hrun1 & HC1 & Hm1 & Ha1 & Hl1).
  { intros Hw. by apply Hl0 in Hw. }
  rewrite bind_run, Hrun1.
  destruct (GB_MALLOC_run Coarse_Work s1)
    as (s2 & Hrun2 & HC2 & Hm2 & Ha2 & Hl2).
  { rewrite Hl1. intros [[? _]|Hw]; [done|]. by apply Hl0 in Hw. }
  rewrite bind_run, Hrun2, bind_run.
  set (okT := malloc_ok (alloc_workspace TaskList)) in *.
  set (okW := malloc_ok (alloc_workspace Coarse_Work)) in *.
  destruct (0 <? Partition.max_bjnz (counts d)) eqn:Hmax.
  - destruct (GB_MALLOC_run Fine_slice s2)
      as (s3 & Hrun3 & HC3 & Hm3 & Ha3 & Hl3).
    { rewrite Hl2, Hl1. intros [[? _]|[[? _]|Hw]]; [done|done|].
      by apply Hl0 in Hw. }
    rewrite bind_run, Hrun3.
    destruct (GB_MALLOC_run Bflops2 s3)
      as (s4 & Hrun4 & HC4 & Hm4 & Ha4 & Hl4).
    { rewrite Hl3, Hl2, Hl1. intros [[? _]|[[? _]|[[? _]|Hw]]]; try done.
      by apply Hl0 in Hw. }
    rewrite Hrun4.
    set (okF := malloc_ok (alloc_workspace Fine_slice)) in *.
    set (okB := malloc_ok (alloc_workspace Bflops2)) in *.
    do 4 (rewrite bind_run, is_allocated_run; cbn beta iota).
    assert (HT : bool_decide (TaskList ∈ live s4) = okT)
      by (pose proof Hl4; pose proof Hl3; pose proof Hl2; pose proof Hl1;
          allocated_is okT).
    assert (HW : bool_decide (Coarse_Work ∈ live s4) = okW)
      by (pose proof Hl4; pose proof Hl3; pose proof Hl2; pose proof Hl1;
          allocated_is okW).
    assert (HF : bool_decide (Fine_slice ∈ live s4) = okF)
      by (pose proof Hl4; pose proof Hl3; pose proof Hl2; pose proof Hl1;
          allocated_is okF).
    assert (HB : bool_decide (Bflops2 ∈ live s4) = okB)
      by (pose proof Hl4; pose proof Hl3; pose proof Hl2; pose proof Hl1;
          allocated_is okB).
    rewrite HT, HW, HF, HB.
    assert (Hatt : attempts s4 =
      attempts s0 ++ [(alloc_workspace TaskList, okT)]
        ++ [(alloc_workspace Coarse_Work, okW)]
        ++ [(alloc_workspace Fine_slice, okF)]
        ++ [(alloc_workspace Bflops2, okB)]).
    { rewrite Ha4, Ha3, Ha2, Ha1, <- !app_assoc. done. }
    destruct okT, okW, okF, okB; cbn [negb orb andb];
      try (rewrite free_all_return by congruence;
           split; [done|]; split; [done|]; cbn [attempts released];
           rewrite Hatt; apply Exists_app; right;
           repeat first [by apply Exists_cons_hd | apply Exists_cons_tl]).
    rewrite ret_run. split; [split; try congruence|].
    + rewrite Hatt. apply Forall_app. split; [done|].
      by repeat constructor.
    + repeat split; rewrite Hl4, Hl3, Hl2, Hl1;
        intros [[? _]|[[? _]|[[? _]|[[? _]|Hw]]]]; try done;
        by apply Hl0 in Hw.
  - rewrite ret_run.
    do 4 (rewrite bind_run, is_allocated_run; cbn beta iota).
    assert (HT : bool_decide (TaskList ∈ live s2) = okT)
      by (pose proof Hl2; pose proof Hl1; allocated_is okT).
    assert (HW : bool_decide (Coarse_Work ∈ live s2) = okW)
      by (pose proof Hl2; pose proof Hl1; allocated_is okW).
    rewrite HT, HW.
    assert (Hatt : attempts s2 =
      attempts s0 ++ [(alloc_workspace TaskList, okT)]
        ++ [(alloc_workspace Coarse_Work, okW)]).
    { rewrite Ha2, Ha1, <- !app_assoc. done. }
    destruct okT, okW; cbn [negb orb andb];
      try (rewrite free_all_return by congruence;
           split; [done|]; split; [done|]; cbn [attempts released];
           rewrite Hatt; apply Exists_app; right;
           repeat first [by apply Exists_cons_hd | apply Exists_cons_tl]).
    rewrite ret_run. split; [split; try congruence|].
    + rewrite Hatt. apply Forall_app. split; [done|].
      by repeat constructor.
    + repeat split; rewrite Hl2, Hl1;
        intros [[? _]|[[? _]|Hw]]; try done;
        by apply Hl0 in Hw.
Qed.

(** The task list of the partition for the mask choice [d]. *)
Definition partition_of (d : mask_choice)
  : option (list Partition.GB_saxpy3task_struct) :=
  Partition.create_tasks (Bflops d) Bp bvlen bnvec cvlen
    (AxB_method d) chunk nthreads_max (nthreads d) GB_nthreads
    GB_PARTITION GB_pslice GB_cumsum GBP_B GBI_B GBB_B GB_lookup_A
    Bflops2_0.

Lemma create_tasks_run d C s :
  going C s ->
  Hi_all ∉ live s -> Hf_all ∉ live s -> Hx_all ∉ live s ->
  match create_tasks d s with
  | Next TL s' =>
      going C s' /\ (forall w, w ∈ live s' -> w = TaskList)
      /\ partition_of d = Some TL
  | Return _ _ => False
  | Undefined => partition_of d = None
  end.
Proof.
  intros [HC Hm Hok] Hi Hf Hx. unfold create_tasks. fold (partition_of d).
  destruct (partition_of d) as [TL|]; [|done].
  cbv [GB_FREE_INITIAL_WORK mbind step_bind bind GB_FREE mret step_ret ret].
  split; [by split|]. split; [|done]. cbn [live].
  intros w Hw. destruct w; set_solver.
Qed.

(** A conditional [GB_MALLOC] of an array that is not allocated yet. *)
Lemma cond_GB_MALLOC_run (b : bool) w s :
  w ∉ live s ->
  exists s',
    (if b then GB_MALLOC w else mret tt) s = Next tt s'
    /\ Chandle s' = Chandle s /\ mask_applied s' = mask_applied s
    /\ attempts s' =
         attempts s ++ (if b then [(alloc_workspace w,
                                     malloc_ok (alloc_workspace w))]
                        else [])
    /\ (forall w', w' ∈ live s' <->
          (w' = w /\ b && malloc_ok (alloc_workspace w) = true)
          \/ w' ∈ live s).
Proof.
  intros Hw. destruct b.
  - apply GB_MALLOC_run, Hw.
  - exists s. rewrite app_nil_r. repeat split; try done; naive_solver.
Qed.

Lemma allocate_tables_run d C TL s :
  going C s -> (forall w, w ∈ live s -> w = TaskList) ->
  match allocate_tables d C TL s with
  | Next st s' =>
      going C s'
      /\ st = {| k_C := C;
                 k_TaskList := assign_tables (Partition.nfine (counts d)) TL;
                 k_tables := new_tables (table_totals TL).1.1
                               (table_totals TL).1.2 (table_totals TL).2 |}
  | Return info s' => out_of_memory info s'
  | Undefined => False
  end.
Proof.
  intros [HC Hm Hok] Hl0. unfold allocate_tables.
  destruct (table_totals TL) as [[Hi_size_total Hf_size_total] Hx_size_total].
  cbn [fst snd].
  set (bi := 0 <? Hi_size_total). set (bf := 0 <? Hf_size_total).
  set (bx := 0 <? Hx_size_total).
  destruct (cond_GB_MALLOC_run bi Hi_all s)
    as (s1 & Hrun1 & HC1 & Hm1 & Ha1 & Hl1).
  { intros Hw. by apply Hl0 in Hw. }
  rewrite bind_run, Hrun1.
  destruct (cond_GB_MALLOC_run bf Hf_all s1)
    as (s2 & Hrun2 & HC2 & Hm2 & Ha2 & Hl2).
  { rewrite Hl1. intros [[? _]|Hw]; [done|]. by apply Hl0 in Hw. }
  rewrite bind_run, Hrun2.
  destruct (cond_GB_MALLOC_run bx Hx_all s2)
    as (s3 & Hrun3 & HC3 & Hm3 & Ha3 & Hl3).
  { rewrite Hl2, Hl1. intros [[? _]|[[? _]|Hw]]; [done|done|].
    by apply Hl0 in Hw. }
  rewrite bind_run, Hrun3.
  set (oki := malloc_ok (alloc_workspace Hi_all)) in *.
  set (okf := malloc_ok (alloc_workspace Hf_all)) in *.
  set (okx := malloc_ok (alloc_workspace Hx_all)) in *.
  do 3 (rewrite bind_run, is_allocated_run; cbn beta iota).
  assert (HI : bool_decide (Hi_all ∈ live s3) = bi && oki)
    by (pose proof Hl3; pose proof Hl2; pose proof Hl1;
        allocated_is (bi && oki)).
  assert (HF : bool_decide (Hf_all ∈ live s3) = bf && okf)
    by (pose proof Hl3; pose proof Hl2; pose proof Hl1;
        allocated_is (bf && okf)).
  assert (HX : bool_decide (Hx_all ∈ live s3) = bx && okx)
    by (pose proof Hl3; pose proof Hl2; pose proof Hl1;
        allocated_is (bx && okx)).
  rewrite HI, HF, HX.
  assert (Hatt : attempts s3 =
    attempts s
      ++ (if bi then [(alloc_workspace Hi_all, oki)] else [])
      ++ (if bf then [(alloc_workspace Hf_all, okf)] else [])
      ++ (if bx then [(alloc_workspace Hx_all, okx)] else [])).
  { rewrite Ha3, Ha2, Ha1, <- !app_assoc. done. }
  destruct bi, oki, bf, okf, bx, okx; cbn [negb orb andb];
    try (rewrite free_all_return by congruence;
         split; [done|]; split; [done|]; cbn [attempts released];
         rewrite Hatt; apply Exists_app; right; cbn [app];
         repeat first [by apply Exists_cons_hd | apply Exists_cons_tl]);
    (rewrite ret_run; split; [split; try congruence|done];
     rewrite Hatt; apply Forall_app; split; [done|];
     cbn [app]; by repeat constructor).
Qed.

(** How [prepare] can return. *)
Definition prepare_return (info : GrB_Info) (s : state) : Prop :=
  (GB_HAS_MKL_GRAPH && use_mkl = true
   /\ info = GB_AxB_saxpy3_mkl.1.1 /\ info <> GrB_NO_VALUE
   /\ s = {| Chandle := GB_AxB_saxpy3_mkl.1.2;
             mask_applied := GB_AxB_saxpy3_mkl.2;
             live := ∅; attempts := [] |})
  \/ (info = GB_new_info /\ info <> GrB_SUCCESS
      /\ s = released [(alloc_C, false)])
  \/ (flopcount_status info /\ info <> GrB_SUCCESS
      /\ s = released [(alloc_C, true)])
  \/ out_of_memory info s.

(** The hash tables leave the work of the tasks as it is. *)
Lemma split_tables_work totals acc x taskid t :
  exists t' x',
    split_tables totals (acc, x) (taskid, t) = (acc ++ [t'], x')
    /\ Partition.work t' = Partition.work t.
Proof.
  unfold split_tables. destruct x as [[hi hf] hx].
  destruct (negb (is_leader taskid t)); [by eauto|].
  destruct (table_sizes t) as [[a b] c']. by eauto.
Qed.

Lemma foldl_split_tables_work totals (f : nat -> _ -> nat * _) l acc x :
  (forall i t, (f i t).2 = t) ->
  Partition.work <$> (foldl (split_tables totals) (acc, x) (imap f l)).1
  = (Partition.work <$> acc) ++ (Partition.work <$> l).
Proof.
  revert f acc x. induction l as [|t l IH]; intros f acc x Hf.
  - simpl. by rewrite app_nil_r.
  - rewrite imap_cons. cbn [foldl].
    pose proof (Hf 0%nat t) as Ht. destruct (f 0%nat t) as [taskid t0].
    simpl in Ht. subst t0.
    destruct (split_tables_work totals acc x taskid t)
      as (t' & x' & -> & Hw).
    rewrite IH by (intros i t0; apply Hf).
    rewrite fmap_app, fmap_cons, <- app_assoc, Hw. done.
Qed.

Lemma share_tables_work nfine TL taskid t :
  Partition.work (share_tables nfine TL (taskid, t)) = Partition.work t.
Proof.
  unfold share_tables.
  destruct ((Z.of_nat taskid <? nfine) && negb (is_leader taskid t));
    [|done].
  by destruct (TL !! Z.to_nat (Partition.leader t)).
Qed.

Lemma assign_tables_work nfine TL :
  Partition.work <$> assign_tables nfine TL = Partition.work <$> TL.
Proof.
  unfold assign_tables.
  set (TL1 := (foldl _ _ _).1).
  assert (H1 : Partition.work <$> TL1 = Partition.work <$> TL).
  { unfold TL1. by rewrite foldl_split_tables_work. }
  rewrite <- H1, <- list_fmap_compose, fmap_imap.
  rewrite <- (imap_const Partition.work TL1).
  apply imap_ext. intros i t _. apply share_tables_work.
Qed.

(** *** The layout of the hash tables *)

(** The tasks with their tables, as "split the space into separate hash
    tables" leaves them: [x] is [Hi_split], [Hf_split], [Hx_split] when
    task [k], the first of [l], is reached. *)
Fixpoint placed (totals x : Z * Z * Z) (k : nat)
    (l : list Partition.GB_saxpy3task_struct)
  : list Partition.GB_saxpy3task_struct :=
  match l with
  | [] => []
  | t :: l' =>
      (if is_leader k t
       then with_tables t (pointer totals.1.1 x.1.1)
              (pointer totals.1.2 x.1.2) (pointer totals.2 x.2)
       else t)
      :: placed totals (add_table_sizes x (k, t)) (S k) l'
  end.

Lemma split_tables_step totals acc x k t :
  split_tables totals (acc, x) (k, t)
  = (acc ++ [if is_leader k t
             then with_tables t (pointer totals.1.1 x.1.1)
                    (pointer totals.1.2 x.1.2) (pointer totals.2 x.2)
             else t],
     add_table_sizes x (k, t)).
Proof.
  unfold split_tables, add_table_sizes. destruct x as [[hi hf] hx].
  destruct (is_leader k t); cbn [negb]; [|done].
  by destruct (table_sizes t) as [[a b] c'].
Qed.

Lemma foldl_split_tables_placed totals l acc x k :
  foldl (split_tables totals) (acc, x) (imap (fun i => pair (k + i)%nat) l)
  = (acc ++ placed totals x k l,
     foldl add_table_sizes x (imap (fun i => pair (k + i)%nat) l)).
Proof.
  revert acc x k. induction l as [|t l IH]; intros acc x k.
  - simpl. by rewrite app_nil_r.
  - rewrite imap_cons. cbn [foldl placed].
    rewrite Nat.add_0_r, split_tables_step.
    rewrite (imap_ext _ (fun i => pair (S k + i)%nat))
      by (intros i y _; simpl; f_equal; lia).
    rewrite IH, <- app_assoc. done.
Qed.

Lemma split_tables_placed TL :
  (foldl (split_tables (table_totals TL)) ([], (0, 0, 0)) (imap pair TL)).1
  = placed (table_totals TL) (0, 0, 0) 0 TL.
Proof.
  change (imap pair TL) with (imap (fun i => pair (0 + i)%nat) TL).
  by rewrite foldl_split_tables_placed.
Qed.

(** The sizes added up before task [k + i]. *)
Definition sizes_before (x : Z * Z * Z) (k : nat)
    (l : list Partition.GB_saxpy3task_struct) (i : nat) : Z * Z * Z :=
  foldl add_table_sizes x (imap (fun j => pair (k + j)%nat) (take i l)).

Lemma sizes_before_S x k t l i :
  sizes_before x k (t :: l) (S i)
  = sizes_before (add_table_sizes x (k, t)) (S k) l i.
Proof.
  unfold sizes_before. cbn [take]. rewrite imap_cons. cbn [foldl].
  rewrite Nat.add_0_r. f_equal.
  apply imap_ext. intros j y _. simpl. f_equal. lia.
Qed.

Lemma placed_lookup totals l x k (i : nat) t :
  l !! i = Some t ->
  placed totals x k l !! i
  = Some (if is_leader (k + i) t
          then with_tables t
                 (pointer totals.1.1 (sizes_before x k l i).1.1)
                 (pointer totals.1.2 (sizes_before x k l i).1.2)
                 (pointer totals.2 (sizes_before x k l i).2)
          else t).
Proof.
  revert x k i. induction l as [|t0 l IH]; intros x k i Ht; [done|].
  destruct i as [|i].
  - injection Ht as ->. simpl. by rewrite Nat.add_0_r.
  - cbn [placed lookup list_lookup]. simpl in Ht.
    rewrite (IH _ (S k) i Ht), sizes_before_S.
    by replace (S k + i)%nat with (k + S i)%nat by lia.
Qed.

Lemma length_placed totals l x k : length (placed totals x k l) = length l.
Proof.
  revert x k. induction l as [|t l IH]; intros x k; simpl; [done|].
  by rewrite IH.
Qed.

(** The sizes are not negative. *)
Definition le3 (a b : Z * Z * Z) : Prop :=
  a.1.1 <= b.1.1 /\ a.1.2 <= b.1.2 /\ a.2 <= b.2.

Definition sized (t : Partition.GB_saxpy3task_struct) : Prop :=
  le3 (0, 0, 0) (table_sizes t).

Lemma add_table_sizes_le x k t :
  sized t -> le3 x (add_table_sizes x (k, t)).
Proof.
  intros (H1 & H2 & H3). unfold add_table_sizes, le3.
  destruct x as [[hi hf] hx]. destruct (is_leader k t); cbn [negb].
  - destruct (table_sizes t) as [[a b] c']. simpl in *. lia.
  - simpl. lia.
Qed.

Lemma add_table_sizes_leader x k t :
  is_leader k t = true ->
  add_table_sizes x (k, t)
  = (x.1.1 + (table_sizes t).1.1, x.1.2 + (table_sizes t).1.2,
     x.2 + (table_sizes t).2).
Proof.
  intros Hl. unfold add_table_sizes. rewrite Hl.
  destruct x as [[hi hf] hx]. by destruct (table_sizes t) as [[a b] c'].
Qed.

Lemma foldl_add_table_sizes_le (f : nat -> _ -> nat * _) l x :
  (forall i t, (f i t).2 = t) ->
  Forall sized l ->
  le3 x (foldl add_table_sizes x (imap f l)).
Proof.
  intros Hf Hl. revert f x Hf.
  induction Hl as [|t l Ht _ IH]; intros f x Hf; [by unfold le3|].
  rewrite imap_cons. cbn [foldl].
  pose proof (Hf 0%nat t) as Ht0. destruct (f 0%nat t) as [k t0].
  simpl in Ht0. subst t0.
  pose proof (add_table_sizes_le x k t Ht) as (H1 & H2 & H3).
  destruct (IH (f ∘ S) (add_table_sizes x (k, t))) as (H4 & H5 & H6).
  { intros i y. apply Hf. }
  unfold le3. lia.
Qed.

Lemma sizes_before_mono l (i j : nat) :
  Forall sized l -> (i <= j)%nat ->
  le3 (sizes_before (0, 0, 0) 0 l i) (sizes_before (0, 0, 0) 0 l j).
Proof.
  intros Hl Hij. unfold sizes_before.
  replace (take j l) with (take i (take j l) ++ drop i (take j l))
    by apply take_drop.
  rewrite take_take, Nat.min_l by done.
  rewrite imap_app, foldl_app.
  apply foldl_add_table_sizes_le; [done|].
  apply Forall_drop, Forall_take, Hl.
Qed.

Lemma sizes_before_all l :
  sizes_before (0, 0, 0) 0 l (length l) = table_totals l.
Proof. unfold sizes_before, table_totals. by rewrite firstn_all. Qed.

Lemma sizes_before_leader l (i : nat) t :
  l !! i = Some t -> is_leader i t = true ->
  sizes_before (0, 0, 0) 0 l (S i)
  = ((sizes_before (0, 0, 0) 0 l i).1.1 + (table_sizes t).1.1,
     (sizes_before (0, 0, 0) 0 l i).1.2 + (table_sizes t).1.2,
     (sizes_before (0, 0, 0) 0 l i).2 + (table_sizes t).2).
Proof.
  intros Ht Hl. unfold sizes_before.
  rewrite (take_S_r _ _ _ Ht), imap_app, foldl_app. simpl.
  rewrite length_take_le by (apply lookup_lt_Some in Ht; lia).
  rewrite Nat.add_0_r. by apply add_table_sizes_leader.
Qed.

Lemma sized_intro t :
  0 <= Partition.hsize t -> 0 <= csize ->
  (forall a, 0 < a -> 0 < GB_ICEIL a 8) ->
  sized t.
Proof.
  intros Hh Hc Hceil. unfold sized, le3, table_sizes, hi_pad, hx_pad.
  change (64 / 8) with 8. cbn [fst snd].
  pose proof (Hceil (Partition.hsize t + 8) ltac:(lia)).
  repeat split.
  - destruct (negb _ && negb _); lia.
  - destruct (_ && _); lia.
  - destruct (negb is_any_pair_semiring); nia.
Qed.

Lemma sizes_before_totals l (i : nat) :
  sizes_before (0, 0, 0) 0 l i = table_totals (take i l).
Proof. reflexivity. Qed.

Lemma share_tables_leader nfine TL (i : nat) t :
  is_leader i t = true -> share_tables nfine TL (i, t) = t.
Proof. intros Hl. unfold share_tables. by rewrite Hl, andb_false_r. Qed.

Lemma assign_tables_lookup nfine TL (i : nat) t :
  TL !! i = Some t ->
  assign_tables nfine TL !! i
  = Some (share_tables nfine (placed (table_totals TL) (0, 0, 0) 0 TL)
            (i, if is_leader i t
                then with_tables t
                       (pointer (table_totals TL).1.1
                          (table_totals (take i TL)).1.1)
                       (pointer (table_totals TL).1.2
                          (table_totals (take i TL)).1.2)
                       (pointer (table_totals TL).2
                          (table_totals (take i TL)).2)
                else t)).
Proof.
  intros Ht. unfold assign_tables. rewrite split_tables_placed.
  rewrite list_lookup_fmap, list_lookup_imap.
  by rewrite (placed_lookup _ _ _ _ _ _ Ht).
Qed.


(** The table of a leader starts after the tables of the leaders before
    it, and the tables of the leaders up to a later task end before the
    place the later task starts from. *)
Lemma leader_sizes TL (i j : nat) t :
  Forall sized TL -> TL !! i = Some t -> is_leader i t = true ->
  (i < j)%nat ->
  le3 (0, 0, 0) (table_totals (take i TL))
  /\ le3 ((table_totals (take i TL)).1.1 + (table_sizes t).1.1,
          (table_totals (take i TL)).1.2 + (table_sizes t).1.2,
          (table_totals (take i TL)).2 + (table_sizes t).2)
         (table_totals (take j TL)).
Proof.
  intros Hsized Ht Hl Hij. split.
  - exact (sizes_before_mono TL 0 i Hsized ltac:(lia)).
  - pose proof (sizes_before_mono TL (S i) j Hsized ltac:(lia)) as Hm.
    rewrite (sizes_before_leader TL i t Ht Hl) in Hm.
    by rewrite !sizes_before_totals in Hm.
Qed.

Lemma assign_tables_leader nfine TL (i : nat) t :
  TL !! i = Some t -> is_leader i t = true ->
  assign_tables nfine TL !! i
  = Some (with_tables t
            (pointer (table_totals TL).1.1 (table_totals (take i TL)).1.1)
            (pointer (table_totals TL).1.2 (table_totals (take i TL)).1.2)
            (pointer (table_totals TL).2 (table_totals (take i TL)).2)).
Proof.
  intros Ht Hl. rewrite (assign_tables_lookup _ _ _ _ Ht), Hl. f_equal.
  by apply share_tables_leader.
Qed.

Lemma Forall_sized TL :
  Forall (fun t => 0 <= Partition.hsize t) TL -> 0 <= csize ->
  (forall a, 0 < a -> 0 < GB_ICEIL a 8) ->
  Forall sized TL.
Proof.
  intros Hh Hc Hceil. eapply Forall_impl; [exact Hh|].
  intros y Hy. by apply sized_intro.
Qed.

(** X7.  "Split the space into separate hash tables": the tables of the
    leaders lie one after the other in [Hi_all], [Hf_all] and [Hx_all].
    The table of a leader starts where the sizes of the leaders before it
    add up to, it ends inside the space that is allocated, and the table
    of every later leader starts at or after its end: no two tables
    overlap. *)
Theorem hash_tables_do_not_overlap nfine TL (i : nat) t :
  Forall (fun t => 0 <= Partition.hsize t) TL ->
  0 <= csize ->
  (forall a, 0 < a -> 0 < GB_ICEIL a 8) ->
  TL !! i = Some t -> is_leader i t = true ->
  let before := table_totals (take i TL) in
  let total := table_totals TL in
  let size := table_sizes t in
  assign_tables nfine TL !! i
  = Some (with_tables t (pointer total.1.1 before.1.1)
            (pointer total.1.2 before.1.2) (pointer total.2 before.2))
  /\ (0 <= before.1.1 /\ 0 <= before.1.2 /\ 0 <= before.2)
  /\ (before.1.1 + size.1.1 <= total.1.1
      /\ before.1.2 + size.1.2 <= total.1.2
      /\ before.2 + size.2 <= total.2)
  /\ forall (j : nat) tj,
       (i < j)%nat -> TL !! j = Some tj -> is_leader j tj = true ->
       before.1.1 + size.1.1 <= (table_totals (take j TL)).1.1
       /\ before.1.2 + size.1.2 <= (table_totals (take j TL)).1.2
       /\ before.2 + size.2 <= (table_totals (take j TL)).2.
Proof.
  intros Hh Hc Hceil Ht Hl before total size.
  pose proof (Forall_sized TL Hh Hc Hceil) as Hsized.
  pose proof (lookup_lt_Some _ _ _ Ht) as Hlt.
  split; [by apply assign_tables_leader|].
  destruct (leader_sizes TL i (length TL) t Hsized Ht Hl Hlt)
    as [Hbefore Hwithin].
  rewrite firstn_all in Hwithin.
  split; [exact Hbefore|]. split; [exact Hwithin|].
  intros j tj Hij _ _.
  by destruct (leader_sizes TL i j t Hsized Ht Hl Hij) as [_ Hj].
Qed.


(** X9.  "Determine the total size of all hash tables": the space that is
    allocated gives every leader the tables it needs.  A leader always has
    an [Hf]; a coarse hash task has an [Hi]; and unless the semiring is
    ANY_PAIR the leader has an [Hx]. *)
Theorem leader_gets_the_tables_it_needs nfine TL (i : nat) t :
  Forall (fun t => 0 <= Partition.hsize t) TL ->
  0 <= csize ->
  (forall a, 0 < a -> 0 < GB_ICEIL a 8) ->
  TL !! i = Some t -> is_leader i t = true ->
  exists t',
    assign_tables nfine TL !! i = Some t'
    /\ Partition.work t' = Partition.work t
    /\ is_Some (Partition.Hf t')
    /\ (Partition.vector t < 0 -> Partition.hsize t <> cvlen ->
        is_Some (Partition.Hi t'))
    /\ (is_any_pair_semiring = false -> is_Some (Partition.Hx t')).
Proof.
  intros Hh Hc Hceil Ht Hl.
  pose proof (Forall_sized TL Hh Hc Hceil) as Hsized.
  pose proof (lookup_lt_Some _ _ _ Ht) as Hlt.
  destruct (leader_sizes TL i (length TL) t Hsized Ht Hl Hlt)
    as [(B1 & B2 & B3) (W1 & W2 & W3)].
  rewrite firstn_all in W1, W2, W3. cbn [fst snd] in *.
  assert (Hht : 0 <= Partition.hsize t).
  { rewrite Forall_lookup in Hh. exact (Hh _ _ Ht). }
  pose proof (Hceil (Partition.hsize t + 8) ltac:(lia)) as Hc8.
  eexists. split; [by apply assign_tables_leader|].
  split; [done|]. cbn [Partition.Hf Partition.Hi Partition.Hx with_tables].
  unfold pointer, table_sizes, hi_pad, hx_pad in *.
  change (64 / 8) with 8 in *. cbn [fst snd] in *.
  split; [|split].
  - destruct (Z.ltb_spec 0 (table_totals TL).1.2) as [|Hz]; [done|].
    exfalso. destruct (_ && _) in W2; lia.
  - intros Hv Hs.
    destruct (Z.ltb_spec 0 (table_totals TL).1.1) as [|Hz]; [done|].
    exfalso.
    rewrite (proj2 (Z.leb_gt _ _) Hv), (proj2 (Z.eqb_neq _ _) Hs) in W1.
    cbn [negb andb] in W1. lia.
  - intros Hany.
    destruct (Z.ltb_spec 0 (table_totals TL).2) as [|Hz]; [done|].
    exfalso. rewrite Hany in W3. cbn [negb] in W3. nia.
Qed.

Lemma placed_Hi totals x k l :
  totals.1.1 = 0 ->
  Forall (fun t => Partition.Hi t = None) l ->
  Forall (fun t => Partition.Hi t = None) (placed totals x k l).
Proof.
  intros Hz Hl. revert x k.
  induction Hl as [|t l Ht _ IH]; intros x k; cbn [placed]; [done|].
  constructor; [|apply IH].
  destruct (is_leader k t); [|done].
  cbn [Partition.Hi with_tables]. unfold pointer. by rewrite Hz.
Qed.

Lemma placed_Hx totals x k l :
  totals.2 = 0 ->
  Forall (fun t => Partition.Hx t = None) l ->
  Forall (fun t => Partition.Hx t = None) (placed totals x k l).
Proof.
  intros Hz Hl. revert x k.
  induction Hl as [|t l Ht _ IH]; intros x k; cbn [placed]; [done|].
  constructor; [|apply IH].
  destruct (is_leader k t); [|done].
  cbn [Partition.Hx with_tables]. unfold pointer. by rewrite Hz.
Qed.

Lemma shared_Forall (P : Partition.GB_saxpy3task_struct -> Prop) nfine
    TL1 :
  (forall (i : nat) t, TL1 !! i = Some t -> P (share_tables nfine TL1 (i, t))) ->
  Forall P (share_tables nfine TL1 <$> imap pair TL1).
Proof.
  intros H. apply Forall_lookup. intros i t' Ht'.
  rewrite list_lookup_fmap, list_lookup_imap in Ht'.
  destruct (TL1 !! i) as [t|] eqn:Ht; [|done].
  injection Ht' as <-. by apply H.
Qed.

Lemma table_totals_Hi l x k :
  (forall (i : nat) t, l !! i = Some t -> is_leader (k + i) t = true ->
     0 <= Partition.vector t \/ Partition.hsize t = cvlen) ->
  (foldl add_table_sizes x (imap (fun j => pair (k + j)%nat) l)).1.1 = x.1.1.
Proof.
  revert x k. induction l as [|t l IH]; intros x k Hl; [done|].
  rewrite imap_cons. cbn [foldl].
  rewrite (imap_ext _ (fun j => pair (S k + j)%nat))
    by (intros i y _; simpl; f_equal; lia).
  rewrite IH.
  - rewrite Nat.add_0_r. unfold add_table_sizes.
    destruct (is_leader k t) eqn:Hk; cbn [negb]; [|done].
    destruct x as [[x1 x2] x3]. unfold table_sizes. cbn [fst snd].
    specialize (Hl 0%nat t eq_refl). rewrite Nat.add_0_r in Hl.
    destruct (Hl Hk) as [Hv|Hs].
    + rewrite (proj2 (Z.leb_le _ _) Hv). cbn [negb andb]. lia.
    + rewrite (proj2 (Z.eqb_eq _ _) Hs), andb_false_r. lia.
  - intros i t' Ht' Hlead. apply (Hl (S i) t' Ht').
    by replace (k + S i)%nat with (S k + i)%nat by lia.
Qed.

Lemma table_totals_Hx l x :
  is_any_pair_semiring = true ->
  (foldl add_table_sizes x l).2 = x.2.
Proof.
  intros Hany. revert x. induction l as [|[k t] l IH]; intros x; [done|].
  cbn [foldl]. rewrite IH. unfold add_table_sizes.
  destruct (is_leader k t); cbn [negb]; [|done].
  destruct x as [[x1 x2] x3]. unfold table_sizes. rewrite Hany.
  cbn [negb fst snd]. lia.
Qed.

(** X10.  "Only coarse hash tasks need Hi" and "the ANY_PAIR semiring
    does not use Hx": when no leader is a coarse hash task nothing is
    allocated for [Hi] and no task has an [Hi]; with the ANY_PAIR semiring
    nothing is allocated for [Hx] and no task has an [Hx]. *)
Theorem unused_tables_are_not_allocated nfine TL :
  Forall (fun t => Partition.Hi t = None /\ Partition.Hx t = None) TL ->
  ((forall (i : nat) t, TL !! i = Some t -> is_leader i t = true ->
      0 <= Partition.vector t \/ Partition.hsize t = cvlen) ->
   (table_totals TL).1.1 = 0
   /\ Forall (fun t => Partition.Hi t = None) (assign_tables nfine TL))
  /\ (is_any_pair_semiring = true ->
      (table_totals TL).2 = 0
      /\ Forall (fun t => Partition.Hx t = None) (assign_tables nfine TL)).
Proof.
  intros Hnull. split.
  - intros Hneed.
    assert (Hz : (table_totals TL).1.1 = 0)
      by (by apply (table_totals_Hi TL (0, 0, 0) 0)).
    split; [done|]. unfold assign_tables. rewrite split_tables_placed.
    assert (Hp : Forall (fun t => Partition.Hi t = None)
                   (placed (table_totals TL) (0, 0, 0) 0 TL)).
    { apply placed_Hi; [done|]. eapply Forall_impl; [exact Hnull|].
      by intros t [? _]. }
    apply shared_Forall. intros i t Ht.
    rewrite Forall_lookup in Hp. pose proof (Hp _ _ Ht) as Hi.
    unfold share_tables. destruct (_ && _); [|done].
    destruct (_ !! Z.to_nat _); [cbn [Partition.Hi with_tables]|]; done.
  - intros Hany.
    assert (Hz : (table_totals TL).2 = 0)
      by (by apply (table_totals_Hx _ (0, 0, 0))).
    split; [done|]. unfold assign_tables. rewrite split_tables_placed.
    assert (Hp : Forall (fun t => Partition.Hx t = None)
                   (placed (table_totals TL) (0, 0, 0) 0 TL)).
    { apply placed_Hx; [done|]. eapply Forall_impl; [exact Hnull|].
      by intros t [_ ?]. }
    apply shared_Forall. intros i t Ht.
    rewrite Forall_lookup in Hp. pose proof (Hp _ _ Ht) as Hx.
    unfold share_tables. destruct (_ && _); [|done].
    destruct (_ !! Z.to_nat _) as [l|] eqn:Hl; [|done].
    cbn [Partition.Hx with_tables]. exact (Hp _ _ Hl).
Qed.

Lemma analyse_run :
  match analyse (initial_state false) with
  | Next p s =>
      going allocated_C s
      /\ (exists Mwork0 Bflops0 s1,
            GB_AxB_saxpy3_flopcount (fun _ => 0) M_input Mask_comp_input
              = (GrB_SUCCESS, Mwork0, Bflops0)
            /\ mask_applied s1 = false
            /\ mask_decision Mwork0 Bflops0 s1 = Next p.1 s1)
      /\ is_Some (partition_of p.1)
      /\ (exists TL st,
            partition_of p.1 = Some TL
            /\ k_TaskList st
                = assign_tables (Partition.nfine (counts p.1)) TL
            /\ p.2 = GB_AxB_saxpy3_symbolic (args_of p.1) st)
  | Return info s => prepare_return info s
  | Undefined => exists d, partition_of d = None
  end.
Proof.
  unfold analyse. rewrite bind_run, allocate_C_run.
  destruct (decide (GB_new_info <> GrB_SUCCESS)); [right; by left|].
  set (s1 := {| Chandle := Some allocated_C; mask_applied := false;
                live := ∅; attempts := [(alloc_C, true)] |}).
  assert (Hg1 : going allocated_C s1).
  { split; try done. by apply Forall_singleton. }
  rewrite bind_run.
  (* the flop counts and the mask decision *)
  assert (Hflop : match flop_counts s1 with
    | Next d s' =>
        s' = s1
        /\ exists Mwork0 Bflops0,
             GB_AxB_saxpy3_flopcount (fun _ => 0) M_input Mask_comp_input
               = (GrB_SUCCESS, Mwork0, Bflops0)
             /\ mask_decision Mwork0 Bflops0 s1 = Next d s1
    | Return info s' =>
        s' = released (attempts s1) /\ info <> GrB_SUCCESS
        /\ flopcount_status info
    | Undefined => False
    end).
  { pose proof (flop_counts_run s1 eq_refl) as H. revert H.
    unfold flop_counts.
    destruct (GB_AxB_saxpy3_flopcount _ M_input Mask_comp_input)
      as [[info Mwork0] Bflops0] eqn:Hfl.
    rewrite bind_run, GB_OK_run by done.
    destruct (decide (info = GrB_SUCCESS)) as [->|]; [|done].
    destruct (mask_decision Mwork0 Bflops0 s1) as [d s'| |] eqn:Hd; try done.
    intros ->. split; [done|]. eauto. }
  destruct (flop_counts s1) as [d s'| |]; [|right; right; left|done].
  2:{ destruct Hflop as (-> & Hne & Hst). done. }
  destruct Hflop as (-> & Mwork0 & Bflops0 & Hfl & Hd).
  (* the tasks *)
  rewrite bind_run.
  pose proof (allocate_tasks_run d allocated_C s1 Hg1 eq_refl) as Htasks.
  destruct (allocate_tasks d s1) as [[] s2| |];
    [|by repeat right|done].
  destruct Htasks as (Hg2 & Hi2 & Hf2 & Hx2).
  rewrite bind_run.
  pose proof (create_tasks_run d allocated_C s2 Hg2 Hi2 Hf2 Hx2) as Hcreate.
  destruct (create_tasks d s2) as [TL s3| |]; [|done|by eauto].
  destruct Hcreate as (Hg3 & Hl3 & Hpart).
  (* the hash tables *)
  rewrite bind_run.
  pose proof (allocate_tables_run d allocated_C TL s3 Hg3 Hl3) as Htables.
  destruct (allocate_tables d allocated_C TL s3) as [st s4| |];
    [|by repeat right|done].
  destruct Htables as [Hg4 ->]. rewrite ret_run. cbn [fst snd].
  split; [done|]. split; [by exists Mwork0, Bflops0, s1|].
  split; [by rewrite Hpart|].
  eexists TL, _. split; [done|]. split; [|reflexivity]. done.
Qed.

Lemma prepare_run applied :
  match prepare (initial_state applied) with
  | Next p s =>
      going allocated_C s
      /\ (exists Mwork0 Bflops0 s1,
            GB_AxB_saxpy3_flopcount (fun _ => 0) M_input Mask_comp_input
              = (GrB_SUCCESS, Mwork0, Bflops0)
            /\ mask_applied s1 = false
            /\ mask_decision Mwork0 Bflops0 s1 = Next p.1 s1)
      /\ is_Some (partition_of p.1)
      /\ (exists TL st,
            partition_of p.1 = Some TL
            /\ k_TaskList st
                = assign_tables (Partition.nfine (counts p.1)) TL
            /\ p.2 = GB_AxB_saxpy3_symbolic (args_of p.1) st)
  | Return info s => prepare_return info s
  | Undefined => exists d, partition_of d = None
  end.
Proof.
  unfold prepare. rewrite bind_run, start_run.
  destruct (GB_HAS_MKL_GRAPH && use_mkl) eqn:Hmkl; [|apply analyse_run].
  destruct (decide (_ <> GrB_NO_VALUE)); [by left|apply analyse_run].
Qed.

(** How the function can end after the workers. *)
Lemma complete_run d info st C s :
  going C s ->
  match complete d (info, st) s with
  | Return info' s' =>
      (info <> GrB_SUCCESS /\ info' = GrB_OUT_OF_MEMORY
       /\ s' = released (attempts s))
      \/ (info = GrB_SUCCESS
          /\ info' = (GB_hypermatrix_prune (k_C st)).1
          /\ info' <> GrB_SUCCESS /\ s' = released (attempts s))
      \/ (info = GrB_SUCCESS /\ info' = GrB_SUCCESS
          /\ (GB_hypermatrix_prune (k_C st)).1 = GrB_SUCCESS
          /\ s' = {| Chandle := Some (GB_hypermatrix_prune (k_C st)).2;
                     mask_applied := bool_decide (is_Some (M d));
                     live := ∅; attempts := attempts s |})
  | _ => False
  end.
Proof.
  intros [HC Hm Hok]. unfold complete.
  rewrite bind_run. unfold set_Chandle at 1.
  destruct (decide (info <> GrB_SUCCESS)) as [Hne|Heq].
  { rewrite free_all_return by done. by left. }
  apply dec_stable in Heq. subst info.
  rewrite bind_run, GB_FREE_WORK_run.
  destruct (GB_hypermatrix_prune (k_C st)) as [pinfo C'] eqn:Hprune.
  rewrite bind_run. unfold set_Chandle at 1.
  rewrite bind_run, GB_OK_run by done.
  destruct (decide (pinfo = GrB_SUCCESS)) as [->|Hp].
  - right. right. done.
  - right. left. done.
Qed.

Lemma partition_of_is_Some d :
  (0 <= chunk)%Q -> is_Some (partition_of d).
Proof. intros Hc. apply Partition.create_tasks_is_Some. by left. Qed.

(** How the function can end after [prepare] went on with [p] in [s0]:
    the workers failed, or the pruning failed, or all went well. *)
Definition worker_return (GB_DISABLE : bool)
    (p : mask_choice * kernel_state) (s0 : state)
    (info : GrB_Info) (s : state) : Prop :=
  let r := dispatch GB_DISABLE (args_of p.1) p.2 in
  (r.1 <> GrB_SUCCESS /\ info = GrB_OUT_OF_MEMORY
   /\ s = released (attempts s0))
  \/ (r.1 = GrB_SUCCESS
      /\ info = (GB_hypermatrix_prune (k_C r.2)).1
      /\ info <> GrB_SUCCESS /\ s = released (attempts s0))
  \/ (r.1 = GrB_SUCCESS /\ info = GrB_SUCCESS
      /\ (GB_hypermatrix_prune (k_C r.2)).1 = GrB_SUCCESS
      /\ s = {| Chandle := Some (GB_hypermatrix_prune (k_C r.2)).2;
                mask_applied := bool_decide (is_Some (M p.1));
                live := ∅; attempts := attempts s0 |}).

(** Every call returns, in one of the ways above. *)
Lemma call_run GB_DISABLE applied :
  (0 <= chunk)%Q ->
  exists info s,
    call GB_DISABLE applied = Some (info, s)
    /\ ((prepare (initial_state applied) = Return info s
         /\ prepare_return info s)
        \/ exists p s0,
             prepare (initial_state applied) = Next p s0
             /\ going allocated_C s0
             /\ worker_return GB_DISABLE p s0 info s).
Proof.
  intros Hchunk. unfold call, GB_AxB_saxpy3. rewrite bind_run.
  pose proof (prepare_run applied) as Hprep.
  destruct (prepare (initial_state applied)) as [p s0|info s|] eqn:Hp.
  - destruct Hprep as (Hg & _ & _).
    destruct (dispatch GB_DISABLE (args_of p.1) p.2) as [info st] eqn:Hd.
    pose proof (complete_run p.1 info st allocated_C s0 Hg) as Hc.
    destruct (complete p.1 (info, st) s0) as [|info' s'|]; try done.
    exists info', s'. split; [done|]. right. exists p, s0.
    split; [done|]. split; [done|].
    unfold worker_return. rewrite Hd. exact Hc.
  - exists info, s. split; [done|]. by left.
  - destruct Hprep as [d Hd].
    destruct (partition_of_is_Some d Hchunk) as [TL HTL]. congruence.
Qed.

(** A call that MKL does not take and that succeeds went through the
    workers and the pruning. *)
Lemma call_success GB_DISABLE applied info s :
  (0 <= chunk)%Q ->
  GB_HAS_MKL_GRAPH && use_mkl = false ->
  call GB_DISABLE applied = Some (info, s) ->
  info = GrB_SUCCESS ->
  exists p s0,
    prepare (initial_state applied) = Next p s0
    /\ (dispatch GB_DISABLE (args_of p.1) p.2).1 = GrB_SUCCESS
    /\ (GB_hypermatrix_prune
          (k_C (dispatch GB_DISABLE (args_of p.1) p.2).2)).1 = GrB_SUCCESS
    /\ Chandle s
       = Some (GB_hypermatrix_prune
                 (k_C (dispatch GB_DISABLE (args_of p.1) p.2).2)).2
    /\ mask_applied s = bool_decide (is_Some (M p.1)).
Proof.
  intros Hchunk Hmkl Hcall ->.
  destruct (call_run GB_DISABLE applied Hchunk) as (info & s' & Hcall' & Hend).
  rewrite Hcall in Hcall'. injection Hcall' as <- <-.
  destruct Hend as [[_ Hret]|(p & s0 & Hprep & _ & Hw)].
  - destruct Hret as [(Hon & _)|[(<- & Hne & _)|[(_ & Hne & _)|(Hoom & _)]]];
      congruence.
  - exists p, s0. split; [done|].
    destruct Hw as [(_ & Hoom & _)|[(_ & _ & Hne & _)|(Hr & _ & Hpr & ->)]];
      [congruence|congruence|done].
Qed.

(** *** The mask *)

Lemma mask_decision_cases Mwork0 Bflops0 s :
  mask_applied s = false ->
  let costly_sparse :=
    bool_decide (is_Some M_input)
    && Qltb (axbflops Bflops0 Mwork0) (inject_Z Mwork0 * GB_MWORK_ALPHA) in
  let cheap_dense :=
    Qltb (axbflops Bflops0 Mwork0)
         (inject_Z (cvlen * cvdim) * GB_MWORK_BETA) in
  let dense := GB_is_packed M_input && default_or_saxpy AxB_method_input in
  let recount := GB_AxB_saxpy3_flopcount (zero_Bflops Bflops0) None false in
  mask_decision Mwork0 Bflops0 s =
  if dense then
    if cheap_dense then
      Next {| M := M_input; Mask_comp := Mask_comp_input;
              M_dense_in_place := true; AxB_method := GxB_AxB_HASH;
              Bflops := Bflops0; Mwork := cvlen * cvdim |} s
    else
      Next {| M := M_input; Mask_comp := Mask_comp_input;
              M_dense_in_place := false; AxB_method := GxB_AxB_GUSTAVSON;
              Bflops := add_dense_mask_work Bflops0;
              Mwork := cvlen * cvdim |} s
  else if costly_sparse then
    if decide (recount.1.1 = GrB_SUCCESS) then
      Next {| M := None; Mask_comp := false; M_dense_in_place := false;
              AxB_method := AxB_method_input;
              Bflops := recount.2; Mwork := recount.1.2 |} s
    else Return recount.1.1 (released (attempts s))
  else
    Next {| M := M_input; Mask_comp := Mask_comp_input;
            M_dense_in_place := false; AxB_method := AxB_method_input;
            Bflops := Bflops0; Mwork := Mwork0 |} s.
Proof.
  intros Hm. cbv zeta. unfold mask_decision.
  destruct (GB_is_packed M_input && default_or_saxpy AxB_method_input).
  { destruct (Qltb _ _); reflexivity. }
  destruct (bool_decide (is_Some M_input) && Qltb _ _); [|reflexivity].
  destruct (GB_AxB_saxpy3_flopcount _ None false) as [[info Mwork1] Bflops1].
  rewrite bind_run, GB_OK_run by done. cbn [fst snd].
  destruct (decide (info = GrB_SUCCESS)); reflexivity.
Qed.

(** The mask that reaches the workers is the mask of the caller, with
    its complement flag, or none. *)
Lemma prepare_mask applied p s0 :
  prepare (initial_state applied) = Next p s0 ->
  (M p.1 = None /\ Mask_comp p.1 = false)
  \/ (M p.1 = M_input /\ Mask_comp p.1 = Mask_comp_input).
Proof.
  intros Hprep. pose proof (prepare_run applied) as Hrun.
  rewrite Hprep in Hrun.
  destruct Hrun as (_ & (Mwork0 & Bflops0 & s1 & _ & Hm1 & Hd) & _).
  rewrite (mask_decision_cases Mwork0 Bflops0 s1 Hm1) in Hd.
  cbv zeta in Hd.
  destruct (GB_is_packed M_input && default_or_saxpy AxB_method_input).
  { destruct (Qltb _ _) in Hd; injection Hd as Hd; rewrite <- Hd;
      by right. }
  destruct (bool_decide (is_Some M_input) && Qltb _ _).
  - destruct (decide _); [|done]. injection Hd as Hd. rewrite <- Hd.
    by left.
  - injection Hd as Hd. rewrite <- Hd. by right.
Qed.

(** The flop counts the tasks are made from: those of the first count,
    with the mask; or those with the work of the dense mask added; or,
    when the mask is discarded, those of the second count on the zeroed
    array. *)
Lemma prepare_counts applied p s0 :
  prepare (initial_state applied) = Next p s0 ->
  exists Mwork0 Bflops0,
    GB_AxB_saxpy3_flopcount (fun _ => 0) M_input Mask_comp_input
      = (GrB_SUCCESS, Mwork0, Bflops0)
    /\ ((M p.1 = M_input /\ Mask_comp p.1 = Mask_comp_input
         /\ (Bflops p.1 = Bflops0
             \/ Bflops p.1 = add_dense_mask_work Bflops0))
        \/ (M p.1 = None /\ Mask_comp p.1 = false
            /\ exists Mwork1,
                 GB_AxB_saxpy3_flopcount (zero_Bflops Bflops0) None false
                   = (GrB_SUCCESS, Mwork1, Bflops p.1))).
Proof.
  intros Hprep. pose proof (prepare_run applied) as Hrun.
  rewrite Hprep in Hrun.
  destruct Hrun as (_ & (Mwork0 & Bflops0 & s1 & Hfl & Hm1 & Hd) & _).
  exists Mwork0, Bflops0. split; [done|].
  rewrite (mask_decision_cases Mwork0 Bflops0 s1 Hm1) in Hd.
  cbv zeta in Hd.
  destruct (GB_is_packed M_input && default_or_saxpy AxB_method_input).
  { destruct (Qltb _ _) in Hd; injection Hd as Hd; rewrite <- Hd;
      left; cbn [M Mask_comp Bflops]; auto. }
  destruct (bool_decide (is_Some M_input) && Qltb _ _).
  - destruct (decide _) as [Hok|]; [|done]. injection Hd as Hd.
    rewrite <- Hd. right. cbn [M Mask_comp Bflops].
    split; [done|]. split; [done|].
    destruct (GB_AxB_saxpy3_flopcount (zero_Bflops Bflops0) None false)
      as [[info Mwork1] Bflops1]. simpl in Hok. subst info. by eauto.
  - injection Hd as Hd. rewrite <- Hd. left. cbn [M Mask_comp Bflops].
    auto.
Qed.

(** The tasks the workers get are the tasks that were created, with
    their tables. *)
Lemma prepare_tasks applied p s0 :
  prepare (initial_state applied) = Next p s0 ->
  exists TL st,
    partition_of p.1 = Some TL
    /\ k_TaskList st = assign_tables (Partition.nfine (counts p.1)) TL
    /\ p.2 = GB_AxB_saxpy3_symbolic (args_of p.1) st.
Proof.
  intros Hprep. pose proof (prepare_run applied) as Hrun.
  rewrite Hprep in Hrun. by destruct Hrun as (_ & _ & _ & Htasks).
Qed.

(** C3 (as the code has it).  With a mask M: if M is not dense, or the
    method hint is neither the default nor saxpy, and
    [axbflops < Mwork * GB_MWORK_ALPHA], the mask is discarded (M is NULL,
    the complement flag is false), the flop counts are taken again
    without the mask on the zeroed [Bflops], and the call reports
    [mask_applied = false]; if M is dense, the hint is the default or
    saxpy, and [axbflops < cvlen * cvdim * GB_MWORK_BETA], the mask is used
    in place with the Hash method and the flop counts as they are; if M
    is dense with such a hint otherwise, Gustavson's method is forced and
    the work of the mask is added to the flop counts; in the remaining
    case the mask is kept and nothing changes.  A call that MKL does not
    end reports [mask_applied = true] exactly when it succeeds with the
    mask kept. *)
Theorem mask_is_discarded_or_used Mwork0 Bflops0 s :
  is_Some M_input ->
  mask_applied s = false ->
  let costly_sparse :=
    Qltb (axbflops Bflops0 Mwork0) (inject_Z Mwork0 * GB_MWORK_ALPHA) in
  let cheap_dense :=
    Qltb (axbflops Bflops0 Mwork0)
         (inject_Z (cvlen * cvdim) * GB_MWORK_BETA) in
  let dense := GB_is_packed M_input && default_or_saxpy AxB_method_input in
  let recount := GB_AxB_saxpy3_flopcount (zero_Bflops Bflops0) None false in
  (dense = false -> costly_sparse = true ->
   mask_decision Mwork0 Bflops0 s =
   if decide (recount.1.1 = GrB_SUCCESS) then
     Next {| M := None; Mask_comp := false; M_dense_in_place := false;
             AxB_method := AxB_method_input;
             Bflops := recount.2; Mwork := recount.1.2 |} s
   else Return recount.1.1 (released (attempts s)))
  /\ (dense = true -> cheap_dense = true ->
      mask_decision Mwork0 Bflops0 s =
      Next {| M := M_input; Mask_comp := Mask_comp_input;
              M_dense_in_place := true; AxB_method := GxB_AxB_HASH;
              Bflops := Bflops0; Mwork := cvlen * cvdim |} s)
  /\ (dense = true -> cheap_dense = false ->
      mask_decision Mwork0 Bflops0 s =
      Next {| M := M_input; Mask_comp := Mask_comp_input;
              M_dense_in_place := false; AxB_method := GxB_AxB_GUSTAVSON;
              Bflops := add_dense_mask_work Bflops0;
              Mwork := cvlen * cvdim |} s)
  /\ (dense = false -> costly_sparse = false ->
      mask_decision Mwork0 Bflops0 s =
      Next {| M := M_input; Mask_comp := Mask_comp_input;
              M_dense_in_place := false; AxB_method := AxB_method_input;
              Bflops := Bflops0; Mwork := Mwork0 |} s)
  /\ (forall GB_DISABLE applied info s',
        (0 <= chunk)%Q ->
        GB_HAS_MKL_GRAPH && use_mkl = false ->
        (GB_AxB_saxpy3_flopcount (fun _ => 0) M_input Mask_comp_input).1
          = (GrB_SUCCESS, Mwork0) ->
        (GB_AxB_saxpy3_flopcount (fun _ => 0) M_input Mask_comp_input).2
          = Bflops0 ->
        call GB_DISABLE applied = Some (info, s') ->
        (mask_applied s' = true <->
         info = GrB_SUCCESS
         /\ negb (negb dense && costly_sparse) = true)).
Proof.
  intros HM Hm. cbv zeta.
  pose proof (mask_decision_cases Mwork0 Bflops0 s Hm) as Hcases.
  cbv zeta in Hcases. rewrite (bool_decide_eq_true_2 _ HM) in Hcases.
  cbn [andb] in Hcases.
  split; [|split; [|split; [|split]]].
  - intros Hd Hc. by rewrite Hcases, Hd, Hc.
  - intros Hd Hc. by rewrite Hcases, Hd, Hc.
  - intros Hd Hc. by rewrite Hcases, Hd, Hc.
  - intros Hd Hc. by rewrite Hcases, Hd, Hc.
  - intros GB_DISABLE applied info s' Hchunk Hmkl Hfl1 Hfl2 Hcall.
    destruct (call_run GB_DISABLE applied Hchunk)
      as (info' & s'' & Hcall' & Hend).
    rewrite Hcall' in Hcall. injection Hcall as -> ->.
    destruct Hend as [[_ Hret]|(p & s0 & Hprep & Hg & Hw)].
    { destruct Hret as [(Hmkl' & _)|[(_ & Hne & ->)|[(_ & Hne & ->)|
        (-> & -> & _)]]]; [congruence|split; [done|by intros [? _]]..]. }
    destruct Hw as [(_ & -> & ->)|[(_ & _ & Hne & ->)|(_ & -> & _ & ->)]];
      [split; [done|by intros [? _]]..|].
    cbn [mask_applied]. rewrite bool_decide_eq_true.
    pose proof (prepare_run applied) as Hrun. rewrite Hprep in Hrun.
    destruct Hrun as (_ & (Mwork' & Bflops' & s1 & Hfl & Hm1 & Hd) & _).
    rewrite Hfl in Hfl1, Hfl2. cbn [fst snd] in Hfl1, Hfl2.
    injection Hfl1 as ->. subst Bflops'.
    rewrite (mask_decision_cases Mwork0 Bflops0 s1 Hm1) in Hd.
    cbv zeta in Hd. rewrite (bool_decide_eq_true_2 _ HM) in Hd.
    cbn [andb] in Hd.
    destruct (GB_is_packed M_input && default_or_saxpy AxB_method_input).
    { cbn [negb andb].
      destruct (Qltb _ _) in Hd; injection Hd as Hd; rewrite <- Hd;
        by cbn [M]. }
    cbn [negb andb].
    destruct (Qltb (axbflops Bflops0 Mwork0) _).
    + destruct (decide _); [|done].
      injection Hd as Hd. rewrite <- Hd. cbn [M negb].
      split; [by intros []|by intros [_ ?]].
    + injection Hd as Hd. rewrite <- Hd. by cbn [M negb].
Qed.

(** *** Failing allocations *)

(** C8.  Every call returns, with all workspace freed.  If an allocation
    failed (the output matrix in [GB_new], whose failure is
    [GrB_OUT_OF_MEMORY], the partitioning workspace or the task list, or
    the hash tables), the status is [GrB_OUT_OF_MEMORY], the output
    matrix is freed and [*Chandle] is [NULL]; and a call that succeeds had
    no failing allocation. *)
Theorem failed_allocation_is_out_of_memory GB_DISABLE applied :
  (0 <= chunk)%Q ->
  GB_new_info = GrB_SUCCESS \/ GB_new_info = GrB_OUT_OF_MEMORY ->
  exists info s,
    call GB_DISABLE applied = Some (info, s)
    /\ live s = ∅
    /\ (some_failed (attempts s) ->
        info = GrB_OUT_OF_MEMORY /\ Chandle s = None
        /\ mask_applied s = false)
    /\ (info = GrB_SUCCESS -> all_ok (attempts s)).
Proof.
  intros Hchunk Hnew.
  destruct (call_run GB_DISABLE applied Hchunk) as (info & s & Hcall & Hend).
  exists info, s. split; [done|].
  destruct Hend as [[_ Hret]|(p & s0 & Hprep & [_ _ Hok] & Hw)].
  - destruct Hret as [(_ & _ & _ & ->)|[(-> & Hne & ->)|[(_ & Hne & ->)|
      (-> & -> & Hfail)]]]; cbn [live attempts Chandle mask_applied].
    + split; [done|]. split; [|by constructor].
      intros Hf. by apply Exists_nil in Hf.
    + split; [done|]. split; [|done]. intros _. by destruct Hnew.
    + split; [done|]. split; [|done].
      intros Hf. apply Exists_cons in Hf as [Hf|Hf]; [done|].
      by apply Exists_nil in Hf.
    + done.
  - destruct Hw as [(_ & -> & ->)|[(_ & _ & Hne & ->)|(_ & -> & _ & ->)]];
      cbn [live attempts Chandle mask_applied];
      (split; [done|]); (split; [|done]);
      intros Hf; destruct (not_all_ok_and_failed _ Hok Hf).
Qed.

(** *** The status returned *)


(** *** The workspace of the workers *)

Lemma free_all_not_next {A} info s (a : A) s' :
  (GB_FREE_ALL;; @return_ A info) s <> Next a s'.
Proof. rewrite bind_run, GB_FREE_ALL_run. done. Qed.

Lemma GB_MALLOC_next w s : exists s', GB_MALLOC w s = Next tt s'.
Proof. by eexists. Qed.

(** The task list is there when the tasks are created. *)
Lemma allocate_tasks_live d s u s' :
  allocate_tasks d s = Next u s' -> TaskList ∈ live s'.
Proof.
  unfold allocate_tasks. rewrite bind_run.
  destruct (allocate_initial d s) as [[] s0| |]; [|done|done].
  destruct (GB_MALLOC_next TaskList s0) as [s1 Hrun1].
  rewrite bind_run, Hrun1.
  destruct (GB_MALLOC_next Coarse_Work s1) as [s2 Hrun2].
  rewrite bind_run, Hrun2, bind_run.
  assert (Hfine : exists s4,
            (if 0 <? Partition.max_bjnz (counts d)
             then GB_MALLOC Fine_slice;; GB_MALLOC Bflops2
             else mret tt) s2 = Next tt s4).
  { destruct (0 <? _); [|by eexists].
    destruct (GB_MALLOC_next Fine_slice s2) as [s3 Hrun3].
    rewrite bind_run, Hrun3. apply GB_MALLOC_next. }
  destruct Hfine as [s4 Hrun4]. rewrite Hrun4.
  do 4 (rewrite bind_run, is_allocated_run; cbn beta iota).
  destruct (bool_decide (TaskList ∈ live s4)) eqn:Htl; cbn [negb orb].
  - destruct (_ || _).
    + intros H. by apply free_all_not_next in H.
    + rewrite ret_run. intros [= <- <-].
      by apply bool_decide_eq_true in Htl.
  - intros H. by apply free_all_not_next in H.
Qed.

(** "Free workspace used to create the tasks". *)
Lemma create_tasks_live d s TL s' :
  create_tasks d s = Next TL s' ->
  forall w, w ∈ live s' <->
    w ∈ live s /\ w <> Bflops2 /\ w <> Coarse_Work
    /\ w <> Coarse_initial /\ w <> Fine_slice.
Proof.
  unfold create_tasks.
  destruct (Partition.create_tasks _ _ _ _ _ _ _ _ _ _ _ _ _ _ _ _ _ _);
    [|done].
  cbv [GB_FREE_INITIAL_WORK mbind step_bind bind GB_FREE mret step_ret ret].
  intros [= <- <-] w. cbn [live]. set_solver.
Qed.

(** The hash tables that are allocated are those with a size. *)
Lemma allocate_tables_live d C TL s st s' :
  Hi_all ∉ live s -> Hf_all ∉ live s -> Hx_all ∉ live s ->
  allocate_tables d C TL s = Next st s' ->
  forall w, w ∈ live s' <->
    w ∈ live s
    \/ (w = Hi_all /\ 0 < (table_totals TL).1.1)
    \/ (w = Hf_all /\ 0 < (table_totals TL).1.2)
    \/ (w = Hx_all /\ 0 < (table_totals TL).2).
Proof.
  intros Hi0 Hf0 Hx0. unfold allocate_tables.
  destruct (table_totals TL) as [[Hi_size_total Hf_size_total] Hx_size_total].
  cbn [fst snd]. setoid_rewrite <- Z.ltb_lt.
  set (bi := 0 <? Hi_size_total). set (bf := 0 <? Hf_size_total).
  set (bx := 0 <? Hx_size_total).
  destruct (cond_GB_MALLOC_run bi Hi_all s Hi0)
    as (s1 & Hrun1 & _ & _ & _ & Hl1).
  rewrite bind_run, Hrun1.
  destruct (cond_GB_MALLOC_run bf Hf_all s1)
    as (s2 & Hrun2 & _ & _ & _ & Hl2).
  { rewrite Hl1. intros [[? _]|Hw]; done. }
  rewrite bind_run, Hrun2.
  destruct (cond_GB_MALLOC_run bx Hx_all s2)
    as (s3 & Hrun3 & _ & _ & _ & Hl3).
  { rewrite Hl2, Hl1. intros [[? _]|[[? _]|Hw]]; done. }
  rewrite bind_run, Hrun3.
  set (oki := malloc_ok (alloc_workspace Hi_all)) in *.
  set (okf := malloc_ok (alloc_workspace Hf_all)) in *.
  set (okx := malloc_ok (alloc_workspace Hx_all)) in *.
  do 3 (rewrite bind_run, is_allocated_run; cbn beta iota).
  assert (HI : bool_decide (Hi_all ∈ live s3) = bi && oki).
  { apply eq_true_iff_eq.
    rewrite bool_decide_eq_true, Hl3, Hl2, Hl1. naive_solver. }
  assert (HF : bool_decide (Hf_all ∈ live s3) = bf && okf).
  { apply eq_true_iff_eq.
    rewrite bool_decide_eq_true, Hl3, Hl2, Hl1. naive_solver. }
  assert (HX : bool_decide (Hx_all ∈ live s3) = bx && okx).
  { apply eq_true_iff_eq.
    rewrite bool_decide_eq_true, Hl3, Hl2, Hl1. naive_solver. }
  rewrite HI, HF, HX.
  destruct bi, oki, bf, okf, bx, okx; cbn [negb orb andb];
    try (intros H; by apply free_all_not_next in H);
    rewrite ret_run; intros [= <- <-] w;
    rewrite Hl3, Hl2, Hl1; cbn [andb]; naive_solver.
Qed.

Lemma analyse_live p s :
  analyse (initial_state false) = Next p s ->
  exists TL,
    partition_of p.1 = Some TL
    /\ forall w, w ∈ live s <->
         w = TaskList
         \/ (w = Hi_all /\ 0 < (table_totals TL).1.1)
         \/ (w = Hf_all /\ 0 < (table_totals TL).1.2)
         \/ (w = Hx_all /\ 0 < (table_totals TL).2).
Proof.
  unfold analyse. rewrite bind_run, allocate_C_run.
  destruct (decide (GB_new_info <> GrB_SUCCESS)); [done|].
  set (s1 := {| Chandle := Some allocated_C; mask_applied := false;
                live := ∅; attempts := [(alloc_C, true)] |}).
  assert (Hg1 : going allocated_C s1).
  { split; try done. by apply Forall_singleton. }
  rewrite bind_run.
  pose proof (flop_counts_run s1 eq_refl) as Hflop.
  destruct (flop_counts s1) as [d s'| |]; [|done|done]. subst s'.
  rewrite bind_run.
  pose proof (allocate_tasks_run d allocated_C s1 Hg1 eq_refl) as Htasks.
  destruct (allocate_tasks d s1) as [[] s2| |] eqn:Hat; [|done|done].
  destruct Htasks as (Hg2 & Hi2 & Hf2 & Hx2).
  pose proof (allocate_tasks_live d s1 _ _ Hat) as HT2.
  rewrite bind_run.
  pose proof (create_tasks_run d allocated_C s2 Hg2 Hi2 Hf2 Hx2) as Hcreate.
  destruct (create_tasks d s2) as [TL s3| |] eqn:Hct; [|done|done].
  destruct Hcreate as (Hg3 & Hl3 & Hpart).
  pose proof (create_tasks_live d s2 TL s3 Hct) as Hlive3.
  rewrite bind_run.
  destruct (allocate_tables d allocated_C TL s3) as [st s4| |] eqn:Hal;
    [|done|done].
  rewrite ret_run. intros [= <- <-]. exists TL. split; [done|].
  assert (Hthree : Hi_all ∉ live s3 /\ Hf_all ∉ live s3 /\ Hx_all ∉ live s3).
  { repeat split; intros Hw; by apply Hl3 in Hw. }
  destruct Hthree as (Hi3 & Hf3 & Hx3).
  intros w. rewrite (allocate_tables_live d _ TL s3 st s4 Hi3 Hf3 Hx3 Hal).
  assert (Hone : w ∈ live s3 <-> w = TaskList).
  { split; [apply Hl3|]. intros ->. by apply Hlive3. }
  by rewrite Hone.
Qed.

(** X18.  The workers run with the task list and the hash tables, and
    nothing else: the workspace used to create the tasks ([Bflops2],
    [Coarse_initial], [Coarse_Work], [Fine_slice]) has been freed before
    the hash tables are allocated, and [Hi_all], [Hf_all] and [Hx_all] are
    there exactly when the total size of their tables is positive. *)
Theorem workers_run_with_tasks_and_tables applied p s :
  prepare (initial_state applied) = Next p s ->
  exists TL,
    partition_of p.1 = Some TL
    /\ forall w, w ∈ live s <->
         w = TaskList
         \/ (w = Hi_all /\ 0 < (table_totals TL).1.1)
         \/ (w = Hf_all /\ 0 < (table_totals TL).1.2)
         \/ (w = Hx_all /\ 0 < (table_totals TL).2).
Proof.
  unfold prepare. rewrite bind_run, start_run.
  destruct (GB_HAS_MKL_GRAPH && use_mkl); [|apply analyse_live].
  destruct (decide (_ <> GrB_NO_VALUE)); [done|apply analyse_live].
Qed.

(** *** The output matrix *)

(** X11.  A call that MKL does not take returns the output matrix exactly
    when it returns [GrB_SUCCESS].  With any other status [*Chandle] is
    [NULL], [*mask_applied] is false whatever it was at the call, and no
    workspace is left. *)
Theorem output_is_returned_exactly_on_success GB_DISABLE applied info s :
  (0 <= chunk)%Q ->
  GB_HAS_MKL_GRAPH && use_mkl = false ->
  call GB_DISABLE applied = Some (info, s) ->
  (is_Some (Chandle s) <-> info = GrB_SUCCESS)
  /\ (info <> GrB_SUCCESS -> s = released (attempts s)).
Proof.
  intros Hchunk Hmkl Hcall.
  destruct (call_run GB_DISABLE applied Hchunk)
    as (info' & s' & Hcall' & Hend).
  rewrite Hcall in Hcall'. injection Hcall' as <- <-.
  destruct Hend as [[_ Hret]|(p & s0 & _ & _ & Hw)].
  - destruct Hret as [(Hon & _)|[(_ & Hne & ->)|[(_ & Hne & ->)|
      (-> & -> & _)]]]; [congruence| | |]; cbn [attempts released];
      (split; [split; [intros HC; by apply is_Some_None in HC|done]|done]).
  - destruct Hw as [(_ & -> & ->)|[(_ & _ & Hne & ->)|(_ & -> & _ & ->)]];
      cbn [attempts released Chandle].
    + split; [split; [intros HC; by apply is_Some_None in HC|done]|done].
    + split; [split; [intros HC; by apply is_Some_None in HC|done]|done].
    + split; [split; [done|by eexists]|done].
Qed.

(** *** The workers *)

Lemma dispatch_disabled args st :
  dispatch true args st = GB_AxB_saxpy3_generic args st.
Proof.
  unfold dispatch, GB_Asaxpy3B.
  destruct (negb GBCOMPACT && builtin_semiring && factory_case);
    [|reflexivity].
  rewrite bool_decide_eq_false_2 by (intros H; by apply H). reflexivity.
Qed.

Lemma dispatch_enabled args st :
  negb GBCOMPACT && builtin_semiring && factory_case = true ->
  (GB_AxB_saxpy_template args st).1 <> GrB_NO_VALUE ->
  dispatch false args st = GB_AxB_saxpy_template args st.
Proof.
  intros Hsel Hne. unfold dispatch, GB_Asaxpy3B. rewrite Hsel.
  destruct (GB_AxB_saxpy_template args st) as [info st1].
  by rewrite bool_decide_eq_true_2.
Qed.

(** A worker generated with [GB_DISABLE] answers [GrB_NO_VALUE] and
    leaves its arguments alone; the call then runs the generic worker on
    the same arguments and state.  So, whenever the enabled worker and
    the generic one leave the same state and status for a call, the call
    ends the same way (status, output matrix, [mask_applied]) with the
    worker disabled as with it enabled.  No call returns
    [GrB_NO_VALUE]. *)
Lemma disabled_dispatch_falls_through applied :
  (0 <= chunk)%Q ->
  GB_new_info <> GrB_NO_VALUE ->
  (forall info, flopcount_status info -> info <> GrB_NO_VALUE) ->
  (forall C, (GB_hypermatrix_prune C).1 <> GrB_NO_VALUE) ->
  (forall args st,
      GB_Asaxpy3B true args st = (GrB_NO_VALUE, st)
      /\ dispatch true args st = GB_AxB_saxpy3_generic args st)
  /\ (forall p s0,
        prepare (initial_state applied) = Next p s0 ->
        (GB_AxB_saxpy_template (args_of p.1) p.2).1 <> GrB_NO_VALUE ->
        GB_AxB_saxpy_template (args_of p.1) p.2
          = GB_AxB_saxpy3_generic (args_of p.1) p.2 ->
        call true applied = call false applied)
  /\ (forall GB_DISABLE, exists info s,
        call GB_DISABLE applied = Some (info, s)
        /\ info <> GrB_NO_VALUE).
Proof.
  intros Hchunk Hnew Hflop Hprune. split; [|split].
  - intros args st. split; [reflexivity|apply dispatch_disabled].
  - intros p s0 Hprep Hne Hagree.
    unfold call, GB_AxB_saxpy3. rewrite !bind_run, Hprep.
    rewrite dispatch_disabled.
    destruct (negb GBCOMPACT && builtin_semiring && factory_case) eqn:Hsel.
    + by rewrite (dispatch_enabled _ _ Hsel Hne), Hagree.
    + unfold dispatch. by rewrite Hsel.
  - intros GB_DISABLE.
    destruct (call_run GB_DISABLE applied Hchunk)
      as (info & s & Hcall & Hend).
    exists info, s. split; [done|].
    destruct Hend as [[_ Hret]|(p & s0 & Hprep & _ & Hw)].
    + destruct Hret as [(_ & _ & Hne & _)|[(-> & _)|[(Hst & _)|
        (-> & _)]]]; [done|done|by apply Hflop|done].
    + destruct Hw as [(_ & -> & _)|[(_ & -> & _)|(_ & -> & _)]];
        [done|apply Hprune|done].
Qed.

End Saxpy3.

End Saxpy3.

(** * The kernels: symbolic analysis, numeric phase and gather

    Source/GB_AxB_saxpy3_symbolic.c and Source/Template/GB_AxB_saxpy3_template.c
    are called by [GB_AxB_saxpy3] but are not part of the sources at hand.
    This module models them from the design document (sections 3, 4.5,
    4.6 and 5): the compressed matrix, the two accumulators of a task
    (Gustavson's dense workspace and the open-addressing hash table), the
    teams of fine tasks that update one shared table, and the gather into
    the compressed arrays of [C]. *)

Module Kernel.

(** Modelled from the spec: the sparse matrix of the data model, absent
    from the sources (GB_matrix.h): "a collection of column vectors, each
    a set of (row-index, value) pairs, stored as compressed pointers into
    flat index/value arrays".  Vector [j] occupies the positions
    [ptr j .. ptr (j+1) - 1] of [idx] and [val]. *)
Record GB_Matrix (T : Type) : Type := {
  vlen : Z;
  vdim : Z;
  ptr : Z -> Z;
  idx : Z -> Z;
  val : Z -> T
}.
Arguments vlen {T}.
Arguments vdim {T}.
Arguments ptr {T}.
Arguments idx {T}.
Arguments val {T}.

(** Modelled from the spec: the positions of vector [j] in the flat
    arrays, and the vector as its (row-index, value) pairs in storage
    order. *)
Definition positions {T} (M : GB_Matrix T) (j : Z) : list Z :=
  seqZ (ptr M j) (ptr M (j + 1) - ptr M j).

Definition pair_at {T} (M : GB_Matrix T) (k : Z) : Z * T :=
  (idx M k, val M k).

Definition vector {T} (M : GB_Matrix T) (j : Z) : list (Z * T) :=
  pair_at M <$> positions M j.

(** Modelled from the spec: the value stored for row [r] in a list of
    (row-index, value) pairs, if any. *)
Definition find_row {T} (r : Z) (l : list (Z * T)) : option T :=
  snd <$> head (filter (λ e, e.1 = r) l).

(** The entry at row [r] of vector [j]: [M(r,j)]. *)
Definition entry {T} (M : GB_Matrix T) (r j : Z) : option T :=
  find_row r (vector M j).

(** Number of entries: the last column pointer. *)
Definition nnz {T} (M : GB_Matrix T) : Z := ptr M (vdim M).

(** The entries as (row, column, value) triples, column by column. *)
Definition triples {T} (M : GB_Matrix T) : list (Z * Z * T) :=
  j ← seqZ 0 (vdim M); (λ e, (e.1, j, e.2)) <$> vector M j.

(** "No pending updates or zombies": every vector holds each row index
    at most once, and the row indices are within the vector length.  *)
Record finished {T} (M : GB_Matrix T) : Prop := {
  dimensions : 0 ≤ vlen M ∧ 0 ≤ vdim M;
  rows_distinct : ∀ j, NoDup (vector M j).*1;
  rows_in_range : ∀ j r, r ∈ (vector M j).*1 → 0 ≤ r < vlen M
}.


(** ** Vectors by ascending row *)

Section Vectors.

Context {T : Type}.

(** The vector a map from rows to values denotes: its entries by
    ascending row. *)
Definition ascending (m : Z → option T) (cvlen : Z) : list (Z * T) :=
  omap (λ r, pair r <$> m r) (seqZ 0 cvlen).

(** The order of the final sort of a gathered vector: by row index. *)
Definition by_row (e1 e2 : Z * T) : Prop := e1.1 ≤ e2.1.

Definition row_lt (e1 e2 : Z * T) : Prop := e1.1 < e2.1.

#[global] Instance by_row_dec e1 e2 : Decision (by_row e1 e2).
Proof. unfold by_row. apply _. Defined.

#[global] Instance by_row_trans : Transitive by_row.
Proof. unfold by_row. intros e1 e2 e3. lia. Qed.

#[global] Instance by_row_total : Total by_row.
Proof. unfold by_row. intros e1 e2. lia. Qed.

Lemma seqZ_sorted a n : StronglySorted Z.lt (seqZ a n).
Proof.
  remember (Z.to_nat n) as k eqn:Hk. revert a n Hk.
  induction k as [|k IH]; intros a n Hk.
  - rewrite seqZ_nil by lia. constructor.
  - rewrite seqZ_cons by lia. constructor; [apply IH; lia|].
    apply Forall_seqZ. lia.
Qed.

Lemma ascending_elem m cvlen r v :
  (r, v) ∈ ascending m cvlen ↔ 0 ≤ r < cvlen ∧ m r = Some v.
Proof.
  unfold ascending. rewrite list_elem_of_omap. split.
  - intros (r' & Hr'%elem_of_seqZ & Hm).
    destruct (m r') as [v'|] eqn:Hmr; simplify_eq/=. split; [lia|done].
  - intros [Hr Hm]. exists r. rewrite Hm. split; [|done].
    apply elem_of_seqZ. lia.
Qed.

Lemma ascending_sorted m cvlen : StronglySorted row_lt (ascending m cvlen).
Proof.
  unfold ascending. pose proof (seqZ_sorted 0 cvlen) as Hs.
  induction Hs as [|r rs _ IH Hall]; [constructor|].
  simpl. destruct (m r) as [v|]; simpl; [|done].
  constructor; [done|]. apply Forall_forall. intros [r' v'] Hin.
  apply list_elem_of_omap in Hin as (r'' & Hr'' & Hm).
  destruct (m r''); simplify_eq/=.
  rewrite Forall_forall in Hall. by apply Hall.
Qed.

Lemma row_lt_rows_sorted (l : list (Z * T)) :
  StronglySorted row_lt l → StronglySorted Z.lt l.*1.
Proof. by apply StronglySorted_fmap. Qed.

Lemma row_lt_NoDup (l : list (Z * T)) : StronglySorted row_lt l → NoDup l.
Proof.
  induction 1 as [|e l _ IH Hall]; constructor; [|done].
  intros Hin. rewrite Forall_forall in Hall.
  specialize (Hall e Hin). unfold row_lt in Hall. lia.
Qed.

Lemma row_lt_by_row (l : list (Z * T)) :
  StronglySorted row_lt l → Sorted by_row l.
Proof.
  intros Hs. apply StronglySorted_Sorted.
  induction Hs as [|e l _ IH Hall]; constructor; [done|].
  eapply Forall_impl; [done|]. unfold row_lt, by_row. intros ?; lia.
Qed.

(** In a vector without duplicate rows, [find_row] finds the entries. *)
Lemma find_row_Some r v (l : list (Z * T)) :
  NoDup l.*1 → find_row r l = Some v ↔ (r, v) ∈ l.
Proof.
  unfold find_row. induction l as [|[r' v'] l IH]; intros Hnd.
  { simpl. split; [done|]. by intros ?%elem_of_nil. }
  apply NoDup_cons in Hnd as [Hnotin Hnd]. rewrite filter_cons. simpl.
  rewrite elem_of_cons. destruct (decide (r' = r)) as [->|Hne]; simpl.
  - split; [intros [= ->]; by left|]. intros [[= ->]|Hin]; [done|].
    destruct Hnotin. apply list_elem_of_fmap. by exists (r, v).
  - rewrite IH by done. split; [by right|]. intros [[= -> ->]|Hin]; done.
Qed.

Lemma find_row_None r (l : list (Z * T)) : find_row r l = None ↔ r ∉ l.*1.
Proof.
  unfold find_row. induction l as [|[r' v'] l IH].
  { simpl. split; [intros _; apply not_elem_of_nil|done]. }
  rewrite filter_cons. simpl. rewrite not_elem_of_cons.
  destruct (decide (r' = r)) as [->|Hne]; simpl; [by split; [|intros []]|].
  rewrite IH. split; [by split|tauto].
Qed.

(** A vector without duplicates is, up to its order, the vector by
    ascending row of its entries. *)
Lemma ascending_find_row (l : list (Z * T)) k :
  NoDup l.*1 → (∀ r, r ∈ l.*1 → 0 ≤ r < k) →
  l ≡ₚ ascending (λ r, find_row r l) k.
Proof.
  intros Hnd Hrange. apply NoDup_Permutation.
  - by eapply NoDup_fmap_1.
  - apply row_lt_NoDup, ascending_sorted.
  - intros [r v]. rewrite ascending_elem, find_row_Some by done.
    split; [|tauto]. intros Hin. split; [|done].
    apply Hrange, list_elem_of_fmap. by exists (r, v).
Qed.


Lemma find_row_ascending (m : Z → option T) k r :
  find_row r (ascending m k) = if decide (0 ≤ r < k) then m r else None.
Proof.
  assert (NoDup (ascending m k).*1) as Hnd.
  { pose proof (row_lt_rows_sorted _ (ascending_sorted m k)) as Hs.
    induction Hs as [|r' rs _ IH Hall]; constructor; [|done].
    intros Hin. rewrite Forall_forall in Hall. specialize (Hall r' Hin). lia. }
  destruct (decide (0 ≤ r < k)) as [Hr|Hr]; [destruct (m r) as [v|] eqn:Hm|].
  - apply find_row_Some; [done|]. by apply ascending_elem.
  - apply find_row_None.
    intros ([r' v] & -> & [_ Hin]%ascending_elem)%list_elem_of_fmap.
    simpl in *. congruence.
  - apply find_row_None.
    intros ([r' v] & -> & [Hin _]%ascending_elem)%list_elem_of_fmap.
    simpl in *. lia.
Qed.

End Vectors.


(** ** Teams of fine tasks *)

(** Modelled from the spec: "fine-task-team members update a shared
    table" by atomic updates whose order is not specified.  Each member
    has the queue of its updates; the schedule names, step by step, the
    member whose next update lands in the table.  When the schedule is
    exhausted the members finish one after the other. *)
Fixpoint interleave {U} (schedule : list nat) (queues : list (list U))
  : list U :=
  match schedule with
  | [] => concat queues
  | k :: schedule =>
      match queues !! k with
      | Some (u :: q) => u :: interleave schedule (<[k := q]> queues)
      | _ => interleave schedule queues
      end
  end.

Lemma interleave_perm {U} schedule (queues : list (list U)) :
  interleave schedule queues ≡ₚ concat queues.
Proof.
  revert queues. induction schedule as [|k schedule IH]; intros queues; [done|].
  simpl. destruct (queues !! k) as [[|u q]|] eqn:Hk; [apply IH| |apply IH].
  rewrite IH. rewrite <- (take_drop_middle queues k (u :: q)) at 2 by done.
  rewrite insert_take_drop by by eapply lookup_lt_Some.
  rewrite !concat_app, !concat_cons.
  apply Permutation_middle.
Qed.

Section Semiring.

Context {X Y V : Type}.
(** The multiplicative operator and the additive monoid of the semiring. *)
Variable mult : X → Y → V.
Variable add : V → V → V.

(** Modelled from the spec: accumulation "via the monoid's add operator".
    The first product of an entry is stored, the later ones are added to
    it; an entry without product does not appear in [C]. *)
Definition accumulate (c : option V) (t : V) : option V :=
  Some (match c with None => t | Some c => add c t end).

Definition monoid_fold (ts : list V) : option V := foldl accumulate None ts.

(** Modelled from the spec: the "naive triple-loop reference
    implementation": for every column [j] and row [r], the loop over the
    inner index [t]. *)
Definition reference_entry (A : GB_Matrix X) (B : GB_Matrix Y) (r j : Z)
  : option V :=
  foldl (λ c t,
      match entry A r t, entry B t j with
      | Some a, Some b => accumulate c (mult a b)
      | _, _ => c
      end)
    None (seqZ 0 (vdim A)).

(** The products of entry [(r,j)]: one for each [t] where both [A(r,t)]
    and [B(t,j)] are present, [t] ascending. *)
Definition products (A : GB_Matrix X) (B : GB_Matrix Y) (r j : Z) : list V :=
  omap (λ t, a ← entry A r t; b ← entry B t j; Some (mult a b))
    (seqZ 0 (vdim A)).

Lemma reference_entry_products A B r j :
  reference_entry A B r j = monoid_fold (products A B r j).
Proof.
  unfold reference_entry, monoid_fold, products.
  generalize (@None V) as c. generalize (seqZ 0 (vdim A)) as ts.
  induction ts as [|t ts IH]; intros c; [done|].
  simpl. destruct (entry A r t) as [a|], (entry B t j) as [b|]; simpl; apply IH.
Qed.

Section Commutative.

Hypothesis add_assoc : ∀ a b c, add (add a b) c = add a (add b c).
Hypothesis add_comm : ∀ a b, add a b = add b a.

Lemma accumulate_swap c s t :
  foldl accumulate c [s; t] = foldl accumulate c [t; s].
Proof.
  destruct c as [c|]; simpl; unfold accumulate.
  - by rewrite !add_assoc, (add_comm s t).
  - by rewrite (add_comm s t).
Qed.

Lemma foldl_accumulate_perm c ts ts' :
  ts ≡ₚ ts' → foldl accumulate c ts = foldl accumulate c ts'.
Proof.
  intros Hp. revert c.
  induction Hp as [|t ts ts' _ IH|s t ts|ts1 ts2 ts3 _ IH1 _ IH2]; intros c.
  - done.
  - simpl. apply IH.
  - change (foldl accumulate (foldl accumulate c [t; s]) ts
            = foldl accumulate (foldl accumulate c [s; t]) ts).
    by rewrite accumulate_swap.
  - by rewrite IH1.
Qed.

Lemma monoid_fold_perm ts ts' : ts ≡ₚ ts' → monoid_fold ts = monoid_fold ts'.
Proof. apply foldl_accumulate_perm. Qed.

End Commutative.


(** ** Inputs of a call *)

Variable A : GB_Matrix X.
Variable B : GB_Matrix Y.
(** The mask, its values typecast to [bool], with the complement and
    structural flags. *)
Variable M : option (GB_Matrix bool).
Variables Mask_comp Mask_struct : bool.

(** Modelled from the spec: the mask semantics of the symbolic phase,
    "structural mask: presence only; valued mask: presence AND
    nonzero/true value", complemented by [Mask_comp]. *)
Definition mask_entry (Mk : GB_Matrix bool) (r j : Z) : bool :=
  match entry Mk r j with
  | Some v => Mask_struct || v
  | None => false
  end.

Definition allowed (r j : Z) : bool :=
  match M with
  | None => true
  | Some Mk => xorb (mask_entry Mk r j) Mask_comp
  end.

(** ** The traversal *)

(** Modelled from the spec: the traversal of the symbolic and numeric
    phases.  For the entry [B(t,j)] at position [pB], every entry
    [A(r,t)] yields the update [(r, multiply (A(r,t), B(t,j)))] of the
    accumulator; positions the mask disallows are suppressed. *)
Definition scaled_vector (pB : Z) : list (Z * V) :=
  (λ e, (e.1, mult e.2 (val B pB))) <$> vector A (idx B pB).

Definition updates (j : Z) (pBs : list Z) : list (Z * V) :=
  filter (λ u, allowed u.1 j = true) (pBs ≫= scaled_vector).

(** What a sequence of updates accumulates for row [r]. *)
Definition values_of (r : Z) (us : list (Z * V)) : list V :=
  snd <$> filter (λ u, u.1 = r) us.

Definition content (us : list (Z * V)) (r : Z) : option V :=
  monoid_fold (values_of r us).

(** ** The accumulators *)

(** Modelled from the spec: the hash table of the data model, "Hf[slot]:
    occupancy/state marker", "Hi[slot]: the row index occupying slot",
    "Hx[slot]: the accumulated output value at that slot". *)
Record table : Type := {
  Hf : Z → Z;
  Hi : Z → Z;
  Hx : Z → V
}.

Definition set_Hx (h : Z) (v : V) (H : table) : table :=
  {| Hf := Hf H; Hi := Hi H; Hx := <[h := v]> (Hx H) |}.

(** Modelled from the spec: Gustavson's method, "dense-workspace sparse
    multiply using a full-length presence/value array": the slot is the
    row index, and [Hf] is "compared against a per-task epoch mark
    value". *)
Definition gus_update (mark : Z) (H : table) (u : Z * V) : table :=
  let '(r, t) := u in
  if Hf H r =? mark then set_Hx r (add (Hx H r) t) H
  else {| Hf := <[r := mark]> (Hf H); Hi := Hi H; Hx := <[r := t]> (Hx H) |}.

(** "Gustavson's method naturally preserves order since slot index = row
    index". *)
Definition gus_gather (mark cvlen : Z) (H : table) : list (Z * V) :=
  (λ r, (r, Hx H r)) <$> filter (λ r, Hf H r = mark) (seqZ 0 cvlen).


(** *** Gustavson's method is right *)

Lemma values_of_snoc r us r' t :
  values_of r (us ++ [(r', t)])
  = values_of r us ++ (if decide (r' = r) then [t] else []).
Proof.
  unfold values_of. rewrite filter_app, fmap_app. f_equal.
  rewrite filter_cons, filter_nil. simpl.
  by destruct (decide (r' = r)).
Qed.

Lemma content_snoc r us r' t :
  content (us ++ [(r', t)]) r
  = if decide (r' = r) then accumulate (content us r) t else content us r.
Proof.
  unfold content, monoid_fold. rewrite values_of_snoc.
  destruct (decide (r' = r)).
  - by rewrite foldl_snoc.
  - by rewrite app_nil_r.
Qed.

Lemma content_None us r : content us r = None ↔ r ∉ us.*1.
Proof.
  induction us as [|[r' t] us IH] using rev_ind.
  - split; [intros _; apply not_elem_of_nil|done].
  - rewrite content_snoc, fmap_app, elem_of_app. simpl.
    rewrite list_elem_of_singleton.
    destruct (decide (r' = r)) as [->|]; [|intuition congruence].
    unfold accumulate. split; [done|tauto].
Qed.

(** The state of the dense workspace after the updates [us] of one
    vector. *)
Definition gus_holds (mark : Z) (H0 H : table) (us : list (Z * V)) : Prop :=
  ∀ r, match content us r with
       | Some v => Hf H r = mark ∧ Hx H r = v
       | None => Hf H r = Hf H0 r
       end.

Lemma gus_update_holds mark H0 us :
  (∀ r, Hf H0 r ≠ mark) →
  gus_holds mark H0 (foldl (gus_update mark) H0 us) us.
Proof.
  intros Hfresh.
  induction us as [|[r' t] us IH] using rev_ind; [by intros r|].
  rewrite foldl_snoc. set (H := foldl (gus_update mark) H0 us) in *.
  intros r. rewrite content_snoc. specialize (IH r) as IHr.
  pose proof (IH r') as IHr'. unfold gus_update.
  destruct (decide (r' = r)) as [->|Hne].
  - destruct (content us r) as [v|]; simpl.
    + destruct IHr as [Hm Hv]. rewrite Hm, Z.eqb_refl. simpl.
      by rewrite fn_lookup_insert, Hv.
    + rewrite IHr. destruct (Z.eqb_spec (Hf H0 r) mark) as [Heq|_].
      { by destruct (Hfresh r). }
      simpl. by rewrite !fn_lookup_insert.
  - destruct (Hf H r' =? mark); simpl;
      rewrite ?fn_lookup_insert_ne by done; exact IHr.
Qed.

Lemma gus_gather_ascending mark cvlen H0 H us :
  (∀ r, Hf H0 r ≠ mark) → gus_holds mark H0 H us →
  gus_gather mark cvlen H = ascending (content us) cvlen.
Proof.
  intros Hfresh Hholds. unfold gus_gather, ascending.
  induction (seqZ 0 cvlen) as [|r rs IH]; [done|].
  rewrite filter_cons. simpl. specialize (Hholds r).
  destruct (content us r) as [v|]; simpl.
  - destruct Hholds as [Hm <-]. rewrite decide_True by done.
    rewrite fmap_cons. by f_equal.
  - rewrite decide_False; [done|]. rewrite Hholds. apply Hfresh.
Qed.

(** The marks of a task only grow: after the vector with mark [mark], no
    slot holds a later mark. *)
Lemma gus_update_marks mark H us r :
  Hf (foldl (gus_update mark) H us) r = Hf H r
  ∨ Hf (foldl (gus_update mark) H us) r = mark.
Proof.
  induction us as [|[r' t] us IH] using rev_ind; [by left|].
  rewrite foldl_snoc. unfold gus_update at 1 3.
  destruct (_ =? mark); simpl; [done|].
  destruct (decide (r' = r)) as [->|];
    [right; apply fn_lookup_insert|by rewrite fn_lookup_insert_ne].
Qed.



(** *** The traversal yields the products of the reference *)

Lemma values_of_app r us1 us2 :
  values_of r (us1 ++ us2) = values_of r us1 ++ values_of r us2.
Proof. unfold values_of. by rewrite filter_app, fmap_app. Qed.

Lemma values_of_allowed r j us :
  values_of r (filter (λ u, allowed u.1 j = true) us)
  = if allowed r j then values_of r us else [].
Proof.
  unfold values_of. rewrite list_filter_filter.
  destruct (allowed r j) eqn:Hal.
  - f_equal. apply list_filter_iff. intros [r' t]. simpl.
    split; [tauto|]. intros ->. done.
  - induction us as [|[r' t] us IH]; [done|].
    rewrite filter_cons_False; [done|]. simpl. intros [-> Hr']. congruence.
Qed.

Lemma values_of_scaled r pB :
  NoDup (vector A (idx B pB)).*1 →
  values_of r (scaled_vector pB)
  = match entry A r (idx B pB) with
    | Some a => [mult a (val B pB)]
    | None => []
    end.
Proof.
  unfold scaled_vector, entry.
  generalize (vector A (idx B pB)) as l.
  induction l as [|[r' a] l IH]; intros Hnd; [done|].
  apply NoDup_cons in Hnd as [Hnotin Hnd]. specialize (IH Hnd).
  change ((r', a).1) with r' in Hnotin. rewrite fmap_cons. change (?e :: ?l) with ([e] ++ l) at 1.
  rewrite values_of_app, IH. unfold values_of, find_row.
  rewrite (filter_singleton _ _ []), filter_cons. simpl.
  destruct (decide (r' = r)) as [->|Hne]; simpl; [|done].
  apply find_row_None in Hnotin. unfold find_row in Hnotin.
  by rewrite Hnotin.
Qed.

Definition product_at (r pB : Z) : option V :=
  a ← entry A r (idx B pB); Some (mult a (val B pB)).

Lemma values_of_updates r j pBs :
  (∀ t, NoDup (vector A t).*1) →
  values_of r (updates j pBs)
  = if allowed r j then omap (product_at r) pBs else [].
Proof.
  intros Hnd. unfold updates. rewrite values_of_allowed.
  destruct (allowed r j); [|done].
  induction pBs as [|pB pBs IH]; [done|].
  rewrite bind_cons, values_of_app, IH, values_of_scaled by done.
  simpl. unfold product_at at 2.
  by destruct (entry A r (idx B pB)).
Qed.

Lemma omap_ascending {T U} (g : Z * T → option U) m k :
  omap g (ascending m k) = omap (λ t, b ← m t; g (t, b)) (seqZ 0 k).
Proof.
  unfold ascending. induction (seqZ 0 k) as [|t ts IH]; [done|].
  csimpl. destruct (m t) as [b|]; csimpl; [|done].
  destruct (g (t, b)); by rewrite IH.
Qed.

Lemma products_by_B r j :
  products A B r j
  = omap (λ t, b ← entry B t j; a ← entry A r t; Some (mult a b))
      (seqZ 0 (vdim A)).
Proof.
  unfold products. induction (seqZ 0 (vdim A)) as [|t ts IH]; [done|].
  csimpl. rewrite IH.
  by destruct (entry A r t) as [a|], (entry B t j) as [b|].
Qed.

Lemma values_of_vector r j :
  finished A → finished B → vlen B = vdim A →
  values_of r (updates j (positions B j))
  ≡ₚ if allowed r j then products A B r j else [].
Proof.
  intros HA HB Hdim. rewrite values_of_updates by apply HA.
  destruct (allowed r j); [|done].
  set (g := λ e : Z * Y, a ← entry A r e.1; Some (mult a e.2)).
  assert (omap (product_at r) (positions B j) = omap g (vector B j)) as ->.
  { unfold vector. induction (positions B j) as [|pB pBs IH]; [done|].
    csimpl. unfold product_at at 1, g at 1. simpl.
    destruct (entry A r (idx B pB)); csimpl; by rewrite IH. }
  rewrite products_by_B.
  rewrite (ascending_find_row (vector B j) (vdim A)) at 1.
  - by rewrite omap_ascending.
  - apply HB.
  - intros t Ht. rewrite <- Hdim. by eapply rows_in_range.
Qed.

(** Modelled from the spec: the hash function of the Hash method, a
    macro of the absent GB_AxB_saxpy3.h; any function of the row index
    will do. *)
Variable GB_HASHF : Z → Z.

(** Modelled from the spec: the two layouts of a hash table.  A coarse
    hash task keeps the row index of a slot in [Hi] and compares [Hf]
    with the mark of the current vector.  A team of fine tasks has no
    [Hi] ("only atomic updates at positions discovered from the shared
    Hf"): the slot of row [r] holds [r + 1] in [Hf], and [0], as
    allocated, while it is free. *)
Definition occupied (fine : bool) (mark : Z) (H : table) (h : Z) : bool :=
  if fine then negb (Hf H h =? 0) else Hf H h =? mark.

Definition key (fine : bool) (H : table) (h : Z) : Z :=
  if fine then Hf H h - 1 else Hi H h.

Definition claim (fine : bool) (mark h r : Z) (t : V) (H : table) : table :=
  if fine then
    {| Hf := <[h := r + 1]> (Hf H); Hi := Hi H; Hx := <[h := t]> (Hx H) |}
  else
    {| Hf := <[h := mark]> (Hf H); Hi := <[h := r]> (Hi H);
       Hx := <[h := t]> (Hx H) |}.

(** Modelled from the spec: "open addressing", with linear probing
    modulo the power-of-two table size: the probe stops at the slot of
    row [r] or at the first free slot.  The C loop has no bound; here it
    gives up after [fuel] slots. *)
Fixpoint probe (fine : bool) (mark hash_bits : Z) (H : table) (r : Z)
    (fuel : nat) (h : Z) : option Z :=
  match fuel with
  | O => None
  | S fuel =>
      if occupied fine mark H h then
        if key fine H h =? r then Some h
        else probe fine mark hash_bits H r fuel (Z.land (h + 1) hash_bits)
      else Some h
  end.

(** One multiply-add landing in the table: "second touch of an
    already-marked slot" accumulates, the first one claims the slot. *)
Definition hash_update (fine : bool) (mark hsize : Z) (H : table)
    (u : Z * V) : option table :=
  let '(r, t) := u in
  let hash_bits := hsize - 1 in
  h ← probe fine mark hash_bits H r (Z.to_nat hsize)
        (Z.land (GB_HASHF r) hash_bits);
  Some (if occupied fine mark H h then set_Hx h (add (Hx H h) t) H
        else claim fine mark h r t H).

Fixpoint hash_updates (fine : bool) (mark hsize : Z) (H : table)
    (us : list (Z * V)) : option table :=
  match us with
  | [] => Some H
  | u :: us =>
      H' ← hash_update fine mark hsize H u;
      hash_updates fine mark hsize H' us
  end.


(** Modelled from the spec: the gather of a hash table, "coarse tasks
    must sort/gather in ascending row order for Hash method since open
    addressing scrambles order". *)
Definition hash_gather (fine : bool) (mark hsize : Z) (H : table)
  : list (Z * V) :=
  merge_sort by_row
    ((λ h, (key fine H h, Hx H h))
       <$> filter (λ h, occupied fine mark H h = true) (seqZ 0 hsize)).


(** *** The Hash method is right *)

Section Hash.

Variable fine : bool.
Variables mark hsize : Z.
Hypothesis hsize_power : HashSize.is_power_of_two hsize.

(** The slot where the probe of row [r] starts, and the slot [d] steps
    further. *)
Definition home (r : Z) : Z := Z.land (GB_HASHF r) (hsize - 1).

Definition slot (h : Z) (d : nat) : Z := (h + Z.of_nat d) mod hsize.

Lemma hsize_pos : 0 < hsize.
Proof. destruct hsize_power as (k & Hk & ->). by apply Z.pow_pos_nonneg. Qed.

Lemma land_hash_bits a : Z.land a (hsize - 1) = a mod hsize.
Proof.
  destruct hsize_power as (k & Hk & ->).
  rewrite <- Z.land_ones by done. by rewrite Z.ones_equiv, Z.sub_1_r.
Qed.

Lemma home_range r : 0 ≤ home r < hsize.
Proof.
  unfold home. rewrite land_hash_bits.
  apply Z.mod_pos_bound, hsize_pos.
Qed.

Lemma slot_range h d : 0 ≤ slot h d < hsize.
Proof. apply Z.mod_pos_bound, hsize_pos. Qed.

Lemma slot_0 h : 0 ≤ h < hsize → slot h 0 = h.
Proof. intros Hh. unfold slot. rewrite Z.add_0_r. by apply Z.mod_small. Qed.

Lemma slot_next h d : slot (Z.land (h + 1) (hsize - 1)) d = slot h (S d).
Proof.
  unfold slot. rewrite land_hash_bits, Zplus_mod_idemp_l.
  f_equal. lia.
Qed.

Lemma slot_reach h s :
  0 ≤ s < hsize → ∃ d, (d < Z.to_nat hsize)%nat ∧ slot h d = s.
Proof.
  intros Hs. pose proof hsize_pos as Hpos.
  pose proof (Z.mod_pos_bound (s - h) hsize Hpos) as Hd.
  exists (Z.to_nat ((s - h) mod hsize)). split; [lia|].
  unfold slot. rewrite Z2Nat.id by lia.
  rewrite Zplus_mod_idemp_r. replace (h + (s - h)) with s by lia.
  by apply Z.mod_small.
Qed.

(** A probe for row [r] stops at a free slot or at the slot of [r], and
    passes the slots of other rows. *)
Definition stops (H : table) (r h : Z) : Prop :=
  occupied fine mark H h = false ∨ key fine H h = r.

Definition passes (H : table) (r h : Z) : Prop :=
  occupied fine mark H h = true ∧ key fine H h ≠ r.

Lemma stops_or_passes H r h : stops H r h ∨ passes H r h.
Proof.
  unfold stops, passes. destruct (occupied fine mark H h); [|by left; left].
  destruct (decide (key fine H h = r)); [by left; right|by right].
Qed.

Lemma stops_not_passes H r h : stops H r h → passes H r h → False.
Proof. unfold stops, passes. intros [Hs|Hs] [Hp1 Hp2]; congruence. Qed.

Lemma probe_stops H r fuel h :
  0 ≤ h < hsize →
  (∃ d, (d < fuel)%nat ∧ stops H r (slot h d)) →
  ∃ d, (d < fuel)%nat
       ∧ probe fine mark (hsize - 1) H r fuel h = Some (slot h d)
       ∧ stops H r (slot h d)
       ∧ ∀ d', (d' < d)%nat → passes H r (slot h d').
Proof.
  revert h. induction fuel as [|fuel IH]; intros h Hh (d0 & Hd0 & Hstop).
  { lia. }
  destruct (stops_or_passes H r h) as [Hs|Hp].
  - exists 0%nat. rewrite slot_0 by done. split; [lia|]. split; [|split].
    + simpl. destruct Hs as [->|Hk]; [done|].
      destruct (occupied fine mark H h); [|done].
      by rewrite Hk, Z.eqb_refl.
    + done.
    + intros d' Hd'. lia.
  - destruct d0 as [|d0].
    { rewrite slot_0 in Hstop by done.
      destruct (stops_not_passes _ _ _ Hstop Hp). }
    set (h' := Z.land (h + 1) (hsize - 1)).
    destruct (IH h') as (d & Hd & Hprobe & Hs & Hbefore).
    { unfold h'. rewrite land_hash_bits.
      apply Z.mod_pos_bound, hsize_pos. }
    { exists d0. split; [lia|]. unfold h'. by rewrite slot_next. }
    exists (S d). unfold h' in *. rewrite slot_next in Hprobe, Hs.
    split; [lia|]. split; [|split; [done|]].
    + simpl. destruct Hp as [-> Hk].
      destruct (Z.eqb_spec (key fine H h) r) as [Heq|_]; [done|].
      exact Hprobe.
    + intros [|d'] Hd'; [by rewrite slot_0|].
      rewrite <- slot_next. apply Hbefore. lia.
Qed.

(** The table after the updates [us] of one vector: an occupied slot
    holds what the updates accumulate for its row, it is on the probe
    sequence of its row behind slots of other rows, and every row
    updated has a slot. *)
Record hash_holds (H : table) (us : list (Z * V)) : Prop := {
  slot_content : ∀ h, 0 ≤ h < hsize → occupied fine mark H h = true →
    content us (key fine H h) = Some (Hx H h);
  slot_path : ∀ h, 0 ≤ h < hsize → occupied fine mark H h = true →
    ∃ d, (d < Z.to_nat hsize)%nat
         ∧ slot (home (key fine H h)) d = h
         ∧ ∀ d', (d' < d)%nat →
             passes H (key fine H h) (slot (home (key fine H h)) d');
  row_slot : ∀ r, r ∈ us.*1 →
    ∃ h, 0 ≤ h < hsize ∧ occupied fine mark H h = true ∧ key fine H h = r
}.

Lemma probe_present H us h :
  hash_holds H us → 0 ≤ h < hsize → occupied fine mark H h = true →
  probe fine mark (hsize - 1) H (key fine H h) (Z.to_nat hsize)
    (home (key fine H h)) = Some h.
Proof.
  intros Hholds Hh Hocc.
  destruct (slot_path _ _ Hholds h Hh Hocc) as (d0 & Hd0 & Hslot & Hbefore).
  destruct (probe_stops H (key fine H h) (Z.to_nat hsize)
              (home (key fine H h))) as (d & Hd & Hprobe & Hs & Hpass).
  { apply home_range. }
  { exists d0. split; [done|]. rewrite Hslot. by right. }
  rewrite Hprobe. f_equal. enough (d = d0) as -> by done.
  destruct (Nat.lt_trichotomy d d0) as [Hlt|[Heq|Hgt]]; [|done|].
  - destruct (stops_not_passes _ _ _ Hs (Hbefore d Hlt)).
  - specialize (Hpass d0 Hgt). rewrite Hslot in Hpass.
    destruct Hpass as [_ Hne]. by destruct Hne.
Qed.

Lemma slot_unique H us h1 h2 :
  hash_holds H us → 0 ≤ h1 < hsize → 0 ≤ h2 < hsize →
  occupied fine mark H h1 = true → occupied fine mark H h2 = true →
  key fine H h1 = key fine H h2 → h1 = h2.
Proof.
  intros Hholds Hh1 Hh2 Ho1 Ho2 Hk.
  pose proof (probe_present H us h1 Hholds Hh1 Ho1) as Hp1.
  pose proof (probe_present H us h2 Hholds Hh2 Ho2) as Hp2.
  rewrite Hk in Hp1. congruence.
Qed.


(** The two layouts obey the same laws. *)
Lemma occupied_set_Hx h v H h' :
  occupied fine mark (set_Hx h v H) h' = occupied fine mark H h'.
Proof. done. Qed.

Lemma key_set_Hx h v H h' : key fine (set_Hx h v H) h' = key fine H h'.
Proof. done. Qed.

Lemma occupied_claim h r t H h' :
  0 ≤ r →
  occupied fine mark (claim fine mark h r t H) h'
  = if decide (h' = h) then true else occupied fine mark H h'.
Proof.
  intros Hr. unfold occupied, claim.
  destruct fine; simpl; destruct (decide (h' = h)) as [->|];
    rewrite ?fn_lookup_insert, ?fn_lookup_insert_ne by done; try done.
  - apply negb_true_iff, Z.eqb_neq. lia.
  - apply Z.eqb_refl.
Qed.

Lemma key_claim h r t H h' :
  key fine (claim fine mark h r t H) h'
  = if decide (h' = h) then r else key fine H h'.
Proof.
  unfold key, claim.
  destruct fine; simpl; destruct (decide (h' = h)) as [->|];
    rewrite ?fn_lookup_insert, ?fn_lookup_insert_ne by done; try done.
  lia.
Qed.

Lemma Hx_claim h r t H h' :
  Hx (claim fine mark h r t H) h' = if decide (h' = h) then t else Hx H h'.
Proof.
  unfold claim.
  destruct fine; simpl; destruct (decide (h' = h)) as [->|];
    by rewrite ?fn_lookup_insert, ?fn_lookup_insert_ne by done.
Qed.

Lemma passes_claim h r t H r' s :
  0 ≤ r → occupied fine mark H h = false →
  passes H r' s → passes (claim fine mark h r t H) r' s.
Proof.
  intros Hr Hfree [Hocc Hkey]. unfold passes.
  rewrite occupied_claim, key_claim by done.
  destruct (decide (s = h)) as [->|]; [congruence|done].
Qed.

Lemma content_row us r v : content us r = Some v → r ∈ us.*1.
Proof.
  intros Hc. destruct (decide (r ∈ us.*1)) as [|Hn]; [done|].
  apply content_None in Hn. congruence.
Qed.

(** A table larger than the number of updates has a free slot. *)
Lemma free_slot H us :
  hash_holds H us → (length us < Z.to_nat hsize)%nat →
  ∃ h, 0 ≤ h < hsize ∧ occupied fine mark H h = false.
Proof.
  intros Hholds Hlen.
  destruct (decide (Exists (λ h, occupied fine mark H h = false)
                      (seqZ 0 hsize))) as [Hex|Hall].
  { apply Exists_exists in Hex as (h & Hh & Hfree).
    apply elem_of_seqZ in Hh. exists h. split; [lia|done]. }
  apply not_Exists_Forall in Hall; [|apply _].
  rewrite Forall_forall in Hall.
  assert (∀ h, 0 ≤ h < hsize → occupied fine mark H h = true) as Hocc.
  { intros h Hh. specialize (Hall h). simpl in Hall.
    destruct (occupied fine mark H h); [done|].
    destruct Hall; [|done]. apply elem_of_seqZ. lia. }
  assert (key fine H <$> seqZ 0 hsize ⊆+ us.*1) as Hsub.
  { apply NoDup_submseteq.
    - apply NoDup_fmap_2_strong; [|apply NoDup_seqZ].
      intros h1 h2 Hh1%elem_of_seqZ Hh2%elem_of_seqZ Hk.
      apply (slot_unique H us); auto with lia.
    - intros r (h & -> & Hh%elem_of_seqZ)%list_elem_of_fmap.
      eapply content_row, (slot_content _ _ Hholds); auto with lia. }
  apply submseteq_length in Hsub.
  rewrite !length_fmap, length_seqZ in Hsub. lia.
Qed.


Lemma probe_row H us r :
  hash_holds H us → (length us < Z.to_nat hsize)%nat →
  ∃ d, (d < Z.to_nat hsize)%nat
       ∧ probe fine mark (hsize - 1) H r (Z.to_nat hsize) (home r)
         = Some (slot (home r) d)
       ∧ stops H r (slot (home r) d)
       ∧ ∀ d', (d' < d)%nat → passes H r (slot (home r) d').
Proof.
  intros Hholds Hlen. apply probe_stops; [apply home_range|].
  destruct (free_slot H us Hholds Hlen) as (hf & Hhf & Hfree).
  destruct (slot_reach (home r) hf Hhf) as (d & Hd & Hslot).
  exists d. split; [done|]. rewrite Hslot. by left.
Qed.

(** An update of a row that has a slot accumulates there. *)
Lemma accumulate_holds H us h t :
  hash_holds H us → 0 ≤ h < hsize → occupied fine mark H h = true →
  hash_holds (set_Hx h (add (Hx H h) t) H) (us ++ [(key fine H h, t)]).
Proof.
  intros Hholds Hh Hocc. set (r := key fine H h). split.
  - intros h' Hh' Hocc'. rewrite occupied_set_Hx in Hocc'.
    rewrite key_set_Hx, content_snoc.
    pose proof (slot_content _ _ Hholds h' Hh' Hocc') as Hc.
    destruct (decide (r = key fine H h')) as [Hk|Hk].
    + assert (h = h') as <- by by apply (slot_unique H us).
      rewrite Hc. simpl. by rewrite fn_lookup_insert.
    + rewrite Hc. simpl. rewrite fn_lookup_insert_ne; [done|].
      by intros ->.
  - intros h' Hh' Hocc'. rewrite occupied_set_Hx in Hocc'.
    exact (slot_path _ _ Hholds h' Hh' Hocc').
  - intros r'. rewrite fmap_app, elem_of_app. simpl.
    rewrite list_elem_of_singleton. intros [Hr'| ->].
    + exact (row_slot _ _ Hholds r' Hr').
    + by exists h.
Qed.

(** The first update of a row claims the free slot its probe found. *)
Lemma claim_holds H us r t d :
  hash_holds H us → 0 ≤ r →
  occupied fine mark H (slot (home r) d) = false →
  (d < Z.to_nat hsize)%nat →
  (∀ d', (d' < d)%nat → passes H r (slot (home r) d')) →
  (∀ h, 0 ≤ h < hsize → occupied fine mark H h = true → key fine H h ≠ r) →
  hash_holds (claim fine mark (slot (home r) d) r t H) (us ++ [(r, t)]).
Proof.
  intros Hholds Hr Hfree Hd Hpass Hnew. set (h := slot (home r) d) in *.
  assert (content us r = None) as Hnone.
  { apply content_None. intros (h' & Hh' & Hocc' & Hk)%(row_slot _ _ Hholds).
    by apply (Hnew h'). }
  split.
  - intros h'. rewrite occupied_claim, key_claim, Hx_claim by done.
    rewrite content_snoc. destruct (decide (h' = h)) as [->|Hne].
    + intros _ _. rewrite decide_True by done. by rewrite Hnone.
    + intros Hh' Hocc'. rewrite decide_False.
      * by apply (slot_content _ _ Hholds).
      * intros Heq. by apply (Hnew h').
  - intros h'. rewrite occupied_claim, key_claim by done.
    destruct (decide (h' = h)) as [->|Hne].
    + intros _ _. exists d. split; [done|]. split; [done|].
      intros d' Hd'. by apply passes_claim, Hpass.
    + intros Hh' Hocc'.
      destruct (slot_path _ _ Hholds h' Hh' Hocc') as (d2 & Hd2 & Hs2 & Hp2).
      exists d2. split; [done|]. split; [done|].
      intros d' Hd'. by apply passes_claim, Hp2.
  - intros r'. rewrite fmap_app, elem_of_app. simpl.
    rewrite list_elem_of_singleton. intros [Hr'| ->].
    + destruct (row_slot _ _ Hholds r' Hr') as (h' & Hh' & Hocc' & Hk).
      exists h'. rewrite occupied_claim, key_claim by done.
      destruct (decide (h' = h)) as [->|]; [congruence|done].
    + exists h. rewrite occupied_claim, key_claim by done.
      rewrite !decide_True by done. split; [apply slot_range|done].
Qed.

Lemma hash_update_holds H us r t :
  hash_holds H us → (length us < Z.to_nat hsize)%nat → 0 ≤ r →
  ∃ H', hash_update fine mark hsize H (r, t) = Some H'
        ∧ hash_holds H' (us ++ [(r, t)]).
Proof.
  intros Hholds Hlen Hr.
  destruct (probe_row H us r Hholds Hlen) as (d & Hd & Hprobe & Hs & Hpass).
  unfold hash_update. fold (home r). rewrite Hprobe. simpl.
  set (h := slot (home r) d) in *.
  assert (0 ≤ h < hsize) as Hh by apply slot_range.
  destruct (occupied fine mark H h) eqn:Hocc; eexists; (split; [done|]).
  - destruct Hs as [Hs|Hs]; [congruence|]. rewrite <- Hs.
    by apply accumulate_holds.
  - apply claim_holds; try done.
    intros h' Hh' Hocc' Hk.
    pose proof (probe_present H us h' Hholds Hh' Hocc') as Hp.
    rewrite Hk, Hprobe in Hp. congruence.
Qed.

(** No slot is occupied when the vector starts. *)
Definition vacant (H : table) : Prop :=
  ∀ h, occupied fine mark H h = false.

Lemma vacant_holds H : vacant H → hash_holds H [].
Proof.
  intros Hv. split.
  - intros h _ Hocc. by rewrite Hv in Hocc.
  - intros h _ Hocc. by rewrite Hv in Hocc.
  - intros r Hr. by apply elem_of_nil in Hr.
Qed.

Lemma hash_updates_holds H us0 us :
  hash_holds H us0 → (length (us0 ++ us) < Z.to_nat hsize)%nat →
  Forall (λ u, 0 ≤ u.1) us →
  ∃ H', hash_updates fine mark hsize H us = Some H'
        ∧ hash_holds H' (us0 ++ us).
Proof.
  revert H us0. induction us as [|[r t] us IH]; intros H us0 Hholds Hlen Hrows.
  { exists H. by rewrite app_nil_r. }
  apply Forall_cons in Hrows as [Hr Hrows]. rewrite length_app in Hlen.
  simpl in Hlen, Hr.
  destruct (hash_update_holds H us0 r t) as (H1 & Hup & Hholds1);
    [done|lia|done|].
  destruct (IH H1 (us0 ++ [(r, t)])) as (H' & Hups & Hholds');
    [done|rewrite !length_app; simpl; lia|done|].
  exists H'. rewrite <- app_assoc in Hholds'. split; [|done].
  cbn [hash_updates]. by rewrite Hup.
Qed.


Lemma hash_gather_ascending H us cvlen :
  hash_holds H us → (∀ r, r ∈ us.*1 → 0 ≤ r < cvlen) →
  hash_gather fine mark hsize H = ascending (content us) cvlen.
Proof.
  intros Hholds Hrows. unfold hash_gather.
  set (raw := (λ h, (key fine H h, Hx H h))
                <$> filter (λ h, occupied fine mark H h = true)
                      (seqZ 0 hsize)).
  assert (∀ r v, (r, v) ∈ raw ↔ content us r = Some v) as Hraw.
  { intros r v. unfold raw. rewrite list_elem_of_fmap. split.
    - intros (h & Heq & [Hocc Hh%elem_of_seqZ]%list_elem_of_filter).
      simplify_eq. apply (slot_content _ _ Hholds); [lia|done].
    - intros Hc.
      destruct (row_slot _ _ Hholds r) as (h & Hh & Hocc & Hk);
        [by eapply content_row|].
      exists h. split.
      + pose proof (slot_content _ _ Hholds h Hh Hocc) as Hc'.
        rewrite Hk in Hc'. congruence.
      + apply list_elem_of_filter. split; [done|].
        apply elem_of_seqZ. lia. }
  assert (raw ≡ₚ ascending (content us) cvlen) as Hperm.
  { apply NoDup_Permutation.
    - apply NoDup_fmap_2_strong; [|apply NoDup_filter, NoDup_seqZ].
      intros h1 h2 [Ho1 Hh1%elem_of_seqZ]%list_elem_of_filter
        [Ho2 Hh2%elem_of_seqZ]%list_elem_of_filter Heq.
      simplify_eq. apply (slot_unique H us); auto with lia.
    - apply row_lt_NoDup, ascending_sorted.
    - intros [r v]. rewrite Hraw, ascending_elem. split; [|tauto].
      intros Hc. split; [|done]. by eapply Hrows, content_row. }
  apply (Sorted_unique_strong by_row).
  - intros [r1 v1] [r2 v2] H1 H2 Hle1 Hle2.
    rewrite merge_sort_Permutation, Hraw in H1.
    apply ascending_elem in H2 as [_ H2].
    unfold by_row in *. simpl in *.
    assert (r1 = r2) as -> by lia. congruence.
  - apply Sorted_merge_sort, _.
  - apply row_lt_by_row, ascending_sorted.
  - by rewrite merge_sort_Permutation.
Qed.

End Hash.


(** ** Symbolic analysis, numeric phase and gather *)

(** Dimensions of [C]. *)
Definition cvlen : Z := vlen A.
Definition cvdim : Z := vdim B.

(** What [GB_MALLOC] left in [Hi_all] and [Hx_all], and in the index and
    value arrays of [C]. *)
Variable Hi0 : Z → Z.
Variable Hx0 : Z → V.
Variable Ci0 : Z → Z.
Variable Cx0 : Z → V.

(** The order in which the atomic updates of the team of vector [j]
    land in its table. *)
Variable schedule : Z → list nat.

(** Modelled from the spec: the table of a task in the shared
    allocation; [Hf_all] comes from [GB_CALLOC].  The tables of two
    tasks do not overlap: each task starts from a table of its own. *)
Definition fresh : table := {| Hf := λ _, 0; Hi := Hi0; Hx := Hx0 |}.

(** Modelled from the spec: one vector of [C] by one task or team, the
    symbolic and numeric passes fused ("both are valid as long as final
    values are correct"): the updates land in the table and the result
    is gathered.  The size [cvlen] selects Gustavson's method
    ("hash_size ... equal to cvlen when Gustavson's dense method is
    selected"). *)
Definition compute_vector (fine : bool) (hsize mark : Z) (H : table)
    (us : list (Z * V)) : option (table * list (Z * V)) :=
  if hsize =? cvlen then
    let H' := foldl (gus_update mark) H us in
    Some (H', gus_gather mark cvlen H')
  else
    H' ← hash_updates fine mark hsize H us;
    Some (H', hash_gather fine mark hsize H').

(** The range [start .. end] of a task: vectors of [B] for a coarse
    task, positions in its vector of [B] for a fine task. *)
Definition task_range (t : Partition.GB_saxpy3task_struct) : list Z :=
  seqZ (Partition.start t) (Partition.end_ t - Partition.start t + 1).

(** Modelled from the spec: a coarse task, "a contiguous column range
    assigned wholesale to one thread".  It reuses its table from vector
    to vector under a new mark. *)
Fixpoint coarse_vectors (hsize : Z) (js : list Z) (mark : Z) (H : table)
    (g : Z → list (Z * V)) : option (Z → list (Z * V)) :=
  match js with
  | [] => Some g
  | j :: js =>
      '(H', Cj) ← compute_vector false hsize mark H
                    (updates j (positions B j));
      coarse_vectors hsize js (mark + 1) H' (<[j := Cj]> g)
  end.

(** Modelled from the spec: "a team of threads cooperatively computing
    one costly column": the [team_size] tasks from the leader on, each
    with its range of the entries of [B(:,j)]. *)
Definition team (TaskList : list Partition.GB_saxpy3task_struct)
    (taskid : nat) (t : Partition.GB_saxpy3task_struct)
  : list Partition.GB_saxpy3task_struct :=
  take (Z.to_nat (Partition.team_size t)) (drop taskid TaskList).

Definition fine_vector (TaskList : list Partition.GB_saxpy3task_struct)
    (taskid : nat) (t : Partition.GB_saxpy3task_struct)
    (g : Z → list (Z * V)) : option (Z → list (Z * V)) :=
  let j := Partition.vector t in
  let queues := (λ m, updates j (task_range m)) <$> team TaskList taskid t in
  '(_, Cj) ← compute_vector true (Partition.hsize t) 1 fresh
               (interleave (schedule j) queues);
  Some (<[j := Cj]> g).

(** A coarse task has [vector == -1]; the leader of a team gathers the
    vector of the team. *)
Definition run_task (TaskList : list Partition.GB_saxpy3task_struct)
    (taskid : nat) (t : Partition.GB_saxpy3task_struct)
    (g : Z → list (Z * V)) : option (Z → list (Z * V)) :=
  if Partition.vector t <? 0 then
    coarse_vectors (Partition.hsize t) (task_range t) 1 fresh g
  else if Partition.leader t =? Z.of_nat taskid then
    fine_vector TaskList taskid t g
  else Some g.

Fixpoint run_tasks (TaskList : list Partition.GB_saxpy3task_struct)
    (taskid : nat) (ts : list Partition.GB_saxpy3task_struct)
    (g : Z → list (Z * V)) : option (Z → list (Z * V)) :=
  match ts with
  | [] => Some g
  | t :: ts =>
      g' ← run_task TaskList taskid t g;
      run_tasks TaskList (S taskid) ts g'
  end.

(** The vectors of [C] a task gathers. *)
Definition vectors_of (taskid : nat) (t : Partition.GB_saxpy3task_struct)
  : list Z :=
  if Partition.vector t <? 0 then task_range t
  else if Partition.leader t =? Z.of_nat taskid then [Partition.vector t]
  else [].

Definition task_vectors (TaskList : list Partition.GB_saxpy3task_struct)
  : list Z :=
  mjoin (imap vectors_of TaskList).

(** Modelled from the spec: "C's column pointer array is finalized via
    prefix sum" of the counts of the vectors. *)
Definition prefix_sum (count : Z → Z) (n : Z) : Z → Z :=
  let '(s, Cp) :=
    foldl (λ '(s, Cp) j, (s + count j, <[j := s]> Cp)) (0, count)
      (seqZ 0 n) in
  <[n := s]> Cp.

(** Modelled from the spec: "a gather step copies values from the hash
    table back into C's compressed value array at the
    symbolic-phase-determined offsets": the gathered vector is written
    from position [p] on. *)
Fixpoint write_vector (p : Z) (Cj : list (Z * V)) (Ci : Z → Z) (Cx : Z → V)
  : (Z → Z) * (Z → V) :=
  match Cj with
  | [] => (Ci, Cx)
  | (r, v) :: Cj => write_vector (p + 1) Cj (<[p := r]> Ci) (<[p := v]> Cx)
  end.

Definition gather_vectors (js : list Z) (Cp : Z → Z) (g : Z → list (Z * V))
  : (Z → Z) * (Z → V) :=
  foldl (λ C j, write_vector (Cp j) (g j) C.1 C.2) (Ci0, Cx0) js.

(** Modelled from the spec: the kernels called by [GB_AxB_saxpy3], from
    the task list to the finalized [C]. *)
Definition saxpy3_kernel (TaskList : list Partition.GB_saxpy3task_struct)
  : option (GB_Matrix V) :=
  g ← run_tasks TaskList 0 TaskList (λ _, []);
  let Cp := prefix_sum (λ j, Z.of_nat (length (g j))) cvdim in
  let '(Ci, Cx) := gather_vectors (task_vectors TaskList) Cp g in
  Some {| vlen := cvlen; vdim := cvdim; ptr := Cp; idx := Ci; val := Cx |}.


(** *** Every vector is the vector of the reference *)

(** Vector [j] of the reference, restricted by the mask, by ascending
    row. *)
Definition reference_vector (j : Z) : list (Z * V) :=
  ascending (λ r, if allowed r j then reference_entry A B r j else None)
    cvlen.

Lemma ascending_ext {T} (m1 m2 : Z → option T) k :
  (∀ r, m1 r = m2 r) → ascending m1 k = ascending m2 k.
Proof.
  intros Hm. unfold ascending.
  induction (seqZ 0 k) as [|r rs IH]; [done|]. csimpl. by rewrite Hm, IH.
Qed.

Lemma hash_update_marks mark hsize H u H' h :
  hash_update false mark hsize H u = Some H' →
  Hf H' h = Hf H h ∨ Hf H' h = mark.
Proof.
  destruct u as [r t]. unfold hash_update.
  destruct (probe _ _ _ _ _ _ _) as [h'|]; [|done]. simpl.
  intros [= <-]. unfold occupied, claim.
  destruct (Hf H h' =? mark); simpl; [by left|].
  destruct (decide (h' = h)) as [->|Hne].
  - right. apply fn_lookup_insert.
  - left. by apply fn_lookup_insert_ne.
Qed.

Lemma hash_updates_marks mark hsize us H H' h :
  hash_updates false mark hsize H us = Some H' →
  Hf H' h = Hf H h ∨ Hf H' h = mark.
Proof.
  revert H. induction us as [|u us IH]; intros H; simpl.
  { intros [= <-]. by left. }
  destruct (hash_update false mark hsize H u) as [H1|] eqn:Hup; [|done].
  simpl. intros Hups. apply IH in Hups.
  apply (hash_update_marks _ _ _ _ _ h) in Hup.
  destruct Hups as [->| ->]; [done|by right].
Qed.


(** *** Column pointers and gather *)

(** The sum of the counts of the vectors before [j]. *)
Definition total (count : Z → Z) (j : Z) : Z :=
  foldr Z.add 0 (count <$> seqZ 0 j).

Lemma total_0 count : total count 0 = 0.
Proof. done. Qed.

Lemma total_succ count j :
  0 ≤ j → total count (j + 1) = total count j + count j.
Proof.
  intros Hj. unfold total. rewrite seqZ_app, fmap_app by lia.
  rewrite Z.add_0_l, (seqZ_cons j 1), (seqZ_nil _ (Z.pred 1)) by lia.
  rewrite foldr_app. simpl.
  rewrite Z.add_0_r.
  generalize (count <$> seqZ 0 j) as l. generalize (count j) as a.
  induction l as [|c l IH]; simpl; [lia|]. rewrite IH. lia.
Qed.

Lemma total_mono count j1 j2 :
  (∀ j, 0 ≤ count j) → 0 ≤ j1 ≤ j2 → total count j1 ≤ total count j2.
Proof.
  intros Hcount [Hj1 Hle].
  replace j2 with (j1 + Z.of_nat (Z.to_nat (j2 - j1))) by lia.
  induction (Z.to_nat (j2 - j1)) as [|d IH]; [by rewrite Z.add_0_r|].
  replace (j1 + Z.of_nat (S d)) with (j1 + Z.of_nat d + 1) by lia.
  rewrite total_succ by lia. specialize (Hcount (j1 + Z.of_nat d)). lia.
Qed.

Lemma prefix_sum_total count n j :
  0 ≤ j ≤ n → prefix_sum count n j = total count j.
Proof.
  intros Hj. unfold prefix_sum.
  assert (∀ k : nat,
    let r := foldl (λ '(s, Cp) j, (s + count j, <[j := s]> Cp)) (0, count)
               (seqZ 0 (Z.of_nat k)) in
    r.1 = total count (Z.of_nat k)
    ∧ ∀ j, 0 ≤ j < Z.of_nat k → r.2 j = total count j) as Hloop.
  { induction k as [|k [IHs IHp]]; [split; [done|intros; lia]|].
    rewrite seqZ_S, foldl_snoc. simpl.
    destruct (foldl _ _ _) as [s Cp]. simpl in *. subst s. split.
    - replace (Z.of_nat (S k)) with (Z.of_nat k + 1) by lia.
      by rewrite total_succ by lia.
    - intros j' Hj'. destruct (decide (Z.of_nat k = j')) as [<-|Hne].
      + by rewrite fn_lookup_insert.
      + rewrite fn_lookup_insert_ne by done. apply IHp. lia. }
  specialize (Hloop (Z.to_nat n)). rewrite Z2Nat.id in Hloop by lia.
  destruct (foldl _ _ _) as [s Cp]. simpl in Hloop.
  destruct Hloop as [-> Hp].
  destruct (decide (n = j)) as [->|Hne].
  - by rewrite fn_lookup_insert.
  - rewrite fn_lookup_insert_ne by done. apply Hp. lia.
Qed.

Lemma write_vector_outside p Cj Ci Cx k :
  ¬ (p ≤ k < p + Z.of_nat (length Cj)) →
  (write_vector p Cj Ci Cx).1 k = Ci k ∧ (write_vector p Cj Ci Cx).2 k = Cx k.
Proof.
  revert p Ci Cx. induction Cj as [|[r v] Cj IH]; intros p Ci Cx Hk; [done|].
  simpl in *. destruct (IH (p + 1) (<[p := r]> Ci) (<[p := v]> Cx))
    as [-> ->]; [lia|].
  rewrite !fn_lookup_insert_ne by lia. done.
Qed.

Lemma write_vector_inside p Cj Ci Cx (n : nat) r v :
  Cj !! n = Some (r, v) →
  (write_vector p Cj Ci Cx).1 (p + Z.of_nat n) = r
  ∧ (write_vector p Cj Ci Cx).2 (p + Z.of_nat n) = v.
Proof.
  revert p Ci Cx n. induction Cj as [|[r' v'] Cj IH]; intros p Ci Cx n Hn.
  { done. }
  destruct n as [|n]; simpl in *.
  - simplify_eq. rewrite Z.add_0_r.
    destruct (write_vector_outside (p + 1) Cj (<[p := r]> Ci)
                (<[p := v]> Cx) p) as [-> ->]; [lia|].
    by rewrite !fn_lookup_insert.
  - replace (p + Z.of_nat (S n)) with (p + 1 + Z.of_nat n) by lia.
    exact (IH (p + 1) _ _ n Hn).
Qed.

Lemma gather_vectors_inside js Cp g j (n : nat) r v :
  (∀ j', j' ∈ js → 0 ≤ j' < cvdim) →
  (∀ j', 0 ≤ j' ≤ cvdim →
     Cp j' = total (λ j, Z.of_nat (length (g j))) j') →
  j ∈ js → g j !! n = Some (r, v) →
  (gather_vectors js Cp g).1 (Cp j + Z.of_nat n) = r
  ∧ (gather_vectors js Cp g).2 (Cp j + Z.of_nat n) = v.
Proof.
  intros Hjs HCp Hj Hn. unfold gather_vectors.
  induction js as [|j' js IH] using rev_ind; [by apply elem_of_nil in Hj|].
  rewrite foldl_snoc. destruct (decide (j' = j)) as [->|Hne].
  { by apply write_vector_inside. }
  assert (j ∈ js) as Hin.
  { apply elem_of_app in Hj as [Hj|Hj%list_elem_of_singleton]; congruence. }
  assert (0 ≤ j < cvdim ∧ 0 ≤ j' < cvdim) as [Hjr Hj'r].
  { split; apply Hjs, elem_of_app; [by left|right].
    by apply list_elem_of_singleton. }
  destruct (write_vector_outside (Cp j') (g j')
              (foldl (λ C j0, write_vector (Cp j0) (g j0) C.1 C.2)
                 (Ci0, Cx0) js).1
              (foldl (λ C j0, write_vector (Cp j0) (g j0) C.1 C.2)
                 (Ci0, Cx0) js).2
              (Cp j + Z.of_nat n)) as [-> ->].
  - apply lookup_lt_Some in Hn.
    set (count := λ j, Z.of_nat (length (g j))) in *.
    assert (∀ j, 0 ≤ count j) as Hcount by (intros; unfold count; lia).
    pose proof (total_succ count j) as Hs1.
    pose proof (total_succ count j') as Hs2.
    rewrite <- !HCp in Hs1, Hs2 by lia.
    assert (count j = Z.of_nat (length (g j))) as Hc1 by done.
    assert (count j' = Z.of_nat (length (g j'))) as Hc2 by done.
    destruct (Z.lt_trichotomy j j') as [Hlt|[Heq|Hgt]]; [|congruence|].
    + pose proof (total_mono count (j + 1) j' Hcount) as Hm.
      rewrite <- !HCp in Hm by lia. lia.
    + pose proof (total_mono count (j' + 1) j Hcount) as Hm.
      rewrite <- !HCp in Hm by lia. lia.
  - apply IH; [|done]. intros j0 Hj0. apply Hjs, elem_of_app. by left.
Qed.

Lemma vector_written {T} (C : GB_Matrix T) j (Cj : list (Z * T)) :
  ptr C (j + 1) - ptr C j = Z.of_nat (length Cj) →
  (∀ (n : nat) e, Cj !! n = Some e → pair_at C (ptr C j + Z.of_nat n) = e) →
  vector C j = Cj.
Proof.
  intros Hlen Hat. unfold vector, positions. rewrite Hlen.
  apply list_eq. intros n. rewrite list_lookup_fmap.
  destruct (Cj !! n) as [e|] eqn:Hn.
  - rewrite lookup_seqZ_lt by (apply lookup_lt_Some in Hn; lia).
    simpl. f_equal. by apply Hat.
  - rewrite lookup_seqZ_ge; [done|]. apply lookup_ge_None in Hn. lia.
Qed.

Section Correctness.

Hypothesis add_assoc : ∀ a b c, add (add a b) c = add a (add b c).
Hypothesis add_comm : ∀ a b, add a b = add b a.
Hypothesis A_finished : finished A.
Hypothesis B_finished : finished B.
Hypothesis inner_dimension : vlen B = vdim A.

Lemma content_updates us r j :
  us ≡ₚ updates j (positions B j) →
  content us r = if allowed r j then reference_entry A B r j else None.
Proof.
  intros Hperm. unfold content.
  rewrite (monoid_fold_perm add_assoc add_comm _
             (if allowed r j then products A B r j else [])).
  - rewrite reference_entry_products. by destruct (allowed r j).
  - rewrite <- values_of_vector by done. unfold values_of. by rewrite Hperm.
Qed.

Lemma updates_rows us j r :
  us ≡ₚ updates j (positions B j) → r ∈ us.*1 → 0 ≤ r < cvlen.
Proof.
  intros Hperm. rewrite Hperm. unfold updates.
  intros ([r' v] & -> & [_ Hin]%list_elem_of_filter)%list_elem_of_fmap.
  apply list_elem_of_bind in Hin as (pB & Hin & _).
  unfold scaled_vector in Hin.
  apply list_elem_of_fmap in Hin as ([r'' a] & [= -> ->] & Hin).
  apply (rows_in_range _ A_finished (idx B pB)).
  apply list_elem_of_fmap. by exists (r'', a).
Qed.

(** The table of a task is large enough for vector [j]. *)
Definition fits (hsize j : Z) : Prop :=
  hsize = cvlen
  ∨ (HashSize.is_power_of_two hsize
     ∧ Z.of_nat (length (updates j (positions B j))) < hsize).

Lemma compute_vector_reference fine hsize mark H us j :
  (∀ h, Hf H h < mark) → (fine = true → ∀ h, Hf H h = 0) →
  us ≡ₚ updates j (positions B j) → fits hsize j →
  ∃ H', compute_vector fine hsize mark H us = Some (H', reference_vector j)
        ∧ (fine = false → ∀ h, Hf H' h < mark + 1).
Proof.
  intros Hmark Hzero Hperm Hfits. unfold compute_vector, reference_vector.
  rewrite <- (ascending_ext (content us)) by (intros; by apply content_updates).
  destruct (Z.eqb_spec hsize cvlen) as [->|Hne].
  - eexists. split.
    + f_equal. f_equal. apply (gus_gather_ascending _ _ H).
      * intros r. specialize (Hmark r). lia.
      * apply gus_update_holds. intros r. specialize (Hmark r). lia.
    + intros _ h. specialize (Hmark h).
      destruct (gus_update_marks mark H us h) as [-> | ->]; lia.
  - destruct Hfits as [?|[Hpow Hlen]]; [done|].
    destruct (hash_updates_holds fine mark hsize Hpow H [] us)
      as (H' & Hups & Hholds).
    + apply vacant_holds. intros h. unfold occupied. destruct fine.
      * rewrite Hzero by done. done.
      * apply Z.eqb_neq. specialize (Hmark h). lia.
    + simpl. rewrite Hperm. lia.
    + apply Forall_forall. intros [r t] Hin.
      assert (0 ≤ r < cvlen); [|simpl; lia].
      apply (updates_rows us j); [done|].
      apply list_elem_of_fmap. by exists (r, t).
    + exists H'. rewrite Hups. simpl. split.
      * f_equal. f_equal. apply hash_gather_ascending; [done|done|].
        intros r. by apply (updates_rows us j).
      * intros -> h. specialize (Hmark h).
        destruct (hash_updates_marks _ _ _ _ _ h Hups) as [-> | ->]; lia.
Qed.


(** What the tasks leave: the vector of the reference for every vector
    they gather. *)
Definition put_reference (g : Z → list (Z * V)) (js : list Z)
  : Z → list (Z * V) :=
  foldl (λ g j, <[j := reference_vector j]> g) g js.

Lemma put_reference_lookup g js j :
  put_reference g js j = if decide (j ∈ js) then reference_vector j else g j.
Proof.
  unfold put_reference. induction js as [|j' js IH] using rev_ind.
  { rewrite decide_False; [done|]. apply not_elem_of_nil. }
  rewrite foldl_snoc. destruct (decide (j' = j)) as [->|Hne].
  - rewrite fn_lookup_insert, decide_True; [done|].
    apply elem_of_app. right. by apply list_elem_of_singleton.
  - rewrite fn_lookup_insert_ne, IH by done.
    destruct (decide (j ∈ js)) as [Hin|Hnotin].
    + rewrite decide_True; [done|]. apply elem_of_app. by left.
    + rewrite decide_False; [done|]. rewrite elem_of_app.
      rewrite list_elem_of_singleton. intros [?|?]; congruence.
Qed.

Lemma coarse_vectors_reference hsize js mark H g :
  (∀ h, Hf H h < mark) → (∀ j, j ∈ js → fits hsize j) →
  coarse_vectors hsize js mark H g = Some (put_reference g js).
Proof.
  revert mark H g. induction js as [|j js IH]; intros mark H g Hmark Hfits.
  { done. }
  destruct (compute_vector_reference false hsize mark H
              (updates j (positions B j)) j) as (H' & Hcomp & Hmark');
    [done|done|done|apply Hfits; by left|].
  cbn [coarse_vectors]. rewrite Hcomp. simpl.
  apply IH; [by apply Hmark'|]. intros j' Hj'. apply Hfits. by right.
Qed.

Lemma updates_app j pBs1 pBs2 :
  updates j (pBs1 ++ pBs2) = updates j pBs1 ++ updates j pBs2.
Proof. unfold updates. by rewrite bind_app, filter_app. Qed.

Lemma updates_team j (ms : list Partition.GB_saxpy3task_struct) :
  concat ((λ m, updates j (task_range m)) <$> ms)
  = updates j (ms ≫= task_range).
Proof.
  induction ms as [|m ms IH]; [done|].
  rewrite fmap_cons, concat_cons, bind_cons, updates_app. by rewrite IH.
Qed.

Lemma fine_vector_reference TaskList taskid t g :
  fits (Partition.hsize t) (Partition.vector t) →
  team TaskList taskid t ≫= task_range = positions B (Partition.vector t) →
  fine_vector TaskList taskid t g
  = Some (<[Partition.vector t := reference_vector (Partition.vector t)]> g).
Proof.
  intros Hfits Hteam. unfold fine_vector.
  set (us := interleave _ _).
  destruct (compute_vector_reference true (Partition.hsize t) 1 fresh us
              (Partition.vector t)) as (H' & Hcomp & _).
  - intros h. simpl. lia.
  - done.
  - unfold us. by rewrite interleave_perm, updates_team, Hteam.
  - done.
  - by rewrite Hcomp.
Qed.

(** The task list the kernels can work with: the vectors of the coarse
    tasks and of the teams are vectors of [C], their tables are large
    enough, the ranges of the members of a team make up the vector of
    [B], and every vector of [C] belongs to a task. *)
Record tasks_ok (TaskList : list Partition.GB_saxpy3task_struct) : Prop := {
  coarse_ok : ∀ taskid t j,
    TaskList !! taskid = Some t → Partition.vector t < 0 →
    j ∈ task_range t → 0 ≤ j < cvdim ∧ fits (Partition.hsize t) j;
  team_ok : ∀ taskid t,
    TaskList !! taskid = Some t → 0 ≤ Partition.vector t →
    Partition.leader t = Z.of_nat taskid →
    Partition.vector t < cvdim
    ∧ fits (Partition.hsize t) (Partition.vector t)
    ∧ team TaskList taskid t ≫= task_range
      = positions B (Partition.vector t);
  vectors_ok : ∀ j, 0 ≤ j < cvdim → j ∈ task_vectors TaskList
}.

Lemma run_task_reference TaskList taskid t g :
  tasks_ok TaskList → TaskList !! taskid = Some t →
  run_task TaskList taskid t g
  = Some (put_reference g (vectors_of taskid t)).
Proof.
  intros Hok Ht. unfold run_task, vectors_of.
  destruct (Z.ltb_spec (Partition.vector t) 0) as [Hcoarse|Hfine].
  - apply coarse_vectors_reference; [intros h; simpl; lia|].
    intros j Hj. by apply (coarse_ok _ Hok taskid t j).
  - destruct (Z.eqb_spec (Partition.leader t) (Z.of_nat taskid))
      as [Hleader|_]; [|done].
    destruct (team_ok _ Hok taskid t) as (_ & Hfits & Hteam); [done..|].
    by apply fine_vector_reference.
Qed.

Lemma run_tasks_reference TaskList taskid ts g :
  tasks_ok TaskList → drop taskid TaskList = ts →
  run_tasks TaskList taskid ts g
  = Some (put_reference g
            (mjoin (imap (λ k, vectors_of (taskid + k)) ts))).
Proof.
  intros Hok. revert taskid g.
  induction ts as [|t ts IH]; intros taskid g Hdrop; [done|].
  assert (TaskList !! taskid = Some t) as Ht.
  { rewrite <- (Nat.add_0_r taskid), <- lookup_drop. by rewrite Hdrop. }
  cbn [run_tasks]. rewrite (run_task_reference _ _ _ _ Hok Ht). simpl.
  rewrite IH.
  - f_equal. unfold put_reference. rewrite foldl_app, Nat.add_0_r.
    f_equal. f_equal. apply imap_ext. intros k t' _. simpl.
    f_equal. lia.
  - replace (S taskid) with (taskid + 1)%nat by lia.
    by rewrite <- drop_drop, Hdrop.
Qed.

Lemma run_tasks_vectors TaskList :
  tasks_ok TaskList →
  ∃ g, run_tasks TaskList 0 TaskList (λ _, []) = Some g
       ∧ ∀ j, 0 ≤ j < cvdim → g j = reference_vector j.
Proof.
  intros Hok. eexists. split; [by apply run_tasks_reference|].
  intros j Hj. rewrite put_reference_lookup, decide_True; [done|].
  by apply (vectors_ok _ Hok).
Qed.


Lemma total_ext count1 count2 j :
  (∀ j', 0 ≤ j' < j → count1 j' = count2 j') → total count1 j = total count2 j.
Proof.
  intros Hext. unfold total. f_equal. apply list_fmap_ext.
  intros k j' Hj'%lookup_seqZ. apply Hext. lia.
Qed.

(** The number of entries of the first [j] vectors of the result. *)
Definition entries_before (j : Z) : Z :=
  total (λ j, Z.of_nat (length (reference_vector j))) j.

(** The kernels terminate, and build [C] vector by vector. *)
Lemma saxpy3_kernel_finishes TaskList :
  tasks_ok TaskList →
  ∃ C, saxpy3_kernel TaskList = Some C
       ∧ vlen C = cvlen ∧ vdim C = cvdim
       ∧ (∀ j, 0 ≤ j ≤ cvdim → ptr C j = entries_before j)
       ∧ (∀ j, 0 ≤ j < cvdim → vector C j = reference_vector j).
Proof.
  intros Hok. destruct (run_tasks_vectors TaskList Hok) as (g & Hrun & Hg).
  unfold saxpy3_kernel. rewrite Hrun. simpl.
  set (count := λ j, Z.of_nat (length (g j))).
  destruct (gather_vectors _ _ g) as [Ci Cx] eqn:Hgather.
  eexists. split; [done|]. simpl.
  assert (∀ j, 0 ≤ j ≤ cvdim → prefix_sum count cvdim j = total count j)
    as Hptr by (intros; by apply prefix_sum_total).
  split; [done|]. split; [done|]. split.
  - intros j Hj. rewrite Hptr by done. apply total_ext.
    intros j' Hj'. unfold count. by rewrite Hg by lia.
  - intros j Hj. rewrite <- Hg by done. apply vector_written; simpl.
    + rewrite !Hptr, total_succ by lia. unfold count. lia.
    + intros n [r v] Hn. unfold pair_at. simpl.
      destruct (gather_vectors_inside (task_vectors TaskList)
                  (prefix_sum count cvdim) g j n r v) as [Hi Hx];
        [|done|by apply (vectors_ok _ Hok)|done|].
      * intros j' Hj'. unfold task_vectors in Hj'.
        apply list_elem_of_join in Hj' as (js & Hj' & Hjs).
        apply elem_of_lookup_imap in Hjs as (taskid & t & -> & Ht).
        unfold vectors_of in Hj'.
        destruct (Z.ltb_spec (Partition.vector t) 0) as [Hcoarse|Hfine].
        { by apply (coarse_ok _ Hok taskid t j'). }
        destruct (Z.eqb_spec (Partition.leader t) (Z.of_nat taskid))
          as [Hleader|_]; [|by apply elem_of_nil in Hj'].
        apply list_elem_of_singleton in Hj' as ->.
        destruct (team_ok _ Hok taskid t) as (? & _); [done..|]. lia.
      * rewrite Hgather in Hi, Hx. simpl in Hi, Hx. by rewrite Hi, Hx.
Qed.

Lemma reference_entry_row r j :
  is_Some (reference_entry A B r j) → 0 ≤ r < cvlen.
Proof.
  rewrite reference_entry_products. unfold products.
  intros Hsome. destruct (decide (0 ≤ r < cvlen)) as [|Hout]; [done|].
  assert (∀ t, entry A r t = None) as Hnone.
  { intros t. apply find_row_None. intros Hin.
    by apply (rows_in_range _ A_finished) in Hin. }
  induction (seqZ 0 (vdim A)) as [|t ts IH]; csimpl in *.
  - by destruct Hsome.
  - rewrite Hnone in Hsome. by apply IH.
Qed.

Lemma entry_reference_vector r j :
  find_row r (reference_vector j)
  = if allowed r j then reference_entry A B r j else None.
Proof.
  unfold reference_vector. rewrite find_row_ascending.
  destruct (decide (0 ≤ r < cvlen)) as [|Hout]; [done|].
  destruct (allowed r j); [|done].
  destruct (reference_entry A B r j) eqn:Href; [|done].
  destruct Hout. apply (reference_entry_row r j). by rewrite Href.
Qed.

End Correctness.

End Semiring.

(** ** The scenario of the design document *)

(** A C array given by its contents. *)
Definition array {T} (d : T) (l : list T) (k : Z) : T :=
  if k <? 0 then d else nth (Z.to_nat k) l d.

(** The 3-by-3 matrix with the entries [(0,0):d0], [(1,1):d1] and
    [(2,2):d2]. *)
Definition diagonal (d0 d1 d2 : Z) : GB_Matrix Z :=
  {| vlen := 3; vdim := 3;
     ptr := array 0 [0; 1; 2; 3];
     idx := array 0 [0; 1; 2];
     val := array 0 [d0; d1; d2] |}.

(** A coarse task for the vectors [kfirst .. klast]. *)
Definition coarse (kfirst klast hash_size : Z)
  : Partition.GB_saxpy3task_struct :=
  {| Partition.start := kfirst; Partition.end_ := klast;
     Partition.vector := -1; Partition.hsize := hash_size;
     Partition.Hi := None; Partition.Hf := None; Partition.Hx := None;
     Partition.my_cjnz := 0; Partition.flops := 0;
     Partition.leader := 0; Partition.team_size := 1 |}.

Lemma diagonal_finished d0 d1 d2 : finished (diagonal d0 d1 d2).
Proof.
  assert (∀ j, vector (diagonal d0 d1 d2) j = []
               ∨ ∃ v, 0 ≤ j < 3 ∧ vector (diagonal d0 d1 d2) j = [(j, v)])
    as Hv.
  { intros j. destruct (decide (0 ≤ j < 3)) as [Hj|Hj].
    - right. assert (j = 0 ∨ j = 1 ∨ j = 2) as [->|[->| ->]] by lia;
        eexists; (split; [lia|reflexivity]).
    - left. unfold vector, positions. cbn [ptr diagonal]. unfold array.
      destruct (Z.ltb_spec j 0) as [Hneg|Hpos].
      + destruct (Z.ltb_spec (j + 1) 0); [done|].
        assert (j = -1) as -> by lia. done.
      + destruct (Z.ltb_spec (j + 1) 0); [lia|].
        destruct (decide (j = 3)) as [->|]; [done|].
        rewrite !nth_overflow by (simpl; lia). done. }
  split; [simpl; lia|..]; intros j;
    destruct (Hv j) as [->|(v & Hj & ->)]; simpl.
  - constructor.
  - apply NoDup_singleton.
  - by intros r ?%elem_of_nil.
  - by intros r ->%list_elem_of_singleton.
Qed.

(** Tasks that cover the vectors of [B], made with flop counts that bound
    the number of updates of every vector, are tasks the kernels can
    run: the tables are large enough. *)
Lemma covering_tasks_ok {X Y V} (mult : X → Y → V) (A : GB_Matrix X)
    (B : GB_Matrix Y) M Mask_comp Mask_struct (Bflops : Z → Z)
    (TaskList : list Partition.GB_saxpy3task_struct) :
  (∀ j, 0 ≤ j < vdim B →
     Z.of_nat (length (updates mult A B M Mask_comp Mask_struct j
                         (positions B j)))
     ≤ Partition.vector_flops Bflops j) →
  Partition.covering Bflops (Some (ptr B)) (vlen B) (vdim B) (vlen A)
    (ptr B) TaskList →
  tasks_ok mult A B M Mask_comp Mask_struct TaskList.
Proof.
  intros Hflops [Hcoarse Hteam Hvec].
  assert (Hfits : ∀ vs hs j,
            Partition.hash_size_ok Bflops (vlen A) vs hs →
            j ∈ vs → 0 ≤ j < vdim B →
            fits mult A B M Mask_comp Mask_struct hs j).
  { intros vs hs j [->|(Hpow & _ & _ & Hall)] Hj Hr; [by left|right].
    split; [done|]. rewrite Forall_forall in Hall.
    specialize (Hall j Hj). specialize (Hflops j Hr). lia. }
  split.
  - intros taskid t j Ht Hv Hj.
    destruct (Hcoarse taskid t Ht Hv) as [Hr Hok].
    rewrite Forall_forall in Hr. specialize (Hr j Hj).
    split; [exact Hr|]. by apply (Hfits _ _ _ Hok).
  - intros taskid t Ht Hv Hl.
    destruct (Hteam taskid t Ht Hv Hl) as (Hr & Hok & Hent).
    split; [exact Hr|]. split.
    + apply (Hfits _ _ _ Hok); [|unfold cvdim; lia].
      apply list_elem_of_singleton. done.
    + exact Hent.
  - intros j Hj. destruct (Hvec j Hj) as (taskid & t & Ht & Hcase).
    unfold task_vectors. apply list_elem_of_join.
    exists (vectors_of taskid t). split.
    2:{ apply elem_of_lookup_imap. eauto. }
    unfold vectors_of.
    destruct Hcase as [[Hv Hin]|[Hv Hl]].
    + rewrite (proj2 (Z.ltb_lt _ _) Hv). exact Hin.
    + rewrite (proj2 (Z.ltb_ge _ _)) by lia.
      rewrite Hl, Z.eqb_refl, Hv. by apply list_elem_of_singleton.
Qed.

(** ** The result of the kernels *)

(** For every task list that covers the vectors of [C], whatever the
    order in which the updates of a team land and whatever the workspace
    held before, the kernels terminate and entry [(r,j)] of [C] is what
    the naive triple loop computes; with a mask, the entry is there
    where the mask allows it. *)
Lemma saxpy3_kernel_reference
    (X Y V : Type) (mult : X → Y → V) (add : V → V → V)
    (A : GB_Matrix X) (B : GB_Matrix Y) (M : option (GB_Matrix bool))
    (Mask_comp Mask_struct : bool) (GB_HASHF Hi0 : Z → Z) (Hx0 : Z → V)
    (Ci0 : Z → Z) (Cx0 : Z → V) (schedule : Z → list nat)
    (TaskList : list Partition.GB_saxpy3task_struct) :
  (∀ a b c, add (add a b) c = add a (add b c)) →
  (∀ a b, add a b = add b a) →
  finished A → finished B → vlen B = vdim A →
  tasks_ok mult A B M Mask_comp Mask_struct TaskList →
  ∃ C, saxpy3_kernel mult add A B M Mask_comp Mask_struct GB_HASHF
         Hi0 Hx0 Ci0 Cx0 schedule TaskList = Some C
       ∧ ∀ r j, 0 ≤ j < vdim B →
           entry C r j
           = if allowed M Mask_comp Mask_struct r j
             then reference_entry mult add A B r j else None.
Proof.
  intros Hassoc Hcomm HA HB Hdim Hok.
  destruct (saxpy3_kernel_finishes mult add A B M Mask_comp Mask_struct
              GB_HASHF Hi0 Hx0 Ci0 Cx0 schedule Hassoc Hcomm HA HB Hdim
              TaskList Hok) as (C & Hrun & _ & _ & _ & Hvec).
  exists C. split; [done|]. intros r j Hj.
  unfold entry. rewrite Hvec by done. by apply entry_reference_vector.
Qed.

(** The product of the diagonal matrices with the entries 2, 3, 4 and 5,
    6, 7 under (plus, times), by one coarse task with Gustavson's
    method. *)
Example diagonal_product (GB_HASHF Hi0 Hx0 Ci0 Cx0 : Z → Z)
    (schedule : Z → list nat) :
  ∃ C, saxpy3_kernel Z.mul Z.add (diagonal 2 3 4) (diagonal 5 6 7)
         None false false GB_HASHF Hi0 Hx0 Ci0 Cx0 schedule
         [coarse 0 2 3] = Some C
       ∧ triples C = [(0, 0, 10); (1, 1, 18); (2, 2, 28)]
       ∧ nnz C = 3.
Proof.
  eexists. split; [|split]; vm_compute; reflexivity.
Qed.

(** With Gustavson's method or the Hash method in any task and any order
    of the updates in the teams, the kernels return a matrix [C] whose
    column pointers are cumulative, starting at [0], each vector holding
    the entries between its pointer and the next, and whose row indices
    are strictly ascending within each vector; it is the same matrix for
    every run. *)
Lemma saxpy3_kernel_order
    (X Y V : Type) (mult : X → Y → V) (add : V → V → V)
    (A : GB_Matrix X) (B : GB_Matrix Y) (M : option (GB_Matrix bool))
    (Mask_comp Mask_struct : bool) (GB_HASHF Hi0 : Z → Z) (Hx0 : Z → V)
    (Ci0 : Z → Z) (Cx0 : Z → V) (schedule : Z → list nat)
    (TaskList : list Partition.GB_saxpy3task_struct) :
  (∀ a b c, add (add a b) c = add a (add b c)) →
  (∀ a b, add a b = add b a) →
  finished A → finished B → vlen B = vdim A →
  tasks_ok mult A B M Mask_comp Mask_struct TaskList →
  ∃ C, saxpy3_kernel mult add A B M Mask_comp Mask_struct GB_HASHF
         Hi0 Hx0 Ci0 Cx0 schedule TaskList = Some C
       ∧ vlen C = vlen A ∧ vdim C = vdim B
       ∧ ptr C 0 = 0
       ∧ ∀ j, 0 ≤ j < vdim C →
           ptr C (j + 1) = ptr C j + Z.of_nat (length (vector C j))
           ∧ StronglySorted Z.lt (vector C j).*1
           ∧ ∀ r, r ∈ (vector C j).*1 → 0 ≤ r < vlen C.
Proof.
  intros Hassoc Hcomm HA HB Hdim Hok.
  destruct (saxpy3_kernel_finishes mult add A B M Mask_comp Mask_struct
              GB_HASHF Hi0 Hx0 Ci0 Cx0 schedule Hassoc Hcomm HA HB Hdim
              TaskList Hok) as (C & Hrun & Hvlen & Hvdim & Hptr & Hvec).
  exists C. split; [done|]. split; [done|]. split; [done|].
  pose proof (dimensions _ HB) as [_ Hn].
  split; [by rewrite Hptr by (unfold cvdim; lia)|].
  intros j Hj. rewrite Hvdim in Hj. unfold cvdim in *.
  rewrite !Hptr, Hvec by lia. split; [|split].
  - unfold entries_before. by rewrite total_succ by lia.
  - apply row_lt_rows_sorted, ascending_sorted.
  - intros r ([r' v] & -> & [Hr _]%ascending_elem)%list_elem_of_fmap.
    by rewrite Hvlen.
Qed.

End Kernel.

(** * GB_AxB_saxpy3 with its kernels

    The function of [Saxpy3], from the source, run on matrices of
    [Kernel] with the kernels modelled there as its workers. *)

Module Product.

Import Kernel.

(** What a call is given besides [A], [B] and the semiring: the mask and
    the descriptor, the allocator, and the functions and settings of the
    library that Source/GB_AxB_saxpy3.c refers to. *)
Record inputs (V : Type) : Type := {
  malloc_ok : Saxpy3.allocation → bool;
  M_input : option (GB_Matrix V);
  Mask_comp_input : bool;
  Mask_struct : bool;
  AxB_method_input : GrB_Desc_Value;
  csize : Z;
  nthreads_max : Z;
  chunk : Q;
  use_mkl : bool;
  GB_HAS_MKL_GRAPH : bool;
  GBCOMPACT : bool;
  GB_AxB_saxpy3_mkl : GrB_Info * option (GB_Matrix V) * bool;
  GB_new_info : GrB_Info;
  C_new : GB_Matrix V;
  GB_is_packed : option (GB_Matrix V) → bool;
  GB_AxB_saxpy3_flopcount :
    (Z → Z) → option (GB_Matrix V) → bool → GrB_Info * Z * (Z → Z);
  GB_nthreads : Z → Q → Z → Z;
  GB_PARTITION : Z → Z → Z → Z * Z;
  GB_pslice : (Z → Z) → Z → Z → Z → Z;
  GB_cumsum : (Z → Z) → Z → Z → Z;
  GB_ICEIL : Z → Z → Z;
  Bflops2_0 : Z → Z;
  A_is_pattern : bool;
  B_is_pattern : bool;
  builtin_semiring : bool;
  any_pair : bool;
  factory_case : bool;
  GB_hypermatrix_prune : GB_Matrix V → GrB_Info * GB_Matrix V
}.
Arguments malloc_ok {V}.
Arguments M_input {V}.
Arguments Mask_comp_input {V}.
Arguments Mask_struct {V}.
Arguments AxB_method_input {V}.
Arguments csize {V}.
Arguments nthreads_max {V}.
Arguments chunk {V}.
Arguments use_mkl {V}.
Arguments GB_HAS_MKL_GRAPH {V}.
Arguments GBCOMPACT {V}.
Arguments GB_AxB_saxpy3_mkl {V}.
Arguments GB_new_info {V}.
Arguments C_new {V}.
Arguments GB_is_packed {V}.
Arguments GB_AxB_saxpy3_flopcount {V}.
Arguments GB_nthreads {V}.
Arguments GB_PARTITION {V}.
Arguments GB_pslice {V}.
Arguments GB_cumsum {V}.
Arguments GB_ICEIL {V}.
Arguments Bflops2_0 {V}.
Arguments A_is_pattern {V}.
Arguments B_is_pattern {V}.
Arguments builtin_semiring {V}.
Arguments any_pair {V}.
Arguments factory_case {V}.
Arguments GB_hypermatrix_prune {V}.

(** What a run of the kernels finds in its workspace and in the arrays
    of [C], and the order in which the updates of its teams land. *)
Record run (V : Type) : Type := {
  run_Hi : Z → Z;
  run_Hx : Z → V;
  run_Ci : Z → Z;
  run_Cx : Z → V;
  run_schedule : Z → list nat
}.
Arguments run_Hi {V}.
Arguments run_Hx {V}.
Arguments run_Ci {V}.
Arguments run_Cx {V}.
Arguments run_schedule {V}.

Section Product.

Context {X Y V : Type}.
Variable mult : X → Y → V.
Variable add : V → V → V.
Variable A : GB_Matrix X.
Variable B : GB_Matrix Y.
(** The typecast of the values of the mask to [bool]. *)
Variable mcast : V → bool.
Variable GB_HASHF : Z → Z.
Variable c : inputs V.
(** The runs of the generated worker and of the generic worker. *)
Variables specialized generic : run V.

Definition mask_of (Mk : GB_Matrix V) : GB_Matrix bool :=
  {| vlen := vlen Mk; vdim := vdim Mk; ptr := ptr Mk; idx := idx Mk;
     val := λ k, mcast (val Mk k) |}.

(** Modelled from the spec: a worker, generated or generic, is the
    kernels of [Kernel] on the task list it is given; the two differ in
    how they reach the operators, not in what they compute.  A worker
    whose probe of a full hash table never ends does not return: here it
    answers [GrB_PANIC]. *)
Definition worker (w : run V) (args : Saxpy3.kernel_args (GB_Matrix V))
    (st : Saxpy3.kernel_state (GB_Matrix V) unit)
  : GrB_Info * Saxpy3.kernel_state (GB_Matrix V) unit :=
  match saxpy3_kernel mult add A B (mask_of <$> Saxpy3.k_M _ args)
          (Saxpy3.k_Mask_comp _ args) (Saxpy3.k_Mask_struct _ args)
          GB_HASHF (run_Hi w) (run_Hx w) (run_Ci w) (run_Cx w)
          (run_schedule w) (Saxpy3.k_TaskList _ _ st) with
  | Some C =>
      (GrB_SUCCESS,
       {| Saxpy3.k_C := C;
          Saxpy3.k_TaskList := Saxpy3.k_TaskList _ _ st;
          Saxpy3.k_tables := Saxpy3.k_tables _ _ st |})
  | None => (GrB_PANIC, st)
  end.

(** [GB_AxB_saxpy3] on [A] and [B], sparse: the status returned and the
    final state.  The symbolic analysis is part of the workers. *)
Definition GB_AxB_saxpy3 (GB_DISABLE applied : bool)
  : option (GrB_Info * Saxpy3.state (GB_Matrix V)) :=
  Saxpy3.call (GB_Matrix V) unit (malloc_ok c) (M_input c)
    (Mask_comp_input c) (Mask_struct c) (AxB_method_input c)
    (vlen A) (vdim B) (vdim B) (vlen B) (Some (ptr B)) false
    (csize c) (nthreads_max c) (chunk c) (use_mkl c) (GB_HAS_MKL_GRAPH c)
    (GBCOMPACT c) (GB_AxB_saxpy3_mkl c) (GB_new_info c) (C_new c) (λ C, C)
    (GB_is_packed c) (GB_AxB_saxpy3_flopcount c) (GB_nthreads c)
    (GB_PARTITION c) (GB_pslice c) (GB_cumsum c) (ptr B) (idx B)
    (λ _, true) (λ k, (ptr A k, ptr A (k + 1))) (GB_ICEIL c) (Bflops2_0 c)
    (λ _ _ _, tt) (A_is_pattern c) (B_is_pattern c) (builtin_semiring c)
    (any_pair c) (factory_case c) (GB_hypermatrix_prune c)
    (λ _ st, st) (worker specialized) (worker generic) GB_DISABLE applied.

(** The mask choice and the task list that reach the workers. *)
Definition prepared (applied : bool)
  : Saxpy3.result (GB_Matrix V)
      (Saxpy3.mask_choice (GB_Matrix V)
       * Saxpy3.kernel_state (GB_Matrix V) unit) :=
  Saxpy3.prepare (GB_Matrix V) unit (malloc_ok c) (M_input c)
    (Mask_comp_input c) (Mask_struct c) (AxB_method_input c)
    (vlen A) (vdim B) (vdim B) (vlen B) (Some (ptr B)) false
    (csize c) (nthreads_max c) (chunk c) (use_mkl c) (GB_HAS_MKL_GRAPH c)
    (GBCOMPACT c) (GB_AxB_saxpy3_mkl c) (GB_new_info c) (C_new c) (λ C, C)
    (GB_is_packed c) (GB_AxB_saxpy3_flopcount c) (GB_nthreads c)
    (GB_PARTITION c) (GB_pslice c) (GB_cumsum c) (ptr B) (idx B)
    (λ _, true) (λ k, (ptr A k, ptr A (k + 1))) (GB_ICEIL c) (Bflops2_0 c)
    (λ _ _ _, tt) (A_is_pattern c) (B_is_pattern c) (builtin_semiring c)
    (any_pair c) (λ _ st, st) (Saxpy3.initial_state _ applied).


(** The arguments of the workers for the mask choice [d]. *)
Definition args (d : Saxpy3.mask_choice (GB_Matrix V))
  : Saxpy3.kernel_args (GB_Matrix V) :=
  Saxpy3.args_of (GB_Matrix V) (Mask_struct c) (vdim B) (vlen B)
    (Some (ptr B)) (nthreads_max c) (chunk c) (GB_nthreads c) (GB_pslice c)
    (A_is_pattern c) (B_is_pattern c) d.

(** The worker that ends up computing [C]. *)
Definition chosen (GB_DISABLE : bool) : run V :=
  if negb (GBCOMPACT c) && builtin_semiring c && factory_case c
     && negb GB_DISABLE
  then specialized else generic.

Lemma worker_status w args0 st :
  (worker w args0 st).1 = GrB_SUCCESS ∨ (worker w args0 st).1 = GrB_PANIC.
Proof. unfold worker. destruct (saxpy3_kernel _ _ _ _ _ _ _ _ _ _ _ _ _ _); auto. Qed.

Lemma dispatch_worker GB_DISABLE args0 st :
  Saxpy3.dispatch (GB_Matrix V) unit (GBCOMPACT c) (builtin_semiring c)
    (factory_case c) (worker specialized) (worker generic) GB_DISABLE args0 st
  = worker (chosen GB_DISABLE) args0 st.
Proof.
  unfold Saxpy3.dispatch, Saxpy3.GB_Asaxpy3B, chosen.
  destruct (negb (GBCOMPACT c) && builtin_semiring c && factory_case c);
    [|done].
  destruct GB_DISABLE; cbn [negb andb].
  - by rewrite bool_decide_eq_false_2 by (intros Hne; by apply Hne).
  - pose proof (worker_status specialized args0 st) as Hst.
    destruct (worker specialized args0 st) as [info st1]. simpl in Hst.
    rewrite bool_decide_eq_true_2; [done|].
    destruct Hst as [-> | ->]; done.
Qed.

(** Two matrices with the same dimensions, pointers and vectors: the
    same structure and values, whatever the arrays hold elsewhere. *)
Definition same_matrix (C1 C2 : GB_Matrix V) : Prop :=
  vlen C1 = vlen C2 ∧ vdim C1 = vdim C2
  ∧ (∀ j, 0 ≤ j ≤ vdim C1 → ptr C1 j = ptr C2 j)
  ∧ ∀ j, 0 ≤ j < vdim C1 → vector C1 j = vector C2 j.

Lemma same_matrix_refl C : same_matrix C C.
Proof. by repeat split. Qed.

Lemma same_matrix_sym C1 C2 : same_matrix C1 C2 → same_matrix C2 C1.
Proof.
  intros (Hl & Hd & Hp & Hv). repeat split; try done.
  - intros j Hj. symmetry. apply Hp. by rewrite Hd.
  - intros j Hj. symmetry. apply Hv. by rewrite Hd.
Qed.

Lemma same_matrix_trans C1 C2 C3 :
  same_matrix C1 C2 → same_matrix C2 C3 → same_matrix C1 C3.
Proof.
  intros (Hl1 & Hd1 & Hp1 & Hv1) (Hl2 & Hd2 & Hp2 & Hv2).
  repeat split; try congruence.
  - intros j Hj. rewrite Hp1 by done. apply Hp2. by rewrite <- Hd1.
  - intros j Hj. rewrite Hv1 by done. apply Hv2. by rewrite <- Hd1.
Qed.

(** The product restricted by the mask [Mk]: the matrix of the
    reference. *)
Definition is_product (Mk : option (GB_Matrix V)) (Mc : bool)
    (C : GB_Matrix V) : Prop :=
  vlen C = vlen A ∧ vdim C = vdim B
  ∧ (∀ j, 0 ≤ j ≤ vdim B →
       ptr C j
       = entries_before mult add A B (mask_of <$> Mk) Mc (Mask_struct c) j)
  ∧ ∀ j, 0 ≤ j < vdim B →
      vector C j
      = reference_vector mult add A B (mask_of <$> Mk) Mc (Mask_struct c) j.

Lemma is_product_same Mk Mc C1 C2 :
  is_product Mk Mc C1 → is_product Mk Mc C2 → same_matrix C1 C2.
Proof.
  intros (Hl1 & Hd1 & Hp1 & Hv1) (Hl2 & Hd2 & Hp2 & Hv2).
  repeat split; try congruence.
  - intros j Hj. rewrite Hd1 in Hj. by rewrite Hp1, Hp2.
  - intros j Hj. rewrite Hd1 in Hj. by rewrite Hv1, Hv2.
Qed.

Lemma same_matrix_product Mk Mc C1 C2 :
  same_matrix C1 C2 → is_product Mk Mc C2 → is_product Mk Mc C1.
Proof.
  intros (Hl & Hd & Hp & Hv) (Hl2 & Hd2 & Hp2 & Hv2).
  repeat split; try congruence.
  - intros j Hj. rewrite Hp by lia. by apply Hp2.
  - intros j Hj. rewrite Hv by lia. by apply Hv2.
Qed.

(** The task list that reaches the workers covers the vectors of [C]
    with tables that are large enough. *)
Definition tasks_ready (applied : bool) : Prop :=
  ∀ p s0,
    prepared applied = Saxpy3.Next _ _ p s0 →
    tasks_ok mult A B (mask_of <$> Saxpy3.M _ p.1) (Saxpy3.Mask_comp _ p.1)
      (Mask_struct c) (Saxpy3.k_TaskList _ _ p.2).

(** What a call relies on from the functions that are not part of the
    sources: [GB_nthreads] gives a positive number of threads; the
    ranges of [GB_PARTITION] cover [0..n-1]; the slices of [GB_pslice] go
    from [0] to [n] and do not decrease; the flop counts that
    [GB_AxB_saxpy3_flopcount] leaves in an array it finds zeroed bound,
    for every vector, the number of updates under the mask they are
    counted with, and stay below [2^60]. *)
Record helpers : Prop := {
  threads_positive : ∀ work chunk' nthreads_max',
    1 ≤ GB_nthreads c work chunk' nthreads_max';
  ranges_cover : ∀ n nth i, 1 ≤ nth →
    (0 ≤ i < n ↔
     ∃ tid, 0 ≤ tid < nth
       ∧ (GB_PARTITION c n tid nth).1 ≤ i < (GB_PARTITION c n tid nth).2);
  slices_ordered : ∀ Work n nt, 0 ≤ n → 1 ≤ nt →
    GB_pslice c Work n nt 0 = 0 ∧ GB_pslice c Work n nt nt = n
    ∧ ∀ t, 0 ≤ t < nt →
        GB_pslice c Work n nt t ≤ GB_pslice c Work n nt (t + 1);
  flops_counted : ∀ Bflops0 Mk comp Mwork Bflops,
    (∀ kk, 0 ≤ kk ≤ vdim B → Bflops0 kk = 0) →
    (Mk = M_input c ∧ comp = Mask_comp_input c)
    ∨ (Mk = None ∧ comp = false) →
    GB_AxB_saxpy3_flopcount c Bflops0 Mk comp
      = (GrB_SUCCESS, Mwork, Bflops) →
    ∀ j, 0 ≤ j < vdim B →
      Z.of_nat (length (updates mult A B (mask_of <$> Mk) comp
                          (Mask_struct c) j (positions B j)))
      ≤ Partition.vector_flops Bflops j < 2 ^ 60
}.

Section Results.

Hypothesis chunk_pos : (0 < chunk c)%Q.
Hypothesis add_assoc : ∀ a b c, add (add a b) c = add a (add b c).
Hypothesis add_comm : ∀ a b, add a b = add b a.
Hypothesis A_finished : finished A.
Hypothesis B_finished : finished B.
Hypothesis inner_dimension : vlen B = vdim A.
Hypothesis A_rows : vlen A ≤ 2 ^ 60.
Hypothesis B_origin : ptr B 0 = 0.
Hypothesis helpers_ok : helpers.

Lemma chunk_nonneg : (0 <= chunk c)%Q.
Proof. by apply Qlt_le_weak. Qed.

(** The tasks that are created cover the vectors of [C], and their
    tables are large enough for the updates. *)
Lemma tasks_are_ready applied : tasks_ready applied.
Proof.
  intros p s0 Hprep. unfold prepared in Hprep.
  destruct (Saxpy3.prepare_counts _ _ _ _ _ _ _ _ _ _ _ _ _ _ _ _ _ _ _ _ _
              _ _ _ _ _ _ _ _ _ _ _ _ _ _ _ _ _ _ _ (factory_case c)
              (GB_hypermatrix_prune c) _ _ _ _ Hprep)
    as (Mwork0 & Bflops0 & Hfl & Hcase).
  destruct (Saxpy3.prepare_tasks _ _ _ _ _ _ _ _ _ _ _ _ _ _ _ _ _ _ _ _ _
              _ _ _ _ _ _ _ _ _ _ _ _ _ _ _ _ _ _ _ (factory_case c)
              (GB_hypermatrix_prune c) _ _ _ _ Hprep)
    as (TL & st & Hpart & HTL & Hp2).
  cbv beta in Hp2. rewrite Hp2, HTL. clear Hp2 HTL Hprep.
  pose proof (dimensions _ A_finished) as [Hm _].
  pose proof (dimensions _ B_finished) as [_ Hn].
  assert (Hcount : ∀ j, 0 ≤ j < vdim B →
    Z.of_nat (length (updates mult A B (mask_of <$> Saxpy3.M _ p.1)
                        (Saxpy3.Mask_comp _ p.1) (Mask_struct c) j
                        (positions B j)))
    ≤ Partition.vector_flops (Saxpy3.Bflops _ p.1) j < 2 ^ 61).
  { intros j Hj.
    destruct Hcase as [(HM & Hc & HB)|(HM & Hc & Mwork1 & Hfl1)].
    - pose proof (flops_counted helpers_ok _ _ _ _ _ (λ _ _, eq_refl)
                    (or_introl (conj eq_refl eq_refl)) Hfl j Hj) as Hb.
      rewrite HM, Hc. destruct HB as [-> | ->]; [lia|].
      unfold Partition.vector_flops, Saxpy3.add_dense_mask_work,
        Saxpy3.cvlen in *.
      rewrite !(proj2 (Z.leb_le _ _)) by lia. cbn [andb].
      replace (vlen A * (j + 1 + 1)) with (vlen A * (j + 1) + vlen A)
        by ring.
      lia.
    - rewrite HM, Hc.
      assert (Hzero : ∀ kk, 0 ≤ kk ≤ vdim B →
                Saxpy3.zero_Bflops (vdim B) Bflops0 kk = 0).
      { intros kk Hkk. unfold Saxpy3.zero_Bflops.
        by rewrite !(proj2 (Z.leb_le _ _)) by lia. }
      pose proof (flops_counted helpers_ok _ _ _ _ _ Hzero
                    (or_intror (conj eq_refl eq_refl)) Hfl1 j Hj) as Hb.
      lia. }
  apply (covering_tasks_ok _ _ _ _ _ _ (Saxpy3.Bflops _ p.1)).
  { intros j Hj. apply Hcount, Hj. }
  eapply Partition.covering_work;
    [symmetry; apply Saxpy3.assign_tables_work|].
  unfold Saxpy3.partition_of in Hpart.
  eapply Partition.create_tasks_covering; [..|exact Hpart].
  - exact chunk_pos.
  - intros kk Hkk. apply Hcount, Hkk.
  - apply (threads_positive helpers_ok).
  - apply (ranges_cover helpers_ok).
  - exact Hn.
  - apply (slices_ordered helpers_ok).
  - done.
  - exact B_origin.
Qed.

Lemma worker_product w d st :
  tasks_ok mult A B (mask_of <$> Saxpy3.M _ d) (Saxpy3.Mask_comp _ d)
    (Mask_struct c) (Saxpy3.k_TaskList _ _ st) →
  (worker w (args d) st).1 = GrB_SUCCESS
  ∧ is_product (Saxpy3.M _ d) (Saxpy3.Mask_comp _ d)
      (Saxpy3.k_C _ _ (worker w (args d) st).2).
Proof.
  intros Hok. unfold worker.
  destruct (saxpy3_kernel_finishes mult add A B
              (mask_of <$> Saxpy3.M _ d) (Saxpy3.Mask_comp _ d)
              (Mask_struct c) GB_HASHF (run_Hi w) (run_Hx w) (run_Ci w)
              (run_Cx w) (run_schedule w) add_assoc add_comm A_finished
              B_finished inner_dimension _ Hok)
    as (C & Hrun & HC).
  cbn [args Saxpy3.args_of Saxpy3.k_M Saxpy3.k_Mask_comp
       Saxpy3.k_Mask_struct].
  rewrite Hrun. simpl. done.
Qed.


(** How a call ends: as [Saxpy3.call_run] has it, with the worker that
    computes [C]. *)
Lemma call_returns GB_DISABLE applied :
  ∃ info s,
    GB_AxB_saxpy3 GB_DISABLE applied = Some (info, s)
    ∧ (prepared applied = Saxpy3.Return _ _ info s
         ∧ Saxpy3.prepare_return (GB_Matrix V) (use_mkl c)
             (GB_HAS_MKL_GRAPH c) (GB_AxB_saxpy3_mkl c) (GB_new_info c)
             (GB_AxB_saxpy3_flopcount c) info s
       ∨ ∃ p s0,
           prepared applied = Saxpy3.Next _ _ p s0
           ∧ Saxpy3.worker_return (GB_Matrix V) unit (Mask_struct c)
               (vdim B) (vlen B) (Some (ptr B)) (nthreads_max c) (chunk c)
               (GBCOMPACT c) (GB_nthreads c) (GB_pslice c) (A_is_pattern c)
               (B_is_pattern c) (builtin_semiring c) (factory_case c)
               (GB_hypermatrix_prune c) (worker specialized)
               (worker generic) GB_DISABLE p s0 info s).
Proof.
  unfold GB_AxB_saxpy3, prepared.
  edestruct Saxpy3.call_run as (info & s & Hcall & Hend); [exact chunk_nonneg|].
  exists info, s. split; [exact Hcall|].
  destruct Hend as [[Hret Hhow]|(p & s0 & Hprep & _ & Hw)].
  - left. split; [exact Hret|exact Hhow].
  - right. exists p, s0. split; [exact Hprep|exact Hw].
Qed.


(** [GB_hypermatrix_prune] leaves the vectors of [C] alone, and its
    status depends on the matrix only. *)
Definition prune_keeps : Prop :=
  ∀ C, (GB_hypermatrix_prune c C).1 = GrB_SUCCESS →
       same_matrix (GB_hypermatrix_prune c C).2 C.

Definition prune_respects : Prop :=
  ∀ C1 C2, same_matrix C1 C2 →
           (GB_hypermatrix_prune c C1).1 = (GB_hypermatrix_prune c C2).1.

(** The mask and complement flag that a call reporting [applied]
    worked with. *)
Definition mask_used (applied : bool) : option (GB_Matrix V) * bool :=
  if applied then (M_input c, Mask_comp_input c) else (None, false).

(** Where the workers run, they leave the product; the call then
    returns it pruned, or fails in the pruning. *)
Lemma worker_return_product GB_DISABLE applied p s0 info s :
  tasks_ready applied →
  prepared applied = Saxpy3.Next _ _ p s0 →
  Saxpy3.worker_return (GB_Matrix V) unit (Mask_struct c)
    (vdim B) (vlen B) (Some (ptr B)) (nthreads_max c) (chunk c)
    (GBCOMPACT c) (GB_nthreads c) (GB_pslice c) (A_is_pattern c)
    (B_is_pattern c) (builtin_semiring c) (factory_case c)
    (GB_hypermatrix_prune c) (worker specialized)
    (worker generic) GB_DISABLE p s0 info s →
  ∃ C, is_product (mask_used (bool_decide (is_Some (Saxpy3.M _ p.1)))).1
         (mask_used (bool_decide (is_Some (Saxpy3.M _ p.1)))).2 C
       ∧ info = (GB_hypermatrix_prune c C).1
       ∧ s = if decide (info = GrB_SUCCESS) then
               {| Saxpy3.Chandle := Some (GB_hypermatrix_prune c C).2;
                  Saxpy3.mask_applied :=
                    bool_decide (is_Some (Saxpy3.M _ p.1));
                  Saxpy3.live := ∅;
                  Saxpy3.attempts := Saxpy3.attempts _ s0 |}
             else Saxpy3.released _ (Saxpy3.attempts _ s0).
Proof.
  intros Hready Hprep Hw. unfold Saxpy3.worker_return in Hw.
  rewrite dispatch_worker in Hw. cbv zeta in Hw.
  destruct (worker_product (chosen GB_DISABLE) p.1 p.2 (Hready p s0 Hprep))
    as [Hst HC].
  fold (args p.1) in Hw.
  set (C := Saxpy3.k_C _ _ (worker (chosen GB_DISABLE) (args p.1) p.2).2)
    in *.
  exists C. split.
  - unfold prepared in Hprep.
    destruct (Saxpy3.prepare_mask _ _ _ _ _ _ _ _ _ _ _ _ _ _ _ _ _ _ _ _ _
                _ _ _ _ _ _ _ _ _ _ _ _ _ _ _ _ _ _ _ (factory_case c)
                (GB_hypermatrix_prune c) _ _ _ _ Hprep)
      as [[HM Hcomp]|[HM Hcomp]]; rewrite HM, Hcomp in HC.
    + rewrite HM. exact HC.
    + rewrite HM. destruct (M_input c) as [Mk|] eqn:HMk.
      * rewrite bool_decide_eq_true_2 by done. unfold mask_used.
        cbn [fst snd]. rewrite HMk. exact HC.
      * exact HC.
  - destruct Hw as [(Hne & _)|[(_ & -> & Hne & ->)|(_ & -> & Hpr & ->)]].
    + congruence.
    + split; [done|]. by rewrite decide_False.
    + split; [done|]. by rewrite decide_True.
Qed.


Lemma call_product GB_DISABLE applied :
  tasks_ready applied → prune_keeps →
  GB_HAS_MKL_GRAPH c && use_mkl c = false →
  ∃ info s,
    GB_AxB_saxpy3 GB_DISABLE applied = Some (info, s)
    ∧ (info = GrB_SUCCESS →
       ∃ C, Saxpy3.Chandle _ s = Some C
            ∧ is_product (mask_used (Saxpy3.mask_applied _ s)).1
                (mask_used (Saxpy3.mask_applied _ s)).2 C).
Proof.
  intros Hready Hprune Hmkl.
  destruct (call_returns GB_DISABLE applied) as (info & s & Hcall & Hend).
  exists info, s. split; [done|]. intros ->.
  destruct Hend as [[_ Hret]|(p & s0 & Hprep & Hw)].
  - destruct Hret as [(Hon & _)|[(Hnew & Hne & _)|[(_ & Hne & _)|(Hoom & _)]]];
      congruence.
  - destruct (worker_return_product _ _ _ _ _ _ Hready Hprep Hw)
      as (C & HC & Hinfo & ->).
    rewrite decide_True by done. cbn [Saxpy3.Chandle Saxpy3.mask_applied].
    eexists. split; [done|].
    eapply same_matrix_product; [|exact HC]. by apply Hprune.
Qed.

Lemma is_product_entry Mk Mc C r j :
  is_product Mk Mc C → 0 ≤ j < vdim B →
  entry C r j
  = if allowed (mask_of <$> Mk) Mc (Mask_struct c) r j
    then reference_entry mult add A B r j else None.
Proof.
  intros (_ & _ & _ & Hvec) Hj. unfold entry. rewrite Hvec by done.
  by apply entry_reference_vector.
Qed.

Lemma is_product_order Mk Mc C :
  is_product Mk Mc C →
  ptr C 0 = 0
  ∧ ∀ j, 0 ≤ j < vdim C →
      ptr C (j + 1) = ptr C j + Z.of_nat (length (vector C j))
      ∧ StronglySorted Z.lt (vector C j).*1
      ∧ ∀ r, r ∈ (vector C j).*1 → 0 ≤ r < vlen C.
Proof.
  intros (Hvlen & Hvdim & Hptr & Hvec).
  pose proof (dimensions _ B_finished) as [_ Hn].
  split; [by rewrite Hptr by lia|].
  intros j Hj. rewrite Hvdim in Hj. rewrite !Hptr, Hvec by lia.
  split; [|split].
  - unfold entries_before. by rewrite total_succ by lia.
  - apply row_lt_rows_sorted, ascending_sorted.
  - intros r ([r' v] & -> & [Hr _]%ascending_elem)%list_elem_of_fmap.
    by rewrite Hvlen.
Qed.



End Results.

End Product.

(** ** A concrete call *)

(** Modelled from the spec: the flop estimator (the absent
    GB_AxB_saxpy3_flopcount.c) on sparse matrices: "for each column
    (vector) of B, and optionally accounting for the mask M, computes an
    upper bound on multiply-add operations needed, producing a
    cumulative flop array", with "Mwork, the total estimated cost of
    scanning M".  A dense mask adds no work here. *)
Definition sum_over (f : Z → Z) (l : list Z) : Z :=
  foldl (λ s k, s + f k) 0 l.

Definition is_packed {V} (Mk : option (GB_Matrix V)) : bool :=
  match Mk with
  | Some Mk => nnz Mk =? vlen Mk * vdim Mk
  | None => false
  end.

Definition vector_work {X Y V} (A : GB_Matrix X) (B : GB_Matrix Y)
    (Mk : option (GB_Matrix V)) (j : Z) : Z :=
  sum_over (λ pB, ptr A (idx B pB + 1) - ptr A (idx B pB)) (positions B j)
  + match Mk with
    | Some Mk' => if is_packed Mk then 0 else ptr Mk' (j + 1) - ptr Mk' j
    | None => 0
    end.

Definition flopcount {X Y V} (A : GB_Matrix X) (B : GB_Matrix Y)
    (Bflops : Z → Z) (Mk : option (GB_Matrix V)) (Mask_comp : bool)
  : GrB_Info * Z * (Z → Z) :=
  (GrB_SUCCESS,
   match Mk with
   | Some Mk' => if is_packed Mk then 0 else nnz Mk'
   | None => 0
   end,
   λ k, Bflops k + sum_over (vector_work A B Mk) (seqZ 0 k)).

(** Modelled from the spec: the thread-count policy, "fewer threads for
    small problems" (the absent GB_nthreads), and the macros
    [GB_PARTITION] and [GB_ICEIL] of the absent GB.h. *)
Definition nthreads_for (work : Z) (chunk : Q) (nthreads_max : Z) : Z :=
  Z.max 1 (Z.min (Qfloor (inject_Z work / chunk)) nthreads_max).

Definition partition (n tid nth : Z) : Z * Z :=
  (if tid =? 0 then 0 else tid * n / nth,
   if tid =? nth - 1 then n else (tid + 1) * n / nth).

Definition iceil (a b : Z) : Z := (a + b - 1) / b.

(** Modelled from the spec: "partitioning a range [0..n) into ntasks
    slices" (the absent GB_pslice balances the slices by the work; these
    have the same number of positions, as the ranges of [partition]). *)
Definition slices (Work : Z → Z) (n ntasks t : Z) : Z :=
  if t <=? 0 then 0 else if ntasks <=? t then n else t * n / ntasks.

(** The header [GB_new] leaves: no entries yet. *)
Definition new_matrix {V} (d : V) (m n : Z) : GB_Matrix V :=
  {| vlen := m; vdim := n; ptr := λ _, 0; idx := λ _, 0; val := λ _, d |}.

(** A call on integer matrices: four threads at most, the default chunk,
    no MKL, a semiring of the switch factory, and a sparse [C] that
    [GB_hypermatrix_prune] leaves as it is. *)
Definition scenario (A B : GB_Matrix Z) (ok : Saxpy3.allocation → bool)
    (Mk : option (GB_Matrix Z)) (method : GrB_Desc_Value) : inputs Z :=
  {| malloc_ok := ok; M_input := Mk; Mask_comp_input := false;
     Mask_struct := true; AxB_method_input := method; csize := 8;
     nthreads_max := 4; chunk := 4096%Q; use_mkl := false;
     GB_HAS_MKL_GRAPH := false; GBCOMPACT := false;
     GB_AxB_saxpy3_mkl := (GrB_NO_VALUE, None, false);
     GB_new_info := if ok Saxpy3.alloc_C then GrB_SUCCESS
                    else GrB_OUT_OF_MEMORY;
     C_new := new_matrix 0 (vlen A) (vdim B);
     GB_is_packed := is_packed; GB_AxB_saxpy3_flopcount := flopcount A B;
     GB_nthreads := nthreads_for; GB_PARTITION := partition;
     GB_pslice := slices;
     GB_cumsum := PartitionExample.cumsum;
     GB_ICEIL := iceil; Bflops2_0 := λ _, 0;
     A_is_pattern := false; B_is_pattern := false;
     builtin_semiring := true; any_pair := false; factory_case := true;
     GB_hypermatrix_prune := λ C, (GrB_SUCCESS, C) |}.

(** Two runs of the kernels: one finds zeros in its workspace, the other
    finds anything, and schedules its teams otherwise. *)
Definition quiet : run Z :=
  {| run_Hi := λ _, 0; run_Hx := λ _, 0; run_Ci := λ _, 0; run_Cx := λ _, 0;
     run_schedule := λ _, [] |}.

Definition noisy : run Z :=
  {| run_Hi := λ k, k + 5; run_Hx := λ k, 7 * k; run_Ci := λ _, 3;
     run_Cx := λ k, k; run_schedule := λ _, [1; 0; 1]%nat |}.

Definition nonzero (v : Z) : bool := negb (v =? 0).

Definition GB_HASHF (r : Z) : Z := r * 257.

(** The scenario of the design document: [A] with the entries
    [(0,0):2], [(1,1):3], [(2,2):4], [B] with [(0,0):5], [(1,1):6],
    [(2,2):7], the semiring (plus, times), no mask. *)
Definition diagonal_call (ok : Saxpy3.allocation → bool)
    (GB_DISABLE : bool) : option (GrB_Info * Saxpy3.state (GB_Matrix Z)) :=
  GB_AxB_saxpy3 Z.mul Z.add (diagonal 2 3 4) (diagonal 5 6 7) nonzero
    GB_HASHF
    (scenario (diagonal 2 3 4) (diagonal 5 6 7) ok None GxB_DEFAULT)
    quiet noisy GB_DISABLE false.

Example diagonal_call_result :
  ∃ s C, diagonal_call (λ _, true) false = Some (GrB_SUCCESS, s)
         ∧ Saxpy3.Chandle _ s = Some C
         ∧ triples C = [(0, 0, 10); (1, 1, 18); (2, 2, 28)]
         ∧ nnz C = 3.
Proof.
  eexists _, _. split; [vm_compute; reflexivity|].
  split; [reflexivity|]. split; vm_compute; reflexivity.
Qed.

Lemma even_slices_bounds n nt t :
  0 ≤ n → 1 ≤ nt → 0 ≤ t ≤ nt →
  0 ≤ t * n / nt ≤ n ∧ t * n / nt ≤ (t + 1) * n / nt.
Proof.
  intros Hn Hnt Ht. split; [split|].
  - apply Z.div_pos; nia.
  - apply Z.div_le_upper_bound; nia.
  - apply Z.div_le_mono; nia.
Qed.

Lemma slices_ordered_even Work n nt :
  0 ≤ n → 1 ≤ nt →
  slices Work n nt 0 = 0 ∧ slices Work n nt nt = n
  ∧ ∀ t, 0 ≤ t < nt → slices Work n nt t ≤ slices Work n nt (t + 1).
Proof.
  intros Hn Hnt. unfold slices. split; [done|]. split.
  - destruct (Z.leb_spec nt 0); [lia|]. by rewrite Z.leb_refl.
  - intros t Ht.
    pose proof (even_slices_bounds n nt t Hn Hnt ltac:(lia)).
    pose proof (even_slices_bounds n nt (t + 1) Hn Hnt ltac:(lia)).
    destruct (Z.leb_spec t 0), (Z.leb_spec (t + 1) 0),
      (Z.leb_spec nt t), (Z.leb_spec nt (t + 1)); lia.
Qed.

Lemma partition_slices n tid nth :
  0 ≤ tid < nth →
  partition n tid nth
  = (slices (λ _, 0) n nth tid, slices (λ _, 0) n nth (tid + 1)).
Proof.
  intros Ht. unfold partition, slices.
  destruct (Z.eqb_spec tid 0), (Z.eqb_spec tid (nth - 1)),
    (Z.leb_spec tid 0), (Z.leb_spec (tid + 1) 0),
    (Z.leb_spec nth tid), (Z.leb_spec nth (tid + 1)); try lia; done.
Qed.

Lemma partition_covers n nth i :
  1 ≤ nth →
  0 ≤ i < n ↔
  ∃ tid, 0 ≤ tid < nth
    ∧ (partition n tid nth).1 ≤ i < (partition n tid nth).2.
Proof.
  intros Hnth. split.
  - intros Hi.
    destruct (slices_ordered_even (λ _, 0) n nth ltac:(lia) Hnth)
      as (H0 & Hlast & _).
    destruct (Partition.slices_cover (slices (λ _, 0) n nth)
                (Z.to_nat nth) i) as (t & Ht & Hit).
    { rewrite Z2Nat.id by lia. lia. }
    exists t. rewrite partition_slices by lia. split; [lia|done].
  - intros (tid & Ht & Hi). rewrite partition_slices in Hi by done.
    cbn [fst snd] in Hi.
    destruct (Z.le_gt_cases 0 n) as [Hn|Hn].
    + destruct (slices_ordered_even (λ _, 0) n nth Hn Hnth)
        as (H0 & Hlast & Hmono).
      assert (Hmono' : ∀ t, 0 ≤ t < Z.of_nat (Z.to_nat nth) →
                slices (λ _, 0) n nth t ≤ slices (λ _, 0) n nth (t + 1)).
      { intros t Ht'. apply Hmono. lia. }
      pose proof (Partition.slices_bounds _ _ Hmono' tid ltac:(lia)) as H1.
      pose proof (Partition.slices_bounds _ _ Hmono' (tid + 1) ltac:(lia))
        as H2.
      rewrite Z2Nat.id in H1, H2 by lia. lia.
    + exfalso. unfold slices in Hi.
      assert (H1 : (tid + 1) * n / nth ≤ tid * n / nth)
        by (apply Z.div_le_mono; nia).
      assert (H2 : n ≤ tid * n / nth)
        by (apply Z.div_le_lower_bound; nia).
      assert (H3 : (tid + 1) * n / nth ≤ 0).
      { apply Z.lt_le_incl, Z.div_lt_upper_bound; nia. }
      destruct (Z.leb_spec tid 0), (Z.leb_spec (tid + 1) 0),
        (Z.leb_spec nth tid), (Z.leb_spec nth (tid + 1)); lia.
Qed.

(** The functions of the scenario keep what a call relies on. *)
Lemma diagonal_helpers :
  helpers Z.mul (diagonal 2 3 4) (diagonal 5 6 7) nonzero
    (scenario (diagonal 2 3 4) (diagonal 5 6 7) (λ _, true) None
       GxB_DEFAULT).
Proof.
  split.
  - intros work chunk' nthreads_max'. cbn [GB_nthreads scenario].
    unfold nthreads_for. lia.
  - intros n nth i. apply partition_covers.
  - intros Work n nt. apply slices_ordered_even.
  - intros Bflops0 Mk comp Mwork Bflops Hzero Hmask Hfl j Hj.
    assert (HMk : Mk = None ∧ comp = false) by (by destruct Hmask).
    destruct HMk as [HMk Hcomp]. subst Mk comp.
    cbn [GB_AxB_saxpy3_flopcount scenario] in Hfl. unfold flopcount in Hfl.
    injection Hfl as _ <-.
    change (vdim (diagonal 5 6 7)) with 3 in Hzero, Hj.
    unfold Partition.vector_flops.
    rewrite (Hzero j), (Hzero (j + 1)) by lia.
    assert (Hcases : j = 0 ∨ j = 1 ∨ j = 2) by lia.
    destruct Hcases as [Hj0|[Hj0|Hj0]]; subst j;
      vm_compute; (split; [discriminate|reflexivity]).
Defined.

Lemma scenario_prune_keeps A B ok Mk method :
  prune_keeps (scenario A B ok Mk method).
Proof. intros C _. apply same_matrix_refl. Defined.

Lemma scenario_prune_respects A B ok Mk method :
  prune_respects (scenario A B ok Mk method).
Proof. by intros C1 C2 _. Defined.





(** *** Teams and hash tables *)

(** The scenario with a chunk of one flop: four threads, eight initial
    coarse tasks. *)
Definition busy (A B : GB_Matrix Z) (method : GrB_Desc_Value) : inputs Z :=
  {| malloc_ok := λ _, true; M_input := None; Mask_comp_input := false;
     Mask_struct := true; AxB_method_input := method; csize := 8;
     nthreads_max := 4; chunk := 1%Q; use_mkl := false;
     GB_HAS_MKL_GRAPH := false; GBCOMPACT := false;
     GB_AxB_saxpy3_mkl := (GrB_NO_VALUE, None, false);
     GB_new_info := GrB_SUCCESS;
     C_new := new_matrix 0 (vlen A) (vdim B);
     GB_is_packed := is_packed; GB_AxB_saxpy3_flopcount := flopcount A B;
     GB_nthreads := nthreads_for; GB_PARTITION := partition;
     GB_pslice := slices;
     GB_cumsum := PartitionExample.cumsum;
     GB_ICEIL := iceil; Bflops2_0 := λ _, 0;
     A_is_pattern := false; B_is_pattern := false;
     builtin_semiring := true; any_pair := false; factory_case := true;
     GB_hypermatrix_prune := λ C, (GrB_SUCCESS, C) |}.

(** A 64-by-4 matrix with the vectors [{1:2, 40:3}], [{40:4}],
    [{3:5, 5:6, 63:7}] and [{}], and a 4-by-3 matrix with the vectors
    [{0:1, 1:10, 2:100}], [{1:2}] and [{0:3, 2:5}]. *)
Definition tall : GB_Matrix Z :=
  {| vlen := 64; vdim := 4;
     ptr := array 0 [0; 2; 3; 6; 6];
     idx := array 0 [1; 40; 40; 3; 5; 63];
     val := array 0 [2; 3; 4; 5; 6; 7] |}.

Definition small : GB_Matrix Z :=
  {| vlen := 4; vdim := 3;
     ptr := array 0 [0; 3; 4; 6];
     idx := array 0 [0; 1; 2; 1; 0; 2];
     val := array 0 [1; 10; 100; 2; 3; 5] |}.

Definition busy_call (method : GrB_Desc_Value) (GB_DISABLE : bool)
  : option (GrB_Info * Saxpy3.state (GB_Matrix Z)) :=
  GB_AxB_saxpy3 Z.mul Z.add tall small nonzero GB_HASHF
    (busy tall small method) quiet noisy GB_DISABLE false.

(** With the Hash method, vectors 0 and 2 get teams of six and five fine
    tasks on tables of 16 slots, and vector 1 a coarse task on a table of
    4 slots. *)
Example busy_call_tasks :
  ∃ p s, prepared tall small (busy tall small GxB_AxB_HASH) false
         = Saxpy3.Next _ _ p s
         ∧ Partition.work <$> Saxpy3.k_TaskList _ _ p.2
           = [(0, -1, 0, 16, 0, 6); (0, 0, 0, 16, 0, 6);
              (1, 0, 0, 16, 0, 6); (1, 1, 0, 16, 0, 6);
              (2, 1, 0, 16, 0, 6); (2, 2, 0, 16, 0, 6);
              (4, 3, 2, 16, 6, 5); (4, 3, 2, 16, 6, 5);
              (4, 4, 2, 16, 6, 5); (5, 4, 2, 16, 6, 5);
              (5, 5, 2, 16, 6, 5); (1, 1, -1, 4, 11, 1)].
Proof. eexists _, _. split; vm_compute; reflexivity. Qed.

(** Either worker, with the Hash method or Gustavson's, leaves the same
    product. *)
Example busy_call_result :
  Forall (λ '(method, GB_DISABLE),
    ∃ s C, busy_call method GB_DISABLE = Some (GrB_SUCCESS, s)
           ∧ Saxpy3.Chandle _ s = Some C
           ∧ triples C
             = [(1, 0, 2); (3, 0, 500); (5, 0, 600); (40, 0, 43);
                (63, 0, 700); (40, 1, 8); (1, 2, 6); (3, 2, 25);
                (5, 2, 30); (40, 2, 9); (63, 2, 35)])
    [(GxB_AxB_HASH, false); (GxB_AxB_HASH, true);
     (GxB_AxB_GUSTAVSON, false); (GxB_DEFAULT, true)].
Proof.
  repeat constructor; eexists _, _;
    (split; [vm_compute; reflexivity|]);
    (split; [reflexivity|vm_compute; reflexivity]).
Qed.

(** *** Masks *)

(** The mask with the single entry [(0,0):1], and the dense [m]-by-[n]
    mask. *)
Definition corner : GB_Matrix Z :=
  {| vlen := 3; vdim := 3; ptr := array 0 [0; 1; 1; 1]; idx := array 0 [0];
     val := array 0 [1] |}.

Definition full (m n v : Z) : GB_Matrix Z :=
  {| vlen := m; vdim := n; ptr := λ j, m * Z.max 0 (Z.min j n);
     idx := λ k, k mod m; val := λ _, v |}.

(** The [m]-by-[n] matrix with the single entry [(0,0):v]. *)
Definition single (m n v : Z) : GB_Matrix Z :=
  {| vlen := m; vdim := n; ptr := λ j, if j <=? 0 then 0 else 1;
     idx := λ _, 0; val := λ _, v |}.

(** The second scenario of the design document: the structural mask
    [{(0,0):1}], not complemented, leaves the entry [(0,0):10]. *)
Example masked_diagonal_call :
  ∃ s C,
    GB_AxB_saxpy3 Z.mul Z.add (diagonal 2 3 4) (diagonal 5 6 7) nonzero
      GB_HASHF
      (scenario (diagonal 2 3 4) (diagonal 5 6 7) (λ _, true) (Some corner)
         GxB_DEFAULT)
      quiet noisy false false = Some (GrB_SUCCESS, s)
    ∧ Saxpy3.mask_applied _ s = true
    ∧ Saxpy3.Chandle _ s = Some C
    ∧ triples C = [(0, 0, 10)] ∧ nnz C = 1.
Proof.
  eexists _, _. split; [vm_compute; reflexivity|].
  split; [reflexivity|]. split; [reflexivity|].
  split; vm_compute; reflexivity.
Qed.

(** The mask decision of [Saxpy3] for the call [c] on [A] and [B]. *)
Definition mask_decision {X Y V} (A : GB_Matrix X) (B : GB_Matrix Y)
    (c : inputs V) (Mwork0 : Z) (Bflops0 : Z → Z)
  : Saxpy3.step (GB_Matrix V) (Saxpy3.mask_choice (GB_Matrix V)) :=
  Saxpy3.mask_decision (GB_Matrix V) (M_input c) (Mask_comp_input c)
    (AxB_method_input c) (vlen A) (vdim B) (vdim B) (GB_is_packed c)
    (GB_AxB_saxpy3_flopcount c) Mwork0 Bflops0.

(** A dense 4-by-4 mask, one multiply-add in [A*B], and the method hint
    [GxB_AxB_GUSTAVSON]: [axbflops = 1] is below
    [Mwork * GB_MWORK_BETA = 1.6], yet the mask is not used in place and
    the Hash method is not forced; whether the flop counts handed over
    include the work of the dense mask ([Mwork = 16]) or leave it out
    ([Mwork = 0]). *)
Lemma dense_mask_with_method_hint :
  let Mk := full 4 4 1 in
  let c := scenario (single 4 4 2) (single 4 4 5) (λ _, true)
             (Some Mk) GxB_AxB_GUSTAVSON in
  let s := Saxpy3.initial_state (GB_Matrix Z) false in
  is_packed (Some Mk) = true
  ∧ Forall (λ '(Mwork0, Bflops0),
      Qltb (Saxpy3.axbflops 4 Bflops0 Mwork0)
        (inject_Z (4 * 4) * GB_MWORK_BETA) = true
      ∧ ∃ d, mask_decision (single 4 4 2) (single 4 4 5) c Mwork0 Bflops0 s
             = Saxpy3.Next _ _ d s
             ∧ Saxpy3.M _ d = Some Mk
             ∧ Saxpy3.M_dense_in_place _ d = false
             ∧ Saxpy3.AxB_method _ d = GxB_AxB_GUSTAVSON)
      [(16, array 0 [0; 5; 9; 13; 17]); (0, array 0 [0; 1; 1; 1; 1])].
Proof.
  split; [reflexivity|].
  repeat constructor; eexists; (split; [vm_compute; reflexivity|]);
    repeat split.
Qed.

(** *** The claims of [Saxpy3] on concrete calls *)

Lemma mask_is_discarded_or_used_witness :
  let A := diagonal 2 3 4 in
  let B := diagonal 5 6 7 in
  let c := scenario A B (λ _, true) (Some corner) GxB_DEFAULT in
  let counts := flopcount A B (λ _, 0) (Some corner) false in
  let s := Saxpy3.initial_state (GB_Matrix Z) false in
  is_Some (M_input c)
  ∧ Saxpy3.mask_applied _ s = false
  ∧ mask_decision A B c counts.1.2 counts.2 s
    = Saxpy3.Next _ _
        {| Saxpy3.M := Some corner; Saxpy3.Mask_comp := false;
           Saxpy3.M_dense_in_place := false;
           Saxpy3.AxB_method := GxB_DEFAULT;
           Saxpy3.Bflops := counts.2; Saxpy3.Mwork := counts.1.2 |} s.
Proof.
  intros A B c counts s. split; [done|]. split; [done|].
  refine (proj1 (proj2 (proj2 (proj2
    (Saxpy3.mask_is_discarded_or_used (GB_Matrix Z) unit (malloc_ok c) (M_input c)
    (Mask_comp_input c) (Mask_struct c) (AxB_method_input c)
    (vlen A) (vdim B) (vdim B) (vlen B) (Some (ptr B)) false
    (csize c) (nthreads_max c) (chunk c) (use_mkl c) (GB_HAS_MKL_GRAPH c)
    (GBCOMPACT c) (GB_AxB_saxpy3_mkl c) (GB_new_info c) (C_new c) (λ C, C)
    (GB_is_packed c) (GB_AxB_saxpy3_flopcount c) (GB_nthreads c)
    (GB_PARTITION c) (GB_pslice c) (GB_cumsum c) (ptr B) (idx B)
    (λ _, true) (λ k, (ptr A k, ptr A (k + 1))) (GB_ICEIL c) (Bflops2_0 c)
    (λ _ _ _, tt) (A_is_pattern c) (B_is_pattern c) (builtin_semiring c)
    (any_pair c) (factory_case c) (GB_hypermatrix_prune c)
    (λ _ st, st) (worker Z.mul Z.add A B nonzero GB_HASHF quiet)
    (worker Z.mul Z.add A B nonzero GB_HASHF noisy)
       counts.1.2 counts.2 s _ _)))) _ _).
  - done.
  - reflexivity.
  - reflexivity.
  - vm_compute. reflexivity.
Defined.

(** The allocator that fails for the hash tables [Hf_all]. *)
Definition no_Hf_all (a : Saxpy3.allocation) : bool :=
  bool_decide (a ≠ Saxpy3.alloc_workspace Saxpy3.Hf_all).

Example hash_tables_out_of_memory :
  ∃ s, diagonal_call no_Hf_all false = Some (GrB_OUT_OF_MEMORY, s)
       ∧ Saxpy3.Chandle _ s = None ∧ Saxpy3.live _ s = ∅
       ∧ Saxpy3.attempts _ s
         = [(Saxpy3.alloc_C, true);
            (Saxpy3.alloc_workspace Saxpy3.TaskList, true);
            (Saxpy3.alloc_workspace Saxpy3.Coarse_Work, true);
            (Saxpy3.alloc_workspace Saxpy3.Hf_all, false);
            (Saxpy3.alloc_workspace Saxpy3.Hx_all, true)].
Proof.
  eexists. split; [vm_compute; reflexivity|]. by repeat split.
Qed.

Lemma failed_allocation_is_out_of_memory_witness :
  ∃ info s,
    diagonal_call no_Hf_all false = Some (info, s)
    ∧ Saxpy3.live _ s = ∅
    ∧ (Saxpy3.some_failed (Saxpy3.attempts _ s) →
       info = GrB_OUT_OF_MEMORY ∧ Saxpy3.Chandle _ s = None
       ∧ Saxpy3.mask_applied _ s = false)
    ∧ (info = GrB_SUCCESS → Saxpy3.all_ok (Saxpy3.attempts _ s)).
Proof.
  pose (A := diagonal 2 3 4). pose (B := diagonal 5 6 7).
  pose (c := scenario A B no_Hf_all None GxB_DEFAULT).
  refine (Saxpy3.failed_allocation_is_out_of_memory (GB_Matrix Z) unit (malloc_ok c) (M_input c)
    (Mask_comp_input c) (Mask_struct c) (AxB_method_input c)
    (vlen A) (vdim B) (vdim B) (vlen B) (Some (ptr B)) false
    (csize c) (nthreads_max c) (chunk c) (use_mkl c) (GB_HAS_MKL_GRAPH c)
    (GBCOMPACT c) (GB_AxB_saxpy3_mkl c) (GB_new_info c) (C_new c) (λ C, C)
    (GB_is_packed c) (GB_AxB_saxpy3_flopcount c) (GB_nthreads c)
    (GB_PARTITION c) (GB_pslice c) (GB_cumsum c) (ptr B) (idx B)
    (λ _, true) (λ k, (ptr A k, ptr A (k + 1))) (GB_ICEIL c) (Bflops2_0 c)
    (λ _ _ _, tt) (A_is_pattern c) (B_is_pattern c) (builtin_semiring c)
    (any_pair c) (factory_case c) (GB_hypermatrix_prune c)
    (λ _ st, st) (worker Z.mul Z.add A B nonzero GB_HASHF quiet)
    (worker Z.mul Z.add A B nonzero GB_HASHF noisy) false false _ _).
  - vm_compute. discriminate.
  - by left.
Defined.


End Product.

(** ** The semiring of a generated worker: MAX_ISGE_UINT8

    Generated/GB_AxB__times_rdiv_fp32.c holds the macros that turn the
    saxpy3 template into [GB_Asaxpy3B__max_isge_uint8].  A [uint8_t] is an
    integer of [Z] from 0 to [UINT8_MAX]; [Cx] and [Hx] are lists, and an
    access outside of an array has no defined result. *)

Module MaxIsgeUint8.

Definition UINT8_MAX : Z := 255.

Definition uint8 (x : Z) : Prop := 0 <= x <= UINT8_MAX.

(** [GB_MULT (z, x, y, i, k, j)]: [z = (x >= y)]. *)
Definition GB_MULT (x y : Z) : Z := if y <=? x then 1 else 0.

(** [GB_MULTADD (z, x, y, i, k, j)]:
    [uint8_t x_op_y = (x >= y) ; z = GB_IMAX (z, x_op_y)]. *)
Definition GB_MULTADD (z x y : Z) : Z :=
  let x_op_y := if y <=? x then 1 else 0 in
  GB_IMAX z x_op_y.

Definition GB_IDENTITY : Z := 0.

(** [GB_DOT_TERMINAL (cij)]: whether the loop of the dot product breaks. *)
Definition GB_DOT_TERMINAL (cij : Z) : bool := cij =? UINT8_MAX.

Definition GB_ADD_FUNCTION (x y : Z) : Z := GB_IMAX x y.

(** [GB_CIJ_WRITE (p, t)]: [Cx [p] = t]. *)
Definition GB_CIJ_WRITE (Cx : list Z) (p : nat) (t : Z) : option (list Z) :=
  if decide (p < length Cx)%nat then Some (<[p := t]> Cx) else None.

(** [GB_CIJ_UPDATE (p, t)]: [if (Cx [p] < t) Cx [p] = t]. *)
Definition GB_CIJ_UPDATE (Cx : list Z) (p : nat) (t : Z) : option (list Z) :=
  c ← Cx !! p;
  Some (if c <? t then <[p := t]> Cx else Cx).

(** [GB_HX_WRITE (i, t)]: [Hx [i] = t]. *)
Definition GB_HX_WRITE (Hx : list Z) (i : nat) (t : Z) : option (list Z) :=
  if decide (i < length Hx)%nat then Some (<[i := t]> Hx) else None.

(** [GB_HX_UPDATE (i, t)]: [if (Hx [i] < t) Hx [i] = t]. *)
Definition GB_HX_UPDATE (Hx : list Z) (i : nat) (t : Z) : option (list Z) :=
  h ← Hx !! i;
  Some (if h <? t then <[i := t]> Hx else Hx).

(** [GB_CIJ_GATHER (p, i)]: [Cx [p] = Hx [i]]. *)
Definition GB_CIJ_GATHER (Cx Hx : list Z) (p i : nat) : option (list Z) :=
  h ← Hx !! i;
  GB_CIJ_WRITE Cx p h.

(** [GB_DISABLE]. *)
Definition GB_DISABLE (GxB_NO_MAX GxB_NO_ISGE GxB_NO_UINT8 GxB_NO_MAX_UINT8
    GxB_NO_ISGE_UINT8 GxB_NO_MAX_ISGE_UINT8 : bool) : bool :=
  GxB_NO_MAX || GxB_NO_ISGE || GxB_NO_UINT8 || GxB_NO_MAX_UINT8
  || GxB_NO_ISGE_UINT8 || GxB_NO_MAX_ISGE_UINT8.

(** A loop of multiply-adds into [cij], as the templates have it. *)
Definition multiply_adds (cij : Z) (ab : list (Z * Z)) : Z :=
  foldl (fun z p => GB_MULTADD z p.1 p.2) cij ab.

(** Updates of [Hx], one after the other. *)
Definition hx_updates (Hx : list Z) (us : list (nat * Z))
  : option (list Z) :=
  foldl (fun H u => Hx' ← H; GB_HX_UPDATE Hx' u.1 u.2) (Some Hx) us.

(** *** The monoid *)

Lemma GB_MULT_bit x y : GB_MULT x y = 0 \/ GB_MULT x y = 1.
Proof. unfold GB_MULT. destruct (y <=? x); auto. Qed.

Lemma GB_MULTADD_add z x y :
  GB_MULTADD z x y = GB_ADD_FUNCTION z (GB_MULT x y).
Proof. reflexivity. Qed.

(** X13.  The additive monoid of the worker, on [uint8_t]: the function is
    closed, associative and commutative, [GB_IDENTITY] is its identity,
    the value [UINT8_MAX] that [GB_DOT_TERMINAL] tests for absorbs every
    other, and [GB_MULTADD] is the function applied to the product, which
    is 0 or 1. *)
Theorem max_monoid_of_uint8 x y z :
  uint8 x -> uint8 y -> uint8 z ->
  uint8 (GB_ADD_FUNCTION x y)
  /\ GB_ADD_FUNCTION (GB_ADD_FUNCTION x y) z
     = GB_ADD_FUNCTION x (GB_ADD_FUNCTION y z)
  /\ GB_ADD_FUNCTION x y = GB_ADD_FUNCTION y x
  /\ GB_ADD_FUNCTION GB_IDENTITY x = x
  /\ GB_ADD_FUNCTION x GB_IDENTITY = x
  /\ (GB_DOT_TERMINAL x = true -> GB_ADD_FUNCTION x y = x)
  /\ uint8 (GB_MULT x y)
  /\ GB_MULTADD z x y = GB_ADD_FUNCTION z (GB_MULT x y)
  /\ uint8 (GB_MULTADD z x y).
Proof.
  unfold uint8, GB_DOT_TERMINAL, GB_MULTADD, GB_ADD_FUNCTION,
    GB_IDENTITY, GB_MULT, UINT8_MAX.
  rewrite !GB_IMAX_max. intros Hx Hy Hz.
  assert (Hbit : 0 <= (if y <=? x then 1 else 0) <= 1)
    by (destruct (y <=? x); lia).
  split; [lia|]. split; [lia|]. split; [lia|]. split; [lia|].
  split; [lia|]. split; [intros Ht%Z.eqb_eq; lia|].
  split; [lia|]. split; [done|lia].
Qed.

(** *** Loops of multiply-adds *)

Lemma multiply_adds_value cij ab :
  0 <= cij ->
  multiply_adds cij ab
  = GB_IMAX cij (if existsb (fun p => p.2 <=? p.1) ab then 1 else 0).
Proof.
  unfold multiply_adds. revert cij.
  induction ab as [|[a b] ab IH]; intros cij Hc; cbn [foldl existsb].
  - rewrite GB_IMAX_max. lia.
  - unfold GB_MULTADD at 2. cbn [fst snd].
    rewrite IH by (rewrite GB_IMAX_max; lia). rewrite !GB_IMAX_max.
    destruct (b <=? a); cbn [orb]; destruct (existsb _ ab); lia.
Qed.

(** X14.  What a loop of multiply-adds leaves in [cij]: the larger of
    [cij] and 1 when some [a >= b] is met, and [cij] otherwise.  So a loop
    that starts from [GB_IDENTITY] ends with 0 or 1 and never meets the
    terminal value, and once [cij] is terminal the rest of the loop does
    not change it: the break of [GB_DOT_TERMINAL] skips nothing. *)
Theorem multiply_adds_result cij ab :
  uint8 cij ->
  multiply_adds cij ab
  = GB_ADD_FUNCTION cij
      (if existsb (fun p => p.2 <=? p.1) ab then 1 else 0)
  /\ uint8 (multiply_adds cij ab)
  /\ (GB_DOT_TERMINAL cij = true -> multiply_adds cij ab = cij)
  /\ (cij = GB_IDENTITY ->
      GB_DOT_TERMINAL (multiply_adds cij ab) = false
      /\ forall ab', multiply_adds (multiply_adds cij ab) ab'
                     = multiply_adds cij (ab ++ ab')).
Proof.
  intros Hc. unfold uint8, GB_DOT_TERMINAL, GB_ADD_FUNCTION,
    GB_IDENTITY, UINT8_MAX in *.
  rewrite multiply_adds_value, !GB_IMAX_max by lia.
  split; [done|]. split; [destruct (existsb _ ab); lia|].
  split; [intros Ht%Z.eqb_eq; destruct (existsb _ ab); lia|].
  intros ->. split.
  - apply Z.eqb_neq. destruct (existsb _ ab); lia.
  - intros ab'. rewrite <- GB_IMAX_max.
    rewrite <- (multiply_adds_value 0 ab) by lia.
    unfold multiply_adds. by rewrite foldl_app.
Qed.

(** *** Updates in place *)

(** An update stores the sum of the entry and [t]. *)
Lemma GB_HX_UPDATE_add Hx i t :
  GB_HX_UPDATE Hx i t
  = h ← Hx !! i; Some (<[i := GB_ADD_FUNCTION h t]> Hx).
Proof.
  unfold GB_HX_UPDATE, GB_ADD_FUNCTION, GB_IMAX.
  destruct (Hx !! i) as [h|] eqn:Hh; [|done]. cbn [mbind option_bind].
  f_equal. destruct (Z.ltb_spec h t), (Z.ltb_spec t h); try lia; try done.
  - symmetry. by apply list_insert_id.
  - assert (t = h) as -> by lia. symmetry. by apply list_insert_id.
Qed.

Lemma GB_CIJ_UPDATE_HX Cx p t : GB_CIJ_UPDATE Cx p t = GB_HX_UPDATE Cx p t.
Proof. reflexivity. Qed.

Definition hx_update (H : option (list Z)) (u : nat * Z)
  : option (list Z) :=
  Hx ← H; GB_HX_UPDATE Hx u.1 u.2.

Lemma hx_update_swap H u v :
  hx_update (hx_update H u) v = hx_update (hx_update H v) u.
Proof.
  destruct H as [Hx|]; [|done]. destruct u as [i s], v as [j t].
  unfold hx_update. cbn [mbind option_bind fst snd].
  rewrite !GB_HX_UPDATE_add.
  destruct (Hx !! i) as [h|] eqn:Hi, (Hx !! j) as [k|] eqn:Hj;
    cbn [mbind option_bind]; rewrite ?GB_HX_UPDATE_add.
  - destruct (decide (i = j)) as [->|Hne].
    + assert (k = h) as -> by congruence.
      rewrite !list_lookup_insert_eq by (by eapply lookup_lt_Some).
      cbn [mbind option_bind]. rewrite !list_insert_insert_eq.
      do 2 f_equal. unfold GB_ADD_FUNCTION. rewrite !GB_IMAX_max. lia.
    + rewrite !list_lookup_insert_ne by done. rewrite Hi, Hj.
      cbn [mbind option_bind]. f_equal.
      by apply list_insert_insert_ne.
  - destruct (decide (i = j)) as [->|Hne]; [congruence|].
    rewrite list_lookup_insert_ne by done. by rewrite Hj.
  - destruct (decide (i = j)) as [->|Hne]; [congruence|].
    rewrite list_lookup_insert_ne by done. by rewrite Hi.
  - done.
Qed.

Lemma hx_updates_foldl Hx us :
  hx_updates Hx us = foldl hx_update (Some Hx) us.
Proof. reflexivity. Qed.

(** X15.  The updates of [Hx] can be made in any order: a team of fine
    tasks that makes the same updates in another order leaves the same
    [Hx], and an update outside of [Hx] is undefined in either order. *)
Theorem hx_updates_in_any_order Hx us us' :
  us ≡ₚ us' -> hx_updates Hx us = hx_updates Hx us'.
Proof.
  intros Hp. rewrite !hx_updates_foldl. generalize (Some Hx).
  induction Hp as [|u us us' _ IH|u v us|us1 us2 us3 _ IH1 _ IH2];
    intros H.
  - done.
  - cbn [foldl]. apply IH.
  - cbn [foldl]. by rewrite hx_update_swap.
  - by rewrite IH1.
Qed.

Lemma hx_updates_at Hx (i : nat) h ts :
  Hx !! i = Some h ->
  hx_updates Hx (pair i <$> ts)
  = Some (<[i := foldl GB_ADD_FUNCTION h ts]> Hx).
Proof.
  rewrite hx_updates_foldl. revert Hx h.
  induction ts as [|t ts IH]; intros Hx h Hh; cbn [fmap list_fmap foldl].
  - by rewrite list_insert_id.
  - unfold hx_update at 2. cbn [mbind option_bind fst snd].
    rewrite GB_HX_UPDATE_add, Hh. cbn [mbind option_bind].
    rewrite (IH _ (GB_ADD_FUNCTION h t)).
    + by rewrite list_insert_insert_eq.
    + apply list_lookup_insert_eq. by eapply lookup_lt_Some.
Qed.

(** X16.  The value of an entry of [C] made through [Hx]: the first
    product is written with [GB_HX_WRITE], the later ones are added with
    [GB_HX_UPDATE], and [GB_CIJ_GATHER] copies the entry to [Cx].  The
    entry of [Cx] is then the sum of the products in the monoid, the
    other entries of [Cx] and [Hx] are as before. *)
Theorem hash_entry_is_the_monoid_sum Hx Cx (i p : nat) t ts :
  (i < length Hx)%nat -> (p < length Cx)%nat ->
  exists Hx1 Hx2 Cx',
    GB_HX_WRITE Hx i t = Some Hx1
    /\ hx_updates Hx1 (pair i <$> ts) = Some Hx2
    /\ GB_CIJ_GATHER Cx Hx2 p i = Some Cx'
    /\ Cx' !! p = Kernel.monoid_fold GB_ADD_FUNCTION (t :: ts)
    /\ (forall q : nat, q <> p -> Cx' !! q = Cx !! q)
    /\ (forall j : nat, j <> i -> Hx2 !! j = Hx !! j)
    /\ length Cx' = length Cx /\ length Hx2 = length Hx.
Proof.
  intros Hi Hp. unfold GB_HX_WRITE, GB_CIJ_GATHER, GB_CIJ_WRITE.
  rewrite decide_True by done.
  assert (H1 : <[i := t]> Hx !! i = Some t)
    by (by apply list_lookup_insert_eq).
  eexists _, _, _. split; [reflexivity|].
  split; [by apply hx_updates_at|].
  rewrite list_insert_insert_eq, list_lookup_insert_eq by done.
  cbn [mbind option_bind]. rewrite decide_True by done.
  split; [reflexivity|]. split.
  - rewrite list_lookup_insert_eq by done.
    unfold Kernel.monoid_fold. cbn [foldl]. unfold Kernel.accumulate at 2.
    generalize t. clear. induction ts as [|s ts IH]; intros t; [done|].
    cbn [foldl]. apply IH.
  - split; [intros q Hq; by apply list_lookup_insert_ne|].
    split; [intros j Hj; by apply list_lookup_insert_ne|].
    by rewrite !length_insert.
Qed.

(** *** Instances *)

Lemma max_monoid_of_uint8_witness :
  GB_ADD_FUNCTION (GB_ADD_FUNCTION 255 200) 3
  = GB_ADD_FUNCTION 255 (GB_ADD_FUNCTION 200 3).
Proof.
  refine (proj1 (proj2 (max_monoid_of_uint8 255 200 3 _ _ _)));
    unfold uint8, UINT8_MAX; lia.
Defined.

Lemma multiply_adds_result_witness :
  uint8 (multiply_adds 0 [(5, 3); (2, 9)]).
Proof.
  refine (proj1 (proj2 (multiply_adds_result 0 [(5, 3); (2, 9)] _))).
  unfold uint8, UINT8_MAX. lia.
Defined.

Lemma hx_updates_in_any_order_witness :
  hx_updates [0; 0; 0] [(1%nat, 4); (0%nat, 2); (1%nat, 7)]
  = hx_updates [0; 0; 0] [(0%nat, 2); (1%nat, 7); (1%nat, 4)].
Proof.
  apply hx_updates_in_any_order.
  exact (Permutation_cons_append [(0%nat, 2); (1%nat, 7)] (1%nat, 4)).
Defined.

Lemma hash_entry_is_the_monoid_sum_witness :
  exists Hx1 Hx2 Cx',
    GB_HX_WRITE [9; 9] 1 1 = Some Hx1
    /\ hx_updates Hx1 (pair 1%nat <$> [0; 1]) = Some Hx2
    /\ GB_CIJ_GATHER [0; 0; 0] Hx2 2 1 = Some Cx'
    /\ Cx' !! 2%nat = Kernel.monoid_fold GB_ADD_FUNCTION [1; 0; 1]
    /\ (forall q : nat, q <> 2%nat -> Cx' !! q = [0; 0; 0] !! q)
    /\ (forall j : nat, j <> 1%nat -> Hx2 !! j = [9; 9] !! j)
    /\ length Cx' = 3%nat /\ length Hx2 = 2%nat.
Proof.
  apply (hash_entry_is_the_monoid_sum [9; 9] [0; 0; 0] 1 2 1 [0; 1]);
    simpl; lia.
Defined.

End MaxIsgeUint8.

(** ** Tasks and tables of a small product

    The matrix [B] of [PartitionExample], with slices of equal length:
    vector 1 is split into a team of eight fine tasks, and the other
    vectors are left to three coarse tasks. *)

Module TasksExample.

Import HashSize Partition.

Definition tasks_for (method : GrB_Desc_Value)
  : option (list GB_saxpy3task_struct) :=
  create_tasks PartitionExample.Bflops (Some PartitionExample.Bp) 8 4 100000
    method 1%Q 2 2 PartitionExample.one_thread
    PartitionExample.whole_range Product.slices PartitionExample.cumsum
    PartitionExample.Bp (fun p => p) (fun _ => true) (fun k => (0, 25))
    (fun _ => 0).

Definition TL : list GB_saxpy3task_struct :=
  default [] (tasks_for GxB_DEFAULT).

Definition task (taskid : nat) : GB_saxpy3task_struct :=
  default zero_task (TL !! taskid).

Example tasks_work :
  work <$> TL
  = [(1, 0, 1, 256, 0, 8); (1, 1, 1, 256, 0, 8); (2, 1, 1, 256, 0, 8);
     (2, 2, 1, 256, 0, 8); (3, 2, 1, 256, 0, 8); (3, 3, 1, 256, 0, 8);
     (4, 3, 1, 256, 0, 8); (4, 4, 1, 256, 0, 8); (0, 0, -1, 4, 8, 1);
     (2, 2, -1, 4, 9, 1); (3, 3, -1, 8, 10, 1)].
Proof. vm_compute. reflexivity. Qed.

Lemma iceil_pos a : 0 < a -> 0 < Product.iceil a 8.
Proof. intros Ha. unfold Product.iceil. apply Z.div_str_pos. lia. Qed.

Lemma every_vector_is_computed_once_witness :
  computed_vectors TL ≡ₚ seqZ 0 4.
Proof.
  refine (every_vector_is_computed_once PartitionExample.Bflops
    (Some PartitionExample.Bp) 8 4 100000 GxB_DEFAULT 1%Q 2 2
    PartitionExample.one_thread PartitionExample.whole_range Product.slices
    PartitionExample.cumsum PartitionExample.Bp (fun p => p) (fun _ => true)
    (fun k => (0, 25)) _ _ Product.slices_ordered_even (fun _ => 0) TL _).
  - reflexivity.
  - lia.
  - vm_compute. reflexivity.
Defined.

Lemma fine_tasks_come_first_in_teams_witness :
  (Z.of_nat 3 < 8 <-> 0 <= vector (task 3))
  /\ (vector (task 3) < 0 ->
      vector (task 3) = -1 /\ leader (task 3) = Z.of_nat 3
      /\ team_size (task 3) = 1)
  /\ (0 <= vector (task 3) ->
      exists l : nat,
        leader (task 3) = Z.of_nat l
        /\ (l <= 3 < l + Z.to_nat (team_size (task 3)))%nat
        /\ length (team_of TL l (task 3)) = Z.to_nat (team_size (task 3))
        /\ Forall (fun m => vector m = vector (task 3)
                            /\ leader m = leader (task 3)
                            /\ team_size m = team_size (task 3)
                            /\ hsize m = hsize (task 3))
             (team_of TL l (task 3))).
Proof.
  refine (fine_tasks_come_first_in_teams PartitionExample.Bflops
    (Some PartitionExample.Bp) 8 4 100000 GxB_DEFAULT 1%Q 2 2
    PartitionExample.one_thread PartitionExample.whole_range Product.slices
    PartitionExample.cumsum PartitionExample.Bp (fun p => p) (fun _ => true)
    (fun k => (0, 25)) _ _ Product.slices_ordered_even (fun _ => 0) TL
    3 (task 3) _ _).
  - reflexivity.
  - lia.
  - vm_compute. reflexivity.
  - vm_compute. reflexivity.
Defined.

Lemma team_shares_out_the_entries_witness :
  team_of TL 0 (task 0) ≫= fine_entries = seqZ 1 4.
Proof.
  refine (team_shares_out_the_entries PartitionExample.Bflops
    (Some PartitionExample.Bp) 8 4 100000 GxB_DEFAULT 1%Q 2 2
    PartitionExample.one_thread PartitionExample.whole_range Product.slices
    PartitionExample.cumsum PartitionExample.Bp (fun p => p) (fun _ => true)
    (fun k => (0, 25)) _ Product.slices_ordered_even _ _ (fun _ => 0) TL
    0 (task 0) _ _ _ _).
  - reflexivity.
  - intros kk. reflexivity.
  - reflexivity.
  - vm_compute. reflexivity.
  - vm_compute. reflexivity.
  - vm_compute. discriminate.
  - vm_compute. reflexivity.
Defined.

Lemma fine_task_workspace_is_large_enough_witness :
  1 < bjnz_of (Some PartitionExample.Bp) 8 (vector (task 5)) <= 4
  /\ 1 <= team_size (task 5) <= 8 /\ 8 <= 11.
Proof.
  refine (fine_task_workspace_is_large_enough PartitionExample.Bflops
    (Some PartitionExample.Bp) 8 4 100000 GxB_DEFAULT 1%Q 2 2
    PartitionExample.one_thread PartitionExample.whole_range Product.slices
    PartitionExample.cumsum PartitionExample.Bp (fun p => p) (fun _ => true)
    (fun k => (0, 25)) _ (fun _ => 0) TL 5 (task 5) _ _ _ _).
  - reflexivity.
  - vm_compute. reflexivity.
  - vm_compute. reflexivity.
  - vm_compute. reflexivity.
  - vm_compute. discriminate.
Defined.


Lemma one_thread_pos work chunk' nthreads_max' :
  1 <= PartitionExample.one_thread work chunk' nthreads_max'.
Proof. unfold PartitionExample.one_thread. lia. Qed.

Lemma coarse_flmax_is_the_sequential_maximum_witness :
  coarse_flmax PartitionExample.Bflops PartitionExample.one_thread
    PartitionExample.whole_range 0 3 1%Q 2
  = foldl GB_IMAX 1
      (vector_flops PartitionExample.Bflops <$> seqZ 0 (3 - 0 + 1)).
Proof.
  refine (proj1 (coarse_flmax_is_the_sequential_maximum
    PartitionExample.Bflops PartitionExample.one_thread
    PartitionExample.whole_range one_thread_pos
    PartitionExample.whole_range_covers 0 3 1%Q 2)).
Defined.

Lemma gustavson_hint_gives_gustavson_tasks_witness :
  Forall (fun t => hsize t = 100000)
    (default [] (tasks_for GxB_AxB_GUSTAVSON)).
Proof.
  refine (gustavson_hint_gives_gustavson_tasks PartitionExample.Bflops
    (Some PartitionExample.Bp) 8 4 100000 GxB_AxB_GUSTAVSON 1%Q 2 2
    PartitionExample.one_thread PartitionExample.whole_range Product.slices
    PartitionExample.cumsum PartitionExample.Bp (fun p => p) (fun _ => true)
    (fun k => (0, 25)) _ (fun _ => 0) _ _ _).
  - reflexivity.
  - reflexivity.
  - vm_compute. reflexivity.
Defined.

Lemma tasks_account_for_all_flops_witness :
  Zsum (imap (accounted PartitionExample.Bflops) TL) = 104 - 0.
Proof.
  refine (tasks_account_for_all_flops PartitionExample.Bflops
    (Some PartitionExample.Bp) 8 4 100000 GxB_DEFAULT 1%Q 2 2
    PartitionExample.one_thread PartitionExample.whole_range Product.slices
    PartitionExample.cumsum PartitionExample.Bp (fun p => p) (fun _ => true)
    (fun k => (0, 25)) _ _ Product.slices_ordered_even (fun _ => 0) TL _).
  - reflexivity.
  - lia.
  - vm_compute. reflexivity.
Defined.

Lemma foldl_add_Zsum a l : foldl Z.add a l = a + Zsum l.
Proof.
  revert a. induction l as [|x l IH]; intros a; simpl; [lia|].
  rewrite IH. lia.
Qed.

Lemma cumsum_sums count n k :
  0 <= k <= n ->
  PartitionExample.cumsum count n k = Zsum (count <$> seqZ 0 k).
Proof.
  intros Hk. unfold PartitionExample.cumsum.
  rewrite Z.min_l by lia. by rewrite foldl_add_Zsum.
Qed.

Lemma team_flops_add_up_witness :
  Zsum (flops <$> team_of TL 0 (task 0)) = 100.
Proof.
  refine (team_flops_add_up PartitionExample.Bflops
    (Some PartitionExample.Bp) 8 4 100000 GxB_DEFAULT 1%Q 2 2
    PartitionExample.one_thread PartitionExample.whole_range Product.slices
    PartitionExample.cumsum PartitionExample.Bp (fun p => p) (fun _ => true)
    (fun k => (0, 25)) _ Product.slices_ordered_even (fun _ => 0) TL
    0 (task 0) _ cumsum_sums _ _ _ _ _).
  - reflexivity.
  - intros pB. reflexivity.
  - reflexivity.
  - vm_compute. reflexivity.
  - vm_compute. reflexivity.
  - vm_compute. discriminate.
  - vm_compute. reflexivity.
Defined.

(** The tables of these tasks: [double] values of eight bytes, the
    semiring not ANY_PAIR. *)
Definition tables : list GB_saxpy3task_struct :=
  Saxpy3.assign_tables 100000 8 false Product.iceil true false 8 TL.

Example tables_pointers :
  (fun t => (Hi t, Hf t, Hx t)) <$> tables
  = (Some 0, Some 0, Some 0) :: replicate 7 (None, Some 0, Some 0)
    ++ [(Some 0, Some 264, Some 2112); (Some 12, Some 276, Some 2208);
        (Some 24, Some 288, Some 2304)].
Proof. vm_compute. reflexivity. Qed.

Lemma sizes_nonneg : Forall (fun t => 0 <= hsize t) TL.
Proof. vm_compute. repeat constructor; discriminate. Qed.

Lemma hash_tables_do_not_overlap_witness :
  let before :=
    Saxpy3.table_totals 100000 8 false Product.iceil true false (take 8 TL) in
  let total :=
    Saxpy3.table_totals 100000 8 false Product.iceil true false TL in
  let size :=
    Saxpy3.table_sizes 100000 8 false Product.iceil true false (task 8) in
  tables !! 8%nat
  = Some (Saxpy3.with_tables (task 8)
            (Saxpy3.pointer total.1.1 before.1.1)
            (Saxpy3.pointer total.1.2 before.1.2)
            (Saxpy3.pointer total.2 before.2))
  /\ (0 <= before.1.1 /\ 0 <= before.1.2 /\ 0 <= before.2)
  /\ (before.1.1 + size.1.1 <= total.1.1
      /\ before.1.2 + size.1.2 <= total.1.2
      /\ before.2 + size.2 <= total.2)
  /\ forall (j : nat) tj,
       (8 < j)%nat -> TL !! j = Some tj -> Saxpy3.is_leader j tj = true ->
       before.1.1 + size.1.1
       <= (Saxpy3.table_totals 100000 8 false Product.iceil true false
             (take j TL)).1.1
       /\ before.1.2 + size.1.2
          <= (Saxpy3.table_totals 100000 8 false Product.iceil true false
                (take j TL)).1.2
       /\ before.2 + size.2
          <= (Saxpy3.table_totals 100000 8 false Product.iceil true false
                (take j TL)).2.
Proof.
  refine (Saxpy3.hash_tables_do_not_overlap 100000 8 false Product.iceil
    true false 8 TL 8 (task 8) sizes_nonneg _ iceil_pos _ _).
  - lia.
  - vm_compute. reflexivity.
  - vm_compute. reflexivity.
Defined.


Lemma leader_gets_the_tables_it_needs_witness :
  exists t',
    tables !! 9%nat = Some t' /\ work t' = work (task 9)
    /\ is_Some (Hf t')
    /\ (vector (task 9) < 0 -> hsize (task 9) <> Saxpy3.cvlen 100000 ->
        is_Some (Hi t'))
    /\ (Saxpy3.is_any_pair_semiring false true false = false ->
        is_Some (Hx t')).
Proof.
  refine (Saxpy3.leader_gets_the_tables_it_needs 100000 8 false
    Product.iceil true false 8 TL 9 (task 9) sizes_nonneg _ iceil_pos _ _).
  - lia.
  - vm_compute. reflexivity.
  - vm_compute. reflexivity.
Defined.

Lemma no_tables_yet :
  Forall (fun t => Hi t = None /\ Hx t = None) TL.
Proof. vm_compute. repeat constructor. Qed.

(** With the ANY_PAIR semiring the same tasks get no [Hx]. *)
Lemma unused_tables_are_not_allocated_witness :
  (Saxpy3.table_totals 100000 8 false Product.iceil true true TL).2 = 0
  /\ Forall (fun t => Hx t = None)
       (Saxpy3.assign_tables 100000 8 false Product.iceil true true 8 TL).
Proof.
  refine (proj2 (Saxpy3.unused_tables_are_not_allocated 100000 8 false
    Product.iceil true true 8 TL no_tables_yet) _).
  reflexivity.
Defined.

(** The call on the diagonal matrices, when [Hf_all] cannot be
    allocated. *)
Lemma output_is_returned_exactly_on_success_witness :
  exists info s,
    Product.diagonal_call Product.no_Hf_all false = Some (info, s)
    /\ (is_Some (Saxpy3.Chandle _ s) <-> info = GrB_SUCCESS)
    /\ (info <> GrB_SUCCESS ->
        s = Saxpy3.released _ (Saxpy3.attempts _ s)).
Proof.
  pose (A := Kernel.diagonal 2 3 4). pose (B := Kernel.diagonal 5 6 7).
  pose (c := Product.scenario A B Product.no_Hf_all None GxB_DEFAULT).
  eexists _, _. split; [vm_compute; reflexivity|].
  refine (Saxpy3.output_is_returned_exactly_on_success
    (Kernel.GB_Matrix Z) unit (Product.malloc_ok c) (Product.M_input c)
    (Product.Mask_comp_input c) (Product.Mask_struct c)
    (Product.AxB_method_input c)
    (Kernel.vlen A) (Kernel.vdim B) (Kernel.vdim B) (Kernel.vlen B)
    (Some (Kernel.ptr B)) false
    (Product.csize c) (Product.nthreads_max c) (Product.chunk c)
    (Product.use_mkl c) (Product.GB_HAS_MKL_GRAPH c)
    (Product.GBCOMPACT c) (Product.GB_AxB_saxpy3_mkl c)
    (Product.GB_new_info c) (Product.C_new c) (fun C => C)
    (Product.GB_is_packed c) (Product.GB_AxB_saxpy3_flopcount c)
    (Product.GB_nthreads c) (Product.GB_PARTITION c) (Product.GB_pslice c)
    (Product.GB_cumsum c) (Kernel.ptr B) (Kernel.idx B)
    (fun _ => true) (fun k => (Kernel.ptr A k, Kernel.ptr A (k + 1)))
    (Product.GB_ICEIL c) (Product.Bflops2_0 c)
    (fun _ _ _ => tt) (Product.A_is_pattern c) (Product.B_is_pattern c)
    (Product.builtin_semiring c) (Product.any_pair c)
    (Product.factory_case c) (Product.GB_hypermatrix_prune c)
    (fun _ st => st)
    (Product.worker Z.mul Z.add A B Product.nonzero Product.GB_HASHF
       Product.quiet)
    (Product.worker Z.mul Z.add A B Product.nonzero Product.GB_HASHF
       Product.noisy) false false _ _ _ _ _).
  - vm_compute. discriminate.
  - reflexivity.
  - vm_compute. reflexivity.
Defined.

(** The call of [Product.busy] with the Hash method: the workers find the
    task list and the three hash tables. *)
Lemma workers_run_with_tasks_and_tables_witness :
  exists p s,
    Product.prepared Product.tall Product.small
      (Product.busy Product.tall Product.small GxB_AxB_HASH) false
    = Saxpy3.Next _ _ p s
    /\ Saxpy3.TaskList ∈ Saxpy3.live _ s
    /\ Saxpy3.Bflops2 ∉ Saxpy3.live _ s
    /\ Saxpy3.Fine_slice ∉ Saxpy3.live _ s.
Proof.
  pose (A := Product.tall). pose (B := Product.small).
  pose (c := Product.busy A B GxB_AxB_HASH).
  eexists _, _. split; [vm_compute; reflexivity|].
  edestruct (Saxpy3.workers_run_with_tasks_and_tables
    (Kernel.GB_Matrix Z) unit (Product.malloc_ok c) (Product.M_input c)
    (Product.Mask_comp_input c) (Product.Mask_struct c)
    (Product.AxB_method_input c)
    (Kernel.vlen A) (Kernel.vdim B) (Kernel.vdim B) (Kernel.vlen B)
    (Some (Kernel.ptr B)) false
    (Product.csize c) (Product.nthreads_max c) (Product.chunk c)
    (Product.use_mkl c) (Product.GB_HAS_MKL_GRAPH c)
    (Product.GBCOMPACT c) (Product.GB_AxB_saxpy3_mkl c)
    (Product.GB_new_info c) (Product.C_new c) (fun C => C)
    (Product.GB_is_packed c) (Product.GB_AxB_saxpy3_flopcount c)
    (Product.GB_nthreads c) (Product.GB_PARTITION c) (Product.GB_pslice c)
    (Product.GB_cumsum c) (Kernel.ptr B) (Kernel.idx B)
    (fun _ => true) (fun k => (Kernel.ptr A k, Kernel.ptr A (k + 1)))
    (Product.GB_ICEIL c) (Product.Bflops2_0 c)
    (fun _ _ _ => tt) (Product.A_is_pattern c) (Product.B_is_pattern c)
    (Product.builtin_semiring c) (Product.any_pair c)
    (Product.factory_case c) (Product.GB_hypermatrix_prune c)
    (fun _ st => st) false) as (TL & _ & Hlive).
  { vm_compute. reflexivity. }
  split; [apply Hlive; by left|].
  split; intros Hw; apply Hlive in Hw;
    destruct Hw as [Hw|[[Hw _]|[[Hw _]|[Hw _]]]]; discriminate.
Defined.

End TasksExample.
